(** * choc::json::Value — a verified model of [choc_JSONValue.h]

    The development has two layers.

    - The _value layer_ embeds the observable behaviour of [choc::json::Value]:
      a value is the tree its owner can read through the public interface
      (tag, scalar payload, the live elements of an array, the live members
      of an object, and the capacity of the owned buffer).  Member functions
      are computations in a state-and-exception monad whose state is [*this].
    - The _store layer_ (module [Store], further down) embeds the same nodes
      with their heap pointers, [malloc]/[free], and the representation
      relation that ties a node in a store to the tree it denotes.  It is
      used for the ownership statements (deep copy).

    Machine integers are [Z] with the wrap-around written out; [double] is
    the IEEE-754 binary64 format of [SpecFloat] ([prec = 53], [emax = 1024]).

    An argument that a member function takes by reference and reads after
    it has changed [*this] is a reference in the model too: on the value
    layer a [Reference], which may lead to [*this] or into its buffer; on
    the store layer the place of the object, a slot of a buffer.  It is
    read when the code reads it.
*)

From Stdlib Require Import ZArith String List Lia Bool.
From Stdlib Require Import Floats.SpecFloat.
From stdpp Require Import base list gmap strings.

Local Open Scope Z_scope.

(* The set solver clears hypotheses it has used up; it says so when one is
   already gone. *)
#[local] Set Warnings "-clear-no-such-hyp".

(* ================================================================== *)
(** ** Machine arithmetic *)

Definition wrap32 (z : Z) : Z := z mod 2 ^ 32.

(** [x & ~m] on [uint32_t] operands. *)
Definition and_not32 (x m : Z) : Z := Z.land x (wrap32 (Z.lnot m)).

Definition in_uint32 (z : Z) : bool := (0 <=? z) && (z <? 2 ^ 32).
Definition in_int32 (z : Z) : bool := (- 2 ^ 31 <=? z) && (z <? 2 ^ 31).
Definition in_int64 (z : Z) : bool := (- 2 ^ 63 <=? z) && (z <? 2 ^ 63).

(** [static_cast<double> (int64_t)]: round to nearest, ties to even. *)
Definition static_cast_double (z : Z) : spec_float :=
  binary_normalize 53 1024 z 0 false.

(** [static_cast<float> (double)]: the binary32 value nearest to [d]. *)
Definition static_cast_float (d : spec_float) : spec_float :=
  match d with
  | S754_finite s m e => binary_round 24 128 s m e
  | _ => d
  end.

(** [sizeof (Value)] and [sizeof (Member)] as used in allocation requests. *)
Definition sizeof_Value : Z := 24.
Definition sizeof_Member : Z := 48.

(* ================================================================== *)
(** ** Exceptions and member-function computations *)

(** [throwError] throws [std::runtime_error (message)]; the message is the
    only payload, so a thrown exception is modelled by its message. *)
Inductive Result (A : Type) : Type :=
| Ok (a : A)
| Throw (message : string).

Arguments Ok {A} a.
Arguments Throw {A} message.

(** The error taxonomy of the interface, read off the messages. *)
Inductive ErrorKind :=
| TypeMismatch | IndexOutOfBounds | MemberNotFound | NotSizeable
| AllocationFailure | OtherError.

Definition error_kind (message : string) : ErrorKind :=
  if (message =? "Value is not a boolean")%string then TypeMismatch
  else if (message =? "Value is not a 32-bit integer")%string then TypeMismatch
  else if (message =? "Value is not a 64-bit integer")%string then TypeMismatch
  else if (message =? "Value is not a float")%string then TypeMismatch
  else if (message =? "Value is not a string")%string then TypeMismatch
  else if (message =? "Value is not an array")%string then TypeMismatch
  else if (message =? "Value is not an object")%string then TypeMismatch
  else if (message =? "Array index out of bounds")%string then IndexOutOfBounds
  else if (message =? "Object member index out of bounds")%string then IndexOutOfBounds
  else if (message =? "Object member not found")%string then MemberNotFound
  else if (message =? "Value does not have a size")%string then NotSizeable
  else if (message =? "Failed to allocate memory for array")%string then AllocationFailure
  else if (message =? "Failed to allocate memory for object")%string then AllocationFailure
  else OtherError.

(** Whether a result is an exception of the given kind. *)
Definition fails_with {A} (k : ErrorKind) (r : Result A) : Prop :=
  match r with
  | Ok _ => False
  | Throw message => error_kind message = k
  end.

Definition succeeds {A} (r : Result A) : Prop :=
  match r with
  | Ok _ => True
  | Throw _ => False
  end.

(** A computation over a mutable object of type [S]: it returns the object
    as it has been left together with a result or the exception thrown. *)
Definition M (S A : Type) : Type := S -> S * Result A.

Definition ret {S A} (a : A) : M S A := fun s => (s, Ok a).

Definition throwError {S A} (message : string) : M S A :=
  fun s => (s, Throw message).

Definition bind {S A B} (m : M S A) (k : A -> M S B) : M S B :=
  fun s =>
    match m s with
    | (s', Ok a) => k a s'
    | (s', Throw message) => (s', Throw message)
    end.

Definition get_this {S} : M S S := fun s => (s, Ok s).
Definition put_this {S} (s' : S) : M S unit := fun _ => (s', Ok tt).

(** Lifting of a [const] member function. *)
Definition const_call {S A} (f : S -> Result A) : M S A := fun s => (s, f s).

(** Running a member function on a local object [obj] from inside a member
    function of another object: the local is updated, [*this] is untouched,
    exceptions propagate. *)
Definition on {S T A} (obj : T) (m : M T A) : M S (T * A) :=
  fun s =>
    match m obj with
    | (obj', Ok a) => (s, Ok (obj', a))
    | (_, Throw message) => (s, Throw message)
    end.

Declare Scope method_scope.
Delimit Scope method_scope with method.

Notation "x <- m ;; k" := (bind m (fun x => k))
  (at level 100, m at next level, right associativity) : method_scope.
Notation "m ;;; k" := (bind m (fun _ => k))
  (at level 100, right associativity) : method_scope.

Local Open Scope method_scope.

(** [for (uint32_t i = start; i < start + count; ++i) body], threading the
    locals [L] of the enclosing function through the iterations. *)
Fixpoint for_loop {S L} (count : nat) (i : Z) (body : Z -> L -> M S L)
  (locals : L) : M S L :=
  match count with
  | O => ret locals
  | Datatypes.S count' =>
      locals' <- body i locals ;;
      for_loop count' (i + 1) body locals'
  end.

(* ================================================================== *)
(** ** Data model *)

(** [enum class Type : uint8_t]. *)
Inductive ValueType :=
| Type_undefined | Type_null | Type_bool | Type_int32 | Type_int64
| Type_double | Type_shortString | Type_longString | Type_array | Type_object.

Definition ValueType_eqb (a b : ValueType) : bool :=
  match a, b with
  | Type_undefined, Type_undefined | Type_null, Type_null
  | Type_bool, Type_bool | Type_int32, Type_int32 | Type_int64, Type_int64
  | Type_double, Type_double | Type_shortString, Type_shortString
  | Type_longString, Type_longString | Type_array, Type_array
  | Type_object, Type_object => true
  | _, _ => false
  end.

Definition shortStringMaxSize : Z := 22.

(** [struct MemberKey]: 24 bytes; a short key keeps its length in the first
    byte and up to 23 characters inline, a long key is flagged by
    [longStringMarker] in the first byte and keeps its characters in a
    buffer of its own. *)
Inductive MemberKey :=
| ShortKey (chars : string)
| LongKey (chars : string).

Definition maxShortLength : Z := 24 - 1.
Definition longStringMarker : Z := 64.

(** [MemberKey (std::string_view str)]. *)
Definition MemberKey_of (str : string) : MemberKey :=
  let len := Z.of_nat (String.length str) in
  if len <=? maxShortLength then ShortKey str else LongKey str.

(** [MemberKey::get]. *)
Definition MemberKey_get (k : MemberKey) : string :=
  match k with
  | ShortKey chars => chars
  | LongKey chars => chars
  end.

(** [MemberKey::operator== (std::string_view)]. *)
Definition MemberKey_eq (k : MemberKey) (str : string) : bool :=
  (MemberKey_get k =? str)%string.

(** [class Value]: the tag and the active branch of the union.  An array
    holds its [numElements] live elements and the capacity of its buffer;
    an object holds its [numMembers] live members (a [Member] is a key and
    a value) and its capacity.  Slots past the live range are raw memory. *)
#[local] Unset Elimination Schemes.
Inductive Value :=
| undefined
| null
| bool_ (boolValue : bool)
| int32 (int32Value : Z)
| int64 (int64Value : Z)
| double_ (doubleValue : spec_float)
| shortString (chars : string)
| longString (chars : string)
| array (elements : list Value) (capacity : Z)
| object (members : list (MemberKey * Value)) (capacity : Z).
#[local] Set Elimination Schemes.

(** [struct Member { MemberKey key; Value value; }]. *)
Abbreviation Member := (MemberKey * Value)%type.

Definition type (this : Value) : ValueType :=
  match this with
  | undefined => Type_undefined
  | null => Type_null
  | bool_ _ => Type_bool
  | int32 _ => Type_int32
  | int64 _ => Type_int64
  | double_ _ => Type_double
  | shortString _ => Type_shortString
  | longString _ => Type_longString
  | array _ _ => Type_array
  | object _ _ => Type_object
  end.

(** [data.arrayData] and [data.objectData] read through the union; they are
    only read by the source when the tag says so. *)
Definition arrayData (this : Value) : list Value * Z :=
  match this with
  | array elements capacity => (elements, capacity)
  | _ => ([], 0)
  end.

Definition objectData (this : Value) : list Member * Z :=
  match this with
  | object members capacity => (members, capacity)
  | _ => ([], 0)
  end.

Definition numElements (this : Value) : Z := Z.of_nat (length (fst (arrayData this))).
Definition numMembers (this : Value) : Z := Z.of_nat (length (fst (objectData this))).

(** Nested induction over values. *)
Section ValueInduction.
Variable P : Value -> Prop.
Hypothesis P_undefined : P undefined.
Hypothesis P_null : P null.
Hypothesis P_bool : forall b, P (bool_ b).
Hypothesis P_int32 : forall z, P (int32 z).
Hypothesis P_int64 : forall z, P (int64 z).
Hypothesis P_double : forall d, P (double_ d).
Hypothesis P_shortString : forall s, P (shortString s).
Hypothesis P_longString : forall s, P (longString s).
Hypothesis P_array : forall es cap, Forall P es -> P (array es cap).
Hypothesis P_object : forall ms cap, Forall (fun m => P (snd m)) ms -> P (object ms cap).

Fixpoint Value_ind (v : Value) : P v :=
  match v with
  | undefined => P_undefined
  | null => P_null
  | bool_ b => P_bool b
  | int32 z => P_int32 z
  | int64 z => P_int64 z
  | double_ d => P_double d
  | shortString s => P_shortString s
  | longString s => P_longString s
  | array es cap =>
      P_array es cap
        ((fix go (l : list Value) : Forall P l :=
            match l with
            | [] => @List.Forall_nil _ P
            | x :: r => @List.Forall_cons _ P x r (Value_ind x) (go r)
            end) es)
  | object ms cap =>
      P_object ms cap
        ((fix go (l : list (MemberKey * Value)) : Forall (fun m => P (snd m)) l :=
            match l with
            | [] => @List.Forall_nil _ _
            | m :: r =>
                @List.Forall_cons _ (fun m => P (snd m)) m r
                  (match m with (k, x) => Value_ind x end) (go r)
            end) ms)
  end.
End ValueInduction.

(* ------------------------------------------------------------------ *)
(** *** Type predicates *)

Definition isUndefined (this : Value) : bool := ValueType_eqb (type this) Type_undefined.
Definition isNull (this : Value) : bool := ValueType_eqb (type this) Type_null.
Definition isVoid (this : Value) : bool := isUndefined this || isNull this.
Definition isBool (this : Value) : bool := ValueType_eqb (type this) Type_bool.
Definition isInt32 (this : Value) : bool := ValueType_eqb (type this) Type_int32.
Definition isInt64 (this : Value) : bool := ValueType_eqb (type this) Type_int64.
Definition isInt (this : Value) : bool := isInt32 this || isInt64 this.
Definition isFloat (this : Value) : bool := ValueType_eqb (type this) Type_double.
Definition isString (this : Value) : bool :=
  ValueType_eqb (type this) Type_shortString || ValueType_eqb (type this) Type_longString.
Definition isArray (this : Value) : bool := ValueType_eqb (type this) Type_array.
Definition isObject (this : Value) : bool := ValueType_eqb (type this) Type_object.

(* ------------------------------------------------------------------ *)
(** *** Constructors and factory functions *)

(** [Value (std::string_view)]. *)
Definition Value_of_string (str : string) : Value :=
  if Z.of_nat (String.length str) <=? shortStringMaxSize
  then shortString str else longString str.

Definition createNull : Value := null.
Definition createBool (b : bool) : Value := bool_ b.
Definition createInt (z : Z) : Value := int64 z.
Definition createFloat (d : spec_float) : Value := double_ d.
Definition createString (str : string) : Value := Value_of_string str.
Definition createEmptyArray : Value := array [] 0.
Definition createObject : Value := object [] 0.

(* ------------------------------------------------------------------ *)
(** *** Getters *)

Definition getBool (this : Value) : Result bool :=
  match this with
  | bool_ b => Ok b
  | _ => Throw "Value is not a boolean"
  end.

Definition getInt32 (this : Value) : Result Z :=
  match this with
  | int32 z => Ok z
  | _ => Throw "Value is not a 32-bit integer"
  end.

Definition getInt64 (this : Value) : Result Z :=
  match this with
  | int64 z => Ok z
  | _ => Throw "Value is not a 64-bit integer"
  end.

Definition getInt (this : Value) : Result Z :=
  if isInt32 this then getInt32 this else getInt64 this.

Definition getFloat64 (this : Value) : Result spec_float :=
  match this with
  | double_ d => Ok d
  | _ => Throw "Value is not a float"
  end.

Definition getFloat32 (this : Value) : Result spec_float :=
  match getFloat64 this with
  | Ok d => Ok (static_cast_float d)
  | Throw message => Throw message
  end.

Definition getString (this : Value) : Result string :=
  match this with
  | shortString chars => Ok chars
  | longString chars => Ok chars
  | _ => Throw "Value is not a string"
  end.

(** The result types [T] of [getWithDefault<T>]: the six the template
    tests for, and any other type. *)
Inductive RequestedType : Type :=
| T_bool | T_int32 | T_int64 | T_float | T_double | T_string
| T_other (A : Type).

Definition cpp_type (T : RequestedType) : Type :=
  match T with
  | T_bool => bool
  | T_int32 => Z
  | T_int64 => Z
  | T_float => spec_float
  | T_double => spec_float
  | T_string => string
  | T_other A => A
  end.

Definition getWithDefault (T : RequestedType) (defaultValue : cpp_type T)
  (this : Value) : Result (cpp_type T) :=
  match T return cpp_type T -> Result (cpp_type T) with
  | T_bool => fun defaultValue =>
      if isBool this then getBool this else Ok defaultValue
  | T_int32 => fun defaultValue =>
      if isInt32 this then getInt32 this else Ok defaultValue
  | T_int64 => fun defaultValue =>
      if isInt64 this then getInt64 this
      else if isInt32 this then getInt32 this else Ok defaultValue
  | T_float => fun defaultValue =>
      if isFloat this then getFloat32 this else Ok defaultValue
  | T_double => fun defaultValue =>
      if isFloat this then getFloat64 this else Ok defaultValue
  | T_string => fun defaultValue =>
      if isString this then getString this else Ok defaultValue
  | T_other A => fun defaultValue => Ok defaultValue
  end defaultValue.

(** [toString]. *)
Definition toString (this : Value) : Result string :=
  getWithDefault T_string ""%string this.

(* ------------------------------------------------------------------ *)
(** *** Size *)

Definition size (this : Value) : Result Z :=
  match this with
  | shortString chars => Ok (Z.of_nat (String.length chars))
  | longString chars => Ok (wrap32 (Z.of_nat (String.length chars)))
  | array elements _ => Ok (Z.of_nat (length elements))
  | object members _ => Ok (Z.of_nat (length members))
  | _ => Throw "Value does not have a size"
  end.

Definition empty (this : Value) : bool :=
  match this with
  | shortString chars => Z.of_nat (String.length chars) =? 0
  | longString chars => Z.of_nat (String.length chars) =? 0
  | array elements _ => Z.of_nat (length elements) =? 0
  | object members _ => Z.of_nat (length members) =? 0
  | undefined | null => true
  | _ => false
  end.

(* ------------------------------------------------------------------ *)
(** *** Member search *)

(** The scan of [findObjectMember], from slot [i] on: the index of the
    first member whose key is [key], or the member count. *)
Fixpoint find_from (key : string) (members : list Member) (i : Z) : Z :=
  match members with
  | [] => i
  | m :: rest =>
      if MemberKey_eq (fst m) key then i else find_from key rest (i + 1)
  end.

Definition findObjectMember (key : string) (this : Value) : Z :=
  match this with
  | object members _ => find_from key members 0
  | _ => 0
  end.

Definition hasObjectMember (key : string) (this : Value) : Result bool :=
  if negb (isObject this) then Ok false
  else Ok (findObjectMember key this <? numMembers this).

(** [getObjectMemberAt]: the [MemberNameAndValue] at a position. *)
Definition getObjectMemberAt (index : Z) (this : Value) : Result (string * Value) :=
  if negb (isObject this) then Throw "Value is not an object"
  else if numMembers this <=? index then Throw "Object member index out of bounds"
  else
    match fst (objectData this) !! Z.to_nat index with
    | Some member => Ok (MemberKey_get (fst member), snd member)
    | None => Throw "Object member index out of bounds"
    end.

(** [operator[] (std::string_view) const]. *)
Definition getMember (key : string) (this : Value) : Result Value :=
  if negb (isObject this) then Throw "Value is not an object"
  else
    let index := findObjectMember key this in
    if numMembers this <=? index then Throw "Object member not found"
    else
      match fst (objectData this) !! Z.to_nat index with
      | Some member => Ok (snd member)
      | None => Throw "Object member not found"
      end.

(** [operator[] (uint32_t) const]. *)
Definition getElement (index : Z) (this : Value) : Result Value :=
  if negb (isArray this) then Throw "Value is not an array"
  else if numElements this <=? index then Throw "Array index out of bounds"
  else
    match fst (arrayData this) !! Z.to_nat index with
    | Some element => Ok element
    | None => Throw "Array index out of bounds"
    end.

(* ------------------------------------------------------------------ *)
(** *** Equality *)

(** The operand of the numeric comparison:
    [isFloat() ? getFloat64() : static_cast<double> (getInt())]. *)
Definition numeric_operand (this : Value) : Result spec_float :=
  if isFloat this then getFloat64 this
  else
    match getInt this with
    | Ok z => Ok (static_cast_double z)
    | Throw message => Throw message
    end.

(** [operator==].  The numeric operands are only asked for under the
    guard [isInt() || isFloat()], where their getters cannot throw. *)
Fixpoint operator_eq (this other : Value) {struct this} : bool :=
  if (isInt this || isFloat this) && (isInt other || isFloat other)
  then
    match numeric_operand this, numeric_operand other with
    | Ok thisVal, Ok otherVal => SFeqb thisVal otherVal
    | _, _ => false
    end
  else
      if negb (ValueType_eqb (type this) (type other)) then false
      else
        match this with
        | undefined | null => true
        | bool_ b =>
            match other with bool_ b' => Bool.eqb b b' | _ => false end
        | int32 _ | int64 _ | double_ _ => false
        | shortString chars =>
            match other with
            | shortString chars' =>
                (Z.of_nat (String.length chars) =? Z.of_nat (String.length chars'))
                && (chars =? chars')%string
            | _ => false
            end
        | longString chars =>
            match other with
            | longString chars' =>
                (Z.of_nat (String.length chars) =? Z.of_nat (String.length chars'))
                && (chars =? chars')%string
            | _ => false
            end
        | array elements _ =>
            let otherElements := fst (arrayData other) in
            if negb (Z.of_nat (length elements) =? numElements other) then false
            else
              (fix loop (es os : list Value) {struct es} : bool :=
                 match es, os with
                 | e :: es', o :: os' =>
                     if negb (operator_eq e o) then false else loop es' os'
                 | _, _ => true
                 end) elements otherElements
        | object members _ =>
            if negb (Z.of_nat (length members) =? numMembers other) then false
            else
              (fix loop (ms : list Member) {struct ms} : bool :=
                 match ms with
                 | [] => true
                 | member :: ms' =>
                     let otherIndex := findObjectMember (MemberKey_get (fst member)) other in
                     if numMembers other <=? otherIndex then false
                     else
                       match fst (objectData other) !! Z.to_nat otherIndex with
                       | Some otherMember =>
                           if negb (operator_eq (snd member) (snd otherMember))
                           then false else loop ms'
                       | None => false
                       end
                 end) members
        end.

Definition operator_ne (this other : Value) : bool := negb (operator_eq this other).

(* ------------------------------------------------------------------ *)
(** *** Raw buffer operations *)

(** [std::memmove (buf + dst, buf + src, count * sizeof (Value))]: the
    [count] slots read at [src] are written at [dst]; the ranges may
    overlap.  Both ranges lie inside the buffer at every call site. *)
Definition memmove {A} (buf : list A) (dst src count : nat) : list A :=
  take dst buf ++ take count (drop src buf) ++ drop (dst + count) buf.

(** The whole buffer of an array: the live elements followed by the raw
    slots up to the capacity.  Raw slots are never read before they are
    written; they are shown as [undefined]. *)
Definition raw_buffer (elements : list Value) (capacity : Z) : list Value :=
  elements ++ replicate (Z.to_nat capacity - length elements)%nat undefined.

(* ------------------------------------------------------------------ *)
(** *** Copying *)

(** [copyFrom (other)]: the node built in [*this]. *)
Fixpoint copyFrom (other : Value) : Value :=
  match other with
  | undefined | null | bool_ _ | int32 _ | int64 _ | double_ _
  | shortString _ => other
  | longString chars => longString chars
  | array elements capacity => array (map copyFrom elements) capacity
  | object members capacity =>
      object
        (map (fun member =>
                (MemberKey_of (MemberKey_get (fst member)), copyFrom (snd member)))
           members)
        capacity
  end.

(** [Value (const Value&)]. *)
Definition Value_copy (other : Value) : Value := copyFrom other.

(* ------------------------------------------------------------------ *)
(** *** Arguments taken by reference *)

(** [splice] and [addMember] take the values to place as forwarding
    references ([Elements&&...], [Others&&...]) and build a [Value] from
    each of them only when it is placed, after they have changed [*this].
    What is read then depends on what the argument refers to:
    - [to_other v]: an object that is no part of [*this], neither [*this]
      nor anything stored in its buffers at any depth, and that the call
      does not change (a temporary, a converted scalar or string, another
      variable); [v] is the value built from it;
    - [to_this]: [*this] itself, passed as an lvalue;
    - [to_slot i]: passed as an lvalue, element [i] of [*this] if it is an
      array or the value of its member [i] if it is an object, that is,
      slot [i] of the buffer [*this] has when the call is made. *)
Inductive Reference :=
| to_other (v : Value)
| to_this
| to_slot (i : Z).

(** A pack of name/value pairs none of whose values is a part of [*this]. *)
Definition by_value (pairs : list (string * Value)) : list (string * Reference) :=
  map (fun pair => (fst pair, to_other (snd pair))) pairs.

(** A member function that reads such arguments.  [None] is undefined
    behaviour: a read through a reference into a buffer that has been
    released, or of a slot that holds no element. *)
Definition M_ref (A : Type) : Type := Value -> option (Value * Result A).

(** A step that reads no reference. *)
Definition defined {A} (m : M Value A) : M_ref A := fun this => Some (m this).

Definition dangling {A} : M_ref A := fun _ => None.

Definition bind_ref {A B} (m : M_ref A) (k : A -> M_ref B) : M_ref B :=
  fun this =>
    match m this with
    | Some (this', Ok a) => k a this'
    | Some (this', Throw message) => Some (this', Throw message)
    | None => None
    end.

Declare Scope reference_scope.
Delimit Scope reference_scope with ref.

Notation "x <- m ;; k" := (bind_ref m (fun x => k))
  (at level 100, m at next level, right associativity) : reference_scope.
Notation "m ;;; k" := (bind_ref m (fun _ => k))
  (at level 100, right associativity) : reference_scope.

(** The slots of an array buffer between the new and the former number of
    elements, as [splice (index, deleteCount)] leaves them when it lowers
    the count from that of [former] to that of [live]: [undefined] where an
    element has been moved out and no other moved over it, the former
    element elsewhere. *)
Definition left_by_splice (former : list Value) (index : Z) (live : list Value)
  : list Value :=
  let removed := (length former - length live)%nat in
  drop (length live)
    (take (Z.to_nat index) former ++ replicate removed undefined
     ++ drop (Z.to_nat index + removed) former).

(** What [Value (element)] reads for an argument of [splice] at the time
    the argument is placed: [buffer] holds the slots of [*this] as they are
    then, [numElements] and [capacity] are the counters [*this] has then,
    [in_place] tells whether the buffer is still the one of the call, and
    [former] is the number of elements it had at the call. *)
Definition read_element (in_place : bool) (former numElements capacity : Z)
  (buffer : list Value) (element : Reference) : option Value :=
  match element with
  | to_other v => Some v
  | to_this =>
      Some (Value_copy (array (take (Z.to_nat numElements) buffer) capacity))
  | to_slot i =>
      if in_place && (0 <=? i) && (i <? former)
      then Value_copy <$> buffer !! Z.to_nat i
      else None
  end.

(** [new (&buf[insertIndex++]) Value (Value (element))] for each element of
    the pack, left to right; every element is read when its turn comes. *)
Fixpoint insertElements (read : list Value -> Reference -> option Value)
  (buf : list Value) (insertIndex : Z) (elementsToInsert : list Reference)
  : option (list Value) :=
  match elementsToInsert with
  | [] => Some buf
  | element :: rest =>
      match read buf element with
      | Some value =>
          insertElements read (<[Z.to_nat insertIndex := value]> buf)
            (insertIndex + 1) rest
      | None => None
      end
  end.

(** What [Value (v)] reads for a value of the pack of [addMember] when its
    recursive call is made: the value of [*this], or the value of member
    [i] if the buffer is still the one the reference points into. *)
Definition read_member_value (in_place : bool) (this : Value) (v : Reference)
  : option Value :=
  match v with
  | to_other value => Some value
  | to_this => Some (Value_copy this)
  | to_slot i =>
      if in_place && (0 <=? i)
      then (fun member => Value_copy (snd member))
             <$> fst (objectData this) !! Z.to_nat i
      else None
  end.

(* ================================================================== *)
(** ** Mutating member functions *)

Section Mutators.

(** The allocator: whether [std::realloc] satisfies a request of the given
    number of bytes.  Every statement below holds for every allocator. *)
Variable realloc_ok : Z -> bool.

(** [reset]: releases the payload; the node is left [undefined]. *)
Definition reset : M Value unit := put_this undefined.

Definition ensureArray : M Value unit :=
  this <- get_this ;;
  if negb (isArray this)
  then (reset ;;; put_this (array [] 0))
  else ret tt.

Definition ensureObject : M Value unit :=
  this <- get_this ;;
  if negb (isObject this)
  then (reset ;;; put_this (object [] 0))
  else ret tt.

Definition reserveArray (capacity : Z) : M Value unit :=
  ensureArray ;;;
  this <- get_this ;;
  if capacity <=? snd (arrayData this) then ret tt
  else if negb (realloc_ok (capacity * sizeof_Value))
  then throwError "Failed to allocate memory for array"
  else put_this (array (fst (arrayData this)) capacity).

Definition reserveObject (capacity : Z) : M Value unit :=
  ensureObject ;;;
  this <- get_this ;;
  if capacity <=? snd (objectData this) then ret tt
  else if negb (realloc_ok (capacity * sizeof_Member))
  then throwError "Failed to allocate memory for object"
  else put_this (object (fst (objectData this)) capacity).

Definition addArrayElement (value : Value) : M Value unit :=
  ensureArray ;;;
  this <- get_this ;;
  (if snd (arrayData this) <=? numElements this
   then reserveArray (and_not32 (wrap32 (snd (arrayData this) + 8)) 7)
   else ret tt) ;;;
  this <- get_this ;;
  put_this (array (fst (arrayData this) ++ [value]) (snd (arrayData this))).

(** [std::move (data.arrayData.elements[i])] bound to a by-value parameter:
    the element is taken and its slot is left [undefined]. *)
Definition move_element (i : Z) : M Value Value :=
  this <- get_this ;;
  match fst (arrayData this) !! Z.to_nat i with
  | Some element =>
      put_this (array (<[Z.to_nat i := undefined]> (fst (arrayData this)))
                  (snd (arrayData this))) ;;;
      ret element
  | None => ret undefined
  end.

(** [splice (index, deleteCount)]. *)
Definition splice (index deleteCount : Z) : M Value Value :=
  this <- get_this ;;
  if negb (isArray this) then throwError "Value is not an array"
  else
    let result := createEmptyArray in
    if numElements this <=? index then ret result
    else
      let deleteCount := Z.min deleteCount (wrap32 (numElements this - index)) in
      if deleteCount =? 0 then ret result
      else
        reserved <- on result (reserveArray deleteCount) ;;
        result <- for_loop (Z.to_nat deleteCount) 0
                    (fun i result =>
                       moved <- move_element (wrap32 (index + i)) ;;
                       added <- on result (addArrayElement moved) ;;
                       ret (fst added))
                    (fst reserved) ;;
        this <- get_this ;;
        let n := numElements this in
        let elements :=
          memmove (fst (arrayData this)) (Z.to_nat index)
            (Z.to_nat (index + deleteCount))
            (Z.to_nat (wrap32 (wrap32 (n - index) - deleteCount))) in
        put_this (array (take (Z.to_nat (wrap32 (n - deleteCount))) elements)
                    (snd (arrayData this))) ;;;
        ret result.

(** [splice (index, deleteCount, elementsToInsert...)].  [at_] is the
    [index] of the call and [former] the array as it is at the call; the
    buffer [*this] has after the deletion holds the live elements, then
    what the deletion left, then raw slots. *)
Definition splice_insert (at_ deleteCount : Z) (elementsToInsert : list Reference)
  : M_ref Value :=
  (former <- defined get_this ;;
   if negb (isArray former) then defined (throwError "Value is not an array")
   else
     deletedElements <- defined (splice at_ deleteCount) ;;
     let numToInsert := Z.of_nat (length elementsToInsert) in
     if numToInsert =? 0 then defined (ret deletedElements)
     else
       this <- defined get_this ;;
       let index := if numElements this <? at_ then numElements this else at_ in
       let newSize := wrap32 (numElements this + numToInsert) in
       let in_place := negb (snd (arrayData this) <? newSize) in
       defined (if snd (arrayData this) <? newSize
                then reserveArray newSize else ret tt) ;;;
       this <- defined get_this ;;
       let n := numElements this in
       let capacity := snd (arrayData this) in
       let buffer :=
         raw_buffer (fst (arrayData this)
                     ++ left_by_splice (fst (arrayData former)) at_
                          (fst (arrayData this)))
           capacity in
       let buffer :=
         if index <? n
         then memmove buffer (Z.to_nat (index + numToInsert)) (Z.to_nat index)
                (Z.to_nat (wrap32 (n - index)))
         else buffer in
       match insertElements (read_element in_place (numElements former) n capacity)
               buffer index elementsToInsert with
       | Some buffer =>
           defined (put_this (array (take (Z.to_nat newSize) buffer) capacity)) ;;;
           defined (ret deletedElements)
       | None => dangling
       end)%ref.

(** [setObjectMember (key, std::move (value))]. *)
Definition setObjectMember (key : string) (value : Value) : M Value unit :=
  ensureObject ;;;
  this <- get_this ;;
  let index := findObjectMember key this in
  if index <? numMembers this
  then
    put_this (object (alter (fun member => (fst member, value)) (Z.to_nat index)
                        (fst (objectData this)))
                (snd (objectData this)))
  else
    (if snd (objectData this) <=? numMembers this
     then reserveObject (and_not32 (wrap32 (numMembers this + 4)) 3)
     else ret tt) ;;;
    this <- get_this ;;
    put_this (object (fst (objectData this) ++ [(MemberKey_of key, value)])
                (snd (objectData this))).

(** [setMember (name, newValue)], with the value already built. *)
Definition setMember (name : string) (newValue : Value) : M Value unit :=
  setObjectMember name newValue.

(** [addMember (name, v, others...)]; [others] is the rest of the pack,
    grouped in name/value pairs.  The first value is taken by value; each
    value of the rest is a forwarding reference, read when the recursive
    call for its pair is made.  The names are character strings that are
    no part of [*this].  [in_place] tells whether the buffer of [*this] is
    still the one it had when the references of the pack were taken. *)
Fixpoint addMember_pack (in_place : bool) (name : string) (v : Value)
  (others : list (string * Reference)) : M_ref unit :=
  (before <- defined get_this ;;
   defined ensureObject ;;;
   this <- defined get_this ;;
   defined (reserveObject
              (wrap32 (numMembers this + 1 + Z.of_nat (length others)))) ;;;
   defined (setMember name v) ;;;
   match others with
   | [] => defined (ret tt)
   | (name', v') :: others' =>
       this <- defined get_this ;;
       let in_place :=
         in_place && isObject before
         && (snd (objectData this) =? snd (objectData before)) in
       match read_member_value in_place this v' with
       | Some value => addMember_pack in_place name' value others'
       | None => dangling
       end
   end)%ref.

Definition addMember (name : string) (v : Value)
  (others : list (string * Reference)) : M_ref unit :=
  addMember_pack true name v others.

(** [operator= (const Value&)] from another object, which is no part of
    [*this]. *)
Definition operator_assign (other : Value) : M Value unit :=
  reset ;;; put_this (copyFrom other).

End Mutators.

(* ================================================================== *)
(** ** The rest of the interface *)

(** [get<T>]: the types the template accepts ([int] is [int32_t]). *)
Inductive GetType :=
| G_bool | G_int32 | G_int64 | G_float | G_double | G_string | G_string_view.

(** The same type as a [getWithDefault] request; [std::string_view] is
    none of the types [getWithDefault] tests for. *)
Definition requested (T : GetType) : RequestedType :=
  match T with
  | G_bool => T_bool
  | G_int32 => T_int32
  | G_int64 => T_int64
  | G_float => T_float
  | G_double => T_double
  | G_string => T_string
  | G_string_view => T_other string
  end.

Definition get (T : GetType) (this : Value) : Result (cpp_type (requested T)) :=
  match T return Result (cpp_type (requested T)) with
  | G_bool => getBool this
  | G_int32 => getInt32 this
  | G_int64 => getInt64 this
  | G_float => getFloat32 this
  | G_double => getFloat64 this
  | G_string => getString this
  | G_string_view => getString this
  end.

(** [operator[] (int index)]: the index is converted to [uint32_t]. *)
Definition getElement_int (index : Z) (this : Value) : Result Value :=
  getElement (wrap32 index) this.

(** [clear]: a container keeps its buffer and its capacity and has no
    live slot left; any other value is reset. *)
Definition clear : M Value unit :=
  this <- get_this ;;
  match type this with
  | Type_array => put_this (array [] (snd (arrayData this)))
  | Type_object => put_this (object [] (snd (objectData this)))
  | _ => reset
  end.

(** [members[i - 1] = std::move (members[i])]: the key and the value of
    slot [i] are moved into slot [i - 1]; the key left in slot [i] has
    length 0 and the value left there is [undefined]. *)
Definition move_member (i : Z) : M Value unit :=
  this <- get_this ;;
  match fst (objectData this) !! Z.to_nat i with
  | Some member =>
      put_this (object (<[Z.to_nat i := (ShortKey "", undefined)]>
                          (<[Z.to_nat (i - 1) := member]> (fst (objectData this))))
                  (snd (objectData this)))
  | None => ret tt
  end.

(** [removeMember (key)]. *)
Definition removeMember (key : string) : M Value bool :=
  this <- get_this ;;
  if negb (isObject this) then ret false
  else
    let index := findObjectMember key this in
    if numMembers this <=? index then ret false
    else
      for_loop (Z.to_nat (numMembers this - wrap32 (index + 1))) (wrap32 (index + 1))
        (fun i _ => move_member i) tt ;;;
      this <- get_this ;;
      put_this (object (take (Z.to_nat (wrap32 (numMembers this - 1)))
                          (fst (objectData this)))
                  (snd (objectData this))) ;;;
      ret true.

(* ------------------------------------------------------------------ *)
(** *** Iterators *)

(** [struct Iterator]: [container] is a pointer; it is kept as the address
    of the container, and the functions that read through it are given the
    object at that address. *)
Record Iterator := { container : nat; index : Z }.

Definition Iterator_increment (it : Iterator) : Iterator :=
  {| container := container it; index := wrap32 (index it + 1) |}.

Definition Iterator_eq (it other : Iterator) : bool :=
  Nat.eqb (container it) (container other) && (index it =? index other).

Definition Iterator_ne (it other : Iterator) : bool := negb (Iterator_eq it other).

(** [operator*], on the object the iterator points into. *)
Definition Iterator_deref (it : Iterator) (object_at : Value) : Result Value :=
  if isArray object_at then getElement (index it) object_at
  else if isObject object_at
  then match getObjectMemberAt (index it) object_at with
       | Ok member => Ok (snd member)
       | Throw message => Throw message
       end
  else Throw "Cannot dereference iterator on non-container type".

Definition Iterator_getObjectMember (it : Iterator) (object_at : Value)
  : Result (string * Value) :=
  if negb (isObject object_at) then Throw "Iterator is not on an object"
  else getObjectMemberAt (index it) object_at.

(** [begin] and [end] of the object at address [this_]. *)
Definition begin (this_ : nat) (this : Value) : Result Iterator :=
  if negb (isArray this || isObject this) then Throw "Value is not iterable"
  else Ok {| container := this_; index := 0 |}.

Definition end_ (this_ : nat) (this : Value) : Result Iterator :=
  if negb (isArray this || isObject this) then Throw "Value is not iterable"
  else
    match size this with
    | Ok n => Ok {| container := this_; index := n |}
    | Throw message => Throw message
    end.

(** The loop [for (auto it = first; it != last; ++it)] that a range-based
    [for] over a value expands to; each iteration dereferences [it], and
    the values visited are collected.  The loop is cut after [fuel]
    iterations ([None]). *)
Fixpoint iterate (fuel : nat) (object_at : Value) (it last : Iterator)
  : option (Result (list Value)) :=
  match fuel with
  | O => None
  | S fuel' =>
      if Iterator_ne it last
      then
        match Iterator_deref it object_at with
        | Ok element =>
            match iterate fuel' object_at (Iterator_increment it) last with
            | Some (Ok visited) => Some (Ok (element :: visited))
            | other => other
            end
        | Throw message => Some (Throw message)
        end
      else Some (Ok [])
  end.

Definition range_for (fuel : nat) (this_ : nat) (this : Value)
  : option (Result (list Value)) :=
  match begin this_ this with
  | Ok first =>
      match end_ this_ this with
      | Ok last => iterate fuel this first last
      | Throw message => Some (Throw message)
      end
  | Throw message => Some (Throw message)
  end.

(* ------------------------------------------------------------------ *)
(** *** Factories for containers *)

Section Factories.

Variable realloc_ok : Z -> bool.

(** A function that builds a local object with member functions and
    returns it. *)
Definition returning {A} (local : Value) (m : M Value A) : Result Value :=
  match m local with
  | (local', Ok _) => Ok local'
  | (_, Throw message) => Throw message
  end.

(** [createArray (numArrayElements, getValueAt)]. *)
Definition createArray (numArrayElements : Z) (getValueAt : Z -> Value)
  : Result Value :=
  returning createEmptyArray
    (reserveArray realloc_ok numArrayElements ;;;
     for_loop (Z.to_nat numArrayElements) 0
       (fun i _ => addArrayElement realloc_ok (getValueAt i)) tt).

(** [for (const auto& element : container) result.addArrayElement (Value (element))]. *)
Fixpoint add_each (container : list Value) : M Value unit :=
  match container with
  | [] => ret tt
  | element :: rest => addArrayElement realloc_ok element ;;; add_each rest
  end.

(** [createArray (container)]. *)
Definition createArray_from (container : list Value) : Result Value :=
  returning createEmptyArray
    (reserveArray realloc_ok (wrap32 (Z.of_nat (length container))) ;;;
     add_each container).

(** The same for a member function that reads references. *)
Definition returning_ref {A} (local : Value) (m : M_ref A) : option (Result Value) :=
  match m local with
  | Some (local', Ok _) => Some (Ok local')
  | Some (_, Throw message) => Some (Throw message)
  | None => None
  end.

(** [create (name, value, others...)]; the pack holds at least one pair.
    The object is a local of [create], so no argument refers into it. *)
Definition create (name : string) (v : Value) (others : list (string * Value))
  : option (Result Value) :=
  returning_ref createObject
    (defined (reserveObject realloc_ok
                (wrap32 (Z.of_nat (length ((name, v) :: others))))) ;;;
     addMember realloc_ok name v (by_value others))%ref.

End Factories.

(* ================================================================== *)
(** ** Representation invariant and specification vocabulary *)

(** The member names of an object's storage, in storage order. *)
Definition key_names (members : list Member) : list string :=
  map (fun member => MemberKey_get (fst member)) members.

(** Keys are unique within one object's storage. *)
Definition unique_keys (members : list Member) : Prop := NoDup (key_names members).

(** A key is stored inline exactly when it fits. *)
Definition MemberKey_wf (k : MemberKey) : bool :=
  match k with
  | ShortKey chars => Z.of_nat (String.length chars) <=? maxShortLength
  | LongKey chars => maxShortLength <? Z.of_nat (String.length chars)
  end.

(** The invariant of every node the interface builds: scalars are in the
    range of their C++ type, a string is stored inline exactly when it
    fits, the live range of a buffer is within its capacity, the counters
    fit [uint32_t], and the keys of an object are unique. *)
Fixpoint wf (v : Value) : bool :=
  match v with
  | undefined | null | bool_ _ => true
  | int32 z => in_int32 z
  | int64 z => in_int64 z
  | double_ d => valid_binary 53 1024 d
  | shortString chars => Z.of_nat (String.length chars) <=? shortStringMaxSize
  | longString chars =>
      (shortStringMaxSize <? Z.of_nat (String.length chars))
      && (Z.of_nat (String.length chars) <? 2 ^ 64)
  | array elements capacity =>
      (Z.of_nat (length elements) <=? capacity) && (capacity <? 2 ^ 32)
      && forallb wf elements
  | object members capacity =>
      (Z.of_nat (length members) <=? capacity) && (capacity <? 2 ^ 32)
      && bool_decide (unique_keys members)
      && forallb (fun member => MemberKey_wf (fst member) && wf (snd member)) members
  end.

(** Whether a NaN occurs in a value, at any depth. *)
Fixpoint contains_nan (v : Value) : bool :=
  match v with
  | double_ S754_nan => true
  | array elements _ => existsb contains_nan elements
  | object members _ => existsb (fun member => contains_nan (snd member)) members
  | _ => false
  end.

(** The members named [name]. *)
Definition members_named (name : string) (members : list Member) : list Member :=
  filter (fun member => MemberKey_get (fst member) = name) members.

(** One iteration of the object comparison loop of [operator==]: the
    member of the left operand has a counterpart in [other], found by
    [findObjectMember], whose value is equal. *)
Definition member_matches (other : Value) (member : Member) : bool :=
  let otherIndex := findObjectMember (MemberKey_get (fst member)) other in
  if numMembers other <=? otherIndex then false
  else
    match fst (objectData other) !! Z.to_nat otherIndex with
    | Some otherMember => operator_eq (snd member) (snd otherMember)
    | None => false
    end.

(** The element-wise comparison loop of [operator==] on two buffers. *)
Fixpoint elements_equal (es os : list Value) : bool :=
  match es, os with
  | e :: es', o :: os' => if negb (operator_eq e o) then false else elements_equal es' os'
  | _, _ => true
  end.

(** The buffer of [splice] after [i] iterations of its first loop: the [i]
    elements from [index] on have been moved from and their slots left
    [undefined]. *)
Definition moved_out (elements : list Value) (index i : nat) : list Value :=
  take index elements ++ replicate i undefined ++ drop (index + i) elements.

(** The storage of an object after [setObjectMember (name, newValue)]:
    the scan decides between overwriting in place and appending. *)
Definition set_member (name : string) (newValue : Value) (members : list Member)
  : list Member :=
  let index := find_from name members 0 in
  if index <? Z.of_nat (length members)
  then alter (fun member => (fst member, newValue)) (Z.to_nat index) members
  else members ++ [(MemberKey_of name, newValue)].

(** The storage after a sequence of name/value pairs has been set, first
    pair first. *)
Definition set_members (pairs : list (string * Value)) (members : list Member)
  : list Member :=
  fold_left (fun ms pair => set_member (fst pair) (snd pair) ms) pairs members.

(** The value of the first member named [key], if there is one. *)
Fixpoint member_value (key : string) (members : list Member) : option Value :=
  match members with
  | [] => None
  | member :: rest =>
      if MemberKey_eq (fst member) key then Some (snd member)
      else member_value key rest
  end.

(** The storage of an object without the first member named [key]. *)
Fixpoint remove_first (key : string) (members : list Member) : list Member :=
  match members with
  | [] => []
  | member :: rest =>
      if MemberKey_eq (fst member) key then rest
      else member :: remove_first key rest
  end.

(** The value a name is given last in a sequence of name/value pairs. *)
Fixpoint last_value (key : string) (pairs : list (string * Value)) : option Value :=
  match pairs with
  | [] => None
  | (name, v) :: rest =>
      match last_value key rest with
      | Some v' => Some v'
      | None => if (name =? key)%string then Some v else None
      end
  end.

(** What an iteration over a container visits: the elements of an array,
    the values of the members of an object. *)
Definition iterated_values (this : Value) : list Value :=
  if isArray this then fst (arrayData this) else snd <$> fst (objectData this).

(* ------------------------------------------------------------------ *)
(** The double [f] stands for the integer [z]: a finite double with sign
    [s], mantissa [m] and exponent [e] stands for [(-1)^s * m * 2^e]. *)
Definition exactly (f : spec_float) (z : Z) : Prop :=
  match f with
  | S754_zero _ => z = 0
  | S754_finite s m e =>
      (if s then Zneg m else Zpos m) * 2 ^ Z.max 0 e = z * 2 ^ Z.max 0 (- e)
  | _ => False
  end.

(** *** Sample data *)

(** [5.0] as a binary64 number. *)
Definition double_5 : spec_float := S754_finite false 5629499534213120 (-50).

(** An array of 32-bit integers with no spare capacity. *)
Definition int32_array (l : list Z) : Value := array (map int32 l) (Z.of_nat (length l)).

(** An allocator that grants every request. *)
Definition always_grants : Z -> bool := fun _ => true.

(** An allocator that refuses every request. *)
Definition never_grants : Z -> bool := fun _ => false.

(* ================================================================== *)
(** * The store layer

    The same nodes with their pointers.  A node is the 24 bytes of a
    [Value]: the tag and the active branch of the union, where the heap
    variants hold a pointer into the store.  The store maps the address of
    every live buffer to its contents. *)

Module Store.

Abbreviation loc := nat.

(** The 24 bytes of a [MemberKey]: a short key holds its characters, a
    long key the pointer to its buffer and the length. *)
Inductive key_node :=
| k_short (chars : string)
| k_long (chars : loc) (length : Z).

(** The 24 bytes of a [Value].  [elements] and [members] may be [nullptr]
    ([None]), as [createEmptyArray], [createObject] and the [ensure]
    functions leave them. *)
Inductive node :=
| n_undefined
| n_null
| n_bool (boolValue : bool)
| n_int32 (int32Value : Z)
| n_int64 (int64Value : Z)
| n_double (doubleValue : spec_float)
| n_shortString (chars : string)
| n_longString (chars : loc) (length : Z)
| n_array (elements : option loc) (numElements capacity : Z)
| n_object (members : option loc) (numMembers capacity : Z).

(** A [Member] in a buffer. *)
Abbreviation member_node := (key_node * node)%type.

(** The contents of a heap buffer. *)
Inductive block :=
| b_chars (chars : string)
| b_values (slots : list node)
| b_members (slots : list member_node).

Abbreviation store := (gmap loc block).

(** A store computation; [None] is undefined behaviour (a read through a
    pointer that is not live) or a recursion cut short by its fuel. *)
Definition Op (A : Type) : Type := store -> option (A * store).

Definition op_ret {A} (a : A) : Op A := fun h => Some (a, h).
Definition op_fail {A} : Op A := fun _ => None.
Definition op_bind {A B} (m : Op A) (k : A -> Op B) : Op B :=
  fun h =>
    match m h with
    | Some (a, h') => k a h'
    | None => None
    end.

Declare Scope store_scope.
Delimit Scope store_scope with store.
Notation "x <~ m ;; k" := (op_bind m (fun x => k))
  (at level 100, m at next level, right associativity) : store_scope.
Notation "m ;;~ k" := (op_bind m (fun _ => k))
  (at level 100, right associativity) : store_scope.
Local Open Scope store_scope.

(** [std::malloc]: a buffer at an address that is not live.  Memory is not
    bounded at this layer ([copyFrom] does not test what [malloc] returns). *)
Definition malloc (b : block) : Op loc :=
  fun h => let p := fresh (dom h) in Some (p, <[p := b]> h).

(** [std::free] of a live buffer. *)
Definition free (p : loc) : Op unit :=
  fun h =>
    match h !! p with
    | Some _ => Some (tt, delete p h)
    | None => None
    end.

(** [std::free] of a pointer that may be [nullptr]. *)
Definition free_ptr (ptr : option loc) : Op unit :=
  match ptr with
  | Some p => free p
  | None => op_ret tt
  end.

Definition load (p : loc) : Op block :=
  fun h =>
    match h !! p with
    | Some b => Some (b, h)
    | None => None
    end.

Definition load_values (ptr : option loc) : Op (list node) :=
  match ptr with
  | Some p =>
      b <~ load p ;;
      match b with
      | b_values slots => op_ret slots
      | _ => op_fail
      end
  | None => op_fail
  end.

Definition load_members (ptr : option loc) : Op (list member_node) :=
  match ptr with
  | Some p =>
      b <~ load p ;;
      match b with
      | b_members slots => op_ret slots
      | _ => op_fail
      end
  | None => op_fail
  end.

Definition load_chars (p : loc) : Op string :=
  b <~ load p ;;
  match b with
  | b_chars chars => op_ret chars
  | _ => op_fail
  end.

(** [elements[i]] read. *)
Definition read_value (ptr : option loc) (i : nat) : Op node :=
  slots <~ load_values ptr ;;
  match slots !! i with
  | Some element => op_ret element
  | None => op_fail
  end.

(** [members[i]] read. *)
Definition read_member (ptr : option loc) (i : nat) : Op member_node :=
  slots <~ load_members ptr ;;
  match slots !! i with
  | Some member => op_ret member
  | None => op_fail
  end.

(** A node written in slot [i] of a buffer of values. *)
Definition write_value (p : loc) (i : nat) (n : node) : Op unit :=
  slots <~ load_values (Some p) ;;
  if decide (i < length slots)%nat
  then fun h => Some (tt, <[p := b_values (<[i := n]> slots)]> h)
  else op_fail.

(** A member written in slot [i] of a buffer of members. *)
Definition write_member (p : loc) (i : nat) (m : member_node) : Op unit :=
  slots <~ load_members (Some p) ;;
  if decide (i < length slots)%nat
  then fun h => Some (tt, <[p := b_members (<[i := m]> slots)]> h)
  else op_fail.

(** Where a [Value] object is: slot [i] of the buffer at [p], as an
    element of a buffer of values or as the value of a member.  An object
    outside the heap (a variable, a temporary) is the slot of a buffer of
    one value that no node owns. *)
Definition place : Type := loc * nat.

Definition get_slot (b : block) (i : nat) : option node :=
  match b with
  | b_values slots => slots !! i
  | b_members slots => snd <$> slots !! i
  | b_chars _ => None
  end.

Definition put_slot (b : block) (i : nat) (n : node) : block :=
  match b with
  | b_values slots => b_values (<[i := n]> slots)
  | b_members slots => b_members (alter (fun member => (fst member, n)) i slots)
  | b_chars _ => b
  end.

(** The [Value] at a place, read and written in place. *)
Definition read_slot (at_ : place) : Op node :=
  b <~ load (fst at_) ;;
  match get_slot b (snd at_) with
  | Some n => op_ret n
  | None => op_fail
  end.

Definition write_slot (at_ : place) (n : node) : Op unit :=
  b <~ load (fst at_) ;;
  match get_slot b (snd at_) with
  | Some _ => fun h => Some (tt, <[fst at_ := put_slot b (snd at_) n]> h)
  | None => op_fail
  end.

(** The key of member [i] written in place; the value of the member is not
    touched. *)
Definition write_key (p : loc) (i : nat) (k : key_node) : Op unit :=
  member <~ read_member (Some p) i ;;
  write_member p i (k, snd member).

(** [MemberKey (std::string_view)]. *)
Definition key_construct (str : string) : Op key_node :=
  let len := Z.of_nat (String.length str) in
  if len <=? maxShortLength then op_ret (k_short str)
  else
    p <~ malloc (b_chars str) ;;
    op_ret (k_long p len).

(** [MemberKey::get]. *)
Definition key_get (k : key_node) : Op string :=
  match k with
  | k_short chars => op_ret chars
  | k_long p _ => load_chars p
  end.

(** [~MemberKey]. *)
Definition key_destroy (k : key_node) : Op unit :=
  match k with
  | k_short _ => op_ret tt
  | k_long p _ => free p
  end.

(** The loop of [copyFrom] over the elements: slot [i] of the new buffer
    [dst] is built in place as a copy of slot [i] of the other array. *)
Fixpoint copy_values (copy : place -> place -> Op unit) (src : option loc)
  (dst : loc) (count i : nat) : Op unit :=
  match count with
  | O => op_ret tt
  | S count' =>
      match src with
      | Some p => copy (dst, i) (p, i)
      | None => op_fail
      end ;;~
      copy_values copy src dst count' (S i)
  end.

(** The loop of [copyFrom] over the members: the key is built in place
    from the other key's characters, then the value is built in place as a
    copy. *)
Fixpoint copy_members (copy : place -> place -> Op unit) (src : option loc)
  (dst : loc) (count i : nat) : Op unit :=
  match count with
  | O => op_ret tt
  | S count' =>
      member <~ read_member src i ;;
      name <~ key_get (fst member) ;;
      newKey <~ key_construct name ;;
      write_key dst i newKey ;;~
      match src with
      | Some p => copy (dst, i) (p, i)
      | None => op_fail
      end ;;~
      copy_members copy src dst count' (S i)
  end.

(** [copyFrom (other)] on the object at [this_], from the object at
    [other_].  The fields of [*this] are written as the code writes them:
    the counters and the pointer to the new buffer before the loop that
    fills it, so that a copy that runs into [*this] finds it half built.
    [other] is not [*this] (the copy constructor builds a new object, the
    assignment operator tests for it), so its node is the same for the
    whole call and is read once.  The recursion goes through the store, so
    it is bounded by [fuel]; any fuel above the nesting depth of the value
    is enough. *)
Fixpoint copyFrom (fuel : nat) (this_ other_ : place) : Op unit :=
  match fuel with
  | O => op_fail
  | S fuel' =>
      other <~ read_slot other_ ;;
      match other with
      | n_longString chars length =>
          otherChars <~ load_chars chars ;;
          newChars <~ malloc (b_chars otherChars) ;;
          write_slot this_ (n_longString newChars length)
      | n_array elements numElements capacity =>
          newElements <~ malloc (b_values (replicate (Z.to_nat capacity) n_undefined)) ;;
          write_slot this_ (n_array (Some newElements) numElements capacity) ;;~
          copy_values (copyFrom fuel') elements newElements (Z.to_nat numElements) 0
      | n_object members numMembers capacity =>
          newMembers <~ malloc (b_members (replicate (Z.to_nat capacity)
                                             (k_short "", n_undefined))) ;;
          write_slot this_ (n_object (Some newMembers) numMembers capacity) ;;~
          copy_members (copyFrom fuel') members newMembers (Z.to_nat numMembers) 0
      | _ => write_slot this_ other
      end
  end.

(** The loops of [reset]: the destructor of every live slot. *)
Fixpoint destroy_values (destroy : node -> Op unit) (ptr : option loc)
  (count i : nat) : Op unit :=
  match count with
  | O => op_ret tt
  | S count' =>
      element <~ read_value ptr i ;;
      destroy element ;;~
      destroy_values destroy ptr count' (S i)
  end.

Fixpoint destroy_members (destroy : node -> Op unit) (ptr : option loc)
  (count i : nat) : Op unit :=
  match count with
  | O => op_ret tt
  | S count' =>
      member <~ read_member ptr i ;;
      destroy (snd member) ;;~
      key_destroy (fst member) ;;~
      destroy_members destroy ptr count' (S i)
  end.

(** [reset] (and [~Value]): everything the node owns is released.  The
    caller's node is [n_undefined] afterwards. *)
Fixpoint reset (fuel : nat) (this : node) : Op unit :=
  match fuel with
  | O => op_fail
  | S fuel' =>
      match this with
      | n_longString chars _ => free chars
      | n_array elements numElements _ =>
          destroy_values (reset fuel') elements (Z.to_nat numElements) 0 ;;~
          free_ptr elements
      | n_object members numMembers _ =>
          destroy_members (reset fuel') members (Z.to_nat numMembers) 0 ;;~
          free_ptr members
      | _ => op_ret tt
      end
  end.

(** [reset ()] (and [~Value ()]) on the object at a place: what its node
    owns is released, and the node is left [undefined] in place. *)
Definition reset_at (fuel : nat) (this_ : place) : Op unit :=
  this <~ read_slot this_ ;;
  reset fuel this ;;~
  write_slot this_ n_undefined.

(** [operator= (const Value& other)] on the object at [this_], from the
    object at [other_]: nothing is done when the two are the same object;
    otherwise [*this] is reset, and then [other] is read and copied. *)
Definition operator_assign (fuel : nat) (this_ other_ : place) : Op unit :=
  if decide (this_ = other_) then op_ret tt
  else
    reset_at fuel this_ ;;~
    copyFrom fuel this_ other_.

(** [std::realloc] of a buffer of values to [capacity] slots: the contents
    move to a buffer at a new address ([realloc (nullptr, n)] is
    [malloc (n)]). *)
Definition realloc_values (ptr : option loc) (capacity : nat) : Op loc :=
  match ptr with
  | None => malloc (b_values (replicate capacity n_undefined))
  | Some p =>
      slots <~ load_values (Some p) ;;
      q <~ malloc (b_values (take capacity slots
                             ++ replicate (capacity - length slots) n_undefined)) ;;
      free p ;;~
      op_ret q
  end.

Definition realloc_members (ptr : option loc) (capacity : nat) : Op loc :=
  match ptr with
  | None => malloc (b_members (replicate capacity (k_short "", n_undefined)))
  | Some p =>
      slots <~ load_members (Some p) ;;
      q <~ malloc (b_members (take capacity slots
                              ++ replicate (capacity - length slots)
                                   (k_short "", n_undefined))) ;;
      free p ;;~
      op_ret q
  end.

(** [ensureArray]; the node of [*this] is returned as it is left. *)
Definition ensureArray (fuel : nat) (this : node) : Op node :=
  match this with
  | n_array _ _ _ => op_ret this
  | _ => reset fuel this ;;~ op_ret (n_array None 0 0)
  end.

Definition ensureObject (fuel : nat) (this : node) : Op node :=
  match this with
  | n_object _ _ _ => op_ret this
  | _ => reset fuel this ;;~ op_ret (n_object None 0 0)
  end.

Definition reserveArray (fuel : nat) (capacity : Z) (this : node) : Op node :=
  this <~ ensureArray fuel this ;;
  match this with
  | n_array elements numElements oldCapacity =>
      if capacity <=? oldCapacity then op_ret this
      else
        newElements <~ realloc_values elements (Z.to_nat capacity) ;;
        op_ret (n_array (Some newElements) numElements capacity)
  | _ => op_fail
  end.

Definition reserveObject (fuel : nat) (capacity : Z) (this : node) : Op node :=
  this <~ ensureObject fuel this ;;
  match this with
  | n_object members numMembers oldCapacity =>
      if capacity <=? oldCapacity then op_ret this
      else
        newMembers <~ realloc_members members (Z.to_nat capacity) ;;
        op_ret (n_object (Some newMembers) numMembers capacity)
  | _ => op_fail
  end.

(** [addArrayElement (value)]: the node [value] is moved into the slot
    after the last live one. *)
Definition addArrayElement (fuel : nat) (value : node) (this : node) : Op node :=
  this <~ ensureArray fuel this ;;
  this <~ match this with
          | n_array _ numElements capacity =>
              if capacity <=? numElements
              then reserveArray fuel (and_not32 (wrap32 (capacity + 8)) 7) this
              else op_ret this
          | _ => op_fail
          end ;;
  match this with
  | n_array (Some elements) numElements capacity =>
      write_value elements (Z.to_nat numElements) value ;;~
      op_ret (n_array (Some elements) (wrap32 (numElements + 1)) capacity)
  | _ => op_fail
  end.

(** The scan of [findObjectMember] over the live members, from slot [i]. *)
Fixpoint find_member_from (key : string) (ptr : option loc) (count i : nat)
  : Op nat :=
  match count with
  | O => op_ret i
  | S count' =>
      member <~ read_member ptr i ;;
      name <~ key_get (fst member) ;;
      if (name =? key)%string then op_ret i
      else find_member_from key ptr count' (S i)
  end.

Definition findObjectMember (key : string) (this : node) : Op Z :=
  match this with
  | n_object members numMembers _ =>
      i <~ find_member_from key members (Z.to_nat numMembers) 0 ;;
      op_ret (Z.of_nat i)
  | _ => op_ret 0
  end.

(** [setObjectMember (key, std::move (value))]: the node [value] is moved
    into the member named [key], whose old value is released, or into a
    new member at the end. *)
Definition setObjectMember (fuel : nat) (key : string) (value : node)
  (this : node) : Op node :=
  this <~ ensureObject fuel this ;;
  index <~ findObjectMember key this ;;
  match this with
  | n_object members numMembers capacity =>
      if index <? numMembers
      then
        member <~ read_member members (Z.to_nat index) ;;
        reset fuel (snd member) ;;~
        match members with
        | Some p =>
            write_member p (Z.to_nat index) (fst member, value) ;;~
            op_ret this
        | None => op_fail
        end
      else
        this <~ (if capacity <=? numMembers
                 then reserveObject fuel (and_not32 (wrap32 (numMembers + 4)) 3) this
                 else op_ret this) ;;
        match this with
        | n_object (Some p) numMembers capacity =>
            newKey <~ key_construct key ;;
            write_member p (Z.to_nat numMembers) (newKey, value) ;;~
            op_ret (n_object (Some p) (wrap32 (numMembers + 1)) capacity)
        | _ => op_fail
        end
  | _ => op_fail
  end.

(** The address a pointer holds, if any. *)
Definition ptr_set (ptr : option loc) : gset loc :=
  match ptr with
  | Some p => {[p]}
  | None => ∅
  end.

(** The nesting depth of a value. *)
Fixpoint depth (v : Value) : nat :=
  match v with
  | array elements _ => S (foldr (fun element d => Nat.max (depth element) d) 0%nat elements)
  | object members _ =>
      S (foldr (fun member d => Nat.max (depth (snd member)) d) 0%nat members)
  | _ => 0%nat
  end.

(** The key [k] is laid out as [kn] in the store and owns the buffers
    [fp]. *)
Definition key_repr (h : store) (k : MemberKey) (kn : key_node) (fp : gset loc) : Prop :=
  match k with
  | ShortKey chars => kn = k_short chars /\ fp = ∅
  | LongKey chars =>
      exists p,
        kn = k_long p (Z.of_nat (String.length chars))
        /\ h !! p = Some (b_chars chars)
        /\ fp = {[p]}
  end.

(** [repr h v n fp]: in the store [h] the node [n] denotes the value [v],
    and the buffers it owns, directly or through its elements and members,
    are exactly those at the addresses [fp].  Every buffer is owned once:
    the footprints of the slots of a buffer are pairwise disjoint and do
    not contain the buffer itself. *)
Fixpoint repr (h : store) (v : Value) (n : node) (fp : gset loc) {struct v} : Prop :=
  match v with
  | undefined => n = n_undefined /\ fp = ∅
  | null => n = n_null /\ fp = ∅
  | bool_ b => n = n_bool b /\ fp = ∅
  | int32 z => n = n_int32 z /\ fp = ∅
  | int64 z => n = n_int64 z /\ fp = ∅
  | double_ d => n = n_double d /\ fp = ∅
  | shortString chars => n = n_shortString chars /\ fp = ∅
  | longString chars =>
      exists p,
        n = n_longString p (Z.of_nat (String.length chars))
        /\ h !! p = Some (b_chars chars)
        /\ fp = {[p]}
  | array elements capacity =>
      exists ptr,
        n = n_array ptr (Z.of_nat (length elements)) capacity
        /\ match ptr with
           | None => elements = [] /\ capacity = 0 /\ fp = ∅
           | Some p =>
               exists slots inner,
                 h !! p = Some (b_values slots)
                 /\ Z.of_nat (length slots) = capacity
                 /\ (p ∉ inner)
                 /\ fp = {[p]} ∪ inner
                 /\ (fix repr_values (vs : list Value) (ns : list node)
                       (fps : gset loc) {struct vs} : Prop :=
                       match vs, ns with
                       | [], _ => fps = ∅
                       | v' :: vs', n' :: ns' =>
                           exists fp1 fp2,
                             fps = fp1 ∪ fp2 /\ fp1 ## fp2
                             /\ repr h v' n' fp1
                             /\ repr_values vs' ns' fp2
                       | _ :: _, [] => False
                       end) elements slots inner
           end
  | object members capacity =>
      exists ptr,
        n = n_object ptr (Z.of_nat (length members)) capacity
        /\ match ptr with
           | None => members = [] /\ capacity = 0 /\ fp = ∅
           | Some p =>
               exists slots inner,
                 h !! p = Some (b_members slots)
                 /\ Z.of_nat (length slots) = capacity
                 /\ (p ∉ inner)
                 /\ fp = {[p]} ∪ inner
                 /\ (fix repr_members (ms : list Member) (ns : list member_node)
                       (fps : gset loc) {struct ms} : Prop :=
                       match ms, ns with
                       | [], _ => fps = ∅
                       | m' :: ms', n' :: ns' =>
                           exists fpk fpv fp2,
                             fps = fpk ∪ fpv ∪ fp2
                             /\ fpk ## fpv /\ fpk ## fp2 /\ fpv ## fp2
                             /\ key_repr h (fst m') (fst n') fpk
                             /\ repr h (snd m') (snd n') fpv
                             /\ repr_members ms' ns' fp2
                       | _ :: _, [] => False
                       end) members slots inner
           end
  end.

(** The live slots of a buffer of values, and of members, as standalone
    relations. *)
Definition repr_values (h : store) : list Value -> list node -> gset loc -> Prop :=
  fix repr_values (vs : list Value) (ns : list node) (fps : gset loc)
    {struct vs} : Prop :=
    match vs, ns with
    | [], _ => fps = ∅
    | v' :: vs', n' :: ns' =>
        exists fp1 fp2,
          fps = fp1 ∪ fp2 /\ fp1 ## fp2
          /\ repr h v' n' fp1
          /\ repr_values vs' ns' fp2
    | _ :: _, [] => False
    end.

Definition repr_members (h : store)
  : list Member -> list member_node -> gset loc -> Prop :=
  fix repr_members (ms : list Member) (ns : list member_node) (fps : gset loc)
    {struct ms} : Prop :=
    match ms, ns with
    | [], _ => fps = ∅
    | m' :: ms', n' :: ns' =>
        exists fpk fpv fp2,
          fps = fpk ∪ fpv ∪ fp2
          /\ fpk ## fpv /\ fpk ## fp2 /\ fpv ## fp2
          /\ key_repr h (fst m') (fst n') fpk
          /\ repr h (snd m') (snd n') fpv
          /\ repr_members ms' ns' fp2
    | _ :: _, [] => False
    end.

(** Two stores hold the same buffers at the addresses [fp]. *)
Definition agree_on (fp : gset loc) (h h' : store) : Prop :=
  forall p, p ∈ fp -> h' !! p = h !! p.

(** [copy] builds at a place, from a place that holds a node of [v], a
    node of the copy of [v] in buffers of its own; it changes the slot at
    that place and leaves everything else that is live as it is.  The
    place built at is in none of the buffers [v] owns. *)
Definition copies (copy : place -> place -> Op unit) (v : Value) : Prop :=
  forall h this_ other_ b old n fp,
    h !! fst this_ = Some b ->
    get_slot b (snd this_) = Some old ->
    read_slot other_ h = Some (n, h) ->
    repr h v n fp ->
    fst this_ ∉ fp ->
    exists n' h1 fp',
      copy this_ other_ h
      = Some (tt, <[fst this_ := put_slot b (snd this_) n']> h1)
      /\ agree_on (dom h) h h1
      /\ fp' ## dom h
      /\ dom h1 = dom h ∪ fp'
      /\ repr h1 (Value_copy v) n' fp'.

(** [destroy] releases exactly the buffers a node of [v] owns. *)
Definition releases (destroy : node -> Op unit) (v : Value) : Prop :=
  forall h n fp,
    repr h v n fp ->
    exists h',
      destroy n h = Some (tt, h')
      /\ dom h' = dom h ∖ fp
      /\ agree_on (dom h ∖ fp) h h'.

(** *** Moving, clearing, removing *)

(** [Value (Value&&)]: the node of the other value is taken over as it is,
    pointers included, and the other node is left [undefined].  The nodes
    of [*this] and of [other] are returned. *)
Definition move_construct (other : node) : node * node := (other, n_undefined).

(** [operator= (Value&& other)] on the object at [this_], from the object
    at [other_]: nothing is done when the two are the same object;
    otherwise [*this] is reset, and then the node of [other] is read,
    taken over, and left [undefined]. *)
Definition operator_assign_move (fuel : nat) (this_ other_ : place) : Op unit :=
  if decide (this_ = other_) then op_ret tt
  else
    reset_at fuel this_ ;;~
    other <~ read_slot other_ ;;
    write_slot this_ other ;;~
    write_slot other_ n_undefined.

(** [clear]: the live slots of a container are destroyed and the buffer is
    kept; any other node is reset.  The node of [*this] is returned as it
    is left. *)
Definition clear (fuel : nat) (this : node) : Op node :=
  match this with
  | n_array elements numElements capacity =>
      destroy_values (reset fuel) elements (Z.to_nat numElements) 0 ;;~
      op_ret (n_array elements 0 capacity)
  | n_object members numMembers capacity =>
      destroy_members (reset fuel) members (Z.to_nat numMembers) 0 ;;~
      op_ret (n_object members 0 capacity)
  | _ =>
      reset fuel this ;;~
      op_ret n_undefined
  end.

(** [MemberKey::operator= (MemberKey&&)]: the 24 bytes of the other key are
    copied over this key, which is not released, and the other key is left
    with length 0.  The keys of [*this] and of [other] are returned. *)
Definition key_move_assign (this other : key_node) : key_node * key_node :=
  (other, k_short "").

(** [members[i - 1] = std::move (members[i])] in the buffer at [p]: the key
    and then the value of slot [i] are move-assigned to slot [i - 1]. *)
Definition move_member (fuel : nat) (p : loc) (i : nat) : Op unit :=
  source <~ read_member (Some p) i ;;
  target <~ read_member (Some p) (i - 1) ;;
  let keys := key_move_assign (fst target) (fst source) in
  write_key p (i - 1) (fst keys) ;;~
  write_key p i (snd keys) ;;~
  operator_assign_move fuel (p, (i - 1)%nat) (p, i).

(** The loop of [removeMember]. *)
Fixpoint move_members (fuel : nat) (p : loc) (count i : nat) : Op unit :=
  match count with
  | O => op_ret tt
  | S count' =>
      move_member fuel p i ;;~
      move_members fuel p count' (S i)
  end.

(** [removeMember (key)]; the node of [*this] is returned as it is left,
    with the answer. *)
Definition removeMember (fuel : nat) (key : string) (this : node)
  : Op (node * bool) :=
  match this with
  | n_object members numMembers capacity =>
      index <~ findObjectMember key this ;;
      if numMembers <=? index then op_ret (this, false)
      else
        match members with
        | Some p =>
            move_members fuel p (Z.to_nat (numMembers - wrap32 (index + 1)))
              (Z.to_nat (wrap32 (index + 1))) ;;~
            op_ret (n_object members (wrap32 (numMembers - 1)) capacity, true)
        | None => op_fail
        end
  | _ => op_ret (this, false)
  end.

(** *** Sample store *)

(** The array [[1, "a string longer than twenty-two", {"flag": true}]]
    laid out in three buffers. *)
Definition sample_value : Value :=
  array [int32 1; longString "a string longer than twenty-two";
         object [(ShortKey "flag", bool_ true)] 2] 4.

Definition sample_store : store :=
  {[ 0%nat := b_values [n_int32 1; n_longString 1%nat 31;
                        n_object (Some 2%nat) 1 2; n_undefined];
     1%nat := b_chars "a string longer than twenty-two";
     2%nat := b_members [(k_short "flag", n_bool true);
                         (k_short "", n_undefined)] ]}.

Definition sample_node : node := n_array (Some 0%nat) 3 4.

Definition sample_footprint : gset loc :=
  {[0%nat]} ∪ (∅ ∪ ({[1%nat]} ∪ (({[2%nat]} ∪ (∅ ∪ ∅ ∪ ∅)) ∪ ∅))).

(** The same store with two variables, each the slot of a buffer of its
    own: the first holds the array, the second holds nothing yet. *)
Definition sample_variables : store :=
  <[3%nat := b_values [sample_node]]>
    (<[4%nat := b_values [n_undefined]]> sample_store).

(** The object [{"a member name longer than 23": "a string longer than
    twenty-two"}] laid out in three buffers: the members, the characters
    of the key and the characters of the value. *)
Definition sample_object : Value :=
  object [(LongKey "a member name longer than 23",
           longString "a string longer than twenty-two")] 1.

Definition sample_object_store : store :=
  {[ 0%nat := b_members [(k_long 1%nat 28, n_longString 2%nat 31)];
     1%nat := b_chars "a member name longer than 23";
     2%nat := b_chars "a string longer than twenty-two" ]}.

Definition sample_object_node : node := n_object (Some 0%nat) 1 1.

Definition sample_object_footprint : gset loc :=
  {[0%nat]} ∪ ({[1%nat]} ∪ {[2%nat]} ∪ ∅).

End Store.

(* ================================================================== *)
(** * Properties *)

(** Closing a decidable closed goal by evaluating its decision procedure. *)
Ltac decide_by_computation :=
  apply (bool_decide_unpack _); vm_compute; exact I.

(** Evaluation of a member-function computation. *)
Ltac run_method :=
  cbv [bind ret get_this put_this throwError on const_call reset];
  cbn [fst snd negb andb orb].

(** ** Basic facts *)

Lemma ValueType_eqb_eq a b : ValueType_eqb a b = true <-> a = b.
Proof. destruct a, b; simpl; split; intros H; try reflexivity; discriminate. Qed.

Lemma ValueType_eqb_refl a : ValueType_eqb a a = true.
Proof. by destruct a. Qed.

Lemma MemberKey_get_of str : MemberKey_get (MemberKey_of str) = str.
Proof. unfold MemberKey_of. by case (_ <=? _). Qed.

Lemma MemberKey_of_wf str : MemberKey_wf (MemberKey_of str) = true.
Proof.
  unfold MemberKey_of.
  destruct (Z.leb_spec (Z.of_nat (String.length str)) maxShortLength) as [H|H]; simpl.
  - by apply Z.leb_le.
  - by apply Z.ltb_lt.
Qed.

Lemma MemberKey_eq_true k str : MemberKey_eq k str = true <-> MemberKey_get k = str.
Proof. unfold MemberKey_eq. apply String.eqb_eq. Qed.

Lemma MemberKey_eq_false k str : MemberKey_eq k str = false <-> MemberKey_get k <> str.
Proof. unfold MemberKey_eq. apply String.eqb_neq. Qed.

Lemma wrap32_small z : 0 <= z < 2 ^ 32 -> wrap32 z = z.
Proof. intros H. unfold wrap32. by apply Z.mod_small. Qed.

Lemma isArray_inv this :
  isArray this = true -> exists elements capacity, this = array elements capacity.
Proof. destruct this; try discriminate. eauto. Qed.

Lemma isObject_inv this :
  isObject this = true -> exists members capacity, this = object members capacity.
Proof. destruct this; try discriminate. eauto. Qed.

(** *** The member scan *)

Lemma find_from_range key members i :
  i <= find_from key members i <= i + Z.of_nat (length members).
Proof.
  revert i. induction members as [|m ms IH]; intros i; simpl.
  - lia.
  - destruct (MemberKey_eq m.1 key); [lia|]. specialize (IH (i + 1)). lia.
Qed.

Lemma find_from_shift key members i :
  find_from key members i = i + find_from key members 0.
Proof.
  revert i. induction members as [|m ms IH]; intros i; simpl.
  - lia.
  - destruct (MemberKey_eq m.1 key); [lia|].
    rewrite (IH (i + 1)), (IH (0 + 1)). lia.
Qed.

(** A scan that stops inside the live range stops at the first member
    with the key. *)
Lemma find_from_found key members :
  find_from key members 0 < Z.of_nat (length members) ->
  exists member,
    members !! Z.to_nat (find_from key members 0) = Some member
    /\ MemberKey_get (fst member) = key
    /\ Forall (fun m => MemberKey_get (fst m) <> key)
         (take (Z.to_nat (find_from key members 0)) members).
Proof.
  induction members as [|m ms IH]; simpl.
  - lia.
  - destruct (MemberKey_eq m.1 key) eqn:E.
    + intros _. exists m. simpl. split; [done|].
      split; [by apply MemberKey_eq_true|constructor].
    + rewrite find_from_shift. intros H.
      destruct IH as (m' & Hm' & Hk & Hbefore); [lia|].
      pose proof (find_from_range key ms 0) as Hr.
      exists m'. replace (Z.to_nat (0 + 1 + find_from key ms 0))
        with (S (Z.to_nat (find_from key ms 0))) by lia.
      simpl. split; [done|]. split; [done|].
      constructor; [by apply MemberKey_eq_false|done].
Qed.

(** A scan that runs to the end has met no member with the key. *)
Lemma find_from_absent key members :
  find_from key members 0 = Z.of_nat (length members) <->
  key ∉ key_names members.
Proof.
  induction members as [|m ms IH]; simpl.
  - split; [intros _; apply not_elem_of_nil|done].
  - destruct (MemberKey_eq m.1 key) eqn:E.
    + apply MemberKey_eq_true in E. split; [lia|].
      intros H. exfalso. apply H. rewrite <- E. apply list_elem_of_here.
    + apply MemberKey_eq_false in E. rewrite find_from_shift.
      rewrite not_elem_of_cons. split.
      * intros H. split; [congruence|]. apply IH. lia.
      * intros [_ H]. apply IH in H. lia.
Qed.

(** With unique keys, the scan finds any member that is there. *)
Lemma find_from_unique member members :
  unique_keys members ->
  member ∈ members ->
  members !! Z.to_nat (find_from (MemberKey_get (fst member)) members 0) = Some member
  /\ find_from (MemberKey_get (fst member)) members 0 < Z.of_nat (length members).
Proof.
  unfold unique_keys. induction members as [|m ms IH]; simpl.
  - intros _ H. by apply elem_of_nil in H.
  - intros Hnd Hin. apply NoDup_cons in Hnd as [Hm Hnd].
    apply elem_of_cons in Hin as [->|Hin].
    + assert (MemberKey_eq m.1 (MemberKey_get m.1) = true) as ->
        by by apply MemberKey_eq_true.
      simpl. split; [done|lia].
    + destruct (MemberKey_eq m.1 (MemberKey_get member.1)) eqn:E.
      * apply MemberKey_eq_true in E. exfalso. apply Hm. rewrite E.
        unfold key_names. apply list_elem_of_fmap. by exists member.
      * rewrite find_from_shift. destruct (IH Hnd Hin) as [Hl Hb].
        pose proof (find_from_range (MemberKey_get member.1) ms 0) as Hr.
        replace (Z.to_nat (0 + 1 + find_from (MemberKey_get member.1) ms 0))
          with (S (Z.to_nat (find_from (MemberKey_get member.1) ms 0))) by lia.
        simpl. split; [done|lia].
Qed.

(** *** Unfolding [operator==] on containers *)

Lemma operator_eq_object members capacity other :
  operator_eq (object members capacity) other =
  isObject other
  && (Z.of_nat (length members) =? numMembers other)
  && forallb (member_matches other) members.
Proof.
  destruct other; try reflexivity.
  cbn [operator_eq isInt isFloat isInt32 isInt64 type ValueType_eqb orb andb negb isObject].
  destruct (Z.of_nat (length members) =? numMembers (object members0 capacity0));
    [|reflexivity].
  cbn [negb andb]. induction members as [|m ms IH]; [reflexivity|].
  cbn [forallb]. unfold member_matches at 1.
  cbv zeta.
  destruct (numMembers (object members0 capacity0) <=?
            findObjectMember (MemberKey_get m.1) (object members0 capacity0));
    [reflexivity|].
  destruct (_ !! _) as [om|]; [|reflexivity].
  destruct (operator_eq m.2 om.2); [|reflexivity].
  cbn [negb andb]. apply IH.
Qed.

Lemma operator_eq_array elements capacity other :
  operator_eq (array elements capacity) other =
  isArray other
  && (Z.of_nat (length elements) =? numElements other)
  && elements_equal elements (fst (arrayData other)).
Proof.
  destruct other; try reflexivity.
  cbn [operator_eq isInt isFloat isInt32 isInt64 type ValueType_eqb orb andb negb isArray].
  destruct (Z.of_nat (length elements) =? numElements (array elements0 capacity0));
    [|reflexivity].
  reflexivity.
Qed.

(** ** Equality of objects *)

(** One iteration of the object loop succeeds exactly when the right
    operand has a same-named member with an equal value. *)
Lemma member_matches_spec mb cb member :
  unique_keys mb ->
  member_matches (object mb cb) member = true <->
  exists otherMember,
    otherMember ∈ mb
    /\ MemberKey_get (fst otherMember) = MemberKey_get (fst member)
    /\ operator_eq (snd member) (snd otherMember) = true.
Proof.
  intros Hu. unfold member_matches, findObjectMember, numMembers, objectData.
  cbn [fst snd]. cbv zeta. split.
  - destruct (Z.leb_spec (Z.of_nat (length mb))
                (find_from (MemberKey_get member.1) mb 0)) as [Hge|Hlt]; [done|].
    destruct (find_from_found _ _ Hlt) as (om & Hom & Hk & _).
    rewrite Hom. intros Heq. exists om. split; [|done].
    apply list_elem_of_lookup. eauto.
  - intros (om & Hin & Hk & Heq).
    destruct (find_from_unique om mb Hu Hin) as [Hl Hb].
    rewrite Hk in Hl, Hb. rewrite Hl.
    destruct (Z.leb_spec (Z.of_nat (length mb))
                (find_from (MemberKey_get member.1) mb 0)); [lia|done].
Qed.

Lemma operator_eq_object_spec ma ca mb cb :
  unique_keys mb ->
  operator_eq (object ma ca) (object mb cb) = true <->
  length ma = length mb
  /\ forall member, member ∈ ma ->
       exists otherMember,
         otherMember ∈ mb
         /\ MemberKey_get (fst otherMember) = MemberKey_get (fst member)
         /\ operator_eq (snd member) (snd otherMember) = true.
Proof.
  intros Hu. rewrite operator_eq_object. cbn [isObject type ValueType_eqb andb].
  unfold numMembers, objectData. cbn [fst].
  rewrite andb_true_iff, Z.eqb_eq, forallb_forall. split.
  - intros [Hlen Hall]. split; [lia|]. intros member Hin.
    apply (proj1 (member_matches_spec mb cb member Hu)).
    apply Hall. by apply list_elem_of_In.
  - intros [Hlen Hall]. split; [lia|]. intros member Hin.
    apply (proj2 (member_matches_spec mb cb member Hu)).
    apply Hall. by apply list_elem_of_In.
Qed.

Lemma unique_keys_Permutation ma mb :
  ma ≡ₚ mb -> unique_keys ma -> unique_keys mb.
Proof.
  unfold unique_keys, key_names. intros Hp.
  by rewrite (fmap_Permutation _ _ _ Hp).
Qed.

(** C5: for two objects [a] and [b] (the keys of [b] being unique, as they
    are in every object's storage), [a == b] holds if and only if they have
    the same member count and every member of [a] has a same-named member
    in [b] with an equal value; the order of the members of either operand
    does not matter; [{a:1,b:2} == {b:2,a:1}] is true and
    [{a:1} == {a:1,b:2}] is false. *)
Theorem object_equality_compares_member_sets
  (ma mb : list Member) (ca cb : Z) :
  unique_keys mb ->
  (operator_eq (object ma ca) (object mb cb) = true <->
     length ma = length mb
     /\ forall member, member ∈ ma ->
          exists otherMember,
            otherMember ∈ mb
            /\ MemberKey_get (fst otherMember) = MemberKey_get (fst member)
            /\ operator_eq (snd member) (snd otherMember) = true)
  /\ (forall ma' mb' ca' cb',
        ma' ≡ₚ ma -> mb' ≡ₚ mb ->
        operator_eq (object ma' ca') (object mb' cb')
        = operator_eq (object ma ca) (object mb cb))
  /\ operator_eq
       (object [(MemberKey_of "a", int32 1); (MemberKey_of "b", int32 2)] 4)
       (object [(MemberKey_of "b", int32 2); (MemberKey_of "a", int32 1)] 4) = true
  /\ operator_eq
       (object [(MemberKey_of "a", int32 1)] 4)
       (object [(MemberKey_of "a", int32 1); (MemberKey_of "b", int32 2)] 4) = false.
Proof.
  intros Hu. split; [by apply operator_eq_object_spec|].
  split; [|split; reflexivity].
  intros ma' mb' ca' cb' Hpa Hpb.
  assert (unique_keys mb') as Hu'.
  { eapply unique_keys_Permutation; [symmetry; exact Hpb|exact Hu]. }
  apply eq_true_iff_eq.
  rewrite (operator_eq_object_spec ma' ca' mb' cb' Hu').
  rewrite (operator_eq_object_spec ma ca mb cb Hu).
  pose proof (Permutation_length Hpa) as Hla.
  pose proof (Permutation_length Hpb) as Hlb.
  split; intros [Hlen Hall]; (split; [lia|]); intros member Hin.
  - rewrite <- Hpa in Hin. destruct (Hall member Hin) as (om & Ho & Hk & He).
    exists om. by rewrite <- Hpb.
  - rewrite Hpa in Hin. destruct (Hall member Hin) as (om & Ho & Hk & He).
    exists om. by rewrite Hpb.
Qed.

Lemma object_equality_compares_member_sets_witness :
  unique_keys [(MemberKey_of "x", bool_ true); (MemberKey_of "y", null)]
  /\ (operator_eq
        (object [(MemberKey_of "y", null); (MemberKey_of "x", bool_ true)] 2)
        (object [(MemberKey_of "x", bool_ true); (MemberKey_of "y", null)] 4) = true
      <-> length [(MemberKey_of "y", null); (MemberKey_of "x", bool_ true)]
          = length [(MemberKey_of "x", bool_ true); (MemberKey_of "y", null)]
          /\ forall member,
               member ∈ [(MemberKey_of "y", null); (MemberKey_of "x", bool_ true)] ->
               exists otherMember,
                 otherMember ∈ [(MemberKey_of "x", bool_ true); (MemberKey_of "y", null)]
                 /\ MemberKey_get (fst otherMember) = MemberKey_get (fst member)
                 /\ operator_eq (snd member) (snd otherMember) = true).
Proof.
  assert (unique_keys [(MemberKey_of "x", bool_ true); (MemberKey_of "y", null)])
    as Hu by decide_by_computation.
  split; [exact Hu|].
  apply (object_equality_compares_member_sets
           [(MemberKey_of "y", null); (MemberKey_of "x", bool_ true)]
           [(MemberKey_of "x", bool_ true); (MemberKey_of "y", null)] 2 4 Hu).
Defined.

(** ** Equality of numbers *)

Lemma numeric_operand_defined this :
  (isInt this || isFloat this) = true ->
  exists d, numeric_operand this = Ok d.
Proof. destruct this; try discriminate; intros _; eexists; reflexivity. Qed.

(** *** The conversion of an integer to [double] *)

(** The number of binary digits of a positive number. *)
Lemma digits2_pos_bounds p :
  2 ^ (Zpos (digits2_pos p) - 1) <= Zpos p < 2 ^ Zpos (digits2_pos p).
Proof.
  induction p as [p IH|p IH|]; cbn [digits2_pos].
  - rewrite Pos2Z.inj_succ.
    replace (Z.succ (Zpos (digits2_pos p)) - 1)
      with (Z.succ (Zpos (digits2_pos p) - 1)) by lia.
    rewrite !Z.pow_succ_r by lia. lia.
  - rewrite Pos2Z.inj_succ.
    replace (Z.succ (Zpos (digits2_pos p)) - 1)
      with (Z.succ (Zpos (digits2_pos p) - 1)) by lia.
    rewrite !Z.pow_succ_r by lia. lia.
  - cbn. lia.
Qed.

Lemma digits2_pos_iter_xO p k :
  digits2_pos (Pos.iter xO p k) = (digits2_pos p + k)%positive.
Proof.
  induction k as [|k IH] using Pos.peano_ind.
  - cbn. lia.
  - rewrite Pos.iter_succ. cbn [digits2_pos]. rewrite IH. lia.
Qed.

Lemma iter_xO_inj k p q : Pos.iter xO p k = Pos.iter xO q k -> p = q.
Proof.
  induction k as [|k IH] using Pos.peano_ind.
  - cbn. congruence.
  - rewrite !Pos.iter_succ. intros [= H]. apply IH, H.
Qed.

(** A mantissa of 53 digits with an exponent in range is kept as it is. *)
Lemma binary_round_aux_canonical s m e :
  Zpos (digits2_pos m) = 53 ->
  - 1074 <= e <= 971 ->
  binary_round_aux 53 1024 s (Zpos m) e loc_Exact = S754_finite s m e.
Proof.
  intros Hdigits He.
  assert (shr_fexp 53 1024 (Zpos m) e loc_Exact
          = ({| shr_m := Zpos m; shr_r := false; shr_s := false |}, e)) as Hshr.
  { unfold shr_fexp, fexp, emin. cbn [Zdigits2 shr_record_of_loc]. rewrite Hdigits.
    replace (Z.max (53 + e - 53) (3 - 1024 - 53) - e) with 0 by lia.
    reflexivity. }
  unfold binary_round_aux. rewrite Hshr.
  cbn [shr_m loc_of_shr_record round_nearest_even]. rewrite Hshr.
  cbn [shr_m]. destruct (Z.leb_spec e (1024 - 53)); [reflexivity|lia].
Qed.

(** The conversion of a positive integer of at most 53 digits. *)
Lemma binary_round_exact s p :
  Zpos (digits2_pos p) <= 53 ->
  binary_round 53 1024 s p 0
  = S754_finite s (fst (shl_align p 0 (Zpos (digits2_pos p) - 53)))
      (Zpos (digits2_pos p) - 53).
Proof.
  intros Hdigits. unfold binary_round, fexp, emin.
  replace (Z.max (Zpos (digits2_pos p) + 0 - 53) (3 - 1024 - 53))
    with (Zpos (digits2_pos p) - 53) by lia.
  unfold shl_align.
  destruct (Zpos (digits2_pos p) - 53 - 0) as [|k|k] eqn:Hshift; try lia.
  - cbn [fst]. replace (Zpos (digits2_pos p) - 53) with 0 by lia.
    apply binary_round_aux_canonical; lia.
  - cbn [fst]. apply binary_round_aux_canonical; [|lia].
    rewrite digits2_pos_iter_xO. lia.
Qed.

Lemma shl_align_inj p q e :
  fst (shl_align p 0 e) = fst (shl_align q 0 e) -> p = q.
Proof.
  unfold shl_align. destruct (e - 0); cbn [fst]; try done. apply iter_xO_inj.
Qed.

Lemma small_digits p : Zpos p < 2 ^ 53 -> Zpos (digits2_pos p) <= 53.
Proof.
  intros H. pose proof (digits2_pos_bounds p) as [Hlow _].
  destruct (Z.le_gt_cases (Zpos (digits2_pos p)) 53) as [|Hgt]; [done|].
  assert (2 ^ 53 <= 2 ^ (Zpos (digits2_pos p) - 1))
    by (apply Z.pow_le_mono_r; lia).
  lia.
Qed.

(** Below [2^53] the conversion to [double] loses nothing: two integers
    have equal doubles exactly when they are equal. *)
Lemma static_cast_double_exact x y :
  Z.abs x < 2 ^ 53 -> Z.abs y < 2 ^ 53 ->
  SFeqb (static_cast_double x) (static_cast_double y) = (x =? y).
Proof.
  intros Hx Hy. unfold static_cast_double, binary_normalize.
  destruct x as [|p|p], y as [|q|q]; try reflexivity;
    rewrite ?binary_round_exact by (apply small_digits; lia);
    try reflexivity.
  all: unfold SFeqb; cbn [SFcompare].
  all: change (PosDef.Pos.compare_cont Eq ?a ?b) with (Pos.compare a b).
  all: destruct (Z.compare_spec (Zpos (digits2_pos p) - 53) (Zpos (digits2_pos q) - 53))
         as [He|He|He].
  all: try (symmetry; apply Z.eqb_neq; intros [= ->]; lia).
  all: rewrite He.
  all: destruct (Pos.compare_spec
                   (fst (shl_align p 0 (Zpos (digits2_pos q) - 53)))
                   (fst (shl_align q 0 (Zpos (digits2_pos q) - 53)))) as [Hm|Hm|Hm].
  all: try (apply shl_align_inj in Hm as ->; cbn [CompOpp]; symmetry;
            apply Z.eqb_refl).
  all: cbn [CompOpp]; symmetry; apply Z.eqb_neq; intros [= ->]; lia.
Qed.

Lemma iter_xO_value p k : Zpos (Pos.iter xO p k) = Zpos p * 2 ^ Zpos k.
Proof.
  induction k as [|k IH] using Pos.peano_ind.
  - cbn. lia.
  - rewrite Pos.iter_succ, Pos2Z.inj_succ, Z.pow_succ_r by lia.
    rewrite Pos2Z.inj_xO, IH. lia.
Qed.

(** Below [2^53] the double an integer is converted to stands for that
    integer. *)
Lemma static_cast_double_value z :
  Z.abs z < 2 ^ 53 -> exactly (static_cast_double z) z.
Proof.
  intros Hz. unfold static_cast_double, binary_normalize.
  destruct z as [|p|p]; [reflexivity| |];
    rewrite binary_round_exact by (apply small_digits; lia);
    pose proof (small_digits p ltac:(lia)) as Hd;
    cbn [exactly]; rewrite Z.max_l by lia;
    rewrite Z.max_r by lia; rewrite Z.pow_0_r, Z.mul_1_r;
    unfold shl_align;
    destruct (Zpos (digits2_pos p) - 53 - 0) as [|k|k] eqn:Hshift; try lia;
    cbn [fst].
  - replace (- (Zpos (digits2_pos p) - 53)) with 0 by lia. lia.
  - replace (- (Zpos (digits2_pos p) - 53)) with (Zpos k) by lia.
    apply iter_xO_value.
  - replace (- (Zpos (digits2_pos p) - 53)) with 0 by lia. lia.
  - replace (- (Zpos (digits2_pos p) - 53)) with (Zpos k) by lia.
    pose proof (iter_xO_value p k). lia.
Qed.



(** ** Getters with a default *)

(** C7, as the code has it: [getWithDefault] never fails.  For a request
    of type [bool], [int32_t], [int64_t], [float], [double] or
    [std::string] it returns the held value when the tag matches the
    requested type — a held 32-bit integer also answers a 64-bit request,
    and a [float] request gets the held double narrowed — and the default
    otherwise.  Integers and floats are not converted into each other: an
    integer request on a float node, and a float request on an integer
    node, return the default.  A request of any other type
    ([std::string_view] among them) returns the default whatever the node
    holds. *)
Theorem getWithDefault_never_fails :
  (forall T defaultValue this, succeeds (getWithDefault T defaultValue this))
  /\ (forall defaultValue this,
        getWithDefault T_bool defaultValue this
        = Ok (match this with bool_ b => b | _ => defaultValue end))
  /\ (forall defaultValue this,
        getWithDefault T_int32 defaultValue this
        = Ok (match this with int32 z => z | _ => defaultValue end))
  /\ (forall defaultValue this,
        getWithDefault T_int64 defaultValue this
        = Ok (match this with int64 z => z | int32 z => z | _ => defaultValue end))
  /\ (forall defaultValue this,
        getWithDefault T_float defaultValue this
        = Ok (match this with double_ d => static_cast_float d | _ => defaultValue end))
  /\ (forall defaultValue this,
        getWithDefault T_double defaultValue this
        = Ok (match this with double_ d => d | _ => defaultValue end))
  /\ (forall defaultValue this,
        getWithDefault T_string defaultValue this
        = Ok (match this with
              | shortString chars | longString chars => chars
              | _ => defaultValue
              end))
  /\ (forall A (defaultValue : A) this,
        getWithDefault (T_other A) defaultValue this = Ok defaultValue).
Proof.
  split.
  { intros T d this. destruct T, this; exact I. }
  repeat split; intros; try (destruct this; reflexivity).
Qed.

(** C7 as stated fails: a float node holding 5.0 answers an integer request
    with whatever default is passed, and an integer node holding 5 answers a
    [double] request with the default. *)
Lemma getWithDefault_does_not_convert_between_float_and_int :
  getWithDefault T_int32 0 (double_ double_5) = Ok 0
  /\ getWithDefault T_int32 7 (double_ double_5) = Ok 7
  /\ getWithDefault T_int64 7 (double_ double_5) = Ok 7
  /\ getWithDefault T_double (S754_zero false) (int32 5) = Ok (S754_zero false)
  /\ getWithDefault T_float (S754_zero false) (int64 5) = Ok (S754_zero false).
Proof. repeat split; reflexivity. Qed.

(** ** Object lookups *)

Lemma hasObjectMember_spec key this :
  hasObjectMember key this
  = Ok (isObject this && bool_decide (key ∈ key_names (fst (objectData this)))).
Proof.
  unfold hasObjectMember. destruct (isObject this) eqn:E; [|reflexivity].
  apply isObject_inv in E as (ms & cap & ->).
  unfold findObjectMember, numMembers, objectData. cbn [negb andb fst]. f_equal.
  pose proof (find_from_range key ms 0) as Hr.
  pose proof (find_from_absent key ms) as Ha.
  destruct (Z.ltb_spec (find_from key ms 0) (Z.of_nat (length ms))) as [Hlt|Hge].
  - symmetry. apply bool_decide_eq_true_2.
    destruct (decide (key ∈ key_names ms)) as [|Hn]; [done|].
    apply Ha in Hn. lia.
  - symmetry. apply bool_decide_eq_false_2. apply Ha. lia.
Qed.

(** C8, as the code has it: [hasObjectMember] never fails and answers
    [false] when the value is not an object or the key is absent;
    [getObjectMemberAt] fails with TypeMismatch when the value is not an
    object, fails with IndexOutOfBounds when the value is an object and the
    index is at or beyond the member count, and otherwise returns the name
    and value of the member at that position. *)
Theorem object_lookup_failure_modes (this : Value) (key : string) (index : Z) :
  0 <= index < 2 ^ 32 ->
  (exists found,
      hasObjectMember key this = Ok found
      /\ (found = true <->
          isObject this = true /\ key ∈ key_names (fst (objectData this))))
  /\ (isObject this = false ->
      fails_with TypeMismatch (getObjectMemberAt index this))
  /\ (isObject this = true -> numMembers this <= index ->
      fails_with IndexOutOfBounds (getObjectMemberAt index this))
  /\ (isObject this = true -> index < numMembers this ->
      exists member,
        fst (objectData this) !! Z.to_nat index = Some member
        /\ getObjectMemberAt index this
           = Ok (MemberKey_get (fst member), snd member)).
Proof.
  intros Hindex. split; [|split; [|split]].
  - eexists. split; [apply hasObjectMember_spec|].
    rewrite andb_true_iff, bool_decide_eq_true. tauto.
  - intros E. unfold getObjectMemberAt. rewrite E. reflexivity.
  - intros E Hge. unfold getObjectMemberAt. rewrite E. cbn [negb].
    apply Z.leb_le in Hge. rewrite Hge. reflexivity.
  - intros E Hlt. unfold getObjectMemberAt. rewrite E. cbn [negb].
    destruct (Z.leb_spec (numMembers this) index) as [Hge|_]; [lia|].
    unfold numMembers in Hlt.
    destruct (lookup_lt_is_Some_2 (fst (objectData this)) (Z.to_nat index))
      as [member Hm]; [lia|].
    exists member. by rewrite Hm.
Qed.

Lemma object_lookup_failure_modes_witness :
  0 <= 1 < 2 ^ 32
  /\ exists member,
       fst (objectData (object [(MemberKey_of "a", int32 1);
                                (MemberKey_of "b", int32 2)] 4)) !! Z.to_nat 1
       = Some member
       /\ getObjectMemberAt 1
            (object [(MemberKey_of "a", int32 1); (MemberKey_of "b", int32 2)] 4)
          = Ok (MemberKey_get (fst member), snd member).
Proof.
  split; [lia|].
  apply (object_lookup_failure_modes
           (object [(MemberKey_of "a", int32 1); (MemberKey_of "b", int32 2)] 4)
           "a" 1); [lia|reflexivity|reflexivity].
Defined.

(** C8 as stated fails: on a value that is not an object,
    [getObjectMemberAt] throws the type error. *)
Lemma getObjectMemberAt_fails_on_non_object :
  getObjectMemberAt 0 null = Throw "Value is not an object"
  /\ fails_with TypeMismatch (getObjectMemberAt 0 null)
  /\ fails_with TypeMismatch (getObjectMemberAt 0 (int32_array [1; 2; 3])).
Proof. repeat split; reflexivity. Qed.

(** ** Reserving capacity *)

Section Reserve.
Variable realloc_ok : Z -> bool.

Lemma ensureArray_spec this :
  ensureArray this = (if isArray this then this else array [] 0, Ok tt).
Proof. unfold ensureArray. run_method. by destruct (isArray this). Qed.

Lemma ensureObject_spec this :
  ensureObject this = (if isObject this then this else object [] 0, Ok tt).
Proof. unfold ensureObject. run_method. by destruct (isObject this). Qed.

Lemma reserveArray_array elements capacity n :
  reserveArray realloc_ok n (array elements capacity)
  = if n <=? capacity then (array elements capacity, Ok tt)
    else if realloc_ok (n * sizeof_Value) then (array elements n, Ok tt)
    else (array elements capacity, Throw "Failed to allocate memory for array").
Proof.
  unfold reserveArray. run_method. rewrite ensureArray_spec.
  cbn [isArray type ValueType_eqb arrayData fst snd].
  destruct (n <=? capacity); [reflexivity|].
  by destruct (realloc_ok _).
Qed.

Lemma reserveObject_object members capacity n :
  reserveObject realloc_ok n (object members capacity)
  = if n <=? capacity then (object members capacity, Ok tt)
    else if realloc_ok (n * sizeof_Member) then (object members n, Ok tt)
    else (object members capacity, Throw "Failed to allocate memory for object").
Proof.
  unfold reserveObject. run_method. rewrite ensureObject_spec.
  cbn [isObject type ValueType_eqb objectData fst snd].
  destruct (n <=? capacity); [reflexivity|].
  by destruct (realloc_ok _).
Qed.

Lemma reserveArray_non_array this n :
  isArray this = false ->
  reserveArray realloc_ok n this = reserveArray realloc_ok n (array [] 0).
Proof.
  intros E. unfold reserveArray. run_method. rewrite !ensureArray_spec, E.
  reflexivity.
Qed.

Lemma reserveObject_non_object this n :
  isObject this = false ->
  reserveObject realloc_ok n this = reserveObject realloc_ok n (object [] 0).
Proof.
  intros E. unfold reserveObject. run_method. rewrite !ensureObject_spec, E.
  reflexivity.
Qed.

(** [reserveArray] and [reserveObject] on a value of another type: the
    value becomes the empty container, and the only failure is a refused
    allocation. *)
Lemma reserve_non_container_spec (this : Value) (n : Z) :
  (isArray this = false ->
   let after := fst (reserveArray realloc_ok n this) in
   let outcome := snd (reserveArray realloc_ok n this) in
   ensureArray this = (array [] 0, Ok tt)
   /\ ~ fails_with TypeMismatch outcome
   /\ after = array [] (snd (arrayData after))
   /\ size after = Ok 0
   /\ (n <= 0 \/ realloc_ok (n * sizeof_Value) = true ->
       outcome = Ok tt /\ n <= snd (arrayData after))
   /\ (0 < n -> realloc_ok (n * sizeof_Value) = false ->
       fails_with AllocationFailure outcome /\ after = array [] 0))
  /\ (isObject this = false ->
      let after := fst (reserveObject realloc_ok n this) in
      let outcome := snd (reserveObject realloc_ok n this) in
      ensureObject this = (object [] 0, Ok tt)
      /\ ~ fails_with TypeMismatch outcome
      /\ after = object [] (snd (objectData after))
      /\ size after = Ok 0
      /\ (n <= 0 \/ realloc_ok (n * sizeof_Member) = true ->
          outcome = Ok tt /\ n <= snd (objectData after))
      /\ (0 < n -> realloc_ok (n * sizeof_Member) = false ->
          fails_with AllocationFailure outcome /\ after = object [] 0)).
Proof.
  split; intros E; cbv zeta.
  - rewrite (reserveArray_non_array this n E), reserveArray_array.
    rewrite ensureArray_spec, E. split; [reflexivity|].
    destruct (Z.leb_spec n 0) as [Hn|Hn];
      [|destruct (realloc_ok (n * sizeof_Value)) eqn:Hr]; cbn;
      repeat split; try done; try lia;
      try (intros [?|?]; first [lia|discriminate]);
      intros H; discriminate H.
  - rewrite (reserveObject_non_object this n E), reserveObject_object.
    rewrite ensureObject_spec, E. split; [reflexivity|].
    destruct (Z.leb_spec n 0) as [Hn|Hn];
      [|destruct (realloc_ok (n * sizeof_Member)) eqn:Hr]; cbn;
      repeat split; try done; try lia;
      try (intros [?|?]; first [lia|discriminate]);
      intros H; discriminate H.
Qed.

End Reserve.


(** ** Splice *)

(** *** Buffers *)

Lemma moved_out_0 elements index : moved_out elements index 0 = elements.
Proof. unfold moved_out. cbn [replicate app]. rewrite Nat.add_0_r. apply take_drop. Qed.

Lemma moved_out_length elements index i :
  (index + i <= length elements)%nat ->
  length (moved_out elements index i) = length elements.
Proof.
  intros H. unfold moved_out.
  rewrite !length_app, length_take, length_replicate, length_drop. lia.
Qed.

Lemma moved_out_lookup elements index i :
  (index + i < length elements)%nat ->
  moved_out elements index i !! (index + i)%nat = elements !! (index + i)%nat.
Proof.
  intros H. unfold moved_out.
  rewrite lookup_app_r; rewrite length_take; [|lia].
  rewrite lookup_app_r; rewrite length_replicate; [|lia].
  rewrite lookup_drop. f_equal. lia.
Qed.

Lemma moved_out_step elements index i :
  (index + i < length elements)%nat ->
  <[(index + i)%nat := undefined]> (moved_out elements index i)
  = moved_out elements index (S i).
Proof.
  intros H. unfold moved_out.
  destruct (lookup_lt_is_Some_2 elements (index + i)%nat H) as [e He].
  rewrite insert_app_r_alt; rewrite length_take; [|lia].
  rewrite insert_app_r_alt; rewrite length_replicate; [|lia].
  replace (index + i - index `min` length elements - i)%nat with 0%nat by lia.
  rewrite (drop_S _ _ _ He). cbn [insert list_insert].
  rewrite replicate_S_end, <- app_assoc. cbn [app].
  by replace (index + S i)%nat with (S (index + i)) by lia.
Qed.

(** Closing the gap: after the [d] slots at [index] have been moved from,
    [memmove] shifts the tail left and the new count drops the stale
    slots at the end. *)
Lemma memmove_closes_gap elements index d :
  (index + d <= length elements)%nat ->
  take (length elements - d)
    (memmove (moved_out elements index d) index (index + d)
       (length elements - index - d))
  = take index elements ++ drop (index + d) elements.
Proof.
  intros H. unfold memmove.
  assert (take index (moved_out elements index d) = take index elements) as ->.
  { unfold moved_out. rewrite take_app_le; [|rewrite length_take; lia].
    rewrite take_take. f_equal. lia. }
  assert (drop (index + d) (moved_out elements index d) = drop (index + d) elements) as ->.
  { unfold moved_out. rewrite drop_app_ge; rewrite length_take; [|lia].
    rewrite drop_app_ge; rewrite length_replicate; [|lia].
    rewrite drop_drop. f_equal. lia. }
  rewrite (take_ge (drop _ _)); [|rewrite length_drop; lia].
  rewrite app_assoc. apply take_app_length'.
  rewrite length_app, length_take, length_drop. lia.
Qed.

Section Splice.
Variable realloc_ok : Z -> bool.

Lemma move_element_spec elements capacity i element :
  elements !! Z.to_nat i = Some element ->
  move_element i (array elements capacity)
  = (array (<[Z.to_nat i := undefined]> elements) capacity, Ok element).
Proof. intros H. unfold move_element. run_method. cbn [arrayData fst snd]. by rewrite H. Qed.

Lemma addArrayElement_spare elements capacity value :
  Z.of_nat (length elements) < capacity ->
  addArrayElement realloc_ok value (array elements capacity)
  = (array (elements ++ [value]) capacity, Ok tt).
Proof.
  intros H. unfold addArrayElement. run_method. rewrite ensureArray_spec.
  cbn [isArray type ValueType_eqb arrayData fst snd]. unfold numElements.
  cbn [arrayData fst snd].
  destruct (Z.leb_spec capacity (Z.of_nat (length elements))); [lia|reflexivity].
Qed.

(** The first loop of [splice]: each iteration moves one element of the
    source into the result. *)
Lemma splice_move_loop elements capacity index d count i :
  0 <= index ->
  Z.of_nat (length elements) < 2 ^ 32 ->
  (i + count = d)%nat ->
  (Z.to_nat index + d <= length elements)%nat ->
  for_loop count (Z.of_nat i)
    (fun i result =>
       moved <- move_element (wrap32 (index + i)) ;;
       added <- on result (addArrayElement realloc_ok moved) ;;
       ret (fst added))
    (array (take i (drop (Z.to_nat index) elements)) (Z.of_nat d))
    (array (moved_out elements (Z.to_nat index) i) capacity)
  = (array (moved_out elements (Z.to_nat index) d) capacity,
     Ok (array (take d (drop (Z.to_nat index) elements)) (Z.of_nat d))).
Proof.
  intros Hindex Hn. revert i. induction count as [|count IH]; intros i Hi Hd.
  - cbn [for_loop]. unfold ret. by replace i with d by lia.
  - cbn [for_loop].
    destruct (lookup_lt_is_Some_2 elements (Z.to_nat index + i)%nat) as [e He]; [lia|].
    assert (Z.to_nat (wrap32 (index + Z.of_nat i)) = (Z.to_nat index + i)%nat) as Hw.
    { rewrite wrap32_small; lia. }
    unfold bind at 1. unfold bind at 1.
    rewrite (move_element_spec _ _ _ e);
      [|rewrite Hw, moved_out_lookup; [done|lia]].
    rewrite Hw, moved_out_step; [|lia].
    unfold bind at 1. unfold on.
    rewrite addArrayElement_spare; [|rewrite length_take, length_drop; lia].
    unfold ret at 1. cbn [fst].
    rewrite <- (take_S_r _ _ e); [|by rewrite lookup_drop].
    replace (Z.of_nat i + 1) with (Z.of_nat (S i)) by lia.
    apply IH; lia.
Qed.

(** The effect of [splice (index, deleteCount)] on an array. *)
Lemma splice_spec elements capacity index deleteCount :
  Z.of_nat (length elements) < 2 ^ 32 ->
  0 <= index < 2 ^ 32 ->
  0 <= deleteCount < 2 ^ 32 ->
  let n := Z.of_nat (length elements) in
  let d := Z.min deleteCount (n - index) in
  splice realloc_ok index deleteCount (array elements capacity)
  = if n <=? index then (array elements capacity, Ok (array [] 0))
    else if d =? 0 then (array elements capacity, Ok (array [] 0))
    else if realloc_ok (d * sizeof_Value)
    then (array (take (Z.to_nat index) elements
                 ++ drop (Z.to_nat (index + d)) elements) capacity,
          Ok (array (take (Z.to_nat d) (drop (Z.to_nat index) elements)) d))
    else (array elements capacity, Throw "Failed to allocate memory for array").
Proof.
  intros Hn Hindex Hdc n d. unfold splice. cbv zeta.
  unfold bind at 1. unfold get_this at 1.
  cbn [isArray type ValueType_eqb negb]. unfold numElements.
  cbn [arrayData fst snd]. fold n.
  destruct (Z.leb_spec n index) as [Hge|Hlt]; [reflexivity|].
  rewrite !(wrap32_small (n - index)) by lia. fold d.
  destruct (Z.eqb_spec d 0) as [Hd0|Hd0]; [reflexivity|].
  assert (0 < d <= n - index) as Hd by lia.
  unfold bind at 1. unfold on at 1. unfold createEmptyArray.
  rewrite reserveArray_array.
  destruct (Z.leb_spec d 0) as [|_]; [lia|].
  destruct (realloc_ok (d * sizeof_Value)); [|reflexivity].
  cbn [fst]. unfold bind at 1.
  pose proof (splice_move_loop elements capacity index (Z.to_nat d) (Z.to_nat d) 0)
    as Hloop.
  rewrite moved_out_0, take_0 in Hloop. change (Z.of_nat 0) with 0 in Hloop.
  rewrite Z2Nat.id in Hloop by lia.
  rewrite Hloop by lia. clear Hloop.
  run_method. unfold numElements. cbn [arrayData fst snd].
  rewrite moved_out_length by lia. fold n.
  rewrite (wrap32_small (n - index)) by lia.
  rewrite (wrap32_small (n - index - d)) by lia.
  rewrite (wrap32_small (n - d)) by lia.
  replace (Z.to_nat (index + d)) with (Z.to_nat index + Z.to_nat d)%nat by lia.
  replace (Z.to_nat (n - index - d))
    with (length elements - Z.to_nat index - Z.to_nat d)%nat by lia.
  replace (Z.to_nat (n - d)) with (length elements - Z.to_nat d)%nat by lia.
  rewrite memmove_closes_gap by lia. reflexivity.
Qed.

End Splice.

(** C2: on an array whose used-count is [n], [splice (index, deleteCount)]
    returns the empty array and leaves the source unchanged when
    [index >= n]; otherwise, with [d = min (deleteCount, n - index)], it
    returns an array holding the former elements [[index, index + d)] in
    their order, the elements after the removed range are shifted left
    over the gap, and the used-count of the source becomes [n - d].  (The
    buffer of the returned array is the one allocation made; should the
    allocator refuse it, the call throws and the source is unchanged.)
    On [[0..9]] with [index = 2] and [deleteCount = 3] it returns
    [[2,3,4]] and leaves [[0,1,5,6,7,8,9]]. *)
Theorem splice_removes_clamped_range (realloc_ok : Z -> bool)
  (elements : list Value) (capacity index deleteCount : Z) :
  let n := Z.of_nat (length elements) in
  let d := Z.min deleteCount (n - index) in
  let call := splice realloc_ok index deleteCount (array elements capacity) in
  n < 2 ^ 32 ->
  0 <= index < 2 ^ 32 ->
  0 <= deleteCount < 2 ^ 32 ->
  (n <= index -> call = (array elements capacity, Ok (array [] 0)))
  /\ (index < n -> d = 0 \/ realloc_ok (d * sizeof_Value) = true ->
      exists resultCapacity,
        call = (array (take (Z.to_nat index) elements
                       ++ drop (Z.to_nat (index + d)) elements) capacity,
                Ok (array (take (Z.to_nat d) (drop (Z.to_nat index) elements))
                      resultCapacity))
        /\ numElements (fst call) = n - d
        /\ (forall j, (j < Z.to_nat index)%nat ->
              fst (arrayData (fst call)) !! j = elements !! j)
        /\ (forall j, (Z.to_nat index <= j)%nat ->
              fst (arrayData (fst call)) !! j = elements !! (j + Z.to_nat d)%nat))
  /\ (index < n -> d <> 0 -> realloc_ok (d * sizeof_Value) = false ->
      fst call = array elements capacity
      /\ fails_with AllocationFailure (snd call))
  /\ splice always_grants 2 3 (int32_array [0; 1; 2; 3; 4; 5; 6; 7; 8; 9])
     = (array (map int32 [0; 1; 5; 6; 7; 8; 9]) 10,
        Ok (array (map int32 [2; 3; 4]) 3)).
Proof.
  intros n d call Hn Hindex Hdc.
  pose proof (splice_spec realloc_ok elements capacity index deleteCount
                Hn Hindex Hdc) as Hs.
  cbv zeta in Hs. fold n in Hs. fold d in Hs. fold call in Hs.
  split; [|split; [|split; [|reflexivity]]].
  - intros Hge. rewrite Hs. by destruct (Z.leb_spec n index); [|lia].
  - intros Hlt Halloc. destruct (Z.leb_spec n index) as [|_]; [lia|].
    assert (call = (array (take (Z.to_nat index) elements
                           ++ drop (Z.to_nat (index + d)) elements) capacity,
                    Ok (array (take (Z.to_nat d) (drop (Z.to_nat index) elements))
                          d))) as Hcall.
    { rewrite Hs. destruct (Z.eqb_spec d 0) as [Hd0|Hd0].
      - rewrite Hd0, Z.add_0_r. cbn [Z.to_nat take]. by rewrite take_drop.
      - destruct Halloc as [?| ->]; [lia|done]. }
    exists d. split; [exact Hcall|]. rewrite Hcall.
    unfold numElements. cbn [fst snd arrayData].
    split; [|split].
    + rewrite length_app, length_take, length_drop. lia.
    + intros j Hj. rewrite lookup_app_l; [|rewrite length_take; lia].
      by apply lookup_take_lt.
    + intros j Hj. rewrite lookup_app_r; rewrite length_take; [|lia].
      rewrite lookup_drop. f_equal. lia.
  - intros Hlt Hd0 Hr. rewrite Hs.
    destruct (Z.leb_spec n index) as [|_]; [lia|].
    destruct (Z.eqb_spec d 0) as [|_]; [lia|].
    rewrite Hr. by split.
Qed.

Lemma splice_removes_clamped_range_witness :
  Z.of_nat (length (map int32 [10; 11; 12; 13; 14])) < 2 ^ 32
  /\ 0 <= 3 < 2 ^ 32
  /\ 0 <= 7 < 2 ^ 32
  /\ exists resultCapacity,
       splice always_grants 3 7 (array (map int32 [10; 11; 12; 13; 14]) 8)
       = (array (map int32 [10; 11; 12]) 8,
          Ok (array (map int32 [13; 14]) resultCapacity)).
Proof.
  split; [vm_compute; reflexivity|]. split; [lia|]. split; [lia|].
  destruct (splice_removes_clamped_range always_grants
              (map int32 [10; 11; 12; 13; 14]) 8 3 7)
    as (_ & H & _); [vm_compute; reflexivity|lia|lia|].
  destruct H as (c & Hc & _); [vm_compute; reflexivity|by right|].
  exists c. exact Hc.
Defined.

(** *** Splice with insertion *)

(** Placing a pack of values that are no part of the array overwrites
    exactly the slots from the insertion point on. *)
Lemma insertElements_spec in_place former n capacity buf (at_ : nat)
  (values : list Value) :
  (at_ + length values <= length buf)%nat ->
  insertElements (read_element in_place former n capacity) buf (Z.of_nat at_)
    (to_other <$> values)
  = Some (take at_ buf ++ values ++ drop (at_ + length values) buf).
Proof.
  revert buf at_. induction values as [|e rest IH]; intros buf at_ H.
  - cbn [insertElements length app fmap list_fmap]. by rewrite Nat.add_0_r, take_drop.
  - cbn [insertElements length fmap list_fmap read_element] in *.
    replace (Z.of_nat at_ + 1) with (Z.of_nat (S at_)) by lia.
    rewrite Nat2Z.id, IH; [|rewrite length_insert; lia]. f_equal.
    rewrite (take_S_r _ _ e); [|apply list_lookup_insert_eq; lia].
    rewrite take_insert_ge by lia.
    rewrite drop_insert_lt by lia.
    replace (S at_ + length rest)%nat with (at_ + S (length rest))%nat by lia.
    by rewrite <- app_assoc.
Qed.

(** Opening the gap and filling it: the live elements [rem] followed by
    at least [k] further slots, the pack of [k] values placed at [at_]. *)
Lemma insert_into_buffer (rem extra values : list Value) (at_ : nat) :
  (at_ <= length rem)%nat ->
  (length values <= length extra)%nat ->
  let buffer :=
    if (Z.of_nat at_ <? Z.of_nat (length rem))
    then memmove (rem ++ extra) (at_ + length values) at_ (length rem - at_)
    else rem ++ extra in
  take (length rem + length values)
    (take at_ buffer ++ values ++ drop (at_ + length values) buffer)
  = take at_ rem ++ values ++ drop at_ rem.
Proof.
  intros Hat Hk. set (k := length values). cbv zeta.
  assert (memmove (rem ++ extra) (at_ + k) at_ (length rem - at_)
          = take at_ rem ++ take k (drop at_ (rem ++ extra))
              ++ drop at_ rem ++ drop (length rem + k) (rem ++ extra)) as Hmove.
  { unfold memmove.
    rewrite <- (take_drop at_ (take (at_ + k) (rem ++ extra))).
    rewrite take_take, Nat.min_l by lia.
    rewrite (take_app_le rem extra at_) by lia.
    rewrite <- take_drop_commute, <- app_assoc. do 2 f_equal.
    rewrite (drop_app_le rem extra at_) by lia.
    rewrite (take_app_length' (drop at_ rem)) by (rewrite length_drop; lia).
    do 2 f_equal. lia. }
  destruct (Z.ltb_spec (Z.of_nat at_) (Z.of_nat (length rem))) as [Hlt|Hge].
  - rewrite Hmove.
    rewrite (take_app_length' (take at_ rem)) by (rewrite length_take; lia).
    rewrite drop_app_ge; rewrite length_take; [|lia].
    replace (at_ + k - at_ `min` length rem)%nat with k by lia.
    rewrite drop_app_ge;
      rewrite length_take, length_drop, length_app; [|lia].
    replace (k - k `min` (length rem + length extra - at_))%nat with 0%nat by lia.
    rewrite drop_0, !app_assoc. apply take_app_length'.
    rewrite !length_app, length_take, length_drop. lia.
  - assert (at_ = length rem) as -> by lia.
    rewrite take_app_length, drop_all, (take_ge rem) by lia.
    rewrite app_nil_r, app_assoc. apply take_app_length'.
    by rewrite length_app.
Qed.

Lemma left_by_splice_length former index live :
  (length live <= length former)%nat ->
  (Z.to_nat index + (length former - length live) <= length former)%nat
  \/ length live = length former ->
  length (left_by_splice former index live) = (length former - length live)%nat.
Proof.
  intros Hle H. unfold left_by_splice. cbv zeta.
  rewrite length_drop, !length_app, length_take, length_replicate, length_drop.
  lia.
Qed.

Section SpliceInsert.
Variable realloc_ok : Z -> bool.

(** The effect of [splice (index, deleteCount, elementsToInsert...)] on an
    array, for a non-empty pack of values that are no part of the array. *)
Lemma splice_insert_spec elements capacity index deleteCount
  (elementsToInsert : list Value) :
  let n := Z.of_nat (length elements) in
  let k := Z.of_nat (length elementsToInsert) in
  let d := Z.min deleteCount (Z.max 0 (n - index)) in
  let remaining :=
    take (Z.to_nat index) elements ++ drop (Z.to_nat (index + d)) elements in
  let insertAt := Z.to_nat (Z.min index (n - d)) in
  n <= capacity < 2 ^ 32 ->
  0 <= index < 2 ^ 32 ->
  0 <= deleteCount < 2 ^ 32 ->
  0 < k ->
  n - d + k < 2 ^ 32 ->
  (d = 0 \/ realloc_ok (d * sizeof_Value) = true) ->
  (capacity < n - d + k -> realloc_ok ((n - d + k) * sizeof_Value) = true) ->
  splice realloc_ok index deleteCount (array elements capacity)
  = (array remaining capacity,
     Ok (array (take (Z.to_nat d) (drop (Z.to_nat index) elements)) d))
  /\ splice_insert realloc_ok index deleteCount (to_other <$> elementsToInsert)
       (array elements capacity)
     = Some (array (take insertAt remaining ++ elementsToInsert
                    ++ drop insertAt remaining)
               (Z.max capacity (n - d + k)),
             Ok (array (take (Z.to_nat d) (drop (Z.to_nat index) elements)) d)).
Proof.
  intros n k d remaining insertAt Hcap Hindex Hdc Hk Hsize Hdalloc Hgrow.
  assert (splice realloc_ok index deleteCount (array elements capacity)
          = (array remaining capacity,
             Ok (array (take (Z.to_nat d) (drop (Z.to_nat index) elements)) d)))
    as Hsplice.
  { rewrite splice_spec by lia. cbv zeta. fold n. subst remaining.
    destruct (Z.leb_spec n index) as [Hge|Hlt].
    - assert (d = 0) as Hd0 by lia. rewrite Hd0, Z.add_0_r.
      cbn [Z.to_nat take]. by rewrite take_drop.
    - assert (Z.min deleteCount (n - index) = d) as -> by lia.
      destruct (Z.eqb_spec d 0) as [Hd0|Hd0].
      + rewrite Hd0, Z.add_0_r. cbn [Z.to_nat take]. by rewrite take_drop.
      + destruct Hdalloc as [?| ->]; [lia|done]. }
  split; [exact Hsplice|].
  assert (Z.of_nat (length remaining) = n - d) as Hlen.
  { subst remaining. rewrite length_app, length_take, length_drop. lia. }
  unfold splice_insert. cbv zeta.
  unfold bind_ref at 1, defined at 1, get_this at 1.
  cbn [isArray type ValueType_eqb negb].
  unfold bind_ref at 1, defined at 1. rewrite Hsplice.
  rewrite length_fmap. fold k. destruct (Z.eqb_spec k 0) as [|_]; [lia|].
  unfold bind_ref at 1, defined at 1, get_this at 1.
  unfold numElements. cbn [arrayData fst snd]. rewrite Hlen. fold n.
  rewrite (wrap32_small (n - d + k)) by lia.
  assert ((if n - d <? index then n - d else index) = Z.of_nat insertAt) as ->.
  { subst insertAt. destruct (Z.ltb_spec (n - d) index); lia. }
  set (grown := Z.max capacity (n - d + k)).
  assert ((if capacity <? n - d + k
           then reserveArray realloc_ok (n - d + k)
           else ret tt) (array remaining capacity)
          = (array remaining grown, Ok tt)) as Hreserve.
  { subst grown. destruct (Z.ltb_spec capacity (n - d + k)) as [Hlt|Hge].
    - rewrite reserveArray_array.
      destruct (Z.leb_spec (n - d + k) capacity) as [|_]; [lia|].
      rewrite (Hgrow Hlt). by rewrite Z.max_r by lia.
    - unfold ret. by rewrite Z.max_l by lia. }
  unfold bind_ref at 1, defined at 1. rewrite Hreserve.
  unfold bind_ref at 1, defined at 1, get_this at 1.
  cbn [arrayData fst snd]. rewrite Hlen.
  rewrite (wrap32_small (n - d - Z.of_nat insertAt)) by lia.
  set (left := left_by_splice elements index remaining).
  assert (length left = Z.to_nat d) as Hleft.
  { subst left. rewrite left_by_splice_length; [lia|lia|].
    destruct (Z.leb_spec n index); [right; lia|left; lia]. }
  set (extra := left ++ replicate (Z.to_nat grown - length (remaining ++ left))%nat
                          undefined).
  assert (raw_buffer (remaining ++ left) grown = remaining ++ extra) as ->.
  { unfold raw_buffer. subst extra. by rewrite <- app_assoc. }
  assert (Z.to_nat k <= length extra)%nat as Hextra.
  { subst extra. rewrite length_app, length_replicate, length_app, Hleft.
    subst grown. lia. }
  replace (Z.to_nat (Z.of_nat insertAt + k))
    with (insertAt + length elementsToInsert)%nat by lia.
  rewrite Nat2Z.id.
  replace (Z.to_nat (n - d - Z.of_nat insertAt))
    with (length remaining - insertAt)%nat by lia.
  rewrite <- Hlen.
  rewrite insertElements_spec.
  2:{ destruct (Z.of_nat insertAt <? Z.of_nat (length remaining));
        [unfold memmove; rewrite !length_app, length_take, length_take, length_drop,
           length_drop, !length_app|rewrite length_app]; lia. }
  unfold bind_ref, defined, put_this, ret. do 3 f_equal.
  replace (Z.to_nat (Z.of_nat (length remaining) + k))
    with (length remaining + length elementsToInsert)%nat by lia.
  apply insert_into_buffer; lia.
Qed.

End SpliceInsert.




(** ** Object members *)

Lemma and_not32_ones x j :
  0 <= j -> 0 <= x < 2 ^ 32 ->
  and_not32 x (Z.ones j) = 2 ^ j * (x / 2 ^ j).
Proof.
  intros Hj Hx. unfold and_not32, wrap32.
  rewrite <- (Z.land_ones _ 32) by lia.
  rewrite (Z.land_comm (Z.lnot _)), Z.land_assoc.
  rewrite (Z.land_ones x 32) by lia.
  rewrite (Z.mod_small x) by lia.
  rewrite <- Z.ldiff_land, Z.ldiff_ones_r by lia.
  rewrite Z.shiftr_div_pow2, Z.shiftl_mul_pow2 by lia. lia.
Qed.

(** The capacity class [(count + 4) & ~3u] is the next multiple of four
    above [count]. *)
Lemma object_capacity_class count :
  0 <= count -> count + 4 < 2 ^ 32 ->
  and_not32 (wrap32 (count + 4)) 3 = 4 * ((count + 4) / 4)
  /\ count < 4 * ((count + 4) / 4) <= count + 4.
Proof.
  intros H0 H1. rewrite wrap32_small by lia.
  change 3 with (Z.ones 2). rewrite and_not32_ones by lia.
  change (2 ^ 2) with 4. split; [done|].
  pose proof (Z.div_mod (count + 4) 4) as Hd.
  pose proof (Z.mod_pos_bound (count + 4) 4) as Hm. lia.
Qed.

Lemma key_names_app ms1 ms2 : key_names (ms1 ++ ms2) = key_names ms1 ++ key_names ms2.
Proof. unfold key_names. apply map_app. Qed.

Lemma key_names_alter_value ms i newValue :
  key_names (alter (fun member : Member => (fst member, newValue)) i ms) = key_names ms.
Proof.
  revert i. induction ms as [|m ms IH]; intros [|i]; cbn; try done.
  f_equal. apply IH.
Qed.

Lemma members_named_absent name ms :
  name ∉ key_names ms -> members_named name ms = [].
Proof.
  induction ms as [|m ms IH]; [done|]. cbn [key_names map].
  rewrite not_elem_of_cons. intros [Hne Hnin]. unfold members_named.
  rewrite filter_cons_False by congruence. by apply IH.
Qed.

(** With unique keys, the members named [name] are the one member that
    carries the name. *)
Lemma members_named_unique name ms i member :
  unique_keys ms ->
  ms !! i = Some member ->
  MemberKey_get (fst member) = name ->
  members_named name ms = [member].
Proof.
  unfold unique_keys. revert i. induction ms as [|m ms IH]; intros i Hu Hl Hk; [done|].
  cbn [key_names map] in Hu. apply NoDup_cons in Hu as [Hm Hu].
  unfold members_named. destruct i as [|i]; cbn in Hl.
  - injection Hl as ->. rewrite filter_cons_True by done. f_equal.
    apply members_named_absent. by rewrite <- Hk.
  - rewrite filter_cons_False.
    + by apply (IH i).
    + intros Heq. apply Hm. rewrite Heq, <- Hk.
      apply list_elem_of_fmap. exists member. split; [done|].
      apply list_elem_of_lookup. eauto.
Qed.

(** What [set_member] does when the name is there. *)
Lemma set_member_present name newValue ms :
  name ∈ key_names ms ->
  exists i k v,
    find_from name ms 0 = Z.of_nat i
    /\ ms !! i = Some (k, v)
    /\ MemberKey_get k = name
    /\ set_member name newValue ms = <[i := (k, newValue)]> ms.
Proof.
  intros Hin. pose proof (find_from_range name ms 0) as Hr.
  assert (find_from name ms 0 < Z.of_nat (length ms)) as Hlt.
  { destruct (Z.eq_dec (find_from name ms 0) (Z.of_nat (length ms))) as [E|E]; [|lia].
    apply find_from_absent in E. done. }
  destruct (find_from_found name ms Hlt) as ([k v] & Hl & Hk & _).
  exists (Z.to_nat (find_from name ms 0)), k, v.
  split; [lia|]. split; [done|]. split; [done|].
  unfold set_member. cbv zeta. apply Z.ltb_lt in Hlt. rewrite Hlt.
  apply list_eq. intros j.
  destruct (decide (j = Z.to_nat (find_from name ms 0))) as [->|Hne].
  - rewrite list_lookup_alter_eq, Hl, list_lookup_insert_eq; [done|].
    by apply lookup_lt_Some in Hl.
  - by rewrite list_lookup_alter_ne, list_lookup_insert_ne.
Qed.

(** What [set_member] does when the name is not there. *)
Lemma set_member_absent name newValue ms :
  name ∉ key_names ms ->
  find_from name ms 0 = Z.of_nat (length ms)
  /\ set_member name newValue ms = ms ++ [(MemberKey_of name, newValue)].
Proof.
  intros Hnin. apply find_from_absent in Hnin. split; [done|].
  unfold set_member. cbv zeta. rewrite Hnin, Z.ltb_irrefl. done.
Qed.

Lemma set_member_key_names name newValue ms :
  key_names (set_member name newValue ms)
  = key_names ms ++ (if bool_decide (name ∈ key_names ms) then [] else [name]).
Proof.
  destruct (decide (name ∈ key_names ms)) as [Hin|Hnin].
  - rewrite bool_decide_eq_true_2 by done. rewrite app_nil_r.
    destruct (set_member_present name newValue ms Hin) as (i & k & v & Hf & Hl & _).
    apply lookup_lt_Some in Hl.
    unfold set_member. cbv zeta.
    destruct (Z.ltb_spec (find_from name ms 0) (Z.of_nat (length ms))); [|lia].
    apply key_names_alter_value.
  - rewrite bool_decide_eq_false_2 by done.
    destruct (set_member_absent name newValue ms Hnin) as [_ ->].
    rewrite key_names_app. cbn. by rewrite MemberKey_get_of.
Qed.

Lemma set_member_unique_keys name newValue ms :
  unique_keys ms -> unique_keys (set_member name newValue ms).
Proof.
  unfold unique_keys. intros Hu. rewrite set_member_key_names.
  destruct (decide (name ∈ key_names ms)) as [Hin|Hnin].
  - rewrite bool_decide_eq_true_2 by done. by rewrite app_nil_r.
  - rewrite bool_decide_eq_false_2 by done.
    apply NoDup_app. split; [done|]. split; [|apply NoDup_singleton].
    intros x Hx Hx'. apply list_elem_of_singleton in Hx'. by subst.
Qed.

Lemma set_member_length name newValue ms :
  length (set_member name newValue ms)
  = (length ms + (if bool_decide (name ∈ key_names ms) then 0 else 1))%nat.
Proof.
  pose proof (f_equal length (set_member_key_names name newValue ms)) as H.
  unfold key_names in H. rewrite length_app, !length_map in H. rewrite H.
  by destruct (bool_decide _).
Qed.

Section SetMember.
Variable realloc_ok : Z -> bool.

(** The effect of [setObjectMember] on an object. *)
Lemma setObjectMember_spec members capacity name newValue :
  let n := Z.of_nat (length members) in
  let grown := 4 * ((n + 4) / 4) in
  n <= capacity < 2 ^ 32 ->
  n + 4 < 2 ^ 32 ->
  setObjectMember realloc_ok name newValue (object members capacity)
  = if bool_decide (name ∈ key_names members)
    then (object (set_member name newValue members) capacity, Ok tt)
    else if capacity <=? n
    then if realloc_ok (grown * sizeof_Member)
         then (object (set_member name newValue members) grown, Ok tt)
         else (object members capacity,
               Throw "Failed to allocate memory for object")
    else (object (set_member name newValue members) capacity, Ok tt).
Proof.
  intros n grown Hcap Hn. unfold setObjectMember. unfold bind at 1.
  rewrite ensureObject_spec. cbn [isObject type ValueType_eqb].
  unfold bind at 1. unfold get_this at 1. cbv zeta.
  unfold findObjectMember, numMembers. cbn [objectData fst snd]. fold n.
  destruct (decide (name ∈ key_names members)) as [Hin|Hnin].
  - rewrite bool_decide_eq_true_2 by done.
    destruct (set_member_present name newValue members Hin)
      as (i & k & v & Hf & Hl & _ & _).
    apply lookup_lt_Some in Hl.
    unfold set_member. cbv zeta. fold n.
    destruct (Z.ltb_spec (find_from name members 0) n); [|lia].
    reflexivity.
  - rewrite bool_decide_eq_false_2 by done.
    destruct (set_member_absent name newValue members Hnin) as [Hf Hs].
    rewrite Hs, Hf. fold n. rewrite Z.ltb_irrefl.
    destruct (object_capacity_class n) as [Hclass Hbound]; [lia|lia|].
    rewrite Hclass. fold grown. fold grown in Hbound.
    unfold bind at 1.
    destruct (Z.leb_spec capacity n) as [Hfull|Hspare].
    + rewrite reserveObject_object.
      destruct (Z.leb_spec grown capacity) as [|_]; [lia|].
      destruct (realloc_ok (grown * sizeof_Member)); reflexivity.
    + reflexivity.
Qed.

Lemma reserveObject_grants members capacity request :
  (forall bytes, realloc_ok bytes = true) ->
  Z.of_nat (length members) <= capacity < 2 ^ 32 ->
  request < 2 ^ 32 ->
  exists capacity',
    reserveObject realloc_ok request (object members capacity)
    = (object members capacity', Ok tt)
    /\ Z.of_nat (length members) <= capacity' < 2 ^ 32
    /\ request <= capacity'.
Proof.
  intros Hgrant Hcap Hreq. rewrite reserveObject_object, Hgrant.
  destruct (Z.leb_spec request capacity); eexists; (split; [reflexivity|lia]).
Qed.

Lemma setMember_grants members capacity name newValue :
  (forall bytes, realloc_ok bytes = true) ->
  Z.of_nat (length members) <= capacity < 2 ^ 32 ->
  Z.of_nat (length members) + 4 < 2 ^ 32 ->
  exists capacity',
    setMember realloc_ok name newValue (object members capacity)
    = (object (set_member name newValue members) capacity', Ok tt)
    /\ Z.of_nat (length (set_member name newValue members)) <= capacity' < 2 ^ 32.
Proof.
  intros Hgrant Hcap Hsize. unfold setMember.
  rewrite setObjectMember_spec by lia. cbv zeta. rewrite Hgrant.
  set (n := Z.of_nat (length members)) in *.
  pose proof (set_member_length name newValue members) as Hl.
  pose proof (Z.div_mod (n + 4) 4 ltac:(lia)) as Hd.
  pose proof (Z.mod_pos_bound (n + 4) 4 ltac:(lia)) as Hm.
  destruct (bool_decide (name ∈ key_names members));
    [|destruct (Z.leb_spec capacity n)];
    eexists; (split; [reflexivity|]); lia.
Qed.

(** [addMember] sets its pairs one after the other when no value of the
    pack is a part of the object. *)
Lemma addMember_spec others :
  forall in_place name v members capacity,
  (forall bytes, realloc_ok bytes = true) ->
  Z.of_nat (length members) <= capacity < 2 ^ 32 ->
  Z.of_nat (length members) + Z.of_nat (length others) + 5 < 2 ^ 32 ->
  exists capacity',
    addMember_pack realloc_ok in_place name v (by_value others)
      (object members capacity)
    = Some (object (set_members ((name, v) :: others) members) capacity', Ok tt)
    /\ Z.of_nat (length (set_members ((name, v) :: others) members))
       <= capacity' < 2 ^ 32.
Proof.
  induction others as [|[name' v'] others IH];
    intros in_place name v members capacity Hgrant Hcap Hsize.
  - cbn [addMember_pack by_value map].
    unfold bind_ref at 1, defined at 1, get_this at 1.
    unfold bind_ref at 1, defined at 1.
    rewrite ensureObject_spec. cbn [isObject type ValueType_eqb].
    unfold bind_ref at 1, defined at 1, get_this at 1.
    unfold numMembers. cbn [objectData fst snd].
    cbn [length] in Hsize |- *. rewrite wrap32_small by lia.
    match goal with
    | |- context [reserveObject realloc_ok ?request] =>
        destruct (reserveObject_grants members capacity request Hgrant Hcap)
          as (c & Hres & Hc & _); [lia|]
    end.
    unfold bind_ref at 1, defined at 1. rewrite Hres.
    destruct (setMember_grants members c name v Hgrant Hc) as (c' & Hset & Hc');
      [lia|].
    unfold bind_ref at 1, defined at 1. rewrite Hset. unfold defined, ret.
    exists c'. by split.
  - cbn [addMember_pack by_value map fst snd].
    unfold bind_ref at 1, defined at 1, get_this at 1.
    unfold bind_ref at 1, defined at 1.
    rewrite ensureObject_spec. cbn [isObject type ValueType_eqb].
    unfold bind_ref at 1, defined at 1, get_this at 1.
    unfold numMembers. cbn [objectData fst snd].
    cbn [length] in Hsize |- *. rewrite length_map, wrap32_small by lia.
    match goal with
    | |- context [reserveObject realloc_ok ?request] =>
        destruct (reserveObject_grants members capacity request Hgrant Hcap)
          as (c & Hres & Hc & _); [lia|]
    end.
    unfold bind_ref at 1, defined at 1. rewrite Hres.
    destruct (setMember_grants members c name v Hgrant Hc) as (c' & Hset & Hc');
      [lia|].
    unfold bind_ref at 1, defined at 1. rewrite Hset.
    unfold bind_ref at 1, defined at 1, get_this at 1.
    cbn [read_member_value].
    pose proof (set_member_length name v members) as Hl.
    match goal with
    | |- context [addMember_pack realloc_ok ?b name' v'] =>
        destruct (IH b name' v' (set_member name v members) c' Hgrant Hc')
          as (c'' & Hrec & Hc''); [destruct (bool_decide _); lia|]
    end.
    exists c''. split; [|exact Hc''].
    exact Hrec.
Qed.

End SetMember.




(* ================================================================== *)
(** * Further properties of the interface *)

(** ** Typed getters *)

(** X1: [get<T>] fails only with a type error.  When it succeeds,
    [getWithDefault<T>] returns the same value whatever the default, except
    for [std::string_view], which [getWithDefault] does not recognise and
    answers with the default even on a string.  When [get<T>] fails,
    [getWithDefault<T>] returns the default, except that a 64-bit request
    is also answered by a 32-bit integer. *)
Theorem get_agrees_with_getWithDefault (T : GetType) (this : Value) :
  (forall message, get T this = Throw message -> error_kind message = TypeMismatch)
  /\ (forall x defaultValue,
        get T this = Ok x -> T <> G_string_view ->
        getWithDefault (requested T) defaultValue this = Ok x)
  /\ (forall message defaultValue,
        get T this = Throw message ->
        ~ (T = G_int64 /\ isInt32 this = true) ->
        getWithDefault (requested T) defaultValue this = Ok defaultValue)
  /\ (forall z defaultValue,
        fails_with TypeMismatch (get G_int64 (int32 z))
        /\ getWithDefault (requested G_int64) defaultValue (int32 z) = Ok z)
  /\ (forall defaultValue,
        getWithDefault (requested G_string_view) defaultValue this = Ok defaultValue).
Proof.
  repeat split.
  - intros message. destruct T, this; cbn; intros [= <-]; reflexivity.
  - intros x d. destruct T, this; cbn; intros [= <-] HT; try reflexivity; done.
  - intros message d. destruct T, this; cbn; intros [= <-] Hn; try reflexivity.
    destruct Hn. done.
Qed.

(** ** Size and emptiness *)

(** X2: [size] fails, with NotSizeable, exactly on the values that are
    neither strings nor containers, and [empty] never fails.  On a string
    or a container whose length fits [uint32_t], [empty] says whether
    [size] is 0; [undefined] and [null] are empty, booleans and numbers are
    not, though none of them has a size. *)
Theorem size_and_empty_agree (this : Value) :
  (isString this || isArray this || isObject this = false <->
   fails_with NotSizeable (size this))
  /\ (isString this || isArray this || isObject this = false ->
      empty this = isVoid this)
  /\ (forall n, size this = Ok n ->
        (forall chars, this = longString chars ->
           Z.of_nat (String.length chars) < 2 ^ 32) ->
        empty this = (n =? 0)).
Proof.
  repeat split.
  - destruct this; cbn; intros; done.
  - destruct this; cbn; intros; done.
  - destruct this; cbn; intros; done.
  - intros n. destruct this; cbn; intros [= <-] Hlen; try reflexivity.
    rewrite wrap32_small; [reflexivity|].
    specialize (Hlen _ eq_refl). lia.
Qed.

(** ** Strings *)

(** X3: A value built from a string gives the string back through
    [getString], [get<std::string>], [toString] and [getWithDefault], and
    its size is the length of the string; it is stored inline exactly when
    the string has at most 22 characters, and a member key exactly when it
    has at most 23.  Two values built from strings are equal exactly when
    the strings are. *)
Theorem string_round_trip (str : string) (other : string) :
  Z.of_nat (String.length str) < 2 ^ 32 ->
  let v := createString str in
  getString v = Ok str
  /\ get G_string v = Ok str
  /\ toString v = Ok str
  /\ (forall defaultValue, getWithDefault T_string defaultValue v = Ok str)
  /\ size v = Ok (Z.of_nat (String.length str))
  /\ isString v = true
  /\ (type v = Type_shortString <-> (String.length str <= 22)%nat)
  /\ (MemberKey_of str = ShortKey str <-> (String.length str <= 23)%nat)
  /\ MemberKey_get (MemberKey_of str) = str
  /\ (operator_eq v (createString other) = true <-> str = other).
Proof.
  intros Hlen v. subst v. unfold createString, Value_of_string, shortStringMaxSize.
  assert (MemberKey_of str = ShortKey str <-> (String.length str <= 23)%nat) as Hkey.
  { unfold MemberKey_of, maxShortLength.
    destruct (Z.leb_spec (Z.of_nat (String.length str)) (24 - 1)); split; try done; lia. }
  destruct (Z.leb_spec (Z.of_nat (String.length str)) 22) as [Hs|Hs]; cbn.
  - repeat split; try done; try lia; try apply Hkey; try apply MemberKey_get_of.
    + destruct (Z.leb_spec (Z.of_nat (String.length other)) 22); cbn; [|done].
      intros [_ ?%String.eqb_eq]%andb_prop. done.
    + intros <-. destruct (Z.leb_spec (Z.of_nat (String.length str)) 22); [|lia].
      cbn. rewrite Z.eqb_refl, String.eqb_refl. done.
  - repeat split; try done; try lia; try apply Hkey; try apply MemberKey_get_of.
    + rewrite wrap32_small by lia. done.
    + destruct (Z.leb_spec (Z.of_nat (String.length other)) 22); cbn; [done|].
      intros [_ ?%String.eqb_eq]%andb_prop. done.
    + intros <-. destruct (Z.leb_spec (Z.of_nat (String.length str)) 22); [lia|].
      cbn. rewrite Z.eqb_refl, String.eqb_refl. done.
Qed.

Lemma string_round_trip_witness :
  Z.of_nat (String.length "a string longer than twenty-two") < 2 ^ 32
  /\ getString (createString "a string longer than twenty-two")
     = Ok "a string longer than twenty-two"%string
  /\ size (createString "a string longer than twenty-two") = Ok 31.
Proof.
  split; [vm_compute; reflexivity|].
  destruct (string_round_trip "a string longer than twenty-two" ""
              ltac:(vm_compute; reflexivity))
    as (Hget & _ & _ & _ & Hsize & _).
  split; [exact Hget | exact Hsize].
Defined.

(** ** Looking members up by name *)

Lemma find_from_member_value key members :
  match member_value key members with
  | Some v =>
      find_from key members 0 < Z.of_nat (length members)
      /\ exists member,
           members !! Z.to_nat (find_from key members 0) = Some member
           /\ snd member = v
  | None => find_from key members 0 = Z.of_nat (length members)
  end.
Proof.
  induction members as [|m rest IH]; [reflexivity|].
  cbn [member_value find_from]. destruct (MemberKey_eq (fst m) key).
  - split; [cbn [length]; lia|]. exists m. done.
  - rewrite find_from_shift.
    pose proof (find_from_range key rest 0) as Hrange.
    destruct (member_value key rest) as [v|].
    + destruct IH as [Hlt (member & Hlookup & Hv)]. split; [cbn [length]; lia|].
      exists member. split; [|done].
      replace (Z.to_nat (0 + 1 + find_from key rest 0))
        with (S (Z.to_nat (find_from key rest 0))) by lia.
      done.
    + cbn [length]. lia.
Qed.

Lemma member_value_None key members :
  member_value key members = None <-> key ∉ key_names members.
Proof.
  rewrite <- find_from_absent.
  pose proof (find_from_member_value key members) as H.
  destruct (member_value key members); split; try done.
  intros ?. lia.
Qed.

Lemma getMember_object key members capacity :
  getMember key (object members capacity)
  = match member_value key members with
    | Some v => Ok v
    | None => Throw "Object member not found"
    end.
Proof.
  unfold getMember, numMembers.
  cbn [isObject type ValueType_eqb negb findObjectMember objectData fst].
  pose proof (find_from_member_value key members) as H.
  destruct (member_value key members) as [v|].
  - destruct H as [Hlt (member & -> & <-)].
    destruct (Z.leb_spec (Z.of_nat (length members)) (find_from key members 0)); [lia|done].
  - rewrite H, Z.leb_refl. done.
Qed.

(** X4: [operator[] (key)] fails with TypeMismatch on a value that is not
    an object and with MemberNotFound on an object that has no member of
    the name; otherwise it returns the value of the first member of the
    name.  It succeeds exactly when [hasObjectMember] answers [true], and
    by name it finds what [getObjectMemberAt] lists by position. *)
Theorem getMember_failure_modes (this : Value) (key : string) :
  (isObject this = false -> fails_with TypeMismatch (getMember key this))
  /\ (isObject this = true -> key ∉ key_names (fst (objectData this)) ->
      fails_with MemberNotFound (getMember key this))
  /\ (isObject this = true -> key ∈ key_names (fst (objectData this)) ->
      exists i member,
        fst (objectData this) !! i = Some member
        /\ MemberKey_get (fst member) = key
        /\ (forall j other, (j < i)%nat ->
              fst (objectData this) !! j = Some other ->
              MemberKey_get (fst other) <> key)
        /\ getMember key this = Ok (snd member))
  /\ (succeeds (getMember key this) <-> hasObjectMember key this = Ok true)
  /\ (forall index name value,
        unique_keys (fst (objectData this)) ->
        getObjectMemberAt index this = Ok (name, value) ->
        0 <= index ->
        getMember name this = Ok value).
Proof.
  split; [|split; [|split; [|split]]].
  - destruct this; cbn; intros; done.
  - intros (members & capacity & ->)%isObject_inv Habsent. cbn in Habsent.
    rewrite getMember_object. apply member_value_None in Habsent.
    rewrite Habsent. reflexivity.
  - intros (members & capacity & ->)%isObject_inv Hin. cbn [objectData fst] in *.
    assert (find_from key members 0 < Z.of_nat (length members)) as Hlt.
    { pose proof (find_from_range key members 0).
      destruct (decide (find_from key members 0 = Z.of_nat (length members)))
        as [Heq|]; [|lia].
      apply find_from_absent in Heq. done. }
    destruct (find_from_found key members Hlt) as (member & Hlookup & Hname & Hbefore).
    exists (Z.to_nat (find_from key members 0)), member.
    split; [done|]. split; [done|]. split.
    + intros j other Hj Hother.
      rewrite Forall_lookup in Hbefore. apply (Hbefore j).
      rewrite lookup_take_lt by lia. done.
    + rewrite getMember_object.
      pose proof (find_from_member_value key members) as H.
      destruct (member_value key members) as [v|]; [|lia].
      destruct H as [_ (member' & Hlookup' & <-)]. congruence.
  - rewrite hasObjectMember_spec.
    destruct (isObject this) eqn:Hobj.
    + apply isObject_inv in Hobj as (members & capacity & ->).
      rewrite getMember_object. cbn [objectData fst andb].
      pose proof (member_value_None key members) as Hnone.
      destruct (member_value key members) as [v|]; cbn.
      * split; [|done]. intros _. f_equal. apply bool_decide_eq_true.
        destruct (decide (key ∈ key_names members)) as [|Hn]; [done|].
        apply Hnone in Hn. done.
      * split; [done|]. intros [= Hd%bool_decide_eq_true].
        destruct Hnone as [Hnone _]. specialize (Hnone eq_refl). done.
    + destruct this; cbn in *; try done.
  - intros index name value Huniq Hat Hindex.
    destruct (isObject this) eqn:Hobj; [|destruct this; cbn in *; done].
    apply isObject_inv in Hobj as (members & capacity & ->).
    unfold getObjectMemberAt, numMembers in Hat.
    cbn [isObject type ValueType_eqb negb objectData fst] in *.
    destruct (Z.leb_spec (Z.of_nat (length members)) index); [done|].
    destruct (members !! Z.to_nat index) as [member|] eqn:Hlookup; [|done].
    injection Hat as <- <-.
    destruct (find_from_unique member members Huniq) as [Hfound Hlt].
    { apply list_elem_of_lookup. eauto. }
    rewrite getMember_object.
    pose proof (find_from_member_value (MemberKey_get (fst member)) members) as Hscan.
    destruct (member_value (MemberKey_get (fst member)) members) as [v|]; [|lia].
    destruct Hscan as [_ (member' & Hlookup' & <-)]. congruence.
Qed.

Lemma getMember_failure_modes_witness :
  getMember "b" (object [(MemberKey_of "a", int32 1); (MemberKey_of "b", int32 2)] 4)
  = Ok (int32 2).
Proof.
  destruct (getMember_failure_modes
              (object [(MemberKey_of "a", int32 1); (MemberKey_of "b", int32 2)] 4) "b")
    as (_ & _ & _ & _ & Hat).
  apply (Hat 1 "b"%string (int32 2)).
  - decide_by_computation.
  - reflexivity.
  - lia.
Defined.

(** ** Removing members *)

(** One iteration of the loop of [removeMember]: the member after the gap
    moves into it, and leaves a blank slot behind. *)
Lemma move_member_step before gap member rest capacity :
  move_member (Z.of_nat (S (length before)))
    (object (before ++ gap :: member :: rest) capacity)
  = (object (before ++ member :: (ShortKey "", undefined) :: rest) capacity, Ok tt).
Proof.
  unfold move_member. run_method. cbn [objectData fst snd].
  rewrite Nat2Z.id.
  replace (Z.to_nat (Z.of_nat (S (length before)) - 1)) with (length before) by lia.
  rewrite (lookup_app_r before) by lia.
  replace (S (length before) - length before)%nat with 1%nat by lia.
  cbn [lookup list_lookup].
  rewrite (insert_app_r_alt before) by lia.
  rewrite Nat.sub_diag. cbn [insert list_insert].
  rewrite (insert_app_r_alt before) by lia.
  replace (S (length before) - length before)%nat with 1%nat by lia.
  reflexivity.
Qed.

(** The loop of [removeMember] closes the gap: every member after it moves
    down one slot. *)
Lemma removeMember_loop rest :
  forall before gap capacity,
  exists last,
    for_loop (length rest) (Z.of_nat (S (length before)))
      (fun i _ => move_member i) tt
      (object (before ++ gap :: rest) capacity)
    = (object (before ++ rest ++ [last]) capacity, Ok tt).
Proof.
  induction rest as [|member rest IH]; intros before gap capacity.
  - exists gap. reflexivity.
  - cbn [length for_loop]. unfold bind at 1.
    rewrite move_member_step.
    destruct (IH (before ++ [member]) (ShortKey "", undefined) capacity)
      as (last & Hloop).
    exists last.
    rewrite length_app in Hloop. cbn [length] in Hloop.
    replace (Z.of_nat (S (length before)) + 1)
      with (Z.of_nat (S (length before + 1))) by lia.
    rewrite <- !app_assoc in Hloop. cbn [app] in Hloop.
    exact Hloop.
Qed.

(** The effect of [removeMember] on an object. *)
Lemma removeMember_spec members capacity key :
  Z.of_nat (length members) < 2 ^ 32 ->
  removeMember key (object members capacity)
  = if bool_decide (key ∈ key_names members)
    then (object (delete (Z.to_nat (find_from key members 0)) members) capacity,
          Ok true)
    else (object members capacity, Ok false).
Proof.
  intros Hsize. unfold removeMember, numMembers. run_method.
  cbn [isObject type ValueType_eqb negb findObjectMember objectData fst snd].
  pose proof (find_from_range key members 0) as Hrange.
  destruct (bool_decide_reflect (key ∈ key_names members)) as [Hin|Hout].
  - assert (find_from key members 0 < Z.of_nat (length members)) as Hlt.
    { destruct (decide (find_from key members 0 = Z.of_nat (length members)))
        as [Heq|]; [|lia].
      apply find_from_absent in Heq. done. }
    destruct (Z.leb_spec (Z.of_nat (length members)) (find_from key members 0)); [lia|].
    set (i := Z.to_nat (find_from key members 0)).
    destruct (lookup_lt_is_Some_2 members i ltac:(lia)) as [gap Hgap].
    pose proof (take_drop_middle members i gap Hgap) as Hsplit.
    rewrite (wrap32_small (find_from key members 0 + 1)) by lia.
    assert (length (take i members) = i) as Hbefore by (rewrite length_take; lia).
    assert (length (drop (S i) members) = (length members - S i)%nat) as Hrest
      by (rewrite length_drop; lia).
    destruct (removeMember_loop (drop (S i) members) (take i members) gap capacity)
      as (last & Hloop).
    rewrite Hsplit, Hbefore, Hrest in Hloop.
    replace (Z.to_nat (Z.of_nat (length members) - (find_from key members 0 + 1)))
      with (length members - S i)%nat by lia.
    replace (find_from key members 0 + 1) with (Z.of_nat (S i)) by lia.
    rewrite Hloop. cbn [objectData fst snd].
    f_equal. f_equal.
    rewrite length_app, length_app, Hbefore, Hrest. cbn [length].
    rewrite wrap32_small by lia.
    rewrite app_assoc.
    rewrite take_app_length'.
    + rewrite delete_take_drop. reflexivity.
    + rewrite length_app, Hbefore, Hrest. lia.
  - apply find_from_absent in Hout. rewrite Hout, Z.leb_refl. reflexivity.
Qed.

Lemma delete_find_from key members :
  delete (Z.to_nat (find_from key members 0)) members = remove_first key members.
Proof.
  induction members as [|m rest IH]; [reflexivity|].
  cbn [find_from remove_first]. destruct (MemberKey_eq (fst m) key); [reflexivity|].
  rewrite find_from_shift.
  pose proof (find_from_range key rest 0).
  replace (Z.to_nat (0 + 1 + find_from key rest 0))
    with (S (Z.to_nat (find_from key rest 0))) by lia.
  cbn [delete list_delete]. f_equal. exact IH.
Qed.

Lemma key_names_delete i members :
  key_names (delete i members) = delete i (key_names members).
Proof.
  revert i. induction members as [|m rest IH]; intros [|i]; cbn; try reflexivity.
  f_equal. apply IH.
Qed.

Lemma member_value_remove_first_other key other members :
  other <> key ->
  member_value other (remove_first key members) = member_value other members.
Proof.
  intros Hne. induction members as [|m rest IH]; [reflexivity|].
  cbn [remove_first member_value].
  destruct (MemberKey_eq (fst m) key) eqn:Hk.
  - apply MemberKey_eq_true in Hk.
    destruct (MemberKey_eq (fst m) other) eqn:Ho; [|reflexivity].
    apply MemberKey_eq_true in Ho. congruence.
  - cbn [member_value]. rewrite IH. reflexivity.
Qed.

Lemma key_names_remove_first key members :
  unique_keys members -> key ∉ key_names (remove_first key members).
Proof.
  unfold unique_keys. induction members as [|m rest IH]; cbn [remove_first].
  - intros _. cbn. apply not_elem_of_nil.
  - cbn [key_names map]. intros [Hnotin Hrest]%NoDup_cons.
    destruct (MemberKey_eq (fst m) key) eqn:Hk.
    + apply MemberKey_eq_true in Hk. subst key. exact Hnotin.
    + apply MemberKey_eq_false in Hk. cbn [key_names map].
      rewrite not_elem_of_cons. split; [congruence|]. apply IH, Hrest.
Qed.

(** X5: [removeMember (key)] answers [false] and changes nothing on a value
    that is not an object and on an object with no member named [key].
    Otherwise it answers [true] and removes the first member named [key]:
    the members before it stay where they are, those after it move down one
    position in their order, the size drops by one and the capacity is
    kept. *)
Theorem removeMember_removes_first_match (this : Value) (key : string) :
  numMembers this < 2 ^ 32 ->
  let members := fst (objectData this) in
  let call := removeMember key this in
  (isObject this = false -> call = (this, Ok false))
  /\ (isObject this = true -> key ∉ key_names members -> call = (this, Ok false))
  /\ (isObject this = true -> key ∈ key_names members ->
      exists i member,
        members !! i = Some member
        /\ MemberKey_get (fst member) = key
        /\ (forall j other, (j < i)%nat -> members !! j = Some other ->
              MemberKey_get (fst other) <> key)
        /\ call = (object (delete i members) (snd (objectData this)), Ok true)
        /\ (forall j, (j < i)%nat ->
              fst (objectData (fst call)) !! j = members !! j)
        /\ (forall j, (i <= j)%nat ->
              fst (objectData (fst call)) !! j = members !! S j)
        /\ size (fst call) = Ok (numMembers this - 1)).
Proof.
  intros Hsize members call. subst members call.
  split; [|split].
  - destruct this; cbn; intros; done.
  - intros (members & capacity & ->)%isObject_inv Habsent.
    cbn [objectData fst] in Habsent. unfold numMembers in Hsize.
    cbn [objectData fst] in Hsize.
    rewrite removeMember_spec by done.
    rewrite bool_decide_eq_false_2 by done. reflexivity.
  - intros (members & capacity & ->)%isObject_inv Hin.
    unfold numMembers in *. cbn [objectData fst snd] in *.
    rewrite removeMember_spec by done.
    rewrite bool_decide_eq_true_2 by done. cbn [fst objectData].
    assert (find_from key members 0 < Z.of_nat (length members)) as Hlt.
    { pose proof (find_from_range key members 0).
      destruct (decide (find_from key members 0 = Z.of_nat (length members)))
        as [Heq|]; [|lia].
      apply find_from_absent in Heq. done. }
    pose proof (find_from_range key members 0) as Hrange.
    destruct (find_from_found key members Hlt) as (member & Hlookup & Hname & Hbefore).
    exists (Z.to_nat (find_from key members 0)), member.
    split; [done|]. split; [done|]. split; [|split; [done|split; [|split]]].
    + intros j other Hj Hother. rewrite Forall_lookup in Hbefore.
      apply (Hbefore j). rewrite lookup_take_lt by lia. done.
    + intros j Hj. apply list_lookup_delete_lt. done.
    + intros j Hj. apply list_lookup_delete_ge. done.
    + cbn [size]. rewrite length_delete by eauto. f_equal.
      assert (length members <> 0%nat) by lia. lia.
Qed.

Lemma removeMember_removes_first_match_witness :
  removeMember "a"
    (object [(MemberKey_of "a", int32 1); (MemberKey_of "b", int32 2);
             (MemberKey_of "c", int32 3)] 4)
  = (object [(MemberKey_of "b", int32 2); (MemberKey_of "c", int32 3)] 4, Ok true).
Proof.
  destruct (removeMember_removes_first_match
              (object [(MemberKey_of "a", int32 1); (MemberKey_of "b", int32 2);
                       (MemberKey_of "c", int32 3)] 4) "a"
              ltac:(vm_compute; reflexivity))
    as (_ & _ & Hpresent).
  destruct (Hpresent eq_refl ltac:(decide_by_computation))
    as (i & member & Hlookup & Hname & Hfirst & Hcall & _).
  destruct i as [|[|[|i]]]; cbn in Hlookup; try done;
    injection Hlookup as <-; cbn in Hname; try done.
Defined.

(** X6: On an object whose keys are unique, the member removed by
    [removeMember (key)] is gone: [hasObjectMember (key)] answers [false],
    [operator[] (key)] fails with MemberNotFound and a second [removeMember
    (key)] answers [false] and changes nothing.  Every other name is looked
    up with the same result as before, and the keys stay unique. *)
Theorem removeMember_then_lookup
  (members : list Member) (capacity : Z) (key : string) :
  Z.of_nat (length members) < 2 ^ 32 ->
  unique_keys members ->
  let this := object members capacity in
  let after := fst (removeMember key this) in
  hasObjectMember key after = Ok false
  /\ fails_with MemberNotFound (getMember key after)
  /\ removeMember key after = (after, Ok false)
  /\ (forall other, other <> key ->
        getMember other after = getMember other this
        /\ hasObjectMember other after = hasObjectMember other this)
  /\ unique_keys (fst (objectData after))
  /\ isObject after = true
  /\ snd (objectData after) = capacity.
Proof.
  intros Hsize Huniq this after.
  assert (after = object (remove_first key members) capacity) as Hafter.
  { subst after this. rewrite removeMember_spec by done.
    case_bool_decide as Hin; cbn [fst].
    - rewrite delete_find_from. reflexivity.
    - rewrite <- delete_find_from.
      apply find_from_absent in Hin. rewrite Hin, Nat2Z.id.
      rewrite delete_take_drop, take_ge, drop_ge, app_nil_r by lia. reflexivity. }
  clearbody after. subst after this.
  pose proof (key_names_remove_first key members Huniq) as Hgone.
  assert (length (remove_first key members) <= length members)%nat as Hlen.
  { rewrite <- delete_find_from.
    apply sublist_length, sublist_delete. }
  split; [|split; [|split; [|split; [|split; [|split]]]]].
  - rewrite hasObjectMember_spec. cbn [isObject type ValueType_eqb objectData fst andb].
    rewrite bool_decide_eq_false_2 by done. reflexivity.
  - rewrite getMember_object. apply member_value_None in Hgone.
    rewrite Hgone. reflexivity.
  - rewrite removeMember_spec by lia.
    rewrite bool_decide_eq_false_2 by done. reflexivity.
  - intros other Hne. rewrite !getMember_object, !hasObjectMember_spec.
    cbn [isObject type ValueType_eqb objectData fst andb].
    rewrite member_value_remove_first_other by done. split; [reflexivity|].
    f_equal. apply bool_decide_ext.
    pose proof (member_value_None other (remove_first key members)) as Hnone.
    destruct (decide (other ∈ key_names (remove_first key members))) as [Hin|Hout].
    + split; [|done]. intros _.
      destruct (decide (other ∈ key_names members)) as [|Hout']; [done|].
      apply member_value_None in Hout'.
      rewrite <- (member_value_remove_first_other key other members Hne) in Hout'.
      apply Hnone in Hout'. done.
    + split; [done|]. intros Hin'.
      apply Hnone in Hout.
      rewrite member_value_remove_first_other in Hout by done.
      apply member_value_None in Hout. done.
  - cbn [objectData fst]. unfold unique_keys in *.
    rewrite <- delete_find_from, key_names_delete.
    exact (sublist_NoDup _ _ Huniq (sublist_delete _ _)).
  - reflexivity.
  - reflexivity.
Qed.

Lemma removeMember_then_lookup_witness :
  Z.of_nat (length [(MemberKey_of "a", int32 1); (MemberKey_of "b", int32 2)]) < 2 ^ 32
  /\ unique_keys [(MemberKey_of "a", int32 1); (MemberKey_of "b", int32 2)]
  /\ hasObjectMember "a"
       (fst (removeMember "a"
               (object [(MemberKey_of "a", int32 1); (MemberKey_of "b", int32 2)] 4)))
     = Ok false.
Proof.
  assert (Z.of_nat (length [(MemberKey_of "a", int32 1); (MemberKey_of "b", int32 2)])
          < 2 ^ 32) as Hsize by (vm_compute; reflexivity).
  assert (unique_keys [(MemberKey_of "a", int32 1); (MemberKey_of "b", int32 2)])
    as Huniq by decide_by_computation.
  split; [exact Hsize|]. split; [exact Huniq|].
  exact (proj1 (removeMember_then_lookup _ 4 "a" Hsize Huniq)).
Defined.

(** ** Setting a member, then looking it up *)

Lemma set_member_cons name newValue member rest :
  set_member name newValue (member :: rest)
  = if MemberKey_eq (fst member) name then (fst member, newValue) :: rest
    else member :: set_member name newValue rest.
Proof.
  unfold set_member. cbn [find_from length].
  destruct (MemberKey_eq (fst member) name).
  - destruct (Z.ltb_spec 0 (Z.of_nat (S (length rest)))); [reflexivity|lia].
  - rewrite find_from_shift.
    pose proof (find_from_range name rest 0) as Hrange.
    replace (Z.to_nat (0 + 1 + find_from name rest 0))
      with (S (Z.to_nat (find_from name rest 0))) by lia.
    destruct (Z.ltb_spec (find_from name rest 0) (Z.of_nat (length rest)));
      destruct (Z.ltb_spec (0 + 1 + find_from name rest 0) (Z.of_nat (S (length rest))));
      try lia; reflexivity.
Qed.

Lemma member_value_set_member key name newValue members :
  member_value key (set_member name newValue members)
  = if decide (key = name) then Some newValue else member_value key members.
Proof.
  induction members as [|m rest IH].
  - change (set_member name newValue []) with [(MemberKey_of name, newValue)].
    cbn [member_value fst snd]. unfold MemberKey_eq. rewrite MemberKey_get_of.
    destruct (decide (key = name)) as [->|Hne].
    + rewrite String.eqb_refl. reflexivity.
    + destruct (String.eqb_spec name key); [congruence|reflexivity].
  - rewrite set_member_cons. destruct (MemberKey_eq (fst m) name) eqn:Hm.
    + apply MemberKey_eq_true in Hm. cbn [member_value fst snd].
      destruct (decide (key = name)) as [->|Hne].
      * rewrite (proj2 (MemberKey_eq_true _ _) Hm). reflexivity.
      * assert (MemberKey_eq (fst m) key = false) as ->; [|reflexivity].
        apply MemberKey_eq_false. congruence.
    + apply MemberKey_eq_false in Hm. cbn [member_value]. rewrite IH.
      destruct (MemberKey_eq (fst m) key) eqn:Hk; [|reflexivity].
      apply MemberKey_eq_true in Hk.
      destruct (decide (key = name)); [congruence|reflexivity].
Qed.

Lemma remove_first_appended name newValue members :
  name ∉ key_names members ->
  remove_first name (members ++ [(MemberKey_of name, newValue)]) = members.
Proof.
  induction members as [|m rest IH]; cbn [key_names map app remove_first fst].
  - intros _. unfold MemberKey_eq. rewrite MemberKey_get_of, String.eqb_refl.
    reflexivity.
  - intros [Hne Hrest]%not_elem_of_cons.
    assert (MemberKey_eq (fst m) name = false) as ->
      by (apply MemberKey_eq_false; congruence).
    f_equal. apply IH, Hrest.
Qed.



(** ** Array elements *)

Lemma and_not32_7 x :
  0 <= x < 2 ^ 32 -> and_not32 x 7 = 8 * (x / 8).
Proof. intros H. exact (and_not32_ones x 3 ltac:(lia) H). Qed.

(** The capacity class [(capacity + 8) & ~7u] is the next multiple of
    eight above the capacity. *)
Lemma grown_array_capacity capacity :
  0 <= capacity -> capacity + 8 < 2 ^ 32 ->
  let grown := and_not32 (wrap32 (capacity + 8)) 7 in
  capacity < grown <= capacity + 8 /\ grown mod 8 = 0.
Proof.
  intros H0 H grown. subst grown.
  rewrite wrap32_small by lia. rewrite and_not32_7 by lia.
  pose proof (Z.div_mod (capacity + 8) 8 ltac:(lia)).
  pose proof (Z.mod_pos_bound (capacity + 8) 8 ltac:(lia)).
  split; [lia|].
  rewrite Z.mul_comm. apply Z_mod_mult.
Qed.

Section ArrayElements.
Variable realloc_ok : Z -> bool.

(** The effect of [addArrayElement] on an array. *)
Lemma addArrayElement_array elements capacity value :
  let n := Z.of_nat (length elements) in
  let grown := and_not32 (wrap32 (capacity + 8)) 7 in
  capacity < grown ->
  addArrayElement realloc_ok value (array elements capacity)
  = if n <? capacity then (array (elements ++ [value]) capacity, Ok tt)
    else if realloc_ok (grown * sizeof_Value)
    then (array (elements ++ [value]) grown, Ok tt)
    else (array elements capacity, Throw "Failed to allocate memory for array").
Proof.
  intros n grown Hgrown.
  destruct (Z.ltb_spec n capacity) as [Hspare|Hfull].
  - apply addArrayElement_spare. exact Hspare.
  - unfold addArrayElement. unfold bind at 1. rewrite ensureArray_spec.
    cbn [isArray type ValueType_eqb]. unfold bind at 1. unfold get_this at 1.
    unfold numElements. cbn [arrayData fst snd]. fold n.
    destruct (Z.leb_spec capacity n); [|lia].
    unfold bind at 1. rewrite reserveArray_array. fold grown.
    destruct (Z.leb_spec grown capacity); [lia|].
    destruct (realloc_ok (grown * sizeof_Value)); reflexivity.
Qed.

Lemma addArrayElement_non_array this value :
  isArray this = false ->
  addArrayElement realloc_ok value this
  = addArrayElement realloc_ok value (array [] 0).
Proof.
  intros H. unfold addArrayElement. unfold bind at 1. rewrite ensureArray_spec, H.
  symmetry. unfold bind at 1. rewrite ensureArray_spec. reflexivity.
Qed.

Lemma getElement_array index elements capacity :
  0 <= index ->
  getElement index (array elements capacity)
  = match elements !! Z.to_nat index with
    | Some element => Ok element
    | None => Throw "Array index out of bounds"
    end.
Proof.
  intros H. unfold getElement, numElements.
  cbn [isArray type ValueType_eqb negb arrayData fst].
  destruct (Z.leb_spec (Z.of_nat (length elements)) index); [|reflexivity].
  rewrite lookup_ge_None_2 by lia. reflexivity.
Qed.

End ArrayElements.

(** X8: [addArrayElement (value)] works on the elements and the capacity of
    an array, and on no elements and capacity 0 when the value is not an
    array: what such a value held is dropped.  When there is a spare slot,
    or the allocator grants a buffer of the next multiple of eight slots,
    the call returns, [value] is the new last element, the elements that
    were there are at their positions, the size is one more, and the
    capacity is unchanged or that multiple of eight.  When there is no
    spare slot and the allocator refuses, the call fails with
    AllocationFailure and leaves those elements and that capacity. *)
Theorem addArrayElement_appends (realloc_ok : Z -> bool) (this value : Value) :
  let elements := if isArray this then fst (arrayData this) else [] in
  let capacity := if isArray this then snd (arrayData this) else 0 in
  let n := Z.of_nat (length elements) in
  let grown := and_not32 (wrap32 (capacity + 8)) 7 in
  let call := addArrayElement realloc_ok value this in
  n <= capacity ->
  capacity + 8 < 2 ^ 32 ->
  (n < capacity \/ realloc_ok (grown * sizeof_Value) = true ->
   snd call = Ok tt
   /\ fst call = array (elements ++ [value]) (if n <? capacity then capacity else grown)
   /\ size (fst call) = Ok (n + 1)
   /\ getElement n (fst call) = Ok value
   /\ (forall i element, elements !! i = Some element ->
         getElement (Z.of_nat i) (fst call) = Ok element)
   /\ fails_with IndexOutOfBounds (getElement (n + 1) (fst call)))
  /\ (n = capacity -> realloc_ok (grown * sizeof_Value) = false ->
      fst call = array elements capacity
      /\ fails_with AllocationFailure (snd call))
  /\ capacity < grown <= capacity + 8
  /\ grown mod 8 = 0.
Proof.
  intros elements capacity n grown call Hn Hcap.
  assert (call = addArrayElement realloc_ok value (array elements capacity)) as ->.
  { subst call elements capacity. destruct (isArray this) eqn:His.
    - apply isArray_inv in His as (es & c & ->). reflexivity.
    - apply addArrayElement_non_array. exact His. }
  destruct (grown_array_capacity capacity ltac:(lia) Hcap) as [Hgrown Hmod].
  fold grown in Hgrown, Hmod.
  rewrite addArrayElement_array by (fold grown; lia). fold n grown.
  split; [|split; [|split; [exact Hgrown|exact Hmod]]].
  - intros Hok.
    assert (forall capacity',
              size (array (elements ++ [value]) capacity') = Ok (n + 1)
              /\ getElement n (array (elements ++ [value]) capacity') = Ok value
              /\ (forall i element, elements !! i = Some element ->
                    getElement (Z.of_nat i) (array (elements ++ [value]) capacity')
                    = Ok element)
              /\ fails_with IndexOutOfBounds
                   (getElement (n + 1) (array (elements ++ [value]) capacity')))
      as Hafter.
    { intros capacity'. split; [|split; [|split]].
      - cbn [size]. rewrite length_app. cbn [length]. f_equal. lia.
      - rewrite getElement_array by lia. subst n. rewrite Nat2Z.id.
        rewrite (lookup_app_r elements) by lia. rewrite Nat.sub_diag. reflexivity.
      - intros i element Hi. rewrite getElement_array by lia. rewrite Nat2Z.id.
        rewrite (lookup_app_l_Some _ _ _ _ Hi). reflexivity.
      - rewrite getElement_array by lia.
        rewrite lookup_ge_None_2; [reflexivity|].
        rewrite length_app. cbn [length]. lia. }
    destruct (Z.ltb_spec n capacity).
    + cbn [fst snd]. split; [reflexivity|]. split; [reflexivity|]. apply Hafter.
    + destruct Hok as [Hok|Hok]; [lia|]. rewrite Hok. cbn [fst snd].
      split; [reflexivity|]. split; [reflexivity|]. apply Hafter.
  - intros Hfull Hrefused.
    destruct (Z.ltb_spec n capacity); [lia|]. rewrite Hrefused.
    split; reflexivity.
Qed.

Lemma addArrayElement_appends_witness :
  snd (addArrayElement never_grants (bool_ true) (array [int32 1] 2)) = Ok tt
  /\ fst (addArrayElement never_grants (bool_ true) (array [int32 1] 2))
     = array [int32 1; bool_ true] 2
  /\ fst (addArrayElement always_grants null (shortString "dropped"))
     = array [null] 8.
Proof.
  pose proof (addArrayElement_appends never_grants (array [int32 1] 2) (bool_ true)
                ltac:(vm_compute; discriminate) ltac:(vm_compute; reflexivity))
    as [Hok _].
  destruct Hok as (Hret & Hafter & _); [left; vm_compute; reflexivity|].
  split; [exact Hret|]. split; [exact Hafter|].
  pose proof (addArrayElement_appends always_grants (shortString "dropped") null
                ltac:(vm_compute; discriminate) ltac:(vm_compute; reflexivity))
    as [Hok' _].
  destruct Hok' as (_ & Hafter' & _); [right; reflexivity|].
  exact Hafter'.
Defined.

(** X9: [operator[] (index)] fails with TypeMismatch on a value that is not
    an array and with IndexOutOfBounds when the index is at or beyond the
    size; otherwise it returns the element at the index.  A negative [int]
    index is converted to [uint32_t] and is out of bounds on every array of
    fewer than [2^31] elements. *)
Theorem getElement_failure_modes (this : Value) (index : Z) :
  0 <= index ->
  (isArray this = false -> fails_with TypeMismatch (getElement index this))
  /\ (isArray this = true -> numElements this <= index ->
      fails_with IndexOutOfBounds (getElement index this))
  /\ (isArray this = true -> index < numElements this ->
      exists element,
        fst (arrayData this) !! Z.to_nat index = Some element
        /\ getElement index this = Ok element)
  /\ (forall negative,
        isArray this = true -> numElements this < 2 ^ 31 ->
        - 2 ^ 31 <= negative < 0 ->
        fails_with IndexOutOfBounds (getElement_int negative this))
  /\ (index < 2 ^ 32 -> getElement_int index this = getElement index this).
Proof.
  intros Hindex. split; [|split; [|split; [|split]]].
  - destruct this; cbn; intros; done.
  - intros (es & c & ->)%isArray_inv. unfold numElements. cbn [arrayData fst].
    intros Hge. rewrite getElement_array by done.
    rewrite lookup_ge_None_2 by lia. reflexivity.
  - intros (es & c & ->)%isArray_inv. unfold numElements. cbn [arrayData fst].
    intros Hlt. rewrite getElement_array by done.
    destruct (lookup_lt_is_Some_2 es (Z.to_nat index) ltac:(lia)) as [element He].
    exists element. rewrite He. done.
  - intros negative (es & c & ->)%isArray_inv. unfold numElements, getElement_int.
    cbn [arrayData fst]. intros Hn Hneg.
    assert (wrap32 negative = negative + 2 ^ 32) as ->.
    { unfold wrap32. symmetry. apply (Z.mod_unique _ _ (-1)); lia. }
    rewrite getElement_array by lia.
    rewrite lookup_ge_None_2 by lia. reflexivity.
  - intros Hlt. unfold getElement_int. rewrite wrap32_small by lia. reflexivity.
Qed.

Lemma getElement_failure_modes_witness :
  0 <= 2
  /\ getElement 2 (int32_array [10; 11; 12]) = Ok (int32 12)
  /\ fails_with IndexOutOfBounds (getElement_int (-1) (int32_array [10; 11; 12])).
Proof.
  assert (0 <= 2) as H by lia.
  split; [exact H|].
  destruct (getElement_failure_modes (int32_array [10; 11; 12]) 2 H)
    as (_ & _ & Hin & Hneg & _).
  split.
  - destruct (Hin eq_refl ltac:(vm_compute; reflexivity)) as (element & He & ->).
    vm_compute in He. injection He as <-. reflexivity.
  - apply Hneg; [reflexivity|vm_compute; reflexivity|lia].
Defined.

(** ** Factories *)

Section FactoryLoops.
Variable realloc_ok : Z -> bool.

(** The loop of [createArray (numArrayElements, getValueAt)] fills the
    spare slots; it asks for no buffer. *)
Lemma createArray_loop getValueAt count :
  forall i elements capacity,
  Z.of_nat (length elements) + Z.of_nat count <= capacity ->
  for_loop count i (fun i _ => addArrayElement realloc_ok (getValueAt i)) tt
    (array elements capacity)
  = (array (elements ++ (getValueAt <$> seqZ i (Z.of_nat count))) capacity, Ok tt).
Proof.
  induction count as [|count IH]; intros i elements capacity Hroom.
  - cbn [for_loop]. rewrite seqZ_nil by lia. cbn [fmap list_fmap].
    rewrite app_nil_r. reflexivity.
  - cbn [for_loop]. unfold bind at 1.
    rewrite addArrayElement_spare by lia.
    rewrite IH by (rewrite length_app; cbn [length]; lia).
    rewrite (seqZ_cons i (Z.of_nat (S count))) by lia.
    replace (Z.pred (Z.of_nat (S count))) with (Z.of_nat count) by lia.
    replace (Z.succ i) with (i + 1) by lia.
    rewrite fmap_cons, <- app_assoc. reflexivity.
Qed.

Lemma add_each_spare container :
  forall elements capacity,
  Z.of_nat (length elements) + Z.of_nat (length container) <= capacity ->
  add_each realloc_ok container (array elements capacity)
  = (array (elements ++ container) capacity, Ok tt).
Proof.
  induction container as [|element rest IH]; intros elements capacity Hroom.
  - cbn [add_each]. rewrite app_nil_r. reflexivity.
  - cbn [add_each length] in *. unfold bind at 1.
    rewrite addArrayElement_spare by lia.
    rewrite IH by (rewrite length_app; cbn [length]; lia).
    rewrite <- app_assoc. reflexivity.
Qed.

End FactoryLoops.



Section CreateObject.
Variable realloc_ok : Z -> bool.

(** [addMember] on an object with room for all its pairs asks for no
    buffer. *)
Lemma addMember_within_capacity others :
  forall in_place name v members capacity,
  Z.of_nat (length members) + 1 + Z.of_nat (length others) <= capacity ->
  capacity + 4 < 2 ^ 32 ->
  addMember_pack realloc_ok in_place name v (by_value others)
    (object members capacity)
  = Some (object (set_members ((name, v) :: others) members) capacity, Ok tt).
Proof.
  induction others as [|[name' v'] others IH];
    intros in_place name v members capacity Hroom Hcap.
  - cbn [addMember_pack by_value map length] in *.
    unfold bind_ref at 1, defined at 1, get_this at 1.
    unfold bind_ref at 1, defined at 1. rewrite ensureObject_spec.
    cbn [isObject type ValueType_eqb].
    unfold bind_ref at 1, defined at 1, get_this at 1.
    unfold numMembers. cbn [objectData fst].
    rewrite wrap32_small by lia.
    unfold bind_ref at 1, defined at 1. rewrite reserveObject_object.
    match goal with
    | |- context [?request <=? capacity] =>
        destruct (Z.leb_spec request capacity); [|lia]
    end.
    unfold bind_ref at 1, defined at 1.
    unfold setMember. rewrite setObjectMember_spec by lia.
    cbn [set_members fold_left fst snd].
    case_bool_decide; [reflexivity|].
    destruct (Z.leb_spec capacity (Z.of_nat (length members))); [lia|reflexivity].
  - cbn [addMember_pack by_value map fst snd]. cbn [length] in Hroom.
    unfold bind_ref at 1, defined at 1, get_this at 1.
    unfold bind_ref at 1, defined at 1. rewrite ensureObject_spec.
    cbn [isObject type ValueType_eqb].
    unfold bind_ref at 1, defined at 1, get_this at 1.
    unfold numMembers. cbn [objectData fst].
    cbn [length]. rewrite length_map, wrap32_small by (cbn [length]; lia).
    unfold bind_ref at 1, defined at 1. rewrite reserveObject_object.
    match goal with
    | |- context [?request <=? capacity] =>
        destruct (Z.leb_spec request capacity); [|cbn [length] in *; lia]
    end.
    unfold bind_ref at 1, defined at 1.
    unfold setMember. rewrite setObjectMember_spec by lia.
    pose proof (set_member_length name v members) as Hlen.
    assert (forall b,
              addMember_pack realloc_ok b name' v' (by_value others)
                (object (set_member name v members) capacity)
              = Some (object (set_members ((name, v) :: (name', v') :: others) members)
                        capacity,
                      Ok tt)) as Hrest.
    { intros b. rewrite IH; [reflexivity| |done]. rewrite Hlen. case_bool_decide; lia. }
    case_bool_decide.
    + unfold bind_ref at 1, defined at 1, get_this at 1.
      cbn [read_member_value]. apply Hrest.
    + destruct (Z.leb_spec capacity (Z.of_nat (length members))); [lia|].
      unfold bind_ref at 1, defined at 1, get_this at 1.
      cbn [read_member_value]. apply Hrest.
Qed.

End CreateObject.

Lemma member_value_set_members key pairs :
  forall members,
  member_value key (set_members pairs members)
  = match last_value key pairs with
    | Some v => Some v
    | None => member_value key members
    end.
Proof.
  induction pairs as [|[name v] rest IH]; intros members; [reflexivity|].
  change (set_members ((name, v) :: rest) members)
    with (set_members rest (set_member name v members)).
  rewrite IH. cbn [last_value].
  destruct (last_value key rest); [reflexivity|].
  rewrite member_value_set_member.
  destruct (String.eqb_spec name key) as [->|Hne].
  - rewrite decide_True by done. reflexivity.
  - rewrite decide_False by congruence. reflexivity.
Qed.

Lemma set_members_unique_keys pairs :
  forall members, unique_keys members -> unique_keys (set_members pairs members).
Proof.
  induction pairs as [|[name v] rest IH]; intros members H; [exact H|].
  apply IH, set_member_unique_keys, H.
Qed.



(** ** Splicing out and back in *)



(** ** Iteration *)

(** What an iterator over a container points at, position by position. *)
Lemma Iterator_deref_spec this_ this i :
  (isArray this || isObject this) = true ->
  0 <= i ->
  Iterator_deref {| container := this_; index := i |} this
  = match iterated_values this !! Z.to_nat i with
    | Some value => Ok value
    | None =>
        Throw (if isArray this then "Array index out of bounds"
               else "Object member index out of bounds")
    end.
Proof.
  intros Hcontainer Hi. unfold Iterator_deref, iterated_values. cbn [index].
  destruct (isArray this) eqn:Harr.
  - apply isArray_inv in Harr as (es & c & ->). apply getElement_array. exact Hi.
  - cbn [orb] in Hcontainer. rewrite Hcontainer.
    apply isObject_inv in Hcontainer as (ms & c & ->).
    unfold getObjectMemberAt, numMembers.
    cbn [isObject type ValueType_eqb negb objectData fst].
    rewrite list_lookup_fmap.
    destruct (Z.leb_spec (Z.of_nat (length ms)) i).
    + rewrite lookup_ge_None_2 by lia. reflexivity.
    + destruct (ms !! Z.to_nat i); reflexivity.
Qed.

(** The loop from position [i] to the end visits what is left. *)
Lemma iterate_from this_ this remaining :
  forall i fuel,
  (isArray this || isObject this) = true ->
  Z.of_nat (length (iterated_values this)) < 2 ^ 32 ->
  (i + remaining = length (iterated_values this))%nat ->
  (remaining < fuel)%nat ->
  iterate fuel this {| container := this_; index := Z.of_nat i |}
    {| container := this_; index := Z.of_nat (length (iterated_values this)) |}
  = Some (Ok (drop i (iterated_values this))).
Proof.
  induction remaining as [|remaining IH]; intros i fuel Hcontainer Hsize Hi Hfuel;
    (destruct fuel as [|fuel]; [lia|]); cbn [iterate].
  - unfold Iterator_ne, Iterator_eq. cbn [container index].
    rewrite Nat.eqb_refl. replace (length (iterated_values this)) with i by lia.
    rewrite Z.eqb_refl. cbn [andb negb]. rewrite drop_ge by lia. reflexivity.
  - unfold Iterator_ne, Iterator_eq. cbn [container index].
    rewrite Nat.eqb_refl.
    destruct (Z.eqb_spec (Z.of_nat i) (Z.of_nat (length (iterated_values this))));
      [lia|].
    cbn [andb negb].
    rewrite Iterator_deref_spec by (done || lia). rewrite Nat2Z.id.
    destruct (lookup_lt_is_Some_2 (iterated_values this) i ltac:(lia)) as [value Hvalue].
    rewrite Hvalue. unfold Iterator_increment. cbn [container index].
    rewrite wrap32_small by lia.
    replace (Z.of_nat i + 1) with (Z.of_nat (S i)) by lia.
    rewrite IH by (done || lia).
    rewrite (drop_S _ _ _ Hvalue). reflexivity.
Qed.

(** X13: [begin] and [end] fail on a value that is neither an array nor an
    object.  On a container, the loop from [begin ()] to [end ()] that a
    range-based [for] runs ends after as many steps as the container has
    elements, and visits the elements of an array, or the values of the
    members of an object, each once and in storage order; [begin () == end
    ()] exactly when the container is empty, and dereferencing [end ()]
    fails with IndexOutOfBounds. *)
Theorem range_for_visits_every_element (this_ : nat) (this : Value) :
  let values := iterated_values this in
  (isArray this || isObject this = false ->
   begin this_ this = Throw "Value is not iterable"
   /\ end_ this_ this = Throw "Value is not iterable"
   /\ forall fuel, range_for fuel this_ this = Some (Throw "Value is not iterable"))
  /\ (isArray this || isObject this = true ->
      Z.of_nat (length values) < 2 ^ 32 ->
      exists first last,
        begin this_ this = Ok first
        /\ end_ this_ this = Ok last
        /\ (forall fuel, (length values < fuel)%nat ->
              range_for fuel this_ this = Some (Ok values))
        /\ (Iterator_eq first last = true <-> values = [])
        /\ (exists message,
              Iterator_deref last this = Throw message
              /\ error_kind message = IndexOutOfBounds)
        /\ (forall i value, values !! i = Some value ->
              Iterator_deref
                (Nat.iter i Iterator_increment first) this = Ok value)
        /\ (forall i member,
              isObject this = true ->
              fst (objectData this) !! i = Some member ->
              Iterator_getObjectMember (Nat.iter i Iterator_increment first) this
              = Ok (MemberKey_get (fst member), snd member))
        /\ (isArray this = true ->
            forall it,
              Iterator_getObjectMember it this = Throw "Iterator is not on an object")).
Proof.
  intros values. split.
  - intros Hnot. unfold range_for, begin, end_. rewrite Hnot. cbn [negb]. done.
  - intros Hcontainer Hsize.
    assert (size this = Ok (Z.of_nat (length values))) as Hlength.
    { subst values. unfold iterated_values.
      destruct this; cbn in Hcontainer; try done;
        cbn [size isArray type ValueType_eqb arrayData objectData fst].
      rewrite length_fmap. reflexivity. }
    exists {| container := this_; index := 0 |},
           {| container := this_; index := Z.of_nat (length values) |}.
    unfold begin, end_, range_for, begin, end_. rewrite Hcontainer, Hlength. cbn [negb].
    assert (forall i, (i < length values)%nat ->
              Nat.iter i Iterator_increment {| container := this_; index := 0 |}
              = {| container := this_; index := Z.of_nat i |}) as Hiter.
    { induction i as [|i IH]; [reflexivity|]. intros Hlt.
      change (Nat.iter (S i) Iterator_increment
                {| container := this_; index := 0 |})
        with (Iterator_increment
                (Nat.iter i Iterator_increment {| container := this_; index := 0 |})).
      rewrite IH by lia. unfold Iterator_increment.
      cbn [container index]. rewrite wrap32_small by lia. f_equal. lia. }
    split; [reflexivity|]. split; [reflexivity|].
    split; [|split; [|split; [|split; [|split]]]].
    + intros fuel Hfuel.
      exact (iterate_from this_ this (length values) 0 fuel Hcontainer Hsize
               eq_refl Hfuel).
    + unfold Iterator_eq. cbn [container index]. rewrite Nat.eqb_refl. cbn [andb].
      rewrite Z.eqb_eq. destruct values; cbn [length]; split; try done; lia.
    + rewrite Iterator_deref_spec by (done || lia). rewrite Nat2Z.id.
      fold values. rewrite lookup_ge_None_2 by lia.
      eexists. split; [reflexivity|]. destruct (isArray this); reflexivity.
    + intros i value Hvalue.
      rewrite Hiter by (apply (lookup_lt_Some _ _ _ Hvalue)).
      rewrite Iterator_deref_spec by (done || lia). rewrite Nat2Z.id.
      fold values. rewrite Hvalue. reflexivity.
    + intros i member (ms & c & ->)%isObject_inv Hmember.
      cbn [objectData fst] in Hmember.
      pose proof (lookup_lt_Some _ _ _ Hmember) as Hlt.
      rewrite Hiter
        by (subst values; unfold iterated_values; cbn; rewrite length_fmap; lia).
      unfold Iterator_getObjectMember, getObjectMemberAt, numMembers.
      cbn [isObject type ValueType_eqb negb objectData fst index].
      destruct (Z.leb_spec (Z.of_nat (length ms)) (Z.of_nat i)); [lia|].
      rewrite Nat2Z.id, Hmember. reflexivity.
    + intros (es & c & ->)%isArray_inv it. reflexivity.
Qed.

Lemma range_for_visits_every_element_witness :
  range_for 4 0 (int32_array [7; 8; 9]) = Some (Ok (map int32 [7; 8; 9]))
  /\ range_for 3 0 (object [(MemberKey_of "a", null); (MemberKey_of "b", bool_ true)] 4)
     = Some (Ok [null; bool_ true]).
Proof.
  split.
  - destruct (range_for_visits_every_element 0 (int32_array [7; 8; 9])) as [_ H].
    destruct (H eq_refl ltac:(vm_compute; reflexivity))
      as (first & last & _ & _ & Hloop & _).
    apply Hloop. vm_compute. lia.
  - destruct (range_for_visits_every_element 0
                (object [(MemberKey_of "a", null); (MemberKey_of "b", bool_ true)] 4))
      as [_ H].
    destruct (H eq_refl ltac:(vm_compute; reflexivity))
      as (first & last & _ & _ & Hloop & _).
    apply Hloop. vm_compute. lia.
Defined.

(** ** The invariant is kept *)

Lemma forallb_Forall {A} (f : A -> bool) l :
  forallb f l = true <-> Forall (fun x => f x = true) l.
Proof.
  induction l as [|x l IH]; cbn [forallb].
  - split; [constructor|reflexivity].
  - rewrite andb_true_iff, Forall_cons, IH. reflexivity.
Qed.

Lemma wf_array_iff elements capacity :
  wf (array elements capacity) = true <->
  Z.of_nat (length elements) <= capacity < 2 ^ 32
  /\ Forall (fun v => wf v = true) elements.
Proof.
  cbn [wf]. rewrite !andb_true_iff, Z.leb_le, Z.ltb_lt, forallb_Forall. tauto.
Qed.

Lemma wf_object_iff members capacity :
  wf (object members capacity) = true <->
  Z.of_nat (length members) <= capacity < 2 ^ 32
  /\ unique_keys members
  /\ Forall (fun m => MemberKey_wf (fst m) = true /\ wf (snd m) = true) members.
Proof.
  cbn [wf]. rewrite !andb_true_iff, Z.leb_le, Z.ltb_lt, forallb_Forall,
    bool_decide_eq_true.
  assert (Forall (fun m : Member => MemberKey_wf (fst m) && wf (snd m) = true) members
          <-> Forall (fun m : Member => MemberKey_wf (fst m) = true /\ wf (snd m) = true)
                members) as ->; [|tauto].
  apply Forall_proper; [|reflexivity]. intros m. apply andb_true_iff.
Qed.

(** X14: The operations keep the invariant [wf]: applied to values that
    satisfy it, [addArrayElement], [setMember], [removeMember], [clear],
    [splice] and the [reserve] functions leave a value that satisfies it,
    whether they return or throw, and so does the array that [splice]
    returns.  (The counters are [uint32_t]: the capacity must leave room
    for the next capacity class.) *)
Theorem operations_preserve_wf (realloc_ok : Z -> bool)
  (this value : Value) (name : string) (index deleteCount capacity : Z) :
  wf this = true ->
  wf value = true ->
  0 <= index < 2 ^ 32 ->
  0 <= deleteCount < 2 ^ 32 ->
  0 <= capacity < 2 ^ 32 ->
  (snd (arrayData this) + 8 < 2 ^ 32 ->
   wf (fst (addArrayElement realloc_ok value this)) = true)
  /\ (snd (objectData this) + 4 < 2 ^ 32 ->
      wf (fst (setMember realloc_ok name value this)) = true)
  /\ wf (fst (removeMember name this)) = true
  /\ wf (fst (clear this)) = true
  /\ wf (fst (reserveArray realloc_ok capacity this)) = true
  /\ wf (fst (reserveObject realloc_ok capacity this)) = true
  /\ wf (fst (splice realloc_ok index deleteCount this)) = true
  /\ (forall removed,
        snd (splice realloc_ok index deleteCount this) = Ok removed ->
        wf removed = true).
Proof.
  intros Hthis Hvalue Hindex Hdelete Hcapacity.
  split; [|split; [|split; [|split; [|split; [|split; [|split]]]]]].
  - (* addArrayElement *)
    intros Hroom.
    assert (exists es c, addArrayElement realloc_ok value this
                         = addArrayElement realloc_ok value (array es c)
                         /\ wf (array es c) = true /\ c + 8 < 2 ^ 32)
      as (es & c & -> & Hwf & Hc).
    { destruct (isArray this) eqn:His.
      - apply isArray_inv in His as (es & c & ->). exists es, c. done.
      - exists [], 0. split; [apply addArrayElement_non_array; done|].
        split; [reflexivity|lia]. }
    apply wf_array_iff in Hwf as (Hlen & Hall).
    destruct (grown_array_capacity c ltac:(lia) Hc) as [Hgrown _].
    rewrite addArrayElement_array by lia.
    assert (Forall (fun v => wf v = true) (es ++ [value])) as Hall'.
    { apply Forall_app. split; [done|]. apply Forall_singleton. done. }
    destruct (Z.ltb_spec (Z.of_nat (length es)) c).
    + apply wf_array_iff. rewrite length_app. cbn [length fst]. split; [lia|done].
    + destruct (realloc_ok _); apply wf_array_iff; cbn [fst].
      * rewrite length_app. cbn [length]. split; [lia|done].
      * done.
  - (* setMember *)
    intros Hroom. unfold setMember.
    assert (exists ms c, setObjectMember realloc_ok name value this
                         = setObjectMember realloc_ok name value (object ms c)
                         /\ wf (object ms c) = true /\ c + 4 < 2 ^ 32)
      as (ms & c & -> & Hwf & Hc).
    { destruct (isObject this) eqn:His.
      - apply isObject_inv in His as (ms & c & ->). exists ms, c. done.
      - exists [], 0. split; [|split; [reflexivity|lia]].
        unfold setObjectMember. unfold bind at 1. rewrite ensureObject_spec, His.
        symmetry. unfold bind at 1. rewrite ensureObject_spec. reflexivity. }
    apply wf_object_iff in Hwf as (Hlen & Huniq & Hall).
    rewrite setObjectMember_spec by lia.
    destruct (object_capacity_class (Z.of_nat (length ms)) ltac:(lia) ltac:(lia))
      as [_ Hgrown].
    assert (Forall (fun m : Member => MemberKey_wf (fst m) = true /\ wf (snd m) = true)
              (set_member name value ms)) as Hall'.
    { clear - Hall Hvalue. induction Hall as [|m rest [Hk Hv] Hrest IH].
      - change (set_member name value []) with [(MemberKey_of name, value)].
        apply Forall_singleton. split; [apply MemberKey_of_wf|done].
      - rewrite set_member_cons. destruct (MemberKey_eq (fst m) name);
          apply Forall_cons; (split; [cbn [fst snd]; done|done]). }
    pose proof (set_member_unique_keys name value ms Huniq) as Huniq'.
    pose proof (set_member_length name value ms) as Hlen'.
    case_bool_decide as Hin; cbn [fst].
    + apply wf_object_iff. rewrite Hlen'. split; [lia|done].
    + destruct (Z.leb_spec c (Z.of_nat (length ms))).
      * destruct (realloc_ok _); cbn [fst]; apply wf_object_iff.
        -- rewrite Hlen'. split; [lia|done].
        -- done.
      * apply wf_object_iff. rewrite Hlen'. split; [lia|done].
  - (* removeMember *)
    destruct (isObject this) eqn:His.
    + apply isObject_inv in His as (ms & c & ->).
      apply wf_object_iff in Hthis as (Hlen & Huniq & Hall).
      rewrite removeMember_spec by lia.
      case_bool_decide; cbn [fst]; apply wf_object_iff; [|done].
      pose proof (sublist_delete ms (Z.to_nat (find_from name ms 0))) as Hsub.
      split; [|split].
      * apply sublist_length in Hsub. lia.
      * unfold unique_keys. rewrite key_names_delete.
        exact (sublist_NoDup _ _ Huniq (sublist_delete _ _)).
      * apply Forall_delete. exact Hall.
    + destruct this; cbn in *; done.
  - (* clear *)
    destruct this; try reflexivity.
    + apply wf_array_iff in Hthis as (Hlen & _). apply wf_array_iff.
      cbn [clear fst length]. cbn. split; [lia|constructor].
    + apply wf_object_iff in Hthis as (Hlen & _). apply wf_object_iff.
      cbn. split; [lia|]. split; [apply NoDup_nil_2|constructor].
  - (* reserveArray *)
    destruct (isArray this) eqn:His.
    + apply isArray_inv in His as (es & c & ->). rewrite reserveArray_array.
      apply wf_array_iff in Hthis as (Hlen & Hall).
      destruct (Z.leb_spec capacity c); [apply wf_array_iff; done|].
      destruct (realloc_ok _); apply wf_array_iff; cbn [fst]; [|done].
      split; [lia|done].
    + rewrite reserveArray_non_array, reserveArray_array by done.
      destruct (Z.leb_spec capacity 0); [reflexivity|].
      destruct (realloc_ok _); apply wf_array_iff; cbn [fst length];
        (split; [lia|constructor]).
  - (* reserveObject *)
    destruct (isObject this) eqn:His.
    + apply isObject_inv in His as (ms & c & ->). rewrite reserveObject_object.
      apply wf_object_iff in Hthis as (Hlen & Hall).
      destruct (Z.leb_spec capacity c); [apply wf_object_iff; done|].
      destruct (realloc_ok _); apply wf_object_iff; cbn [fst]; [|done].
      split; [lia|done].
    + rewrite reserveObject_non_object, reserveObject_object by done.
      destruct (Z.leb_spec capacity 0); [reflexivity|].
      destruct (realloc_ok _); apply wf_object_iff; cbn [fst length];
        (split; [lia|]); (split; [apply NoDup_nil_2|constructor]).
  - (* splice, the source *)
    destruct (isArray this) eqn:His.
    + apply isArray_inv in His as (es & c & ->).
      apply wf_array_iff in Hthis as (Hlen & Hall).
      rewrite splice_spec by lia.
      destruct (Z.leb_spec (Z.of_nat (length es)) index);
        [apply wf_array_iff; done|].
      destruct (Z.eqb_spec (Z.min deleteCount (Z.of_nat (length es) - index)) 0);
        [apply wf_array_iff; done|].
      destruct (realloc_ok _); cbn [fst]; apply wf_array_iff; [|done].
      split.
      * rewrite length_app, length_take, length_drop. lia.
      * apply Forall_app. split; [apply Forall_take|apply Forall_drop]; done.
    + unfold splice. run_method. rewrite His. cbn [negb fst]. done.
  - (* splice, the removed elements *)
    intros removed.
    destruct (isArray this) eqn:His.
    + apply isArray_inv in His as (es & c & ->).
      apply wf_array_iff in Hthis as (Hlen & Hall).
      rewrite splice_spec by lia.
      destruct (Z.leb_spec (Z.of_nat (length es)) index);
        [cbn [snd]; intros [= <-]; reflexivity|].
      destruct (Z.eqb_spec (Z.min deleteCount (Z.of_nat (length es) - index)) 0);
        [cbn [snd]; intros [= <-]; reflexivity|].
      destruct (realloc_ok _); cbn [snd]; [|done]. intros [= <-].
      apply wf_array_iff. split.
      * rewrite length_take, length_drop. lia.
      * apply Forall_take, Forall_drop. done.
    + unfold splice. run_method. rewrite His. cbn [negb snd]. done.
Qed.

Lemma operations_preserve_wf_witness :
  wf (int32_array [1; 2; 3]) = true
  /\ wf (fst (addArrayElement always_grants (bool_ true) (int32_array [1; 2; 3]))) = true
  /\ wf (fst (setMember always_grants "key" (bool_ true) (int32_array [1; 2; 3]))) = true.
Proof.
  assert (wf (int32_array [1; 2; 3]) = true) as Hthis by reflexivity.
  split; [exact Hthis|].
  destruct (operations_preserve_wf always_grants (int32_array [1; 2; 3]) (bool_ true)
              "key" 0 0 0 Hthis eq_refl ltac:(lia) ltac:(lia) ltac:(lia)) as (Hadd & Hset & _).
  split; [apply Hadd|apply Hset]; vm_compute; reflexivity.
Defined.

(** ** Setting members of a value that is not an object *)

Section SetMemberConverts.
Variable realloc_ok : Z -> bool.

Lemma setObjectMember_non_object this name v :
  isObject this = false ->
  setObjectMember realloc_ok name v this
  = setObjectMember realloc_ok name v (object [] 0).
Proof.
  intros H. unfold setObjectMember. unfold bind at 1. rewrite ensureObject_spec, H.
  symmetry. unfold bind at 1. rewrite ensureObject_spec. reflexivity.
Qed.

(** [addMember] on a value that is not an object, for a pack no value of
    which is a part of that value. *)
Lemma addMember_non_object this name v others :
  isObject this = false ->
  let k := Z.of_nat (length ((name, v) :: others)) in
  k + 4 < 2 ^ 32 ->
  addMember realloc_ok name v (by_value others) this
  = Some (if realloc_ok (k * sizeof_Member)
          then (object (set_members ((name, v) :: others) []) k, Ok tt)
          else (object [] 0, Throw "Failed to allocate memory for object")).
Proof.
  intros Hnot k Hsize. unfold addMember.
  assert (0 < k /\ k = 0 + 1 + Z.of_nat (length (by_value others))) as [Hk Hk'].
  { subst k. unfold by_value. rewrite length_map. cbn [length]. lia. }
  assert (setObjectMember realloc_ok name v (object [] k)
          = (object [(MemberKey_of name, v)] k, Ok tt)) as Hset.
  { rewrite setObjectMember_spec by (cbn [length]; lia).
    rewrite bool_decide_eq_false_2 by (cbn; apply not_elem_of_nil).
    cbn [length]. destruct (Z.leb_spec k 0); [lia|reflexivity]. }
  destruct others as [|[name' v'] others'].
  - cbn [addMember_pack by_value map].
    unfold bind_ref at 1, defined at 1, get_this at 1.
    unfold bind_ref at 1, defined at 1. rewrite ensureObject_spec, Hnot.
    unfold bind_ref at 1, defined at 1, get_this at 1.
    unfold numMembers. cbn [objectData fst].
    rewrite wrap32_small by (cbn [length] in *; lia).
    change (Z.of_nat (length []) + 1 + Z.of_nat (length [])) with k.
    unfold bind_ref at 1, defined at 1. rewrite reserveObject_object.
    destruct (Z.leb_spec k 0); [lia|].
    destruct (realloc_ok (k * sizeof_Member)); [|reflexivity].
    unfold bind_ref at 1, defined at 1. unfold setMember. rewrite Hset.
    reflexivity.
  - cbn [addMember_pack by_value map fst snd].
    unfold bind_ref at 1, defined at 1, get_this at 1.
    unfold bind_ref at 1, defined at 1. rewrite ensureObject_spec, Hnot.
    unfold bind_ref at 1, defined at 1, get_this at 1.
    unfold numMembers. cbn [objectData fst].
    match goal with
    | |- context [reserveObject realloc_ok (wrap32 ?request)] =>
        replace (wrap32 request) with k
          by (rewrite wrap32_small; subst k; cbn [length] in *;
              rewrite ?length_map; lia)
    end.
    unfold bind_ref at 1, defined at 1. rewrite reserveObject_object.
    destruct (Z.leb_spec k 0); [lia|].
    destruct (realloc_ok (k * sizeof_Member)); [|reflexivity].
    unfold bind_ref at 1, defined at 1. unfold setMember. rewrite Hset.
    unfold bind_ref at 1, defined at 1, get_this at 1.
    cbn [read_member_value].
    rewrite (addMember_within_capacity realloc_ok others');
      [reflexivity|subst k; cbn [length] in *; lia|lia].
Qed.

End SetMemberConverts.



(** ** The store layer: ownership *)

(** The store layer has functions of the same names as the value layer;
    the value-layer functions needed below keep a name of their own. *)
Local Abbreviation Value_reserveArray := reserveArray.
Local Abbreviation Value_reserveObject := reserveObject.
Local Abbreviation Value_ensureArray := ensureArray.
Local Abbreviation Value_ensureObject := ensureObject.
Local Abbreviation Value_clear := clear.
Local Abbreviation Value_removeMember := removeMember.
Local Abbreviation Value_addArrayElement := addArrayElement.
Local Abbreviation Value_setObjectMember := setObjectMember.

Import Store.
Local Open Scope store_scope.

Lemma repr_array_unfold h elements capacity n fp :
  repr h (array elements capacity) n fp <->
  exists ptr,
    n = n_array ptr (Z.of_nat (length elements)) capacity
    /\ match ptr with
       | None => elements = [] /\ capacity = 0 /\ fp = ∅
       | Some p =>
           exists slots inner,
             h !! p = Some (b_values slots)
             /\ Z.of_nat (length slots) = capacity
             /\ (p ∉ inner)
             /\ fp = {[p]} ∪ inner
             /\ repr_values h elements slots inner
       end.
Proof. reflexivity. Qed.

Lemma repr_object_unfold h members capacity n fp :
  repr h (object members capacity) n fp <->
  exists ptr,
    n = n_object ptr (Z.of_nat (length members)) capacity
    /\ match ptr with
       | None => members = [] /\ capacity = 0 /\ fp = ∅
       | Some p =>
           exists slots inner,
             h !! p = Some (b_members slots)
             /\ Z.of_nat (length slots) = capacity
             /\ (p ∉ inner)
             /\ fp = {[p]} ∪ inner
             /\ repr_members h members slots inner
       end.
Proof. reflexivity. Qed.

Lemma agree_on_subseteq fp fp' h h' :
  fp' ⊆ fp -> agree_on fp h h' -> agree_on fp' h h'.
Proof. intros Hsub Ha p Hp. apply Ha. set_solver. Qed.

Lemma key_repr_frame h h' k kn fp :
  agree_on fp h h' -> key_repr h k kn fp -> key_repr h' k kn fp.
Proof.
  intros Ha. destruct k as [chars|chars]; cbn; [done|].
  intros (p & -> & Hp & ->). exists p. split; [done|]. split; [|done].
  rewrite Ha; [done|set_solver].
Qed.

(** The frame property: a node denotes the same value in every store that
    holds the same buffers at the addresses the node owns. *)
Lemma repr_frame v :
  forall h h' n fp, agree_on fp h h' -> repr h v n fp -> repr h' v n fp.
Proof.
  induction v as [| | | | | | |chars|elements capacity IH|members capacity IH]
    using Value_ind; intros h h' n fp Ha; try done.
  - cbn. intros (p & -> & Hp & ->). exists p. split; [done|]. split; [|done].
    rewrite Ha; [done|set_solver].
  - rewrite !repr_array_unfold. intros (ptr & -> & Hptr). exists ptr.
    split; [done|]. destruct ptr as [p|]; [|done].
    destruct Hptr as (slots & inner & Hp & Hlen & Hnin & -> & Hvs).
    exists slots, inner. split; [rewrite Ha; [done|set_solver]|].
    do 3 (split; [done|]).
    assert (agree_on inner h h') as Ha' by (eapply agree_on_subseteq; [|done]; set_solver).
    clear Ha Hp Hlen Hnin. revert slots inner Hvs Ha'.
    induction IH as [|v vs Hv _ IHvs]; intros slots inner Hvs Ha'; [done|].
    destruct slots as [|s slots]; [done|].
    cbn in Hvs |- *. destruct Hvs as (fp1 & fp2 & -> & Hdisj & H1 & H2).
    exists fp1, fp2. do 2 (split; [done|]). split.
    + eapply Hv; [|done]. eapply agree_on_subseteq; [|done]. set_solver.
    + apply IHvs; [done|]. eapply agree_on_subseteq; [|done]. set_solver.
  - rewrite !repr_object_unfold. intros (ptr & -> & Hptr). exists ptr.
    split; [done|]. destruct ptr as [p|]; [|done].
    destruct Hptr as (slots & inner & Hp & Hlen & Hnin & -> & Hms).
    exists slots, inner. split; [rewrite Ha; [done|set_solver]|].
    do 3 (split; [done|]).
    assert (agree_on inner h h') as Ha' by (eapply agree_on_subseteq; [|done]; set_solver).
    clear Ha Hp Hlen Hnin. revert slots inner Hms Ha'.
    induction IH as [|m ms Hm _ IHms]; intros slots inner Hms Ha'; [done|].
    destruct slots as [|s slots]; [done|].
    cbn in Hms |- *.
    destruct Hms as (fpk & fpv & fp2 & -> & Hd1 & Hd2 & Hd3 & Hk & H1 & H2).
    exists fpk, fpv, fp2. do 4 (split; [done|]). split; [|split].
    + eapply key_repr_frame; [|done]. eapply agree_on_subseteq; [|done]. set_solver.
    + eapply Hm; [|done]. eapply agree_on_subseteq; [|done]. set_solver.
    + apply IHms; [done|]. eapply agree_on_subseteq; [|done]. set_solver.
Qed.

Lemma repr_values_frame h h' vs ns fps :
  agree_on fps h h' -> repr_values h vs ns fps -> repr_values h' vs ns fps.
Proof.
  revert ns fps. induction vs as [|v vs IH]; intros ns fps Ha; [done|].
  destruct ns as [|n ns]; [done|]. cbn.
  intros (fp1 & fp2 & -> & Hdisj & H1 & H2). exists fp1, fp2.
  do 2 (split; [done|]). split.
  - eapply repr_frame; [|done]. eapply agree_on_subseteq; [|done]. set_solver.
  - apply IH; [|done]. eapply agree_on_subseteq; [|done]. set_solver.
Qed.

Lemma repr_members_frame h h' ms ns fps :
  agree_on fps h h' -> repr_members h ms ns fps -> repr_members h' ms ns fps.
Proof.
  revert ns fps. induction ms as [|m ms IH]; intros ns fps Ha; [done|].
  destruct ns as [|n ns]; [done|]. cbn.
  intros (fpk & fpv & fp2 & -> & Hd1 & Hd2 & Hd3 & Hk & H1 & H2).
  exists fpk, fpv, fp2. do 4 (split; [done|]). split; [|split].
  - eapply key_repr_frame; [|done]. eapply agree_on_subseteq; [|done]. set_solver.
  - eapply repr_frame; [|done]. eapply agree_on_subseteq; [|done]. set_solver.
  - apply IH; [|done]. eapply agree_on_subseteq; [|done]. set_solver.
Qed.

Lemma key_repr_dom h k kn fp : key_repr h k kn fp -> fp ⊆ dom h.
Proof.
  destruct k as [chars|chars]; cbn.
  - intros [_ ->]. set_solver.
  - intros (p & _ & Hp & ->). apply singleton_subseteq_l, elem_of_dom. eauto.
Qed.

(** The buffers a node owns are live. *)
Lemma repr_dom v : forall h n fp, repr h v n fp -> fp ⊆ dom h.
Proof.
  induction v as [| | | | | | |chars|elements capacity IH|members capacity IH]
    using Value_ind; intros h n fp; try (intros [_ ->]; set_solver).
  - cbn. intros (p & _ & Hp & ->). apply singleton_subseteq_l, elem_of_dom. eauto.
  - rewrite repr_array_unfold. intros (ptr & _ & Hptr).
    destruct ptr as [p|]; [|destruct Hptr as (_ & _ & ->); set_solver].
    destruct Hptr as (slots & inner & Hp & _ & _ & -> & Hvs).
    apply union_subseteq. split; [apply singleton_subseteq_l, elem_of_dom; eauto|].
    clear Hp. revert slots inner Hvs.
    induction IH as [|v vs Hv _ IHvs]; intros slots inner Hvs.
    + cbn in Hvs. subst. set_solver.
    + destruct slots as [|s slots]; [done|]. cbn in Hvs.
      destruct Hvs as (fp1 & fp2 & -> & _ & H1 & H2).
      apply union_subseteq. split; [by eapply Hv|by eapply IHvs].
  - rewrite repr_object_unfold. intros (ptr & _ & Hptr).
    destruct ptr as [p|]; [|destruct Hptr as (_ & _ & ->); set_solver].
    destruct Hptr as (slots & inner & Hp & _ & _ & -> & Hms).
    apply union_subseteq. split; [apply singleton_subseteq_l, elem_of_dom; eauto|].
    clear Hp. revert slots inner Hms.
    induction IH as [|m ms Hm _ IHms]; intros slots inner Hms.
    + cbn in Hms. subst. set_solver.
    + destruct slots as [|s slots]; [done|]. cbn in Hms.
      destruct Hms as (fpk & fpv & fp2 & -> & _ & _ & _ & Hk & H1 & H2).
      apply union_subseteq. split; [apply union_subseteq; split|].
      * by eapply key_repr_dom.
      * by eapply Hm.
      * by eapply IHms.
Qed.

Lemma repr_values_dom h vs ns fps : repr_values h vs ns fps -> fps ⊆ dom h.
Proof.
  revert ns fps. induction vs as [|v vs IH]; intros ns fps.
  - cbn. intros ->. set_solver.
  - destruct ns as [|n ns]; [done|]. cbn.
    intros (fp1 & fp2 & -> & _ & H1 & H2).
    apply union_subseteq. split; [by eapply repr_dom|by eapply IH].
Qed.

Lemma repr_members_dom h ms ns fps : repr_members h ms ns fps -> fps ⊆ dom h.
Proof.
  revert ns fps. induction ms as [|m ms IH]; intros ns fps.
  - cbn. intros ->. set_solver.
  - destruct ns as [|n ns]; [done|]. cbn.
    intros (fpk & fpv & fp2 & -> & _ & _ & _ & Hk & H1 & H2).
    apply union_subseteq. split; [apply union_subseteq; split|].
    + by eapply key_repr_dom.
    + by eapply repr_dom.
    + by eapply IH.
Qed.

(** *** Store primitives *)

Lemma agree_on_refl fp h : agree_on fp h h.
Proof. by intros p _. Qed.

Lemma agree_on_trans fp h1 h2 h3 :
  agree_on fp h1 h2 -> agree_on fp h2 h3 -> agree_on fp h1 h3.
Proof. intros H12 H23 p Hp. by rewrite H23, H12. Qed.

Lemma agree_on_dom fp h h' : agree_on fp h h' -> fp ⊆ dom h -> fp ⊆ dom h'.
Proof.
  intros Ha Hsub p Hp. apply elem_of_dom. rewrite Ha by done.
  apply elem_of_dom. set_solver.
Qed.

Lemma malloc_spec b h :
  exists q,
    malloc b h = Some (q, <[q := b]> h)
    /\ (q ∉ dom h)
    /\ agree_on (dom h) h (<[q := b]> h).
Proof.
  exists (fresh (dom h)). split; [done|]. split; [apply is_fresh|].
  intros p Hp. rewrite lookup_insert_ne; [done|].
  intros <-. by apply (is_fresh (dom h)).
Qed.

Lemma read_value_spec h p slots i element :
  h !! p = Some (b_values slots) ->
  slots !! i = Some element ->
  read_value (Some p) i h = Some (element, h).
Proof.
  intros Hp Hi. unfold read_value, load_values, load, op_bind, op_ret.
  by rewrite Hp, Hi.
Qed.

Lemma write_value_spec h q slots i n :
  h !! q = Some (b_values slots) ->
  (i < length slots)%nat ->
  write_value q i n h = Some (tt, <[q := b_values (<[i := n]> slots)]> h).
Proof.
  intros Hq Hi. unfold write_value, load_values, load, op_bind, op_ret.
  rewrite Hq. by rewrite decide_True.
Qed.

Lemma read_member_spec h p slots i member :
  h !! p = Some (b_members slots) ->
  slots !! i = Some member ->
  read_member (Some p) i h = Some (member, h).
Proof.
  intros Hp Hi. unfold read_member, load_members, load, op_bind, op_ret.
  by rewrite Hp, Hi.
Qed.

Lemma write_member_spec h q slots i m :
  h !! q = Some (b_members slots) ->
  (i < length slots)%nat ->
  write_member q i m h = Some (tt, <[q := b_members (<[i := m]> slots)]> h).
Proof.
  intros Hq Hi. unfold write_member, load_members, load, op_bind, op_ret.
  rewrite Hq. by rewrite decide_True.
Qed.

(** Slots past the live range do not matter. *)
Lemma repr_values_app h vs ns extra fps :
  repr_values h vs ns fps -> repr_values h vs (ns ++ extra) fps.
Proof.
  revert ns fps. induction vs as [|v vs IH]; intros ns fps; [done|].
  destruct ns as [|n ns]; [done|]. cbn.
  intros (fp1 & fp2 & -> & Hd & H1 & H2). exists fp1, fp2. eauto.
Qed.

Lemma repr_members_app h ms ns extra fps :
  repr_members h ms ns fps -> repr_members h ms (ns ++ extra) fps.
Proof.
  revert ns fps. induction ms as [|m ms IH]; intros ns fps; [done|].
  destruct ns as [|n ns]; [done|]. cbn.
  intros (fpk & fpv & fp2 & -> & Hd1 & Hd2 & Hd3 & Hk & H1 & H2).
  exists fpk, fpv, fp2. eauto 10.
Qed.

Lemma repr_values_length h vs ns fps :
  repr_values h vs ns fps -> (length vs <= length ns)%nat.
Proof.
  revert ns fps. induction vs as [|v vs IH]; intros ns fps; cbn; [lia|].
  destruct ns as [|n ns]; [done|].
  intros (fp1 & fp2 & _ & _ & _ & H2). apply IH in H2. cbn. lia.
Qed.

Lemma repr_members_length h ms ns fps :
  repr_members h ms ns fps -> (length ms <= length ns)%nat.
Proof.
  revert ns fps. induction ms as [|m ms IH]; intros ns fps; cbn; [lia|].
  destruct ns as [|n ns]; [done|].
  intros (fpk & fpv & fp2 & _ & _ & _ & _ & _ & _ & H2). apply IH in H2. cbn. lia.
Qed.

(** *** Copying *)

(** Reading and writing at a place. *)
Lemma read_slot_spec h at_ b n :
  h !! fst at_ = Some b ->
  get_slot b (snd at_) = Some n ->
  read_slot at_ h = Some (n, h).
Proof.
  intros Hb Hn. unfold read_slot, load, op_bind, op_ret. by rewrite Hb, Hn.
Qed.

Lemma read_slot_inv h at_ n :
  read_slot at_ h = Some (n, h) ->
  exists b, h !! fst at_ = Some b /\ get_slot b (snd at_) = Some n.
Proof.
  unfold read_slot, load, op_bind, op_ret.
  destruct (h !! fst at_) as [b|] eqn:Hb; [|done].
  destruct (get_slot b (snd at_)) as [n'|] eqn:Hn'; [|done].
  cbn. intros [= Hn]. subst. by exists b.
Qed.

Lemma write_slot_spec h at_ b old n :
  h !! fst at_ = Some b ->
  get_slot b (snd at_) = Some old ->
  write_slot at_ n h = Some (tt, <[fst at_ := put_slot b (snd at_) n]> h).
Proof.
  intros Hb Hold. unfold write_slot, load, op_bind, op_ret. by rewrite Hb, Hold.
Qed.

(** A place in a buffer that has been released cannot be read. *)
Lemma read_slot_released h at_ : fst at_ ∉ dom h -> read_slot at_ h = None.
Proof.
  intros H. apply not_elem_of_dom in H. unfold read_slot, load, op_bind.
  by rewrite H.
Qed.

Lemma alter_insert_eq {A} (f : A -> A) (l : list A) i x :
  alter f i (<[i := x]> l) = <[i := f x]> l.
Proof.
  revert i. induction l as [|y l IH]; intros [|i]; cbn; f_equal; auto.
Qed.

Lemma get_put_slot b i old n :
  get_slot b i = Some old -> get_slot (put_slot b i n) i = Some n.
Proof.
  destruct b as [chars|slots|slots]; cbn; [done| |].
  - intros H. apply lookup_lt_Some in H. by apply list_lookup_insert_eq.
  - destruct (slots !! i) as [member|] eqn:Hi; [|done]. intros _.
    rewrite list_lookup_alter_eq, Hi. reflexivity.
Qed.

Lemma put_put_slot b i n m : put_slot (put_slot b i n) i m = put_slot b i m.
Proof.
  destruct b as [chars|slots|slots]; cbn; [done| |].
  - by rewrite list_insert_insert_eq.
  - f_equal. revert i. induction slots as [|s slots IH]; intros [|i]; cbn;
      f_equal; auto.
Qed.

(** The element loop of [copyFrom]: the [rest] of the other array's live
    elements, from slot [i] on, are copied into the slots of the new
    buffer [q]; nothing else that is live is touched. *)
Lemma copy_values_loop copy (p q : loc) (slots : list node) (rest : list Value) :
  forall (i : nat) (h : store) (dslots : list node),
  p <> q ->
  h !! p = Some (b_values slots) ->
  h !! q = Some (b_values dslots) ->
  (i + length rest <= length dslots)%nat ->
  Forall (copies copy) rest ->
  (forall j v, rest !! j = Some v ->
     exists s fp, slots !! (i + j)%nat = Some s /\ repr h v s fp /\ q ∉ fp) ->
  exists h' copied fps,
    copy_values copy (Some p) q (length rest) i h = Some (tt, h')
    /\ agree_on (dom h ∖ {[q]}) h h'
    /\ h' !! q = Some (b_values (take i dslots ++ copied
                                 ++ drop (i + length rest) dslots))
    /\ length copied = length rest
    /\ fps ## dom h
    /\ dom h' = dom h ∪ fps
    /\ repr_values h' (Value_copy <$> rest) copied fps.
Proof.
  induction rest as [|v rest IH]; intros i h dslots Hpq Hp Hq Hlen Hcopies Hsrc.
  - exists h, [], ∅. cbn [copy_values length]. split; [done|].
    split; [apply agree_on_refl|]. split.
    + rewrite Hq, Nat.add_0_r. cbn [app]. by rewrite take_drop.
    + split; [done|]. split; [set_solver|]. split; [set_solver|done].
  - cbn [length] in Hlen. apply Forall_cons in Hcopies as [Hv Hrest].
    destruct (Hsrc 0%nat v eq_refl) as (s & fp & Hs & Hrepr & Hqfp).
    rewrite Nat.add_0_r in Hs.
    destruct (lookup_lt_is_Some_2 dslots i ltac:(lia)) as [old Hold].
    destruct (Hv h (q, i) (p, i) (b_values dslots) old s fp Hq Hold
                (read_slot_spec h (p, i) _ s Hp Hs) Hrepr Hqfp)
      as (c & h1 & fp1 & Hcopy & Hagree1 & Hfresh1 & Hdomh1 & Hc).
    cbn [fst snd put_slot] in Hcopy.
    assert (q ∈ dom h) as Hqdom by (apply elem_of_dom; eauto).
    assert (p ∈ dom h) as Hpdom by (apply elem_of_dom; eauto).
    assert (h1 !! q = Some (b_values dslots)) as Hq1 by (by rewrite Hagree1).
    remember (<[q := b_values (<[i := c]> dslots)]> h1) as h2 eqn:Eh2.
    assert (dom h ⊆ dom h1) as Hdom1 by (eapply agree_on_dom; done).
    assert (forall l, l ∈ dom h2 <-> l = q \/ l ∈ dom h1) as Hdom2
      by (intros l; rewrite Eh2, dom_insert_L; set_solver).
    assert (h2 !! q = Some (b_values (<[i := c]> dslots))) as Hq2
      by (rewrite Eh2; by rewrite lookup_insert_eq).
    assert (forall l, l <> q -> h2 !! l = h1 !! l) as Hother2
      by (intros l Hl; rewrite Eh2; by rewrite lookup_insert_ne).
    clear Eh2.
    destruct (IH (S i) h2 (<[i := c]> dslots))
      as (h' & copied & fps & Hloop & Hagree' & Hq' & Hlen' & Hfresh' & Hdom' & Hr').
    + done.
    + rewrite Hother2 by done. by rewrite Hagree1.
    + done.
    + rewrite length_insert. lia.
    + done.
    + intros j v' Hj. destruct (Hsrc (S j) v' Hj) as (s' & fp' & Hs' & Hrepr' & Hqfp').
      exists s', fp'.
      split; [by replace (S i + j)%nat with (i + S j)%nat by lia|].
      split; [|done].
      eapply repr_frame; [|exact Hrepr'].
      intros l Hl. pose proof (repr_dom _ _ _ _ Hrepr' l Hl) as Hldom.
      rewrite Hother2 by (intros ->; done). by apply Hagree1.
    + exists h', (c :: copied), (fp1 ∪ fps).
      split.
      { cbn [copy_values length]. unfold op_bind at 1. rewrite Hcopy.
        exact Hloop. }
      split.
      { intros l Hl. apply elem_of_difference in Hl as [Hl Hlq].
        rewrite not_elem_of_singleton in Hlq.
        rewrite Hagree' by set_solver.
        rewrite Hother2 by done. by apply Hagree1. }
      split.
      { rewrite Hq'. do 2 f_equal.
        assert (<[i := c]> dslots !! i = Some c) as Hi
          by (apply list_lookup_insert_eq; lia).
        rewrite (take_S_r _ _ c Hi), take_insert_ge by lia.
        rewrite drop_insert_lt by lia.
        rewrite <- app_assoc. cbn [app length].
        by replace (S i + length rest)%nat with (i + S (length rest))%nat by lia. }
      split; [cbn [length]; lia|].
      split; [set_solver|].
      split.
      { clear - Hdom' Hdom2 Hdomh1 Hqdom. apply set_eq. intros l.
        rewrite Hdom', elem_of_union, Hdom2, Hdomh1. clear - Hqdom.
        set_solver. }
      cbn. exists fp1, fps. split; [done|].
      pose proof (repr_dom _ _ _ _ Hc) as Hfp1.
      split; [set_solver|]. split; [|done].
      eapply repr_frame; [|exact Hc].
      intros l Hl.
      assert (l <> q) as Hlq by (intros ->; set_solver).
      rewrite Hagree' by set_solver.
      by apply Hother2.
Qed.

Lemma key_get_spec h k kn fp :
  key_repr h k kn fp -> key_get kn h = Some (MemberKey_get k, h).
Proof.
  destruct k as [chars|chars]; cbn.
  - by intros [-> _].
  - intros (p & -> & Hp & _). cbn. unfold load_chars, load, op_bind, op_ret.
    by rewrite Hp.
Qed.

Lemma key_construct_spec str h :
  exists kn h' fp,
    key_construct str h = Some (kn, h')
    /\ agree_on (dom h) h h'
    /\ fp ## dom h
    /\ dom h' = dom h ∪ fp
    /\ key_repr h' (MemberKey_of str) kn fp.
Proof.
  unfold key_construct, MemberKey_of. cbv zeta.
  destruct (Z.of_nat (String.length str) <=? maxShortLength).
  - exists (k_short str), h, ∅. split; [done|]. split; [apply agree_on_refl|].
    split; [set_solver|]. split; [set_solver|done].
  - destruct (malloc_spec (b_chars str) h) as (q & Hm & Hq & Ha).
    exists (k_long q (Z.of_nat (String.length str))), (<[q := b_chars str]> h), {[q]}.
    split; [unfold op_bind; by rewrite Hm|]. split; [done|]. split; [set_solver|].
    split; [rewrite dom_insert_L; set_solver|].
    cbn. exists q. split; [done|]. split; [apply lookup_insert_eq|done].
Qed.

(** The member loop of [copyFrom]. *)
Lemma copy_members_loop copy (p q : loc) (slots : list member_node)
  (rest : list Member) :
  forall (i : nat) (h : store) (dslots : list member_node),
  p <> q ->
  h !! p = Some (b_members slots) ->
  h !! q = Some (b_members dslots) ->
  (i + length rest <= length dslots)%nat ->
  Forall (fun m => copies copy (snd m)) rest ->
  (forall j m, rest !! j = Some m ->
     exists s fpk fpv,
       slots !! (i + j)%nat = Some s
       /\ key_repr h (fst m) (fst s) fpk /\ repr h (snd m) (snd s) fpv
       /\ (q ∉ fpk) /\ (q ∉ fpv)) ->
  exists h' copied fps,
    copy_members copy (Some p) q (length rest) i h = Some (tt, h')
    /\ agree_on (dom h ∖ {[q]}) h h'
    /\ h' !! q = Some (b_members (take i dslots ++ copied
                                  ++ drop (i + length rest) dslots))
    /\ length copied = length rest
    /\ fps ## dom h
    /\ dom h' = dom h ∪ fps
    /\ repr_members h'
         ((fun m => (MemberKey_of (MemberKey_get (fst m)), Value_copy (snd m)))
            <$> rest)
         copied fps.
Proof.
  induction rest as [|m rest IH]; intros i h dslots Hpq Hp Hq Hlen Hcopies Hsrc.
  - exists h, [], ∅. cbn [copy_members length]. split; [done|].
    split; [apply agree_on_refl|]. split.
    + rewrite Hq, Nat.add_0_r. cbn [app]. by rewrite take_drop.
    + split; [done|]. split; [set_solver|]. split; [set_solver|done].
  - cbn [length] in Hlen. apply Forall_cons in Hcopies as [Hv Hrest].
    destruct (Hsrc 0%nat m eq_refl) as (s & fpk0 & fpv0 & Hs & Hkrepr & Hrepr & Hqk & Hqv).
    rewrite Nat.add_0_r in Hs.
    destruct (lookup_lt_is_Some_2 dslots i ltac:(lia)) as [old Hold].
    destruct (key_construct_spec (MemberKey_get (fst m)) h)
      as (kn & h1 & fpk & Hkey & Hagree1 & Hfresh1 & Hdomh1 & Hk).
    assert (q ∈ dom h) as Hqdom by (apply elem_of_dom; eauto).
    assert (p ∈ dom h) as Hpdom by (apply elem_of_dom; eauto).
    assert (dom h ⊆ dom h1) as Hdom1 by (eapply agree_on_dom; done).
    assert (h1 !! q = Some (b_members dslots)) as Hq1 by (by rewrite Hagree1).
    (* the key is written in place *)
    set (keyed := <[i := (kn, snd old)]> dslots).
    set (hk := <[q := b_members keyed]> h1).
    assert (write_key q i kn h1 = Some (tt, hk)) as Hwritekey.
    { unfold write_key. unfold op_bind at 1.
      rewrite (read_member_spec h1 q dslots i old Hq1 Hold).
      apply write_member_spec; [done|lia]. }
    assert (hk !! q = Some (b_members keyed)) as Hqk' by apply lookup_insert_eq.
    assert (forall l, l <> q -> hk !! l = h1 !! l) as Hotherk
      by (intros l Hl; apply lookup_insert_ne; done).
    assert (dom hk = dom h1) as Hdomk.
    { unfold hk. rewrite dom_insert_L. set_solver. }
    assert (get_slot (b_members keyed) i = Some (snd old)) as Hkeyed.
    { cbn. unfold keyed. rewrite list_lookup_insert_eq by lia. reflexivity. }
    assert (repr hk (snd m) (snd s) fpv0) as Hreprk.
    { eapply repr_frame; [|exact Hrepr].
      intros l Hl. pose proof (repr_dom _ _ _ _ Hrepr l Hl) as Hldom.
      rewrite Hotherk by (intros ->; done). by apply Hagree1. }
    assert (read_slot (p, i) hk = Some (snd s, hk)) as Hread.
    { apply (read_slot_spec hk (p, i) (b_members slots)).
      - cbn [fst]. rewrite Hotherk by done. rewrite Hagree1; done.
      - cbn. by rewrite Hs. }
    destruct (Hv hk (q, i) (p, i) (b_members keyed) (snd old) (snd s) fpv0
                Hqk' Hkeyed Hread Hreprk Hqv)
      as (c & h2 & fpv & Hcopy & Hagree2 & Hfresh2 & Hdomh2 & Hc).
    cbn [fst snd put_slot] in Hcopy.
    assert (alter (fun member : member_node => (fst member, c)) i keyed
            = <[i := (kn, c)]> dslots) as Hfilled.
    { unfold keyed. by rewrite alter_insert_eq. }
    rewrite Hfilled in Hcopy.
    rewrite Hdomk in Hagree2, Hfresh2, Hdomh2.
    assert (dom h1 ⊆ dom h2) as Hdom2 by (rewrite Hdomh2; set_solver).
    remember (<[q := b_members (<[i := (kn, c)]> dslots)]> h2) as h3 eqn:Eh3.
    assert (forall l, l ∈ dom h3 <-> l = q \/ l ∈ dom h2) as Hdom3
      by (intros l; rewrite Eh3, dom_insert_L; set_solver).
    assert (h3 !! q = Some (b_members (<[i := (kn, c)]> dslots))) as Hq3
      by (rewrite Eh3; by rewrite lookup_insert_eq).
    assert (forall l, l <> q -> h3 !! l = h2 !! l) as Hother3
      by (intros l Hl; rewrite Eh3; by rewrite lookup_insert_ne).
    clear Eh3.
    assert (forall l, l ∈ dom h1 -> l <> q -> h2 !! l = h1 !! l) as Hagree21.
    { intros l Hl Hlq. rewrite Hagree2 by done. by apply Hotherk. }
    assert (forall l, l ∈ dom h -> l <> q -> h3 !! l = h !! l) as Hbase.
    { intros l Hl Hlq. rewrite Hother3 by done.
      rewrite Hagree21 by set_solver. by apply Hagree1. }
    destruct (IH (S i) h3 (<[i := (kn, c)]> dslots))
      as (h' & copied & fps & Hloop & Hagree' & Hq' & Hlen' & Hfresh' & Hdom' & Hr').
    + done.
    + by rewrite Hbase.
    + done.
    + rewrite length_insert. lia.
    + done.
    + intros j m' Hj.
      destruct (Hsrc (S j) m' Hj) as (s' & fpk' & fpv' & Hs' & Hk' & Hrepr' & Hqk'' & Hqv').
      exists s', fpk', fpv'.
      split; [by replace (S i + j)%nat with (i + S j)%nat by lia|].
      split; [|split; [|done]].
      * eapply key_repr_frame; [|exact Hk'].
        intros l Hl. pose proof (key_repr_dom _ _ _ _ Hk' l Hl) as Hldom.
        apply Hbase; [done|]. by intros ->.
      * eapply repr_frame; [|exact Hrepr'].
        intros l Hl. pose proof (repr_dom _ _ _ _ Hrepr' l Hl) as Hldom.
        apply Hbase; [done|]. by intros ->.
    + pose proof (key_repr_dom _ _ _ _ Hk) as Hfpk.
      pose proof (repr_dom _ _ _ _ Hc) as Hfpv.
      exists h', ((kn, c) :: copied), (fpk ∪ fpv ∪ fps).
      split.
      { cbn [copy_members length]. unfold op_bind at 1.
        rewrite (read_member_spec h p slots i s Hp Hs).
        unfold op_bind at 1. rewrite (key_get_spec h _ _ _ Hkrepr).
        unfold op_bind at 1. rewrite Hkey.
        unfold op_bind at 1. rewrite Hwritekey.
        unfold op_bind at 1. rewrite Hcopy.
        exact Hloop. }
      split.
      { intros l Hl. apply elem_of_difference in Hl as [Hl Hlq].
        rewrite not_elem_of_singleton in Hlq.
        rewrite Hagree' by set_solver. by apply Hbase. }
      split.
      { rewrite Hq'. do 2 f_equal.
        assert (<[i := (kn, c)]> dslots !! i = Some (kn, c)) as Hi
          by (apply list_lookup_insert_eq; lia).
        rewrite (take_S_r _ _ (kn, c) Hi), take_insert_ge by lia.
        rewrite drop_insert_lt by lia.
        rewrite <- app_assoc. cbn [app length].
        by replace (S i + length rest)%nat with (i + S (length rest))%nat by lia. }
      split; [cbn [length]; lia|].
      split; [set_solver|].
      split.
      { clear - Hdom' Hdom3 Hdomh1 Hdomh2 Hqdom. apply set_eq. intros l.
        rewrite Hdom', elem_of_union, Hdom3, Hdomh2, Hdomh1. clear - Hqdom.
        set_solver. }
      cbn. exists fpk, fpv, fps. split; [done|].
      split; [set_solver|]. split; [set_solver|]. split; [set_solver|].
      split; [|split; [|done]].
      * eapply key_repr_frame; [|exact Hk].
        intros l Hl. assert (l <> q) as Hlq by (intros ->; set_solver).
        rewrite Hagree' by set_solver. rewrite Hother3 by done.
        apply Hagree21; [set_solver|done].
      * eapply repr_frame; [|exact Hc].
        intros l Hl. assert (l <> q) as Hlq by (intros ->; set_solver).
        rewrite Hagree' by set_solver. by apply Hother3.
Qed.

Lemma Value_copy_array elements capacity :
  Value_copy (array elements capacity) = array (Value_copy <$> elements) capacity.
Proof. reflexivity. Qed.

Lemma Value_copy_object members capacity :
  Value_copy (object members capacity)
  = object ((fun m => (MemberKey_of (MemberKey_get (fst m)), Value_copy (snd m)))
              <$> members) capacity.
Proof. reflexivity. Qed.

Lemma repr_values_lookup h vs ns fps j v :
  repr_values h vs ns fps ->
  vs !! j = Some v ->
  exists s fp, ns !! j = Some s /\ repr h v s fp /\ fp ⊆ fps.
Proof.
  revert ns fps j. induction vs as [|v0 vs IH]; intros ns fps j Hr Hj; [done|].
  destruct ns as [|n ns]; [done|]. cbn in Hr.
  destruct Hr as (fp1 & fp2 & -> & _ & H1 & H2).
  destruct j as [|j]; cbn in Hj.
  - injection Hj as ->. exists n, fp1. split; [done|]. split; [done|set_solver].
  - destruct (IH ns fp2 j H2 Hj) as (s & fp & Hs & Hrepr & Hsub).
    exists s, fp. split; [done|]. split; [done|set_solver].
Qed.

Lemma repr_members_lookup h ms ns fps j m :
  repr_members h ms ns fps ->
  ms !! j = Some m ->
  exists s fpk fpv,
    ns !! j = Some s
    /\ key_repr h (fst m) (fst s) fpk /\ repr h (snd m) (snd s) fpv
    /\ fpk ⊆ fps /\ fpv ⊆ fps.
Proof.
  revert ns fps j. induction ms as [|m0 ms IH]; intros ns fps j Hr Hj; [done|].
  destruct ns as [|n ns]; [done|]. cbn in Hr.
  destruct Hr as (fpk & fpv & fp2 & -> & _ & _ & _ & Hk & H1 & H2).
  destruct j as [|j]; cbn in Hj.
  - injection Hj as ->. exists n, fpk, fpv. repeat split; try done; set_solver.
  - destruct (IH ns fp2 j H2 Hj) as (s & fpk' & fpv' & Hs & Hk' & Hrepr & Hsubk & Hsubv).
    exists s, fpk', fpv'. repeat split; try done; set_solver.
Qed.

Lemma depth_array_elements elements capacity fuel :
  (depth (array elements capacity) < S fuel)%nat ->
  Forall (fun v => (depth v < fuel)%nat) elements.
Proof.
  cbn [depth]. intros H. apply Nat.succ_lt_mono in H. revert H.
  induction elements as [|v vs IH]; cbn [foldr]; intros H; constructor; [lia|].
  apply IH. lia.
Qed.

Lemma depth_object_members members capacity fuel :
  (depth (object members capacity) < S fuel)%nat ->
  Forall (fun m => (depth (snd m) < fuel)%nat) members.
Proof.
  cbn [depth]. intros H. apply Nat.succ_lt_mono in H. revert H.
  induction members as [|m ms IH]; cbn [foldr]; intros H; constructor; [lia|].
  apply IH. lia.
Qed.

(** Building at a place leaves a store that is the store of the copy with
    the slot at that place written last. *)
Lemma built_at (h h' : store) (tb : loc) (b written : block) :
  h !! tb = Some b ->
  h' !! tb = Some written ->
  (forall l, l ∈ dom h -> l <> tb -> h' !! l = h !! l) ->
  h' = <[tb := written]> (<[tb := b]> h')
  /\ agree_on (dom h) h (<[tb := b]> h')
  /\ dom (<[tb := b]> h') = dom h'.
Proof.
  intros Hb Hw Hsame. split; [|split].
  - rewrite insert_insert_eq. symmetry. by apply insert_id.
  - intros l Hl. destruct (decide (l = tb)) as [->|Hne].
    + by rewrite lookup_insert_eq.
    + rewrite lookup_insert_ne by done. by apply Hsame.
  - rewrite dom_insert_L. assert (tb ∈ dom h') by (apply elem_of_dom; eauto).
    set_solver.
Qed.

(** [copyFrom], with fuel above the nesting depth, builds the copy in
    buffers of its own and leaves every live buffer as it is, but for the
    slot it builds in. *)
Lemma copyFrom_copies v :
  forall fuel, (depth v < fuel)%nat -> copies (copyFrom fuel) v.
Proof.
  induction v as [| | | | | | |chars|elements capacity IH|members capacity IH]
    using Value_ind; intros [|fuel] Hfuel; try lia;
    intros h this_ other_ blk old n fp Hb Hold Hread Hrepr Hout;
    try (destruct Hrepr as [-> ->]; eexists _, h, ∅;
         split; [cbn [copyFrom]; unfold op_bind at 1; rewrite Hread;
                 by apply (write_slot_spec h this_ blk old)|];
         split; [apply agree_on_refl|];
         split; [set_solver|]; split; [set_solver|done]).
  - destruct Hrepr as (p & -> & Hp & ->).
    destruct (malloc_spec (b_chars chars) h) as (q & Hm & Hq & Ha).
    assert (fst this_ ∈ dom h) as Htb by (apply elem_of_dom; eauto).
    exists (n_longString q (Z.of_nat (String.length chars))),
      (<[q := b_chars chars]> h), {[q]}.
    split.
    { cbn [copyFrom]. unfold op_bind at 1. rewrite Hread.
      unfold op_bind at 1. unfold load_chars, load, op_bind at 1, op_ret.
      rewrite Hp. unfold op_bind at 1. rewrite Hm.
      apply (write_slot_spec _ this_ blk old); [|done].
      rewrite lookup_insert_ne; [done|]. intros Heq. apply Hq. by rewrite Heq. }
    split; [done|]. split; [set_solver|].
    split; [rewrite dom_insert_L; set_solver|].
    cbn. exists q. split; [done|]. split; [apply lookup_insert_eq|done].
  - apply repr_array_unfold in Hrepr as (ptr & -> & Hptr).
    apply depth_array_elements in Hfuel.
    assert (Forall (copies (copyFrom fuel)) elements) as Hcopies.
    { rewrite Forall_forall in IH, Hfuel |- *. intros v Hv. apply IH; [done|].
      by apply Hfuel. }
    destruct (malloc_spec (b_values (replicate (Z.to_nat capacity) n_undefined)) h)
      as (q & Hm & Hq & Ha).
    set (h0 := <[q := b_values (replicate (Z.to_nat capacity) n_undefined)]> h) in *.
    assert (h0 !! q = Some (b_values (replicate (Z.to_nat capacity) n_undefined)))
      as Hq0 by apply lookup_insert_eq.
    assert (fst this_ ∈ dom h) as Htb by (apply elem_of_dom; eauto).
    assert (fst this_ <> q) as Htq by (intros <-; done).
    assert (h0 !! fst this_ = Some blk) as Hb0.
    { unfold h0. by rewrite lookup_insert_ne. }
    assert (dom h0 = {[q]} ∪ dom h) as Hdom0 by apply dom_insert_L.
    set (header := n_array (Some q) (Z.of_nat (length elements)) capacity).
    set (hh := <[fst this_ := put_slot blk (snd this_) header]> h0).
    assert (write_slot this_ header h0 = Some (tt, hh)) as Hheader
      by (by apply (write_slot_spec h0 this_ blk old)).
    assert (forall l, l <> fst this_ -> hh !! l = h0 !! l) as Hotherh
      by (intros l Hl; apply lookup_insert_ne; done).
    assert (hh !! fst this_ = Some (put_slot blk (snd this_) header)) as Hwritten
      by apply lookup_insert_eq.
    assert (dom hh = dom h0) as Hdomh.
    { unfold hh. rewrite dom_insert_L, Hdom0. set_solver. }
    destruct ptr as [p|].
    + destruct Hptr as (slots & inner & Hp & Hlen & Hpin & -> & Hvs).
      pose proof (repr_values_length _ _ _ _ Hvs) as Hle.
      assert (p <> q) as Hpq by (intros ->; apply Hq, elem_of_dom; eauto).
      assert (p <> fst this_) as Hpt by (intros ->; set_solver).
      destruct (copy_values_loop (copyFrom fuel) p q slots elements 0 hh
                  (replicate (Z.to_nat capacity) n_undefined))
        as (h' & copied & fps & Hloop & Hagree' & Hq' & Hlen' & Hfresh' & Hdom' & Hr').
      * done.
      * rewrite Hotherh by done. unfold h0. by rewrite lookup_insert_ne.
      * by rewrite Hotherh.
      * rewrite length_replicate. lia.
      * done.
      * intros j v Hj.
        destruct (repr_values_lookup _ _ _ _ _ _ Hvs Hj) as (s & fp & Hs & Hrepr & Hsub).
        pose proof (repr_dom _ _ _ _ Hrepr) as Hfp.
        exists s, fp. split; [done|]. split; [|set_solver].
        eapply repr_frame; [|exact Hrepr].
        intros l Hl. rewrite Hotherh by (intros ->; set_solver).
        apply Ha. set_solver.
      * destruct (built_at h h' (fst this_) blk (put_slot blk (snd this_) header))
          as (Hh' & Hagree1 & Hdom1); [done| | |].
        { rewrite Hagree' by (rewrite Hdomh, Hdom0; set_solver). done. }
        { intros l Hl Hne. rewrite Hagree' by (rewrite Hdomh, Hdom0; set_solver).
          rewrite Hotherh by done. by apply Ha. }
        exists header, (<[fst this_ := blk]> h'), ({[q]} ∪ fps).
        split.
        { cbn [copyFrom]. unfold op_bind at 1. rewrite Hread.
          unfold op_bind at 1. rewrite Hm.
          unfold op_bind at 1. fold h0. rewrite Nat2Z.id. fold header.
          rewrite Hheader. rewrite Hloop. by rewrite <- Hh'. }
        split; [done|].
        split; [rewrite Hdomh, Hdom0 in Hfresh'; set_solver|].
        split; [rewrite Hdom1, Hdom', Hdomh, Hdom0; set_solver|].
        rewrite Value_copy_array. apply repr_array_unfold.
        exists (Some q). rewrite length_fmap. split; [done|].
        eexists _, fps. split.
        { rewrite lookup_insert_ne by done. exact Hq'. }
        split.
        { rewrite take_0. cbn [app]. rewrite length_app, length_drop, length_replicate.
          lia. }
        split; [rewrite Hdomh, Hdom0 in Hfresh'; set_solver|]. split; [done|].
        rewrite take_0. cbn [app]. apply repr_values_app.
        eapply repr_values_frame; [|exact Hr'].
        intros l Hl. apply lookup_insert_ne.
        intros <-. rewrite Hdomh, Hdom0 in Hfresh'. set_solver.
    + destruct Hptr as (-> & -> & ->).
      exists (n_array (Some q) 0 0), h0, {[q]}.
      split.
      { cbn [copyFrom]. unfold op_bind at 1. rewrite Hread.
        unfold op_bind at 1. rewrite Hm. unfold op_bind at 1. fold h0.
        change (Z.of_nat (length [])) with 0 in *. fold header.
        rewrite Hheader. reflexivity. }
      split; [done|]. split; [set_solver|].
      split; [rewrite Hdom0; set_solver|].
      rewrite Value_copy_array. apply repr_array_unfold.
      exists (Some q). split; [done|]. exists [], ∅.
      split; [exact Hq0|]. split; [done|]. split; [set_solver|].
      split; [set_solver|done].
  - apply repr_object_unfold in Hrepr as (ptr & -> & Hptr).
    apply depth_object_members in Hfuel.
    assert (Forall (fun m => copies (copyFrom fuel) (snd m)) members) as Hcopies.
    { rewrite Forall_forall in IH, Hfuel |- *. intros m Hm. apply IH; [done|].
      by apply Hfuel. }
    destruct (malloc_spec (b_members (replicate (Z.to_nat capacity)
                                        (k_short "", n_undefined))) h)
      as (q & Hm & Hq & Ha).
    set (h0 := <[q := b_members (replicate (Z.to_nat capacity)
                                   (k_short "", n_undefined))]> h) in *.
    assert (h0 !! q = Some (b_members (replicate (Z.to_nat capacity)
                                         (k_short "", n_undefined))))
      as Hq0 by apply lookup_insert_eq.
    assert (fst this_ ∈ dom h) as Htb by (apply elem_of_dom; eauto).
    assert (fst this_ <> q) as Htq by (intros <-; done).
    assert (h0 !! fst this_ = Some blk) as Hb0.
    { unfold h0. by rewrite lookup_insert_ne. }
    assert (dom h0 = {[q]} ∪ dom h) as Hdom0 by apply dom_insert_L.
    set (header := n_object (Some q) (Z.of_nat (length members)) capacity).
    set (hh := <[fst this_ := put_slot blk (snd this_) header]> h0).
    assert (write_slot this_ header h0 = Some (tt, hh)) as Hheader
      by (by apply (write_slot_spec h0 this_ blk old)).
    assert (forall l, l <> fst this_ -> hh !! l = h0 !! l) as Hotherh
      by (intros l Hl; apply lookup_insert_ne; done).
    assert (hh !! fst this_ = Some (put_slot blk (snd this_) header)) as Hwritten
      by apply lookup_insert_eq.
    assert (dom hh = dom h0) as Hdomh.
    { unfold hh. rewrite dom_insert_L, Hdom0. set_solver. }
    destruct ptr as [p|].
    + destruct Hptr as (slots & inner & Hp & Hlen & Hpin & -> & Hms).
      pose proof (repr_members_length _ _ _ _ Hms) as Hle.
      assert (p <> q) as Hpq by (intros ->; apply Hq, elem_of_dom; eauto).
      assert (p <> fst this_) as Hpt by (intros ->; set_solver).
      destruct (copy_members_loop (copyFrom fuel) p q slots members 0 hh
                  (replicate (Z.to_nat capacity) (k_short "", n_undefined)))
        as (h' & copied & fps & Hloop & Hagree' & Hq' & Hlen' & Hfresh' & Hdom' & Hr').
      * done.
      * rewrite Hotherh by done. unfold h0. by rewrite lookup_insert_ne.
      * by rewrite Hotherh.
      * rewrite length_replicate. lia.
      * done.
      * intros j m Hj.
        destruct (repr_members_lookup _ _ _ _ _ _ Hms Hj)
          as (s & fpk & fpv & Hs & Hk & Hrepr & Hsubk & Hsubv).
        pose proof (repr_dom _ _ _ _ Hrepr) as Hfpv.
        pose proof (key_repr_dom _ _ _ _ Hk) as Hfpk.
        exists s, fpk, fpv. split; [done|].
        split; [|split; [|set_solver]].
        -- eapply key_repr_frame; [|exact Hk].
           intros l Hl. rewrite Hotherh by (intros ->; set_solver).
           apply Ha. set_solver.
        -- eapply repr_frame; [|exact Hrepr].
           intros l Hl. rewrite Hotherh by (intros ->; set_solver).
           apply Ha. set_solver.
      * destruct (built_at h h' (fst this_) blk (put_slot blk (snd this_) header))
          as (Hh' & Hagree1 & Hdom1); [done| | |].
        { rewrite Hagree' by (rewrite Hdomh, Hdom0; set_solver). done. }
        { intros l Hl Hne. rewrite Hagree' by (rewrite Hdomh, Hdom0; set_solver).
          rewrite Hotherh by done. by apply Ha. }
        exists header, (<[fst this_ := blk]> h'), ({[q]} ∪ fps).
        split.
        { cbn [copyFrom]. unfold op_bind at 1. rewrite Hread.
          unfold op_bind at 1. rewrite Hm.
          unfold op_bind at 1. fold h0. rewrite Nat2Z.id. fold header.
          rewrite Hheader. rewrite Hloop. by rewrite <- Hh'. }
        split; [done|].
        split; [rewrite Hdomh, Hdom0 in Hfresh'; set_solver|].
        split; [rewrite Hdom1, Hdom', Hdomh, Hdom0; set_solver|].
        rewrite Value_copy_object. apply repr_object_unfold.
        exists (Some q). rewrite length_fmap. split; [done|].
        eexists _, fps. split.
        { rewrite lookup_insert_ne by done. exact Hq'. }
        split.
        { rewrite take_0. cbn [app]. rewrite length_app, length_drop, length_replicate.
          lia. }
        split; [rewrite Hdomh, Hdom0 in Hfresh'; set_solver|]. split; [done|].
        rewrite take_0. cbn [app]. apply repr_members_app.
        eapply repr_members_frame; [|exact Hr'].
        intros l Hl. apply lookup_insert_ne.
        intros <-. rewrite Hdomh, Hdom0 in Hfresh'. set_solver.
    + destruct Hptr as (-> & -> & ->).
      exists (n_object (Some q) 0 0), h0, {[q]}.
      split.
      { cbn [copyFrom]. unfold op_bind at 1. rewrite Hread.
        unfold op_bind at 1. rewrite Hm. unfold op_bind at 1. fold h0.
        change (Z.of_nat (length [])) with 0 in *. fold header.
        rewrite Hheader. reflexivity. }
      split; [done|]. split; [set_solver|].
      split; [rewrite Hdom0; set_solver|].
      rewrite Value_copy_object. apply repr_object_unfold.
      exists (Some q). split; [done|]. exists [], ∅.
      split; [exact Hq0|]. split; [done|]. split; [set_solver|].
      split; [set_solver|done].
Qed.


(** *** Releasing *)

Lemma free_spec h p b :
  h !! p = Some b ->
  free p h = Some (tt, delete p h)
  /\ dom (delete p h) = dom h ∖ {[p]}
  /\ agree_on (dom h ∖ {[p]}) h (delete p h).
Proof.
  intros Hp. unfold free. rewrite Hp. split; [done|].
  split; [apply dom_delete_L|].
  intros l Hl. apply lookup_delete_ne. set_solver.
Qed.

Lemma key_destroy_spec h k kn fp :
  key_repr h k kn fp ->
  exists h',
    key_destroy kn h = Some (tt, h')
    /\ dom h' = dom h ∖ fp
    /\ agree_on (dom h ∖ fp) h h'.
Proof.
  destruct k as [chars|chars]; cbn.
  - intros [-> ->]. exists h. split; [done|]. split; [set_solver|apply agree_on_refl].
  - intros (p & -> & Hp & ->). exists (delete p h). cbn. by eapply free_spec.
Qed.

Lemma drop_lookup_head {A} (l : list A) i x rest :
  drop i l = x :: rest -> l !! i = Some x /\ rest = drop (S i) l.
Proof.
  intros H. split.
  - rewrite <- (Nat.add_0_r i), <- lookup_drop, H. done.
  - replace (S i) with (i + 1)%nat by lia. by rewrite <- drop_drop, H.
Qed.

(** The element loop of [reset]: every live element from slot [i] on is
    destroyed; what they own, and nothing else, is released. *)
Lemma destroy_values_loop destroy (p : loc) (slots : list node) (rest : list Value) :
  forall (i : nat) (h : store) (fps : gset loc),
  h !! p = Some (b_values slots) ->
  p ∉ fps ->
  Forall (releases destroy) rest ->
  repr_values h rest (drop i slots) fps ->
  exists h',
    destroy_values destroy (Some p) (length rest) i h = Some (tt, h')
    /\ dom h' = dom h ∖ fps
    /\ agree_on (dom h ∖ fps) h h'.
Proof.
  induction rest as [|v rest IH]; intros i h fps Hp Hpfps Hrel Hr.
  - cbn in Hr. subst fps. exists h. split; [done|].
    split; [set_solver|apply agree_on_refl].
  - destruct (drop i slots) as [|s ns] eqn:Hdrop; [done|].
    apply drop_lookup_head in Hdrop as [Hs ->].
    cbn in Hr. destruct Hr as (fp1 & fp2 & -> & Hdisj & H1 & H2).
    apply Forall_cons in Hrel as [Hv Hrest].
    destruct (Hv h s fp1 H1) as (h1 & Hdestroy & Hdom1 & Hagree1).
    pose proof (repr_values_dom _ _ _ _ H2) as Hfp2.
    assert (p ∈ dom h) as Hpdom by (apply elem_of_dom; eauto).
    destruct (IH (S i) h1 fp2) as (h' & Hloop & Hdom' & Hagree').
    + rewrite Hagree1; [done|]. set_solver.
    + set_solver.
    + done.
    + eapply repr_values_frame; [|exact H2].
      eapply agree_on_subseteq; [|exact Hagree1]. set_solver.
    + exists h'. split.
      { cbn [destroy_values length]. unfold op_bind at 1.
        rewrite (read_value_spec h p slots i s Hp Hs).
        unfold op_bind at 1. rewrite Hdestroy. exact Hloop. }
      split; [rewrite Hdom', Hdom1; set_solver|].
      intros l Hl. rewrite Hagree' by (rewrite Hdom1; set_solver).
      apply Hagree1. set_solver.
Qed.

(** The member loop of [reset]. *)
Lemma destroy_members_loop destroy (p : loc) (slots : list member_node)
  (rest : list Member) :
  forall (i : nat) (h : store) (fps : gset loc),
  h !! p = Some (b_members slots) ->
  p ∉ fps ->
  Forall (fun m => releases destroy (snd m)) rest ->
  repr_members h rest (drop i slots) fps ->
  exists h',
    destroy_members destroy (Some p) (length rest) i h = Some (tt, h')
    /\ dom h' = dom h ∖ fps
    /\ agree_on (dom h ∖ fps) h h'.
Proof.
  induction rest as [|m rest IH]; intros i h fps Hp Hpfps Hrel Hr.
  - cbn in Hr. subst fps. exists h. split; [done|].
    split; [set_solver|apply agree_on_refl].
  - destruct (drop i slots) as [|s ns] eqn:Hdrop; [done|].
    apply drop_lookup_head in Hdrop as [Hs ->].
    cbn in Hr.
    destruct Hr as (fpk & fpv & fp2 & -> & Hd1 & Hd2 & Hd3 & Hk & H1 & H2).
    apply Forall_cons in Hrel as [Hv Hrest].
    destruct (Hv h (snd s) fpv H1) as (h1 & Hdestroy & Hdom1 & Hagree1).
    pose proof (repr_members_dom _ _ _ _ H2) as Hfp2.
    pose proof (key_repr_dom _ _ _ _ Hk) as Hfpk.
    assert (p ∈ dom h) as Hpdom by (apply elem_of_dom; eauto).
    assert (key_repr h1 (fst m) (fst s) fpk) as Hk1.
    { eapply key_repr_frame; [|exact Hk].
      eapply agree_on_subseteq; [|exact Hagree1]. set_solver. }
    destruct (key_destroy_spec h1 _ _ _ Hk1) as (h2 & Hkdestroy & Hdom2 & Hagree2).
    destruct (IH (S i) h2 fp2) as (h' & Hloop & Hdom' & Hagree').
    + rewrite Hagree2 by (rewrite Hdom1; set_solver).
      rewrite Hagree1; [done|]. set_solver.
    + set_solver.
    + done.
    + eapply repr_members_frame; [|exact H2].
      intros l Hl. rewrite Hagree2 by (rewrite Hdom1; set_solver).
      apply Hagree1. set_solver.
    + exists h'. split.
      { cbn [destroy_members length]. unfold op_bind at 1.
        rewrite (read_member_spec h p slots i s Hp Hs).
        unfold op_bind at 1. rewrite Hdestroy.
        unfold op_bind at 1. rewrite Hkdestroy. exact Hloop. }
      split; [rewrite Hdom', Hdom2, Hdom1; set_solver|].
      intros l Hl. rewrite Hagree' by (rewrite Hdom2, Hdom1; set_solver).
      rewrite Hagree2 by (rewrite Hdom1; set_solver).
      apply Hagree1. set_solver.
Qed.

(** [reset], with fuel above the nesting depth, releases exactly the
    buffers the node owns. *)
Lemma reset_releases v :
  forall fuel, (depth v < fuel)%nat -> releases (reset fuel) v.
Proof.
  induction v as [| | | | | | |chars|elements capacity IH|members capacity IH]
    using Value_ind; intros [|fuel] Hfuel; try lia; intros h n fp Hrepr;
    try (destruct Hrepr as [-> ->]; exists h;
         split; [reflexivity|]; split; [set_solver|apply agree_on_refl]).
  - destruct Hrepr as (p & -> & Hp & ->). exists (delete p h).
    cbn [reset]. by eapply free_spec.
  - apply repr_array_unfold in Hrepr as (ptr & -> & Hptr).
    apply depth_array_elements in Hfuel.
    assert (Forall (releases (reset fuel)) elements) as Hrel.
    { rewrite Forall_forall in IH, Hfuel |- *. intros v Hv. apply IH; [done|].
      by apply Hfuel. }
    destruct ptr as [p|].
    + destruct Hptr as (slots & inner & Hp & Hlen & Hpin & -> & Hvs).
      destruct (destroy_values_loop (reset fuel) p slots elements 0 h inner)
        as (h' & Hloop & Hdom' & Hagree'); try done.
      assert (p ∈ dom h) as Hpdom by (apply elem_of_dom; eauto).
      assert (h' !! p = Some (b_values slots)) as Hp'
        by (rewrite Hagree'; [done|set_solver]).
      destruct (free_spec h' p _ Hp') as (Hfree & Hdomf & Hagreef).
      exists (delete p h'). split.
      { cbn [reset]. unfold op_bind at 1. rewrite Nat2Z.id, Hloop. exact Hfree. }
      split; [rewrite Hdomf, Hdom'; set_solver|].
      intros l Hl. rewrite Hagreef by (rewrite Hdom'; set_solver).
      apply Hagree'. set_solver.
    + destruct Hptr as (-> & -> & ->). exists h.
      split; [reflexivity|]. split; [set_solver|apply agree_on_refl].
  - apply repr_object_unfold in Hrepr as (ptr & -> & Hptr).
    apply depth_object_members in Hfuel.
    assert (Forall (fun m => releases (reset fuel) (snd m)) members) as Hrel.
    { rewrite Forall_forall in IH, Hfuel |- *. intros m Hm. apply IH; [done|].
      by apply Hfuel. }
    destruct ptr as [p|].
    + destruct Hptr as (slots & inner & Hp & Hlen & Hpin & -> & Hms).
      destruct (destroy_members_loop (reset fuel) p slots members 0 h inner)
        as (h' & Hloop & Hdom' & Hagree'); try done.
      assert (p ∈ dom h) as Hpdom by (apply elem_of_dom; eauto).
      assert (h' !! p = Some (b_members slots)) as Hp'
        by (rewrite Hagree'; [done|set_solver]).
      destruct (free_spec h' p _ Hp') as (Hfree & Hdomf & Hagreef).
      exists (delete p h'). split.
      { cbn [reset]. unfold op_bind at 1. rewrite Nat2Z.id, Hloop. exact Hfree. }
      split; [rewrite Hdomf, Hdom'; set_solver|].
      intros l Hl. rewrite Hagreef by (rewrite Hdom'; set_solver).
      apply Hagree'. set_solver.
    + destruct Hptr as (-> & -> & ->). exists h.
      split; [reflexivity|]. split; [set_solver|apply agree_on_refl].
Qed.

(** ** Copies are equal *)

(** *** Conversions to [double] never produce a NaN *)

Lemma shr_1_nonneg mrs : 0 <= shr_m mrs -> 0 <= shr_m (shr_1 mrs).
Proof. destruct mrs as [[|[p|p|]|p] r s]; cbn; lia. Qed.

Lemma iter_shr_1_nonneg p :
  forall mrs, 0 <= shr_m mrs -> 0 <= shr_m (SpecFloat.iter_pos shr_1 p mrs).
Proof.
  induction p as [p IH|p IH|]; intros mrs H; cbn [SpecFloat.iter_pos].
  - apply IH, IH. by apply shr_1_nonneg.
  - by apply IH, IH.
  - by apply shr_1_nonneg.
Qed.

Lemma shr_fexp_nonneg prec emax m e l :
  0 <= m -> 0 <= shr_m (fst (shr_fexp prec emax m e l)).
Proof.
  intros H. unfold shr_fexp, shr.
  assert (0 <= shr_m (shr_record_of_loc m l)) as H'
    by (destruct l as [|[]]; exact H).
  destruct (fexp prec emax (Zdigits2 m + e) - e); cbn [fst]; try done.
  by apply iter_shr_1_nonneg.
Qed.

Lemma round_nearest_even_nonneg m l : 0 <= m -> 0 <= round_nearest_even m l.
Proof.
  intros H. unfold round_nearest_even.
  destruct l as [|[]]; try done; [destruct (Z.even m)|]; lia.
Qed.

Lemma binary_round_aux_not_nan prec emax sx mx ex lx :
  0 <= mx -> binary_round_aux prec emax sx mx ex lx <> S754_nan.
Proof.
  intros H. unfold binary_round_aux.
  pose proof (shr_fexp_nonneg prec emax mx ex lx H) as H1.
  destruct (shr_fexp prec emax mx ex lx) as [mrs' e']. cbn [fst] in H1.
  pose proof (shr_fexp_nonneg prec emax
                (round_nearest_even (shr_m mrs') (loc_of_shr_record mrs')) e'
                loc_Exact (round_nearest_even_nonneg _ _ H1)) as H2.
  destruct (shr_fexp prec emax _ e' loc_Exact) as [mrs'' e'']. cbn [fst] in H2.
  destruct (shr_m mrs''); [done| |lia].
  by destruct (_ <=? _).
Qed.

Lemma static_cast_double_not_nan z : static_cast_double z <> S754_nan.
Proof.
  unfold static_cast_double, binary_normalize, binary_round.
  destruct z as [|p|p]; [done| |];
    destruct (shl_align _ _ _) as [mz ez]; by apply binary_round_aux_not_nan.
Qed.

Lemma SFeqb_refl x : x <> S754_nan -> SFeqb x x = true.
Proof.
  intros H. unfold SFeqb, SFcompare. destruct x as [s|s| |s m e]; try done.
  - by destruct s.
  - destruct s; rewrite Z.compare_refl, Pos.compare_cont_refl; done.
Qed.

(** *** [operator==] is reflexive away from NaN *)

Lemma wf_array_elements elements capacity :
  wf (array elements capacity) = true -> Forall (fun v => wf v = true) elements.
Proof.
  cbn [wf]. rewrite !andb_true_iff. intros [_ H].
  apply Forall_forall. intros v Hv.
  rewrite forallb_forall in H. apply H. by apply list_elem_of_In.
Qed.

Lemma wf_object_members members capacity :
  wf (object members capacity) = true ->
  unique_keys members
  /\ Forall (fun m => MemberKey_wf (fst m) = true /\ wf (snd m) = true) members.
Proof.
  cbn [wf]. rewrite !andb_true_iff. intros [[_ Hu] H].
  split; [by apply bool_decide_eq_true in Hu|].
  apply Forall_forall. intros m Hm.
  rewrite forallb_forall in H. apply andb_true_iff, H. by apply list_elem_of_In.
Qed.

Lemma nan_free_array_elements elements capacity :
  contains_nan (array elements capacity) = false ->
  Forall (fun v => contains_nan v = false) elements.
Proof.
  cbn [contains_nan]. intros H. apply Forall_forall. intros v Hv.
  destruct (contains_nan v) eqn:E; [|done].
  rewrite <- H. symmetry. apply existsb_exists. exists v.
  split; [by apply list_elem_of_In|done].
Qed.

Lemma nan_free_object_members members capacity :
  contains_nan (object members capacity) = false ->
  Forall (fun m => contains_nan (snd m) = false) members.
Proof.
  cbn [contains_nan]. intros H. apply Forall_forall. intros m Hm.
  destruct (contains_nan (snd m)) eqn:E; [|done].
  rewrite <- H. symmetry. apply existsb_exists. exists m.
  split; [by apply list_elem_of_In|done].
Qed.

Lemma operator_eq_refl v :
  wf v = true -> contains_nan v = false -> operator_eq v v = true.
Proof.
  induction v as [| |b|z|z|d|chars|chars|elements capacity IH|members capacity IH]
    using Value_ind; intros Hwf Hnan; try reflexivity.
  - cbn. by destruct b.
  - cbn. apply SFeqb_refl, static_cast_double_not_nan.
  - cbn. apply SFeqb_refl, static_cast_double_not_nan.
  - cbn. apply SFeqb_refl. intros ->. discriminate Hnan.
  - cbn. by rewrite Z.eqb_refl, String.eqb_refl.
  - cbn. by rewrite Z.eqb_refl, String.eqb_refl.
  - rewrite operator_eq_array. cbn [isArray type ValueType_eqb andb arrayData fst].
    unfold numElements. cbn [arrayData fst]. rewrite Z.eqb_refl. cbn [andb].
    apply wf_array_elements in Hwf. apply nan_free_array_elements in Hnan.
    induction IH as [|v vs Hv _ IHvs]; [done|].
    apply Forall_cons in Hwf as [Hwfv Hwfs]. apply Forall_cons in Hnan as [Hnv Hns].
    cbn [elements_equal]. rewrite (Hv Hwfv Hnv). cbn [negb]. by apply IHvs.
  - rewrite operator_eq_object. cbn [isObject type ValueType_eqb andb].
    unfold numMembers. cbn [objectData fst]. rewrite Z.eqb_refl. cbn [andb].
    apply wf_object_members in Hwf as [Hu Hwf].
    apply nan_free_object_members in Hnan.
    apply forallb_forall. intros m Hm. apply list_elem_of_In in Hm.
    apply (proj2 (member_matches_spec members capacity m Hu)).
    exists m. split; [done|]. split; [done|].
    rewrite Forall_forall in IH, Hwf, Hnan.
    apply IH; [done|by apply Hwf|by apply Hnan].
Qed.

(** *** The copy is the same tree *)

Lemma MemberKey_of_get k : MemberKey_wf k = true -> MemberKey_of (MemberKey_get k) = k.
Proof.
  destruct k as [chars|chars]; cbn; unfold MemberKey_of; intros H.
  - by rewrite H.
  - apply Z.ltb_lt in H. by destruct (Z.leb_spec (Z.of_nat (String.length chars)) maxShortLength); [lia|].
Qed.

Lemma Value_copy_id v : wf v = true -> Value_copy v = v.
Proof.
  induction v as [| | | | | | | |elements capacity IH|members capacity IH]
    using Value_ind; intros Hwf; try reflexivity.
  - rewrite Value_copy_array. f_equal. apply wf_array_elements in Hwf.
    induction IH as [|v vs Hv _ IHvs]; [done|].
    apply Forall_cons in Hwf as [Hwfv Hwfs]. cbn. by rewrite (Hv Hwfv), IHvs.
  - rewrite Value_copy_object. f_equal. apply wf_object_members in Hwf as [_ Hwf].
    induction IH as [|[k v] ms Hm _ IHms]; [done|].
    apply Forall_cons in Hwf as [[Hk Hwfv] Hwfs]. cbn in *.
    by rewrite (MemberKey_of_get k Hk), (Hm Hwfv), IHms.
Qed.

(** ** Mutations stay inside what the node owns *)

Lemma array_capacity_class count :
  0 <= count -> count + 8 < 2 ^ 32 ->
  and_not32 (wrap32 (count + 8)) 7 = 8 * ((count + 8) / 8)
  /\ count < 8 * ((count + 8) / 8) <= count + 8.
Proof.
  intros H0 H1. rewrite wrap32_small by lia.
  change 7 with (Z.ones 3). rewrite and_not32_ones by lia.
  change (2 ^ 3) with 8. split; [done|].
  pose proof (Z.div_mod (count + 8) 8) as Hd.
  pose proof (Z.mod_pos_bound (count + 8) 8) as Hm. lia.
Qed.

Lemma realloc_values_spec h ptr capacity slots :
  match ptr with
  | Some p => h !! p = Some (b_values slots)
  | None => True
  end ->
  exists q blk h',
    realloc_values ptr capacity h = Some (q, h')
    /\ h' !! q = Some (b_values blk)
    /\ length blk = capacity
    /\ (q ∉ dom h)
    /\ agree_on (dom h ∖ ptr_set ptr) h h'.
Proof.
  intros Hptr. destruct ptr as [p|]; cbn [realloc_values ptr_set].
  - destruct (malloc_spec (b_values (take capacity slots
                ++ replicate (capacity - length slots) n_undefined)) h)
      as (q & Hm & Hq & Ha).
    assert (p <> q) as Hpq by (intros ->; apply Hq, elem_of_dom; eauto).
    eexists q, _, _. split.
    { unfold op_bind, load_values, load, op_bind, op_ret, free.
      rewrite Hptr, Hm. rewrite lookup_insert_ne by done. by rewrite Hptr. }
    split; [rewrite lookup_delete_ne by done; apply lookup_insert_eq|].
    split; [rewrite length_app, length_take, length_replicate; lia|].
    split; [done|].
    intros l Hl. rewrite lookup_delete_ne by set_solver.
    apply Ha. set_solver.
  - destruct (malloc_spec (b_values (replicate capacity n_undefined)) h)
      as (q & Hm & Hq & Ha).
    eexists q, _, _. split; [exact Hm|].
    split; [apply lookup_insert_eq|]. split; [apply length_replicate|].
    split; [done|].
    intros l Hl. apply Ha. set_solver.
Qed.

Lemma realloc_members_spec h ptr capacity slots :
  match ptr with
  | Some p => h !! p = Some (b_members slots)
  | None => True
  end ->
  exists q blk h',
    realloc_members ptr capacity h = Some (q, h')
    /\ h' !! q = Some (b_members blk)
    /\ length blk = capacity
    /\ (q ∉ dom h)
    /\ agree_on (dom h ∖ ptr_set ptr) h h'.
Proof.
  intros Hptr. destruct ptr as [p|]; cbn [realloc_members ptr_set].
  - destruct (malloc_spec (b_members (take capacity slots
                ++ replicate (capacity - length slots) (k_short "", n_undefined))) h)
      as (q & Hm & Hq & Ha).
    assert (p <> q) as Hpq by (intros ->; apply Hq, elem_of_dom; eauto).
    eexists q, _, _. split.
    { unfold op_bind, load_members, load, op_bind, op_ret, free.
      rewrite Hptr, Hm. rewrite lookup_insert_ne by done. by rewrite Hptr. }
    split; [rewrite lookup_delete_ne by done; apply lookup_insert_eq|].
    split; [rewrite length_app, length_take, length_replicate; lia|].
    split; [done|].
    intros l Hl. rewrite lookup_delete_ne by set_solver.
    apply Ha. set_solver.
  - destruct (malloc_spec (b_members (replicate capacity (k_short "", n_undefined))) h)
      as (q & Hm & Hq & Ha).
    eexists q, _, _. split; [exact Hm|].
    split; [apply lookup_insert_eq|]. split; [apply length_replicate|].
    split; [done|].
    intros l Hl. apply Ha. set_solver.
Qed.

(** [addArrayElement] on the node of an array returns, and changes no
    live buffer but those the array owns. *)
Lemma addArrayElement_array_confined fuel value h elements capacity n fp :
  repr h (array elements capacity) n fp ->
  capacity + 8 < 2 ^ 32 ->
  exists n' h',
    addArrayElement fuel value n h = Some (n', h')
    /\ agree_on (dom h ∖ fp) h h'.
Proof.
  intros Hrepr Hroom. apply repr_array_unfold in Hrepr as (ptr & -> & Hptr).
  set (num := Z.of_nat (length elements)).
  assert (0 <= num <= capacity
          /\ ptr_set ptr ⊆ fp
          /\ match ptr with
             | Some p => exists slots, h !! p = Some (b_values slots)
                                       /\ Z.of_nat (length slots) = capacity
             | None => capacity = 0
             end) as (Hnum & Hsub & Hblk).
  { destruct ptr as [p|].
    - destruct Hptr as (slots & inner & Hp & Hlen & _ & -> & Hvs).
      apply repr_values_length in Hvs. subst num.
      split; [lia|]. split; [set_solver|eauto].
    - destruct Hptr as (-> & -> & ->). subst num. cbn. split; [lia|]. split; done. }
  clear Hptr. unfold addArrayElement. cbn [ensureArray].
  unfold op_bind at 1. unfold op_ret at 1. unfold op_bind at 1.
  destruct (Z.leb_spec capacity num) as [Hfull|Hspare].
  - destruct (array_capacity_class capacity) as [Hclass Hbound]; [lia|lia|].
    rewrite Hclass. set (grown := 8 * ((capacity + 8) / 8)) in *.
    unfold reserveArray. cbn [ensureArray]. unfold op_bind at 1. unfold op_ret at 1.
    destruct (Z.leb_spec grown capacity) as [|_]; [lia|].
    destruct (realloc_values_spec h ptr (Z.to_nat grown)
                (match ptr with
                 | Some p => match h !! p with Some (b_values s) => s | _ => [] end
                 | None => []
                 end))
      as (q & blk & h1 & Hre & Hq1 & Hlen1 & Hqfresh & Hagree1).
    { destruct ptr as [p|]; [|done]. destruct Hblk as (slots & -> & _). done. }
    unfold op_bind at 1. rewrite Hre. unfold op_ret at 1.
    unfold op_bind at 1.
    rewrite (write_value_spec h1 q blk _ value Hq1) by lia.
    eexists _, _. split; [reflexivity|].
    intros l Hl. rewrite lookup_insert_ne by set_solver.
    apply Hagree1. set_solver.
  - destruct ptr as [p|]; [|lia].
    destruct Hblk as (slots & Hp & Hlen). unfold op_ret at 1.
    unfold op_bind at 1.
    rewrite (write_value_spec h p slots _ value Hp) by lia.
    eexists _, _. split; [reflexivity|].
    intros l Hl. rewrite lookup_insert_ne; [done|]. set_solver.
Qed.

(** [addArrayElement] on any node: a node that is not an array is reset
    first (what it owned is released) and continues as the empty array. *)
Lemma addArrayElement_confined w :
  forall fuel value h n fp,
  repr h w n fp ->
  (depth w < fuel)%nat ->
  snd (arrayData w) + 8 < 2 ^ 32 ->
  exists n' h',
    addArrayElement fuel value n h = Some (n', h')
    /\ agree_on (dom h ∖ fp) h h'.
Proof.
  intros fuel value h n fp Hrepr Hfuel Hroom.
  destruct (isArray w) eqn:Harr.
  { apply isArray_inv in Harr as (elements & capacity & ->).
    by eapply addArrayElement_array_confined. }
  destruct (reset_releases w fuel Hfuel h n fp Hrepr) as (h1 & Hreset & Hdom1 & Hagree1).
  assert (addArrayElement fuel value n h
          = addArrayElement fuel value (n_array None 0 0) h1) as ->.
  { destruct w; try discriminate Harr; cbn in Hrepr;
      try (destruct Hrepr as [-> ->]);
      try (destruct Hrepr as (p & -> & _ & _));
      try (apply repr_object_unfold in Hrepr as (ptr & -> & _));
      unfold addArrayElement; cbn [ensureArray];
      unfold op_bind at 1; unfold op_bind at 1; by rewrite Hreset. }
  destruct (addArrayElement_array_confined fuel value h1 [] 0 (n_array None 0 0) ∅)
    as (n' & h' & Hadd & Hagree'); [by exists None|lia|].
  exists n', h'. split; [done|].
  intros l Hl. rewrite Hagree' by (rewrite Hdom1; set_solver). by apply Hagree1.
Qed.

(** The scan of [findObjectMember] reads through every key it meets and
    returns a slot of the live range or the member count. *)
Lemma find_member_from_total key (p : loc) (slots : list member_node)
  (rest : list Member) :
  forall (i : nat) (h : store) (fps : gset loc),
  h !! p = Some (b_members slots) ->
  repr_members h rest (drop i slots) fps ->
  exists r,
    find_member_from key (Some p) (length rest) i h = Some (r, h)
    /\ (i <= r <= i + length rest)%nat.
Proof.
  induction rest as [|m rest IH]; intros i h fps Hp Hr.
  - exists i. split; [done|]. cbn. lia.
  - destruct (drop i slots) as [|s ns] eqn:Hdrop; [done|].
    apply drop_lookup_head in Hdrop as [Hs ->]. cbn in Hr.
    destruct Hr as (fpk & fpv & fp2 & _ & _ & _ & _ & Hk & _ & H2).
    cbn [find_member_from length]. unfold op_bind at 1.
    rewrite (read_member_spec h p slots i s Hp Hs).
    unfold op_bind at 1. rewrite (key_get_spec h _ _ _ Hk).
    destruct (MemberKey_get m.1 =? key)%string.
    + exists i. split; [done|]. lia.
    + destruct (IH (S i) h fp2 Hp H2) as (r & Hfind & Hrange).
      exists r. split; [done|]. lia.
Qed.

(** [setObjectMember] on the node of an object returns, and changes no
    live buffer but those the object owns. *)
Lemma setObjectMember_object_confined fuel key value h members capacity n fp :
  repr h (object members capacity) n fp ->
  (depth (object members capacity) <= fuel)%nat ->
  capacity + 4 < 2 ^ 32 ->
  exists n' h',
    setObjectMember fuel key value n h = Some (n', h')
    /\ agree_on (dom h ∖ fp) h h'.
Proof.
  intros Hrepr Hfuel Hroom.
  apply repr_object_unfold in Hrepr as (ptr & -> & Hptr).
  remember (Z.of_nat (length members)) as num eqn:Enum.
  assert (Z.to_nat num = length members) as Hnat by lia.
  assert (0 <= num <= capacity
          /\ ptr_set ptr ⊆ fp
          /\ match ptr with
             | Some p => exists slots, h !! p = Some (b_members slots)
                                       /\ Z.of_nat (length slots) = capacity
             | None => capacity = 0
             end
          /\ exists r, find_member_from key ptr (length members) 0 h = Some (r, h)
                       /\ (r <= length members)%nat)
    as (Hnum & Hsub & Hblk & r & Hfind & Hrange).
  { destruct ptr as [p|].
    - destruct Hptr as (slots & inner & Hp & Hlen & _ & -> & Hms).
      pose proof (repr_members_length _ _ _ _ Hms) as Hle.
      split; [lia|]. split; [set_solver|]. split; [eauto|].
      destruct (find_member_from_total key p slots members 0 h inner Hp Hms)
        as (r & Hfind & Hrange).
      exists r. split; [done|lia].
    - destruct Hptr as (-> & -> & ->). cbn in Enum. subst num.
      split; [lia|]. split; [done|]. split; [done|]. by exists 0%nat. }
  unfold setObjectMember. cbn [ensureObject].
  unfold op_bind at 1. unfold op_ret at 1.
  unfold op_bind at 1. cbn [findObjectMember]. unfold op_bind at 1.
  rewrite Hnat, Hfind. unfold op_ret at 1.
  destruct (Z.ltb_spec (Z.of_nat r) num) as [Hlt|Hge].
  - rewrite Nat2Z.id.
    destruct ptr as [p|]; [|subst num; destruct Hptr as (-> & _); cbn in Hlt; lia].
    destruct Hptr as (slots & inner & Hp & Hlen & Hpin & -> & Hms).
    destruct (lookup_lt_is_Some_2 members r) as [m Hm]; [lia|].
    destruct (repr_members_lookup _ _ _ _ _ _ Hms Hm)
      as (s & fpk & fpv & Hs & _ & Hv & _ & Hsubv).
    apply Nat.lt_succ_r in Hfuel.
    pose proof (depth_object_members _ _ _ Hfuel) as Hdepths.
    rewrite Forall_forall in Hdepths.
    assert (depth (snd m) < fuel)%nat as Hdm.
    { apply Hdepths. apply list_elem_of_lookup. eauto. }
    destruct (reset_releases (snd m) fuel Hdm h (snd s) fpv Hv)
      as (h1 & Hreset & Hdom1 & Hagree1).
    assert (p ∈ dom h) as Hpdom by (apply elem_of_dom; eauto).
    assert (h1 !! p = Some (b_members slots)) as Hp1
      by (rewrite Hagree1; [done|set_solver]).
    unfold op_bind at 1. rewrite (read_member_spec h p slots r s Hp Hs).
    unfold op_bind at 1. rewrite Hreset.
    unfold op_bind at 1.
    rewrite (write_member_spec h1 p slots r _ Hp1)
      by (apply lookup_lt_Some in Hs; lia).
    eexists _, _. split; [reflexivity|].
    intros l Hl. rewrite lookup_insert_ne by set_solver.
    apply Hagree1. set_solver.
  - clear Hptr Hfind. unfold op_bind at 1.
    destruct (Z.leb_spec capacity num) as [Hfull|Hspare].
    + destruct (object_capacity_class num) as [Hclass Hbound]; [lia|lia|].
      rewrite Hclass. set (grown := 4 * ((num + 4) / 4)) in *.
      unfold reserveObject. cbn [ensureObject].
      unfold op_bind at 1. unfold op_ret at 1.
      destruct (Z.leb_spec grown capacity) as [|_]; [lia|].
      destruct (realloc_members_spec h ptr (Z.to_nat grown)
                  (match ptr with
                   | Some p => match h !! p with Some (b_members s) => s | _ => [] end
                   | None => []
                   end))
        as (q & blk & h1 & Hre & Hq1 & Hlen1 & Hqfresh & Hagree1).
      { destruct ptr as [p|]; [|done]. destruct Hblk as (slots & -> & _). done. }
      unfold op_bind at 1. rewrite Hre. unfold op_ret at 1.
      destruct (key_construct_spec key h1)
        as (kn & h2 & fpk & Hkey & Hagree2 & Hfresh2 & Hdom2 & _).
      assert (q ∈ dom h1) as Hqdom1 by (apply elem_of_dom; eauto).
      assert (h2 !! q = Some (b_members blk)) as Hq2
        by (rewrite Hagree2; done).
      unfold op_bind at 1. rewrite Hkey.
      unfold op_bind at 1.
      rewrite (write_member_spec h2 q blk _ _ Hq2) by lia.
      eexists _, _. split; [reflexivity|].
      intros l Hl. rewrite lookup_insert_ne by set_solver.
      assert (l ∈ dom h1) as Hl1.
      { apply elem_of_dom. rewrite Hagree1 by set_solver.
        apply elem_of_dom. set_solver. }
      rewrite Hagree2 by done.
      apply Hagree1. set_solver.
    + destruct ptr as [p|]; [|lia].
      destruct Hblk as (slots & Hp & Hlen). unfold op_ret at 1.
      destruct (key_construct_spec key h)
        as (kn & h2 & fpk & Hkey & Hagree2 & Hfresh2 & Hdom2 & _).
      assert (p ∈ dom h) as Hpdom by (apply elem_of_dom; eauto).
      assert (h2 !! p = Some (b_members slots)) as Hp2
        by (rewrite Hagree2; done).
      unfold op_bind at 1. rewrite Hkey.
      unfold op_bind at 1.
      rewrite (write_member_spec h2 p slots _ _ Hp2) by lia.
      eexists _, _. split; [reflexivity|].
      intros l Hl. rewrite lookup_insert_ne by (cbn [ptr_set] in Hsub; set_solver).
      apply Hagree2. set_solver.
Qed.

Lemma setObjectMember_confined w :
  forall fuel key value h n fp,
  repr h w n fp ->
  (depth w < fuel)%nat ->
  snd (objectData w) + 4 < 2 ^ 32 ->
  exists n' h',
    setObjectMember fuel key value n h = Some (n', h')
    /\ agree_on (dom h ∖ fp) h h'.
Proof.
  intros fuel key value h n fp Hrepr Hfuel Hroom.
  destruct (isObject w) eqn:Hobj.
  { apply isObject_inv in Hobj as (members & capacity & ->).
    eapply setObjectMember_object_confined; [done|lia|done]. }
  destruct (reset_releases w fuel Hfuel h n fp Hrepr) as (h1 & Hreset & Hdom1 & Hagree1).
  assert (setObjectMember fuel key value n h
          = setObjectMember fuel key value (n_object None 0 0) h1) as ->.
  { destruct w; try discriminate Hobj; cbn in Hrepr;
      try (destruct Hrepr as [-> ->]);
      try (destruct Hrepr as (p & -> & _ & _));
      try (apply repr_array_unfold in Hrepr as (ptr & -> & _));
      unfold setObjectMember; cbn [ensureObject];
      unfold op_bind at 1; unfold op_bind at 1; by rewrite Hreset. }
  destruct (setObjectMember_object_confined fuel key value h1 [] 0
              (n_object None 0 0) ∅)
    as (n' & h' & Hset & Hagree'); [by exists None|cbn; lia|lia|].
  exists n', h'. split; [done|].
  intros l Hl. rewrite Hagree' by (rewrite Hdom1; set_solver). by apply Hagree1.
Qed.

(** Reading a place depends on the buffer it is in only. *)
Lemma read_slot_frame h h' at_ n :
  h' !! fst at_ = h !! fst at_ ->
  read_slot at_ h = Some (n, h) ->
  read_slot at_ h' = Some (n, h').
Proof.
  intros Hp Hread. apply read_slot_inv in Hread as (b & Hb & Hn).
  apply (read_slot_spec h' at_ b); [by rewrite Hp|done].
Qed.

Lemma read_slot_live h at_ n : read_slot at_ h = Some (n, h) -> fst at_ ∈ dom h.
Proof.
  intros H. apply read_slot_inv in H as (b & Hb & _). apply elem_of_dom; eauto.
Qed.

Lemma get_put_slot_ne b i j n : i <> j -> get_slot (put_slot b i n) j = get_slot b j.
Proof.
  intros Hij. destruct b as [chars|slots|slots]; cbn; [done| |].
  - by apply list_lookup_insert_ne.
  - by rewrite list_lookup_alter_ne.
Qed.

Lemma put_get_slot b i n : get_slot b i = Some n -> put_slot b i n = b.
Proof.
  destruct b as [chars|slots|slots]; cbn; [done| |].
  - intros H. f_equal. by apply list_insert_id.
  - intros H. f_equal. revert i H.
    induction slots as [|[k m] slots IH]; intros [|i]; cbn; try done.
    + by intros [= ->].
    + intros H. f_equal. by apply IH.
Qed.

(** Writing at a place leaves every other place as it is. *)
Lemma read_slot_other h this_ other_ b m n :
  h !! fst this_ = Some b ->
  this_ <> other_ ->
  read_slot other_ h = Some (n, h) ->
  read_slot other_ (<[fst this_ := put_slot b (snd this_) m]> h)
  = Some (n, <[fst this_ := put_slot b (snd this_) m]> h).
Proof.
  intros Hb Hne Hread. apply read_slot_inv in Hread as (bo & Hbo & Hn).
  destruct (decide (fst this_ = fst other_)) as [Heq|Hneq].
  - apply (read_slot_spec _ other_ (put_slot b (snd this_) m)).
    + rewrite <- Heq. apply lookup_insert_eq.
    + rewrite get_put_slot_ne.
      * rewrite Heq in Hb. congruence.
      * intros Hi. apply Hne. destruct this_, other_; cbn in *; congruence.
  - apply (read_slot_spec _ other_ bo); [by rewrite lookup_insert_ne|done].
Qed.

Lemma write_slot_dom h at_ n h' :
  write_slot at_ n h = Some (tt, h') -> dom h' = dom h.
Proof.
  unfold write_slot, load, op_bind, op_ret.
  destruct (h !! fst at_) as [b|] eqn:Hb; [|done].
  destruct (get_slot b (snd at_)); [|done].
  intros [= <-]. rewrite dom_insert_L. apply elem_of_dom_2 in Hb. set_solver.
Qed.

(** [reset] in place: what the node at the place owns is released, the
    node is left [undefined], and nothing else changes. *)
Lemma reset_at_spec w fuel h this_ b this fpt :
  h !! fst this_ = Some b ->
  get_slot b (snd this_) = Some this ->
  repr h w this fpt ->
  (depth w < fuel)%nat ->
  fst this_ ∉ fpt ->
  exists h1,
    reset_at fuel this_ h
    = Some (tt, <[fst this_ := put_slot b (snd this_) n_undefined]> h1)
    /\ h1 !! fst this_ = Some b
    /\ dom h1 = dom h ∖ fpt
    /\ agree_on (dom h ∖ fpt) h h1.
Proof.
  intros Hb Hslot Hw Hfuel Hout.
  destruct (reset_releases w fuel Hfuel h this fpt Hw) as (h1 & Hreset & Hdom1 & Hagree1).
  assert (h1 !! fst this_ = Some b) as Hb1.
  { rewrite Hagree1; [done|]. apply elem_of_dom_2 in Hb. set_solver. }
  exists h1. split; [|done].
  unfold reset_at, op_bind. rewrite (read_slot_spec h this_ b this Hb Hslot).
  rewrite Hreset. by apply (write_slot_spec h1 this_ b this).
Qed.

(** Whatever [reset] in place leaves, the buffers the node owned are not
    part of it. *)
Lemma reset_at_released w fuel h this_ this fpt h' :
  read_slot this_ h = Some (this, h) ->
  repr h w this fpt ->
  (depth w < fuel)%nat ->
  reset_at fuel this_ h = Some (tt, h') ->
  dom h' = dom h ∖ fpt.
Proof.
  intros Hthis Hw Hfuel.
  destruct (reset_releases w fuel Hfuel h this fpt Hw) as (h1 & Hreset & Hdom1 & _).
  unfold reset_at, op_bind. rewrite Hthis, Hreset. intros Hwrite.
  apply write_slot_dom in Hwrite. by rewrite Hwrite.
Qed.

Lemma depth_Value_copy v : depth (Value_copy v) = depth v.
Proof.
  induction v as [| | | | | | | |elements capacity IH|members capacity IH]
    using Value_ind; try reflexivity.
  - rewrite Value_copy_array. cbn [depth]. f_equal.
    induction IH as [|v vs Hv _ IHvs]; [done|]. cbn. by rewrite Hv, IHvs.
  - rewrite Value_copy_object. cbn [depth]. f_equal.
    induction IH as [|m ms Hm _ IHms]; [done|]. cbn. by rewrite Hm, IHms.
Qed.

Lemma arrayData_Value_copy v : snd (arrayData (Value_copy v)) = snd (arrayData v).
Proof. by destruct v. Qed.

Lemma objectData_Value_copy v : snd (objectData (Value_copy v)) = snd (objectData v).
Proof. by destruct v. Qed.

(** Copy assignment to the object at [this_], which holds [w], of the
    value [v] held at another place: what [w] owned is released, the copy
    is built in place, and [v] is as it was.  Neither object lies in a
    buffer the other owns, and [*this] does not lie in one of its own. *)
Lemma operator_assign_copies v w :
  forall fuel h this_ other_ this n fp fpt,
  read_slot this_ h = Some (this, h) ->
  repr h w this fpt ->
  read_slot other_ h = Some (n, h) ->
  repr h v n fp ->
  this_ <> other_ ->
  fp ## fpt ->
  fst other_ ∉ fpt ->
  fst this_ ∉ fp ->
  fst this_ ∉ fpt ->
  (depth v < fuel)%nat ->
  (depth w < fuel)%nat ->
  exists n' h' fp',
    operator_assign fuel this_ other_ h = Some (tt, h')
    /\ read_slot this_ h' = Some (n', h')
    /\ repr h' (Value_copy v) n' fp'
    /\ read_slot other_ h' = Some (n, h')
    /\ repr h' v n fp
    /\ fp' ## fp
    /\ dom h' = (dom h ∖ fpt) ∪ fp'
    /\ agree_on (dom h ∖ fpt ∖ {[fst this_]}) h h'.
Proof.
  intros fuel h this_ other_ this n fp fpt Hthis Hw Hother Hv Hne Hdisj Hofpt
    Htfp Htfpt Hfuelv Hfuelw.
  apply read_slot_inv in Hthis as (b & Hb & Hslot).
  destruct (reset_at_spec w fuel h this_ b this fpt Hb Hslot Hw Hfuelw Htfpt)
    as (h1 & Hreset & Hb1 & Hdom1 & Hagree1).
  set (b0 := put_slot b (snd this_) n_undefined) in *.
  set (h2 := <[fst this_ := b0]> h1) in *.
  pose proof (repr_dom _ _ _ _ Hv) as Hfp.
  assert (fst this_ ∈ dom h1) as Htdom1 by (apply elem_of_dom; eauto).
  assert (dom h2 = dom h1) as Hdom2.
  { unfold h2. rewrite dom_insert_L. set_solver. }
  assert (read_slot other_ h1 = Some (n, h1)) as Hother1.
  { eapply read_slot_frame; [|exact Hother]. apply Hagree1.
    apply read_slot_live in Hother. set_solver. }
  assert (read_slot other_ h2 = Some (n, h2)) as Hother2
    by (by apply read_slot_other).
  assert (repr h2 v n fp) as Hv2.
  { eapply repr_frame; [|exact Hv]. intros l Hl. unfold h2.
    rewrite lookup_insert_ne by (intros <-; done). apply Hagree1. set_solver. }
  destruct (copyFrom_copies v fuel Hfuelv h2 this_ other_ b0 n_undefined n fp)
    as (n' & h3 & fp' & Hcopy & Hagree3 & Hfresh3 & Hdom3 & Hrepr3);
    [apply lookup_insert_eq|by apply (get_put_slot b _ this)|done|done|done|].
  unfold b0 in Hcopy. rewrite put_put_slot in Hcopy.
  rewrite Hdom2 in Hagree3, Hfresh3, Hdom3.
  assert (h3 !! fst this_ = Some b0) as Hb3.
  { rewrite Hagree3 by done. apply lookup_insert_eq. }
  assert (forall l, l <> fst this_ -> l ∈ dom h1 ->
            <[fst this_ := put_slot b (snd this_) n']> h3 !! l = h1 !! l) as Hsame.
  { intros l Hl Hldom. rewrite lookup_insert_ne by done.
    rewrite Hagree3 by done. unfold h2. by rewrite lookup_insert_ne. }
  pose proof (repr_dom _ _ _ _ Hrepr3) as Hfp'.
  exists n', (<[fst this_ := put_slot b (snd this_) n']> h3), fp'.
  split.
  { unfold operator_assign. rewrite decide_False by done.
    unfold op_bind. rewrite Hreset. exact Hcopy. }
  split.
  { apply (read_slot_spec _ this_ (put_slot b (snd this_) n'));
      [apply lookup_insert_eq|]. by apply (get_put_slot b _ this). }
  split.
  { eapply repr_frame; [|exact Hrepr3]. intros l Hl.
    apply lookup_insert_ne. intros <-. by apply (Hfresh3 (fst this_)). }
  split.
  { assert (read_slot other_ h3 = Some (n, h3)) as Hother3.
    { eapply read_slot_frame; [|exact Hother2]. apply Hagree3.
      rewrite <- Hdom2. by eapply read_slot_live. }
    rewrite <- (put_put_slot b (snd this_) n_undefined n'). fold b0.
    by apply read_slot_other. }
  split.
  { eapply repr_frame; [|exact Hv]. intros l Hl.
    rewrite Hsame; [apply Hagree1; set_solver|by intros ->|rewrite Hdom1; set_solver]. }
  split; [rewrite Hdom1 in Hfresh3; set_solver|].
  split.
  { rewrite dom_insert_L, Hdom3, Hdom1. rewrite Hdom1 in Htdom1. set_solver. }
  intros l Hl.
  rewrite Hsame; [apply Hagree1; set_solver|set_solver|rewrite Hdom1; set_solver].
Qed.

(** Assigning to an object a value that lies in one of its own buffers:
    the buffer is released before the value is read. *)
Lemma operator_assign_from_own_buffer w fuel h this_ other_ this fpt :
  read_slot this_ h = Some (this, h) ->
  repr h w this fpt ->
  (depth w < fuel)%nat ->
  this_ <> other_ ->
  fst other_ ∈ fpt ->
  operator_assign fuel this_ other_ h = None.
Proof.
  intros Hthis Hw Hfuel Hne Hin.
  unfold operator_assign. rewrite decide_False by done. unfold op_bind.
  destruct (reset_at fuel this_ h) as [[[] h1]|] eqn:Hreset; [|done].
  pose proof (reset_at_released w fuel h this_ this fpt h1 Hthis Hw Hfuel Hreset)
    as Hdom1.
  destruct fuel as [|fuel]; [done|]. cbn [copyFrom]. unfold op_bind.
  rewrite read_slot_released; [done|]. rewrite Hdom1. set_solver.
Qed.

(** ** Reserving, on the store *)

Lemma ensureArray_releases w fuel h n fp :
  repr h w n fp ->
  (depth w < fuel)%nat ->
  isArray w = false ->
  exists h1,
    ensureArray fuel n h = Some (n_array None 0 0, h1)
    /\ dom h1 = dom h ∖ fp
    /\ agree_on (dom h ∖ fp) h h1.
Proof.
  intros Hrepr Hfuel Harr.
  destruct (reset_releases w fuel Hfuel h n fp Hrepr) as (h1 & Hreset & Hdom1 & Hagree1).
  exists h1. split; [|done].
  destruct w; try discriminate Harr; cbn in Hrepr;
    try (destruct Hrepr as [-> ->]);
    try (destruct Hrepr as (p & -> & _ & _));
    try (apply repr_object_unfold in Hrepr as (ptr & -> & _));
    cbn [ensureArray]; unfold op_bind; by rewrite Hreset.
Qed.

Lemma ensureObject_releases w fuel h n fp :
  repr h w n fp ->
  (depth w < fuel)%nat ->
  isObject w = false ->
  exists h1,
    ensureObject fuel n h = Some (n_object None 0 0, h1)
    /\ dom h1 = dom h ∖ fp
    /\ agree_on (dom h ∖ fp) h h1.
Proof.
  intros Hrepr Hfuel Hobj.
  destruct (reset_releases w fuel Hfuel h n fp Hrepr) as (h1 & Hreset & Hdom1 & Hagree1).
  exists h1. split; [|done].
  destruct w; try discriminate Hobj; cbn in Hrepr;
    try (destruct Hrepr as [-> ->]);
    try (destruct Hrepr as (p & -> & _ & _));
    try (apply repr_array_unfold in Hrepr as (ptr & -> & _));
    cbn [ensureObject]; unfold op_bind; by rewrite Hreset.
Qed.

Lemma reserveArray_releases_then_allocates w fuel capacity h n fp :
  repr h w n fp ->
  (depth w < fuel)%nat ->
  isArray w = false ->
  0 < capacity ->
  exists q h',
    reserveArray fuel capacity n h = Some (n_array (Some q) 0 capacity, h')
    /\ dom h' = {[q]} ∪ (dom h ∖ fp)
    /\ agree_on (dom h ∖ fp) h h'
    /\ repr h' (array [] capacity) (n_array (Some q) 0 capacity) {[q]}.
Proof.
  intros Hrepr Hfuel Harr Hcap.
  destruct (ensureArray_releases w fuel h n fp Hrepr Hfuel Harr)
    as (h1 & Hensure & Hdom1 & Hagree1).
  destruct (malloc_spec (b_values (replicate (Z.to_nat capacity) n_undefined)) h1)
    as (q & Hm & Hq & Ha).
  exists q, (<[q := b_values (replicate (Z.to_nat capacity) n_undefined)]> h1).
  split.
  { unfold reserveArray. unfold op_bind at 1. rewrite Hensure.
    destruct (Z.leb_spec capacity 0) as [|_]; [lia|].
    cbn [realloc_values]. unfold op_bind. by rewrite Hm. }
  split; [by rewrite dom_insert_L, Hdom1|].
  split.
  { intros l Hl. rewrite Ha by (by rewrite Hdom1). by apply Hagree1. }
  apply repr_array_unfold. exists (Some q). split; [done|].
  exists (replicate (Z.to_nat capacity) n_undefined), ∅.
  split; [apply lookup_insert_eq|]. split; [rewrite length_replicate; lia|].
  split; [set_solver|]. split; [set_solver|done].
Qed.

Lemma reserveObject_releases_then_allocates w fuel capacity h n fp :
  repr h w n fp ->
  (depth w < fuel)%nat ->
  isObject w = false ->
  0 < capacity ->
  exists q h',
    reserveObject fuel capacity n h = Some (n_object (Some q) 0 capacity, h')
    /\ dom h' = {[q]} ∪ (dom h ∖ fp)
    /\ agree_on (dom h ∖ fp) h h'
    /\ repr h' (object [] capacity) (n_object (Some q) 0 capacity) {[q]}.
Proof.
  intros Hrepr Hfuel Hobj Hcap.
  destruct (ensureObject_releases w fuel h n fp Hrepr Hfuel Hobj)
    as (h1 & Hensure & Hdom1 & Hagree1).
  destruct (malloc_spec (b_members (replicate (Z.to_nat capacity)
                                      (k_short "", n_undefined))) h1)
    as (q & Hm & Hq & Ha).
  exists q, (<[q := b_members (replicate (Z.to_nat capacity)
                                (k_short "", n_undefined))]> h1).
  split.
  { unfold reserveObject. unfold op_bind at 1. rewrite Hensure.
    destruct (Z.leb_spec capacity 0) as [|_]; [lia|].
    cbn [realloc_members]. unfold op_bind. by rewrite Hm. }
  split; [by rewrite dom_insert_L, Hdom1|].
  split.
  { intros l Hl. rewrite Ha by (by rewrite Hdom1). by apply Hagree1. }
  apply repr_object_unfold. exists (Some q). split; [done|].
  exists (replicate (Z.to_nat capacity) (k_short "", n_undefined)), ∅.
  split; [apply lookup_insert_eq|]. split; [rewrite length_replicate; lia|].
  split; [set_solver|]. split; [set_solver|done].
Qed.

(** ** Deep copy *)

(** C1, as the code has it.  Let the object at the place [other_] hold the
    node [n], which denotes the value [v] in the store [h] and owns the
    buffers [fp].  [copyFrom] (the copy constructor) builds at another
    place [this_], whatever the memory there holds, a node that denotes
    the same tree, laid out in buffers none of which was live before: the
    copy shares nothing with [v], and [v] is as it was.  So does copy
    assignment of [v] to another object, which held a value [w] whose
    buffers are released, provided neither object lies in a buffer the
    other owns: assignment resets the target before it reads [v], so
    assigning to an object a value from one of its own buffers reads a
    released buffer, which is undefined; assigning an object to itself
    does nothing.  Whatever is done later to the buffers of the copy or to
    new buffers leaves [v] unchanged, all its nested elements and member
    values included; in particular adding an array element to the copy,
    setting a member of the copy, assigning another value to the copy, and
    destroying the copy, which gives back exactly the store there was
    before copying, with the destroyed object left [undefined].  The copy
    compares equal to [v] with [==] provided no NaN occurs in [v]. *)
Theorem copy_is_equal_and_independent
  (h : store) (v : Value) (n : node) (fp : gset loc) (fuel : nat)
  (this_ other_ : place) (raw : node) :
  read_slot other_ h = Some (n, h) ->
  repr h v n fp ->
  read_slot this_ h = Some (raw, h) ->
  this_ <> other_ ->
  fst this_ ∉ fp ->
  (depth v < fuel)%nat ->
  exists n' h' fp',
    Store.copyFrom fuel this_ other_ h = Some (tt, h')
    /\ read_slot this_ h' = Some (n', h')
    /\ repr h' (Value_copy v) n' fp'
    /\ (wf v = true -> Value_copy v = v)
    /\ (wf v = true -> contains_nan v = false ->
        operator_eq (Value_copy v) v = true
        /\ operator_eq v (Value_copy v) = true)
    /\ fp' ## dom h
    /\ fp' ## fp
    /\ agree_on (dom h ∖ {[fst this_]}) h h'
    /\ read_slot other_ h' = Some (n, h')
    /\ repr h' v n fp
    /\ (forall w target_ this fpt,
          read_slot target_ h = Some (this, h) ->
          repr h w this fpt ->
          (depth w < fuel)%nat ->
          target_ <> other_ ->
          (fp ## fpt -> fst other_ ∉ fpt -> fst target_ ∉ fp -> fst target_ ∉ fpt ->
           exists m hm fpm,
             Store.operator_assign fuel target_ other_ h = Some (tt, hm)
             /\ read_slot target_ hm = Some (m, hm)
             /\ repr hm (Value_copy v) m fpm
             /\ read_slot other_ hm = Some (n, hm)
             /\ repr hm v n fp
             /\ fpm ## fp)
          /\ (fst other_ ∈ fpt ->
              Store.operator_assign fuel target_ other_ h = None))
    /\ Store.operator_assign fuel other_ other_ h = Some (tt, h)
    /\ (forall h'', agree_on (dom h' ∖ fp') h' h'' -> repr h'' v n fp)
    /\ (forall value,
          snd (arrayData v) + 8 < 2 ^ 32 ->
          exists n'' h'',
            Store.addArrayElement fuel value n' h' = Some (n'', h'')
            /\ repr h'' v n fp)
    /\ (forall key value,
          snd (objectData v) + 4 < 2 ^ 32 ->
          exists n'' h'',
            Store.setObjectMember fuel key value n' h' = Some (n'', h'')
            /\ repr h'' v n fp)
    /\ (forall w source_ other fpo,
          read_slot source_ h' = Some (other, h') ->
          repr h' w other fpo ->
          (depth w < fuel)%nat ->
          source_ <> this_ ->
          fpo ## fp' -> fst source_ ∉ fp' -> fst this_ ∉ fpo ->
          exists h'',
            Store.operator_assign fuel this_ source_ h' = Some (tt, h'')
            /\ repr h'' v n fp)
    /\ (exists h0,
          write_slot this_ n_undefined h = Some (tt, h0)
          /\ Store.reset_at fuel this_ h' = Some (tt, h0))
    /\ (raw = n_undefined -> Store.reset_at fuel this_ h' = Some (tt, h)).
Proof.
  intros Hother Hrepr Hraw Hne Hout Hfuel.
  apply read_slot_inv in Hraw as (b & Hb & Hslot).
  destruct (copyFrom_copies v fuel Hfuel h this_ other_ b raw n fp Hb Hslot Hother
              Hrepr Hout)
    as (n' & h1 & fp' & Hcopy & Hagree & Hfresh & Hdom & Hrepr1).
  pose proof (repr_dom _ _ _ _ Hrepr) as Hfp.
  pose proof (repr_dom _ _ _ _ Hrepr1) as Hfp'.
  assert (fst this_ ∈ dom h) as Htdom by (apply elem_of_dom; eauto).
  assert (fst this_ ∉ fp') as Hout' by (intros Hin; by apply (Hfresh (fst this_))).
  assert (h1 !! fst this_ = Some b) as Hb1 by (by rewrite Hagree).
  set (built := put_slot b (snd this_) n') in *.
  set (h' := <[fst this_ := built]> h1) in *.
  assert (get_slot built (snd this_) = Some n') as Hbuilt
    by (by apply (get_put_slot b _ raw)).
  assert (h' !! fst this_ = Some built) as Hb' by apply lookup_insert_eq.
  assert (dom h' = dom h ∪ fp') as Hdom'.
  { unfold h'. rewrite dom_insert_L, Hdom. set_solver. }
  assert (forall l, l ∈ dom h -> l <> fst this_ -> h' !! l = h !! l) as Hsame.
  { intros l Hl Hlt. unfold h'. rewrite lookup_insert_ne by done. by apply Hagree. }
  assert (repr h' (Value_copy v) n' fp') as Hrepr'.
  { eapply repr_frame; [|exact Hrepr1]. intros l Hl.
    apply lookup_insert_ne. by intros <-. }
  assert (read_slot this_ h' = Some (n', h')) as Hread'
    by (by apply (read_slot_spec h' this_ built)).
  assert (read_slot other_ h' = Some (n, h')) as Hother'.
  { apply read_slot_other; [done|done|].
    eapply read_slot_frame; [|exact Hother]. apply Hagree.
    by eapply read_slot_live. }
  assert (forall h'', agree_on (dom h' ∖ fp' ∖ {[fst this_]}) h' h'' ->
            repr h'' v n fp) as Hframe.
  { intros h'' Hagree''. eapply repr_frame; [|exact Hrepr].
    intros l Hl. assert (l <> fst this_) as Hlt by (by intros ->).
    rewrite Hagree'' by (rewrite Hdom'; set_solver).
    apply Hsame; [set_solver|done]. }
  assert (forall h'', agree_on (dom h' ∖ fp') h' h'' -> repr h'' v n fp) as Hframe'.
  { intros h'' Hagree''. apply Hframe.
    eapply agree_on_subseteq; [|exact Hagree'']. set_solver. }
  assert (depth (Value_copy v) < fuel)%nat as Hfuel'
    by (by rewrite depth_Value_copy).
  assert (exists h0,
            write_slot this_ n_undefined h = Some (tt, h0)
            /\ reset_at fuel this_ h' = Some (tt, h0)) as Hdestroy.
  { exists (<[fst this_ := put_slot b (snd this_) n_undefined]> h).
    split; [by apply (write_slot_spec h this_ b raw)|].
    destruct (reset_at_spec (Value_copy v) fuel h' this_ built n' fp' Hb' Hbuilt
                Hrepr' Hfuel' Hout') as (h2 & Hreset & Hb2 & Hdom2 & Hagree2).
    rewrite Hreset. unfold built. rewrite put_put_slot.
    do 2 f_equal. apply map_eq. intros l.
    destruct (decide (l = fst this_)) as [->|Hlt].
    { by rewrite !lookup_insert_eq. }
    rewrite !lookup_insert_ne by done.
    destruct (decide (l ∈ dom h)) as [Hl|Hl].
    - rewrite Hagree2 by (rewrite Hdom'; set_solver). by apply Hsame.
    - assert (l ∉ dom h2) as Hl2 by (rewrite Hdom2, Hdom'; set_solver).
      apply not_elem_of_dom in Hl, Hl2. by rewrite Hl, Hl2. }
  exists n', h', fp'. split; [exact Hcopy|]. split; [exact Hread'|].
  split; [exact Hrepr'|].
  split; [apply Value_copy_id|].
  split.
  { intros Hwf Hnan. rewrite (Value_copy_id v Hwf).
    split; by apply operator_eq_refl. }
  split; [exact Hfresh|]. split; [set_solver|].
  split.
  { intros l Hl. apply Hsame; set_solver. }
  split; [exact Hother'|].
  split; [apply Hframe', agree_on_refl|].
  split.
  { intros w target_ this fpt Htarget Hw Hdepth Hnet. split.
    - intros Hdisj Hofpt Htfp Htfpt.
      destruct (operator_assign_copies v w fuel h target_ other_ this n fp fpt
                  Htarget Hw Hother Hrepr Hnet Hdisj Hofpt Htfp Htfpt Hfuel Hdepth)
        as (m & hm & fpm & Hassign & Hm & Hrm & Ho & Hvm & Hdm & _).
      by exists m, hm, fpm.
    - intros Hin. by eapply operator_assign_from_own_buffer. }
  split.
  { unfold operator_assign. by rewrite decide_True. }
  split; [exact Hframe'|].
  split; [|split; [|split; [|split]]].
  - intros value Hroom.
    destruct (addArrayElement_confined (Value_copy v) fuel value h' n' fp' Hrepr' Hfuel')
      as (n'' & h'' & Hadd & Hagree''); [by rewrite arrayData_Value_copy|].
    exists n'', h''. split; [exact Hadd|by apply Hframe'].
  - intros key value Hroom.
    destruct (setObjectMember_confined (Value_copy v) fuel key value h' n' fp'
                Hrepr' Hfuel')
      as (n'' & h'' & Hset & Hagree''); [by rewrite objectData_Value_copy|].
    exists n'', h''. split; [exact Hset|by apply Hframe'].
  - intros w source_ other fpo Hsource Hw Hdepth Hnes Hdisj Hsfp Htfpo.
    destruct (operator_assign_copies w (Value_copy v) fuel h' this_ source_ n' other
                fpo fp' Hread' Hrepr' Hsource Hw (not_eq_sym Hnes) Hdisj Hsfp Htfpo
                Hout' Hdepth Hfuel')
      as (m & h'' & fpm & Hassign & _ & _ & _ & _ & _ & _ & Hagree'').
    exists h''. split; [exact Hassign|by apply Hframe].
  - exact Hdestroy.
  - intros ->. destruct Hdestroy as (h0 & Hwrite & Hreset).
    rewrite Hreset. rewrite (write_slot_spec h this_ b n_undefined _ Hb Hslot) in Hwrite.
    injection Hwrite as <-. do 2 f_equal.
    rewrite (put_get_slot b _ _ Hslot). by apply insert_id.
Qed.

(** C1 as stated fails: a NaN is a value a node can hold, and its copy is
    not equal to it; the same holds for every value that contains one. *)
Lemma copy_of_nan_is_not_equal :
  wf (createFloat S754_nan) = true
  /\ operator_eq (Value_copy (createFloat S754_nan)) (createFloat S754_nan) = false
  /\ operator_eq (Value_copy (array [int32 1; double_ S754_nan] 8))
       (array [int32 1; double_ S754_nan] 8) = false.
Proof. repeat split; reflexivity. Qed.

(** Assignment reads its argument after the reset: with [a] the array of
    the sample store, held by the first variable, [a = a[1]] and
    [a = std::move (a[1])] release the buffer that element 1 lies in before
    they read the element. *)
Lemma assignment_from_own_element :
  read_slot (3%nat, 0%nat) sample_variables = Some (sample_node, sample_variables)
  /\ read_slot (0%nat, 1%nat) sample_variables
     = Some (n_longString 1%nat 31, sample_variables)
  /\ Store.operator_assign 3 (3%nat, 0%nat) (0%nat, 1%nat) sample_variables = None
  /\ Store.operator_assign_move 3 (3%nat, 0%nat) (0%nat, 1%nat) sample_variables
     = None.
Proof. repeat split; vm_compute; reflexivity. Qed.

Lemma sample_value_repr :
  repr sample_store sample_value sample_node sample_footprint.
Proof.
  apply repr_array_unfold. exists (Some 0%nat). split; [reflexivity|].
  eexists _, _. split; [reflexivity|]. split; [reflexivity|].
  split; [|split; [reflexivity|]].
  { set_solver. }
  cbn. eexists _, _. split; [reflexivity|]. split; [set_solver|].
  split; [done|].
  eexists _, _. split; [reflexivity|]. split; [set_solver|].
  split; [exists 1%nat; done|].
  eexists _, _. split; [reflexivity|]. split; [set_solver|].
  split; [|done].
  exists (Some 2%nat). split; [reflexivity|].
  eexists _, _. split; [reflexivity|]. split; [reflexivity|].
  split; [|split; [reflexivity|]].
  { set_solver. }
  eexists _, _, _. split; [reflexivity|].
  do 3 (split; [set_solver|]).
  split; [done|]. split; done.
Defined.

Lemma sample_variables_repr :
  repr sample_variables sample_value sample_node sample_footprint.
Proof.
  apply (repr_frame sample_value sample_store); [|exact sample_value_repr].
  intros p Hp. unfold sample_variables.
  rewrite !lookup_insert_ne; [done| |]; intros <-; revert Hp.
  - apply (bool_decide_unpack (4%nat ∉ sample_footprint)). vm_compute. exact I.
  - apply (bool_decide_unpack (3%nat ∉ sample_footprint)). vm_compute. exact I.
Defined.

Lemma copy_is_equal_and_independent_witness :
  read_slot (3%nat, 0%nat) sample_variables = Some (sample_node, sample_variables)
  /\ repr sample_variables sample_value sample_node sample_footprint
  /\ read_slot (4%nat, 0%nat) sample_variables = Some (n_undefined, sample_variables)
  /\ (depth sample_value < 3)%nat
  /\ wf sample_value = true
  /\ contains_nan sample_value = false
  /\ exists n' h' fp',
       Store.copyFrom 3 (4%nat, 0%nat) (3%nat, 0%nat) sample_variables = Some (tt, h')
       /\ read_slot (4%nat, 0%nat) h' = Some (n', h')
       /\ repr h' (Value_copy sample_value) n' fp'
       /\ operator_eq (Value_copy sample_value) sample_value = true
       /\ fp' ## sample_footprint
       /\ repr h' sample_value sample_node sample_footprint
       /\ Store.reset_at 3 (4%nat, 0%nat) h' = Some (tt, sample_variables).
Proof.
  assert (read_slot (3%nat, 0%nat) sample_variables
          = Some (sample_node, sample_variables)) as Hother by reflexivity.
  assert (read_slot (4%nat, 0%nat) sample_variables
          = Some (n_undefined, sample_variables)) as Hraw by reflexivity.
  split; [exact Hother|]. split; [exact sample_variables_repr|].
  split; [exact Hraw|].
  assert (depth sample_value < 3)%nat as Hdepth by (vm_compute; lia).
  split; [exact Hdepth|].
  assert (wf sample_value = true) as Hwf by (vm_compute; reflexivity).
  assert (contains_nan sample_value = false) as Hnan by reflexivity.
  split; [exact Hwf|]. split; [exact Hnan|].
  assert ((4%nat, 0%nat) <> ((3%nat, 0%nat) : place)) as Hne by discriminate.
  assert (4%nat ∉ sample_footprint) as Hout.
  { apply (bool_decide_unpack _). vm_compute. exact I. }
  destruct (copy_is_equal_and_independent sample_variables sample_value sample_node
              sample_footprint 3 (4%nat, 0%nat) (3%nat, 0%nat) n_undefined
              Hother sample_variables_repr Hraw Hne Hout Hdepth)
    as (n' & h' & fp' & Hcopy & Hread & Hrepr' & _ & Heq & _ & Hdisj & _ & _ & Hv
        & _ & _ & _ & _ & _ & _ & _ & Hreset).
  destruct (Heq Hwf Hnan) as [Heq1 _].
  exists n', h', fp'. repeat split; try assumption. by apply Hreset.
Defined.

(** ** Reserving on a value of another type *)

(** C10: on a value that is not an array (a string, an object, a scalar),
    [reserveArray (n)] does not fail with TypeMismatch: [ensureArray] first
    turns the value into the empty array, so that [size ()] is 0, and the
    capacity is then at least [n] unless the allocator refuses the request,
    which is the only failure.  On the store, the buffers the value owned
    are released, every one and nothing else, before the new buffer is
    allocated.  [reserveObject] does the same with the empty object. *)
Theorem reserve_converts_to_empty_container
  (realloc_ok : Z -> bool) (this : Value) (n : Z) :
  (isArray this = false ->
   let after := fst (Value_reserveArray realloc_ok n this) in
   let outcome := snd (Value_reserveArray realloc_ok n this) in
   Value_ensureArray this = (array [] 0, Ok tt)
   /\ ~ fails_with TypeMismatch outcome
   /\ after = array [] (snd (arrayData after))
   /\ size after = Ok 0
   /\ (n <= 0 \/ realloc_ok (n * sizeof_Value) = true ->
       outcome = Ok tt /\ n <= snd (arrayData after))
   /\ (0 < n -> realloc_ok (n * sizeof_Value) = false ->
       fails_with AllocationFailure outcome /\ after = array [] 0)
   /\ (forall h node fp fuel,
         repr h this node fp -> (depth this < fuel)%nat -> 0 < n ->
         exists q h',
           Store.reserveArray fuel n node h = Some (n_array (Some q) 0 n, h')
           /\ dom h' = {[q]} ∪ (dom h ∖ fp)
           /\ agree_on (dom h ∖ fp) h h'
           /\ repr h' (array [] n) (n_array (Some q) 0 n) {[q]}))
  /\ (isObject this = false ->
      let after := fst (Value_reserveObject realloc_ok n this) in
      let outcome := snd (Value_reserveObject realloc_ok n this) in
      Value_ensureObject this = (object [] 0, Ok tt)
      /\ ~ fails_with TypeMismatch outcome
      /\ after = object [] (snd (objectData after))
      /\ size after = Ok 0
      /\ (n <= 0 \/ realloc_ok (n * sizeof_Member) = true ->
          outcome = Ok tt /\ n <= snd (objectData after))
      /\ (0 < n -> realloc_ok (n * sizeof_Member) = false ->
          fails_with AllocationFailure outcome /\ after = object [] 0)
      /\ (forall h node fp fuel,
            repr h this node fp -> (depth this < fuel)%nat -> 0 < n ->
            exists q h',
              Store.reserveObject fuel n node h = Some (n_object (Some q) 0 n, h')
              /\ dom h' = {[q]} ∪ (dom h ∖ fp)
              /\ agree_on (dom h ∖ fp) h h'
              /\ repr h' (object [] n) (n_object (Some q) 0 n) {[q]})).
Proof.
  destruct (reserve_non_container_spec realloc_ok this n) as [Harr Hobj].
  split; intros E; cbv zeta.
  - destruct (Harr E) as (H0 & H1 & H2 & H3 & H4 & H5).
    do 6 (split; [assumption|]).
    intros h node fp fuel Hrepr Hfuel Hn.
    by eapply reserveArray_releases_then_allocates.
  - destruct (Hobj E) as (H0 & H1 & H2 & H3 & H4 & H5).
    do 6 (split; [assumption|]).
    intros h node fp fuel Hrepr Hfuel Hn.
    by eapply reserveObject_releases_then_allocates.
Qed.

Lemma reserve_converts_to_empty_container_witness :
  isArray (longString "a string longer than twenty-two") = false
  /\ size (fst (Value_reserveArray always_grants 10
                  (longString "a string longer than twenty-two"))) = Ok 0
  /\ (exists q h',
        Store.reserveArray 1 10 (n_longString 1%nat 31)
          {[ 1%nat := b_chars "a string longer than twenty-two" ]}
        = Some (n_array (Some q) 0 10, h')
        /\ repr h' (array [] 10) (n_array (Some q) 0 10) {[q]})
  /\ isObject (int32_array [1; 2; 3]) = false
  /\ size (fst (Value_reserveObject never_grants 10 (int32_array [1; 2; 3]))) = Ok 0.
Proof.
  pose proof (reserve_converts_to_empty_container always_grants
                (longString "a string longer than twenty-two") 10) as [Harr _].
  pose proof (reserve_converts_to_empty_container never_grants
                (int32_array [1; 2; 3]) 10) as [_ Hobj].
  specialize (Harr eq_refl). specialize (Hobj eq_refl). cbv zeta in Harr, Hobj.
  destruct Harr as (_ & _ & _ & Hsize & _ & _ & Hstore).
  destruct Hobj as (_ & _ & _ & Hsize' & _).
  split; [reflexivity|]. split; [exact Hsize|]. split.
  - destruct (Hstore {[ 1%nat := b_chars "a string longer than twenty-two" ]}
                (n_longString 1%nat 31) {[1%nat]} 1%nat)
      as (q & h' & Hres & _ & _ & Hrepr).
    + exists 1%nat. split; [reflexivity|]. split; [reflexivity|reflexivity].
    + cbn. lia.
    + lia.
    + exists q, h'. by split.
  - split; [reflexivity|exact Hsize'].
Defined.

(* ================================================================== *)
(** * Further properties: equality and ownership *)

(** ** Equality is symmetric *)

Lemma SFeqb_sym x y : SFeqb x y = SFeqb y x.
Proof.
  unfold SFeqb.
  destruct x as [sx|sx| |sx mx ex], y as [sy|sy| |sy my ey]; cbn;
    try reflexivity; try (destruct sx; reflexivity); try (destruct sy; reflexivity);
    try (destruct sx, sy; reflexivity).
  change (PosDef.Pos.compare_cont Eq mx my) with (Pos.compare mx my).
  change (PosDef.Pos.compare_cont Eq my mx) with (Pos.compare my mx).
  rewrite (Z.compare_antisym ey ex), (Pos.compare_antisym my mx).
  destruct sx, sy; try reflexivity;
    destruct (ey ?= ex), (Pos.compare my mx); reflexivity.
Qed.

Lemma elements_equal_sym es :
  Forall (fun e => forall o, wf e = true -> wf o = true ->
                             operator_eq e o = operator_eq o e) es ->
  forall os,
  Forall (fun e => wf e = true) es ->
  Forall (fun o => wf o = true) os ->
  length es = length os ->
  elements_equal es os = elements_equal os es.
Proof.
  induction 1 as [|e es IHe _ IH]; intros [|o os] Hes Hos Hlen; try done.
  cbn [elements_equal]. apply Forall_cons in Hes as [He Hes].
  apply Forall_cons in Hos as [Ho Hos].
  rewrite (IHe o He Ho), (IH os Hes Hos) by (cbn in Hlen; lia). reflexivity.
Qed.

(** With unique keys, two members of the same name are the same member. *)
Lemma unique_keys_same_name members m1 m2 :
  unique_keys members ->
  m1 ∈ members -> m2 ∈ members ->
  MemberKey_get (fst m1) = MemberKey_get (fst m2) ->
  m1 = m2.
Proof.
  intros Huniq H1 H2 Hname.
  destruct (find_from_unique m1 members Huniq H1) as [Hl1 _].
  destruct (find_from_unique m2 members Huniq H2) as [Hl2 _].
  rewrite Hname in Hl1. congruence.
Qed.

(** One direction of the symmetry of the object comparison. *)
Lemma object_comparison_swaps ma mb :
  unique_keys ma ->
  length ma = length mb ->
  (forall member, member ∈ ma ->
     exists otherMember,
       otherMember ∈ mb
       /\ MemberKey_get (fst otherMember) = MemberKey_get (fst member)
       /\ operator_eq (snd member) (snd otherMember) = true) ->
  unique_keys mb
  /\ forall otherMember, otherMember ∈ mb ->
       exists member,
         member ∈ ma
         /\ MemberKey_get (fst member) = MemberKey_get (fst otherMember)
         /\ operator_eq (snd member) (snd otherMember) = true.
Proof.
  intros Huniq Hlen Hmatch.
  assert (key_names ma ≡ₚ key_names mb) as Hperm.
  { apply submseteq_length_Permutation.
    - apply NoDup_submseteq; [exact Huniq|].
      intros name (member & -> & Hin)%list_elem_of_fmap.
      destruct (Hmatch member Hin) as (other & Hother & Hname & _).
      apply list_elem_of_fmap. exists other. done.
    - unfold key_names. rewrite !length_map. lia. }
  assert (unique_keys mb) as Huniq'.
  { unfold unique_keys. rewrite <- Hperm. exact Huniq. }
  split; [exact Huniq'|].
  intros other Hother.
  assert (MemberKey_get (fst other) ∈ key_names ma) as Hin.
  { rewrite Hperm. apply list_elem_of_fmap. exists other. done. }
  apply list_elem_of_fmap in Hin as (member & Hname & Hin).
  exists member. split; [exact Hin|]. split; [done|].
  destruct (Hmatch member Hin) as (other' & Hother' & Hname' & Heq).
  assert (other' = other) as <-; [|exact Heq].
  apply (unique_keys_same_name mb); try done. congruence.
Qed.

Lemma operator_eq_sym a :
  forall b, wf a = true -> wf b = true -> operator_eq a b = operator_eq b a.
Proof.
  induction a as [| |x|x|x|x|x|x|es cap IH|ms cap IH] using Value_ind;
    intros b Ha Hb.
  1-8: destruct b; cbn; try reflexivity;
       try apply SFeqb_sym;
       try (match goal with |- Bool.eqb ?p ?q = _ => destruct p, q; reflexivity end);
       try (rewrite (Z.eqb_sym (Z.of_nat (String.length _))),
              (String.eqb_sym x); reflexivity).
  - rewrite operator_eq_array.
    destruct b as [| |y|y|y|y|y|y|os cap'|ms' cap']; try reflexivity.
    rewrite (operator_eq_array os). cbn [isArray type ValueType_eqb andb].
    unfold numElements. cbn [arrayData fst].
    rewrite (Z.eqb_sym (Z.of_nat (length os))).
    destruct (Z.eqb_spec (Z.of_nat (length es)) (Z.of_nat (length os)));
      [|reflexivity].
    cbn [andb]. apply elements_equal_sym; try lia.
    + exact IH.
    + apply (wf_array_elements _ _ Ha).
    + apply (wf_array_elements _ _ Hb).
  - destruct b as [| |y|y|y|y|y|y|os cap'|ms' cap'];
      try (rewrite operator_eq_object; reflexivity).
    destruct (wf_object_members _ _ Ha) as [Huniq Hwf].
    destruct (wf_object_members _ _ Hb) as [Huniq' Hwf'].
    apply eq_true_iff_eq.
    rewrite (operator_eq_object_spec ms cap ms' cap' Huniq').
    rewrite (operator_eq_object_spec ms' cap' ms cap Huniq).
    assert (forall m m', m ∈ ms -> m' ∈ ms' ->
              operator_eq (snd m) (snd m') = operator_eq (snd m') (snd m)) as Hsym.
    { intros m m' Hm Hm'. rewrite Forall_forall in IH, Hwf, Hwf'.
      apply (IH m Hm); [apply (Hwf m Hm)|apply (Hwf' m' Hm')]. }
    split; intros [Hlen Hmatch]; (split; [lia|]).
    + destruct (object_comparison_swaps ms ms' Huniq Hlen Hmatch) as [_ Hswap].
      intros m' Hm'. destruct (Hswap m' Hm') as (m & Hm & Hname & Heq).
      exists m. rewrite <- Hsym by done. done.
    + destruct (object_comparison_swaps ms' ms Huniq' Hlen Hmatch) as [_ Hswap].
      intros m Hm. destruct (Hswap m Hm) as (m' & Hm' & Hname & Heq).
      exists m'. rewrite Hsym by done. done.
Qed.

(** ** Equality is transitive *)

Lemma SFeqb_trans x y z : SFeqb x y = true -> SFeqb y z = true -> SFeqb x z = true.
Proof.
  unfold SFeqb.
  destruct x as [sx|sx| |sx mx ex], y as [sy|sy| |sy my ey], z as [sz|sz| |sz mz ez];
    cbn; try done;
    try (destruct sx; done); try (destruct sy; done); try (destruct sz; done);
    try (destruct sx, sy; done); try (destruct sy, sz; done);
    try (destruct sx, sy, sz; done).
  change (PosDef.Pos.compare_cont Eq mx my) with (Pos.compare mx my).
  change (PosDef.Pos.compare_cont Eq my mz) with (Pos.compare my mz).
  change (PosDef.Pos.compare_cont Eq mx mz) with (Pos.compare mx mz).
  destruct sx, sy, sz; try done;
    destruct (Z.compare_spec ex ey); try done;
    destruct (Pos.compare_spec mx my); try done;
    destruct (Z.compare_spec ey ez); try done;
    destruct (Pos.compare_spec my mz); try done;
    subst; rewrite Z.compare_refl, Pos.compare_refl; done.
Qed.

Lemma numeric_operand_inv v :
  (isInt v || isFloat v) = true ->
  (exists z, v = int32 z) \/ (exists z, v = int64 z) \/ (exists d, v = double_ d).
Proof. destruct v; cbn; try done; eauto. Qed.

Lemma operator_eq_numeric a b :
  (isInt a || isFloat a) = true ->
  operator_eq a b = true ->
  (isInt b || isFloat b) = true
  /\ exists x y, numeric_operand a = Ok x /\ numeric_operand b = Ok y
                 /\ SFeqb x y = true.
Proof.
  intros Ha Heq.
  destruct (numeric_operand_inv a Ha) as [[z ->]|[[z ->]|[d ->]]];
    destruct b; cbn in Heq; try done; (split; [reflexivity|]);
    cbn; eauto.
Qed.

Lemma operator_eq_numeric_intro a b x y :
  (isInt a || isFloat a) = true ->
  (isInt b || isFloat b) = true ->
  numeric_operand a = Ok x -> numeric_operand b = Ok y ->
  operator_eq a b = SFeqb x y.
Proof.
  intros Ha Hb.
  destruct (numeric_operand_inv a Ha) as [[z ->]|[[z ->]|[d ->]]];
    destruct (numeric_operand_inv b Hb) as [[z' ->]|[[z' ->]|[d' ->]]];
    cbn; intros [= <-] [= <-]; reflexivity.
Qed.

Lemma elements_equal_trans es :
  Forall (fun e => forall o p, operator_eq e o = true -> operator_eq o p = true ->
                               wf o = true -> wf p = true ->
                               operator_eq e p = true) es ->
  forall os ps,
  Forall (fun o => wf o = true) os ->
  Forall (fun p => wf p = true) ps ->
  length es = length os -> length os = length ps ->
  elements_equal es os = true -> elements_equal os ps = true ->
  elements_equal es ps = true.
Proof.
  induction 1 as [|e es IHe _ IH]; intros [|o os] [|p ps] Hos Hps Hl1 Hl2; try done.
  cbn [elements_equal].
  apply Forall_cons in Hos as [Ho Hos]. apply Forall_cons in Hps as [Hp Hps].
  destruct (operator_eq e o) eqn:H1; [|done].
  destruct (operator_eq o p) eqn:H2; [|done]. cbn [negb].
  rewrite (IHe o p H1 H2 Ho Hp). cbn [negb].
  apply IH; try done; cbn in *; lia.
Qed.

Lemma operator_eq_type a b :
  operator_eq a b = true ->
  (isInt a || isFloat a) = false ->
  type a = type b.
Proof.
  intros Heq Ha. destruct a, b; cbn in Heq, Ha; try done.
Qed.

Lemma operator_eq_trans a :
  forall b c,
  operator_eq a b = true -> operator_eq b c = true ->
  wf b = true -> wf c = true ->
  operator_eq a c = true.
Proof.
  induction a as [| |x|x|x|x|x|x|es cap IH|ms cap IH] using Value_ind;
    intros b c Hab Hbc Hb Hc.
  1-3, 7-8:
    destruct b; cbn in Hab; try done; destruct c; cbn in Hbc; try done; cbn;
    try (apply Bool.eqb_prop in Hab; apply Bool.eqb_prop in Hbc; subst;
         apply Bool.eqb_reflx);
    try (apply andb_prop in Hab as [_ ->%String.eqb_eq];
         apply andb_prop in Hbc as [_ ->%String.eqb_eq];
         rewrite Z.eqb_refl, String.eqb_refl; reflexivity).
  1-3:
    match goal with
    | Hab : operator_eq ?a ?b = true, Hbc : operator_eq ?b ?c = true |- _ =>
        destruct (operator_eq_numeric a b eq_refl Hab)
          as (Hnb & p & q & Hp & Hq & Hpq);
        destruct (operator_eq_numeric b c Hnb Hbc)
          as (Hnc & q' & r & Hq' & Hr & Hqr);
        rewrite (operator_eq_numeric_intro a c p r eq_refl Hnc Hp Hr);
        apply (SFeqb_trans p q r Hpq); congruence
    end.
  - rewrite operator_eq_array in Hab.
    destruct b as [| |y|y|y|y|y|y|os cap'|ms' cap']; try done.
    rewrite operator_eq_array in Hbc.
    destruct c as [| |y|y|y|y|y|y|ps cap''|ms'' cap'']; try done.
    rewrite operator_eq_array.
    unfold numElements in *. cbn [isArray type ValueType_eqb andb arrayData fst] in *.
    apply andb_prop in Hab as [Hl1%Z.eqb_eq Hab].
    apply andb_prop in Hbc as [Hl2%Z.eqb_eq Hbc].
    apply andb_true_intro. split; [apply Z.eqb_eq; lia|].
    apply (elements_equal_trans es IH os ps); try done; try lia.
    + apply (wf_array_elements _ _ Hb).
    + apply (wf_array_elements _ _ Hc).
  - destruct b as [| |y|y|y|y|y|y|os cap'|ms' cap'];
      try (rewrite operator_eq_object in Hab; done).
    destruct c as [| |y|y|y|y|y|y|ps cap''|ms'' cap''];
      try (rewrite operator_eq_object in Hbc; done).
    destruct (wf_object_members _ _ Hb) as [Huniq' Hwf'].
    destruct (wf_object_members _ _ Hc) as [Huniq'' Hwf''].
    apply (operator_eq_object_spec ms cap ms' cap' Huniq') in Hab as [Hl1 Hab].
    apply (operator_eq_object_spec ms' cap' ms'' cap'' Huniq'') in Hbc as [Hl2 Hbc].
    apply (operator_eq_object_spec ms cap ms'' cap'' Huniq'').
    split; [lia|]. intros m Hm.
    destruct (Hab m Hm) as (m' & Hm' & Hname & Heq).
    destruct (Hbc m' Hm') as (m'' & Hm'' & Hname' & Heq').
    exists m''. split; [done|]. split; [congruence|].
    rewrite Forall_forall in IH, Hwf', Hwf''.
    apply (IH m Hm (snd m') (snd m'')); try done.
    + apply (Hwf' m' Hm').
    + apply (Hwf'' m'' Hm'').
Qed.

(** X16: On the values the interface builds, [==] is symmetric and
    transitive, and it is reflexive on those that contain no NaN; [!=] is
    its negation. *)
Theorem operator_eq_is_an_equivalence (a b c : Value) :
  wf a = true -> wf b = true -> wf c = true ->
  operator_eq a b = operator_eq b a
  /\ operator_ne a b = operator_ne b a
  /\ (operator_eq a b = true -> operator_eq b c = true -> operator_eq a c = true)
  /\ (contains_nan a = false -> operator_eq a a = true /\ operator_ne a a = false)
  /\ operator_ne a b = negb (operator_eq a b).
Proof.
  intros Ha Hb Hc. split; [|split; [|split; [|split]]].
  - apply operator_eq_sym; done.
  - unfold operator_ne. rewrite operator_eq_sym by done. reflexivity.
  - intros Hab Hbc. apply (operator_eq_trans a b c); done.
  - intros Hnan. unfold operator_ne. rewrite operator_eq_refl by done. done.
  - reflexivity.
Qed.

Lemma operator_eq_is_an_equivalence_witness :
  wf (int32 5) = true /\ wf (double_ double_5) = true /\ wf (int64 5) = true
  /\ operator_eq (int32 5) (double_ double_5) = operator_eq (double_ double_5) (int32 5)
  /\ operator_eq (int32 5) (int64 5) = true.
Proof.
  assert (wf (int32 5) = true) as Ha by reflexivity.
  assert (wf (double_ double_5) = true) as Hb by reflexivity.
  assert (wf (int64 5) = true) as Hc by reflexivity.
  split; [exact Ha|]. split; [exact Hb|]. split; [exact Hc|].
  destruct (operator_eq_is_an_equivalence (int32 5) (double_ double_5) (int64 5) Ha Hb Hc)
    as (Hsym & _ & Htrans & _).
  split; [exact Hsym|]. apply Htrans; reflexivity.
Defined.

(** ** Moving *)

(** X17: Moving a value transfers what it owns: the node built by the move
    constructor, and the node that move assignment leaves in the object
    assigned to, is the node of the other value with its pointers, so it
    denotes the same value and owns the same buffers, none of which is
    copied; the other object is left [undefined] and owns nothing.  Move
    assignment first releases what the target owned, and nothing else;
    every other object is as it was.  It reads the other object after the
    release, so the other object must not lie in a buffer the target owns:
    moving into an object a value from one of its own buffers reads a
    released buffer, which is undefined.  Moving an object into itself
    does nothing. *)
Theorem move_transfers_ownership
  (h : store) (v w : Value) (this other : node) (fpt fp : gset loc) (fuel : nat)
  (this_ other_ : place) :
  read_slot other_ h = Some (other, h) ->
  repr h v other fp ->
  read_slot this_ h = Some (this, h) ->
  repr h w this fpt ->
  fp ## fpt ->
  (depth w < fuel)%nat ->
  (repr h v (fst (move_construct other)) fp
   /\ repr h undefined (snd (move_construct other)) ∅)
  /\ (this_ <> other_ ->
      fst other_ ∉ fpt -> fst other_ ∉ fp -> fst this_ ∉ fp -> fst this_ ∉ fpt ->
      exists h',
        operator_assign_move fuel this_ other_ h = Some (tt, h')
        /\ read_slot this_ h' = Some (other, h')
        /\ read_slot other_ h' = Some (n_undefined, h')
        /\ repr h' v other fp
        /\ repr h' undefined n_undefined ∅
        /\ dom h' = dom h ∖ fpt
        /\ agree_on (dom h ∖ fpt ∖ {[fst this_; fst other_]}) h h'
        /\ (forall at_ m,
              at_ <> this_ -> at_ <> other_ -> fst at_ ∉ fpt ->
              read_slot at_ h = Some (m, h) ->
              read_slot at_ h' = Some (m, h')))
  /\ operator_assign_move fuel this_ this_ h = Some (tt, h)
  /\ (this_ <> other_ -> fst other_ ∈ fpt ->
      operator_assign_move fuel this_ other_ h = None).
Proof.
  intros Hother Hv Hthis Hw Hdisj Hfuel. split; [split; [exact Hv|done]|].
  split; [|split].
  - intros Hne Hofpt Hofp Htfp Htfpt.
    pose proof Hthis as Hthis0.
    apply read_slot_inv in Hthis as (b & Hb & Hslot).
    destruct (reset_at_spec w fuel h this_ b this fpt Hb Hslot Hw Hfuel Htfpt)
      as (h1 & Hreset & Hb1 & Hdom1 & Hagree1).
    set (b0 := put_slot b (snd this_) n_undefined) in *.
    set (h2 := <[fst this_ := b0]> h1) in *.
    pose proof (repr_dom _ _ _ _ Hv) as Hfp.
    assert (forall at_ m, fst at_ ∉ fpt -> read_slot at_ h = Some (m, h) ->
              read_slot at_ h1 = Some (m, h1)) as Hkept1.
    { intros at_ m Hat Hread. eapply read_slot_frame; [|exact Hread].
      apply Hagree1. apply read_slot_live in Hread. set_solver. }
    assert (forall at_ m, at_ <> this_ -> fst at_ ∉ fpt ->
              read_slot at_ h = Some (m, h) ->
              read_slot at_ h2 = Some (m, h2)) as Hkept2.
    { intros at_ m Hat Hfpt Hread. apply read_slot_other; [done|done|].
      by apply Hkept1. }
    assert (h2 !! fst this_ = Some b0) as Hb2 by apply lookup_insert_eq.
    assert (get_slot b0 (snd this_) = Some n_undefined) as Hslot0
      by (by apply (get_put_slot b _ this)).
    set (h3 := <[fst this_ := put_slot b0 (snd this_) other]> h2).
    assert (write_slot this_ other h2 = Some (tt, h3)) as Hwrite
      by (by apply (write_slot_spec h2 this_ b0 n_undefined)).
    assert (forall at_ m, at_ <> this_ -> fst at_ ∉ fpt ->
              read_slot at_ h = Some (m, h) ->
              read_slot at_ h3 = Some (m, h3)) as Hkept3.
    { intros at_ m Hat Hfpt Hread. apply read_slot_other; [done|done|].
      by apply Hkept2. }
    assert (read_slot this_ h3 = Some (other, h3)) as Hthis3.
    { apply (read_slot_spec h3 this_ (put_slot b0 (snd this_) other));
        [apply lookup_insert_eq|by apply (get_put_slot b0 _ n_undefined)]. }
    pose proof (Hkept3 other_ other (not_eq_sym Hne) Hofpt Hother) as Hother3.
    pose proof Hother3 as Hin3.
    apply read_slot_inv in Hin3 as (bo & Hbo & Hslot3).
    set (h4 := <[fst other_ := put_slot bo (snd other_) n_undefined]> h3).
    assert (write_slot other_ n_undefined h3 = Some (tt, h4)) as Hblank
      by (by apply (write_slot_spec h3 other_ bo other)).
    assert (forall l, l <> fst this_ -> l <> fst other_ -> l ∈ dom h ∖ fpt ->
              h4 !! l = h !! l) as Hsame.
    { intros l Hlt Hlo Hl. unfold h4, h3, h2.
      rewrite !lookup_insert_ne by done. by apply Hagree1. }
    assert (fst this_ ∈ dom h1) as Htdom1 by (apply elem_of_dom; eauto).
    exists h4. split; [|split; [|split; [|split; [|split; [done|split; [|split]]]]]].
    + unfold operator_assign_move. rewrite decide_False by done.
      unfold op_bind. rewrite Hreset. fold b0 h2.
      rewrite (Hkept2 other_ other (not_eq_sym Hne) Hofpt Hother).
      rewrite Hwrite. exact Hblank.
    + by apply read_slot_other.
    + apply (read_slot_spec h4 other_ (put_slot bo (snd other_) n_undefined));
        [apply lookup_insert_eq|by apply (get_put_slot bo _ other)].
    + eapply repr_frame; [|exact Hv]. intros l Hl.
      apply Hsame; [by intros ->|by intros ->|set_solver].
    + unfold h4, h3, h2. rewrite !dom_insert_L, Hdom1.
      assert (fst other_ ∈ dom h) as Hodom by (by eapply read_slot_live).
      rewrite Hdom1 in Htdom1. set_solver.
    + intros l Hl. apply Hsame; set_solver.
    + intros at_ m Hat Hato Hfpt Hread. apply read_slot_other; [done|done|].
      by apply Hkept3.
  - unfold operator_assign_move. by rewrite decide_True.
  - intros Hne Hin. unfold operator_assign_move. rewrite decide_False by done.
    unfold op_bind.
    destruct (reset_at fuel this_ h) as [[[] h1]|] eqn:Hreset; [|done].
    pose proof (reset_at_released w fuel h this_ this fpt h1 Hthis Hw Hfuel Hreset)
      as Hdom1.
    rewrite read_slot_released; [done|]. rewrite Hdom1. set_solver.
Qed.

Lemma move_transfers_ownership_witness :
  exists h',
    operator_assign_move 1 (4%nat, 0%nat) (3%nat, 0%nat)
      (<[4%nat := b_values [n_longString 7%nat 31]]>
         (<[7%nat := b_chars "a string longer than twenty-two"]> sample_variables))
    = Some (tt, h')
    /\ read_slot (4%nat, 0%nat) h' = Some (sample_node, h')
    /\ read_slot (3%nat, 0%nat) h' = Some (n_undefined, h')
    /\ repr h' sample_value sample_node sample_footprint.
Proof.
  set (h := <[4%nat := b_values [n_longString 7%nat 31]]>
              (<[7%nat := b_chars "a string longer than twenty-two"]>
                 sample_variables)).
  assert (agree_on sample_footprint sample_variables h) as Hagree.
  { intros p Hp. unfold h. rewrite !lookup_insert_ne; [done| |]; intros <-; revert Hp.
    - apply (bool_decide_unpack (7%nat ∉ sample_footprint)). vm_compute. exact I.
    - apply (bool_decide_unpack (4%nat ∉ sample_footprint)). vm_compute. exact I. }
  assert (3%nat ∉ sample_footprint) as H3.
  { apply (bool_decide_unpack _). vm_compute. exact I. }
  assert (4%nat ∉ sample_footprint) as H4.
  { apply (bool_decide_unpack _). vm_compute. exact I. }
  destruct (move_transfers_ownership h
              sample_value (longString "a string longer than twenty-two")
              (n_longString 7%nat 31) sample_node {[7%nat]} sample_footprint 1
              (4%nat, 0%nat) (3%nat, 0%nat))
    as (_ & Hmove & _).
  - reflexivity.
  - exact (repr_frame _ _ _ _ _ Hagree sample_variables_repr).
  - reflexivity.
  - exists 7%nat. split; [reflexivity|]. split; [reflexivity|reflexivity].
  - apply (bool_decide_unpack _). vm_compute. exact I.
  - cbn. lia.
  - destruct Hmove as (h' & Hcall & Hthis & Hother & Hrepr & _);
      [discriminate|cbn; set_solver|exact H3|exact H4|cbn; set_solver|].
    exists h'. repeat split; assumption.
Defined.

(** ** Clearing, on the store *)

(** X18: [clear] leaves every value empty: an array and an object keep
    their type and their capacity and have no element or member left, and
    any other value, a string included, becomes [undefined].  On the store,
    the buffers owned by the elements of an array, or by the keys and
    values of the members of an object, are released, every one and nothing
    else, while the buffer of the container itself stays where it is; a
    value that is not a container is reset. *)
Theorem clear_keeps_the_buffer
  (h : store) (v : Value) (n : node) (fp : gset loc) (fuel : nat) :
  repr h v n fp ->
  (depth v < fuel)%nat ->
  let after := fst (Value_clear v) in
  let kept := match n with
              | n_array ptr _ _ | n_object ptr _ _ => ptr_set ptr
              | _ => ∅
              end in
  snd (Value_clear v) = Ok tt
  /\ after = match v with
             | array _ capacity => array [] capacity
             | object _ capacity => object [] capacity
             | _ => undefined
             end
  /\ empty after = true
  /\ exists n' h',
       clear fuel n h = Some (n', h')
       /\ repr h' after n' kept
       /\ kept ⊆ fp
       /\ dom h' = dom h ∖ (fp ∖ kept)
       /\ agree_on (dom h ∖ (fp ∖ kept)) h h'.
Proof.
  intros Hrepr Hfuel after kept. subst after.
  split; [destruct v; reflexivity|].
  split; [destruct v; reflexivity|].
  split; [destruct v; reflexivity|].
  destruct v as [| | | | | | |chars|elements capacity|members capacity].
  1-8: (destruct (reset_releases _ fuel Hfuel h n fp Hrepr)
         as (h' & Hreset & Hdom & Hagree);
        exists n_undefined, h';
        assert (kept = ∅) as ->
          by (subst kept; cbn in Hrepr;
              first [destruct Hrepr as [-> _] | destruct Hrepr as (p & -> & _)];
              reflexivity);
        split; [cbn in Hrepr;
                first [destruct Hrepr as [-> _] | destruct Hrepr as (p & -> & _)];
                unfold clear, op_bind; rewrite Hreset; reflexivity|];
        split; [done|]; split; [set_solver|];
        replace (fp ∖ ∅) with fp by set_solver; done).
  - apply repr_array_unfold in Hrepr as (ptr & -> & Hptr). subst kept.
    destruct fuel as [|fuel']; [lia|]. set (fuel := S fuel').
    apply depth_array_elements in Hfuel.
    assert (Forall (releases (reset fuel)) elements) as Hrel.
    { rewrite Forall_forall in Hfuel |- *. intros e He.
      apply reset_releases. specialize (Hfuel e He). subst fuel. lia. }
    destruct ptr as [p|].
    + destruct Hptr as (slots & inner & Hp & Hlen & Hpin & -> & Hvs).
      destruct (destroy_values_loop (reset fuel) p slots elements 0 h inner)
        as (h' & Hloop & Hdom' & Hagree'); try done.
      assert (p ∈ dom h) as Hpdom by (apply elem_of_dom; eauto).
      assert (({[p]} ∪ inner) ∖ ptr_set (Some p) = inner) as Hrest
        by (cbn [ptr_set]; set_solver).
      exists (n_array (Some p) 0 capacity), h'.
      split; [unfold clear, op_bind; rewrite Nat2Z.id, Hloop; reflexivity|].
      split; [|split; [cbn [ptr_set]; set_solver|rewrite Hrest; done]].
      apply (repr_array_unfold h' [] capacity). exists (Some p).
      split; [reflexivity|]. exists slots, ∅.
      split; [rewrite Hagree'; [done|set_solver]|].
      split; [done|]. split; [set_solver|]. split; [cbn [ptr_set]; set_solver|done].
    + destruct Hptr as (-> & -> & ->). exists (n_array None 0 0), h.
      split; [reflexivity|]. split; [|split; [done|]].
      * apply (repr_array_unfold h [] 0). exists None. done.
      * cbn [ptr_set]. replace (∅ ∖ ∅) with (∅ : gset loc) by set_solver.
        split; [set_solver|apply agree_on_refl].
  - apply repr_object_unfold in Hrepr as (ptr & -> & Hptr). subst kept.
    destruct fuel as [|fuel']; [lia|]. set (fuel := S fuel').
    apply depth_object_members in Hfuel.
    assert (Forall (fun m => releases (reset fuel) (snd m)) members) as Hrel.
    { rewrite Forall_forall in Hfuel |- *. intros m Hm.
      apply reset_releases. specialize (Hfuel m Hm). cbn in Hfuel. subst fuel. lia. }
    destruct ptr as [p|].
    + destruct Hptr as (slots & inner & Hp & Hlen & Hpin & -> & Hms).
      destruct (destroy_members_loop (reset fuel) p slots members 0 h inner)
        as (h' & Hloop & Hdom' & Hagree'); try done.
      assert (p ∈ dom h) as Hpdom by (apply elem_of_dom; eauto).
      assert (({[p]} ∪ inner) ∖ ptr_set (Some p) = inner) as Hrest
        by (cbn [ptr_set]; set_solver).
      exists (n_object (Some p) 0 capacity), h'.
      split; [unfold clear, op_bind; rewrite Nat2Z.id, Hloop; reflexivity|].
      split; [|split; [cbn [ptr_set]; set_solver|rewrite Hrest; done]].
      apply (repr_object_unfold h' [] capacity). exists (Some p).
      split; [reflexivity|]. exists slots, ∅.
      split; [rewrite Hagree'; [done|set_solver]|].
      split; [done|]. split; [set_solver|]. split; [cbn [ptr_set]; set_solver|done].
    + destruct Hptr as (-> & -> & ->). exists (n_object None 0 0), h.
      split; [reflexivity|]. split; [|split; [done|]].
      * apply (repr_object_unfold h [] 0). exists None. done.
      * cbn [ptr_set]. replace (∅ ∖ ∅) with (∅ : gset loc) by set_solver.
        split; [set_solver|apply agree_on_refl].
Qed.

Lemma clear_keeps_the_buffer_witness :
  exists n' h',
    clear 3 sample_node sample_store = Some (n', h')
    /\ repr h' (array [] 4) n' {[0%nat]}
    /\ dom h' = {[0%nat]}.
Proof.
  destruct (clear_keeps_the_buffer sample_store sample_value sample_node
              sample_footprint 3 sample_value_repr ltac:(vm_compute; lia))
    as (_ & _ & _ & n' & h' & Hclear & Hrepr & _ & Hdom & _).
  exists n', h'. split; [exact Hclear|]. split; [exact Hrepr|].
  rewrite Hdom. apply (bool_decide_unpack _). vm_compute. exact I.
Defined.

(** ** Removing a member, on the store *)

(** The scan of [findObjectMember] on the store stops where the scan over
    the members does. *)
Lemma find_member_from_spec key (p : loc) (slots : list member_node)
  (rest : list Member) :
  forall (i : nat) (h : store) (fps : gset loc),
  h !! p = Some (b_members slots) ->
  repr_members h rest (drop i slots) fps ->
  find_member_from key (Some p) (length rest) i h
  = Some ((i + Z.to_nat (find_from key rest 0))%nat, h).
Proof.
  induction rest as [|m rest IH]; intros i h fps Hp Hr.
  - replace (i + Z.to_nat (find_from key [] 0))%nat with i by (cbn; lia).
    reflexivity.
  - destruct (drop i slots) as [|s ns] eqn:Hdrop; [done|].
    apply drop_lookup_head in Hdrop as [Hs ->]. cbn in Hr.
    destruct Hr as (fpk & fpv & fp2 & _ & _ & _ & _ & Hk & _ & H2).
    cbn [find_member_from length find_from]. unfold op_bind at 1.
    rewrite (read_member_spec h p slots i s Hp Hs).
    unfold op_bind at 1. rewrite (key_get_spec h _ _ _ Hk).
    unfold MemberKey_eq.
    destruct (MemberKey_get m.1 =? key)%string.
    + replace (i + Z.to_nat 0)%nat with i by lia. reflexivity.
    + rewrite (IH (S i) h fp2 Hp H2). rewrite (find_from_shift key rest (0 + 1)).
      pose proof (find_from_range key rest 0).
      replace (i + Z.to_nat (0 + 1 + find_from key rest 0))%nat
        with (S i + Z.to_nat (find_from key rest 0))%nat by lia.
      reflexivity.
Qed.

Lemma repr_members_take h ms ns fps :
  repr_members h ms ns fps -> repr_members h ms (take (length ms) ns) fps.
Proof.
  revert ns fps. induction ms as [|m ms IH]; intros ns fps H; [done|].
  destruct ns as [|n ns]; [done|]. cbn in H |- *.
  destruct H as (fpk & fpv & fp2 & ? & ? & ? & ? & ? & ? & H).
  exists fpk, fpv, fp2. repeat (split; [done|]). by apply IH.
Qed.

(** The live members of a buffer, split at one of them. *)
Lemma repr_members_split h before gap rest :
  forall slots fps,
  repr_members h (before ++ gap :: rest) slots fps ->
  exists sb sg sr extra fb fk fv fr,
    slots = sb ++ sg :: sr ++ extra
    /\ length sb = length before
    /\ length sr = length rest
    /\ fps = fb ∪ (fk ∪ fv ∪ fr)
    /\ fb ## fk /\ fb ## fv /\ fb ## fr /\ fk ## fv /\ fk ## fr /\ fv ## fr
    /\ repr_members h before sb fb
    /\ key_repr h (fst gap) (fst sg) fk
    /\ repr h (snd gap) (snd sg) fv
    /\ repr_members h rest sr fr.
Proof.
  induction before as [|m before IH]; intros slots fps H.
  - destruct slots as [|sg ns]; [done|]. cbn in H.
    destruct H as (fk & fv & fr & -> & ? & ? & ? & Hk & Hv & Hrest).
    exists [], sg, (take (length rest) ns), (drop (length rest) ns), ∅, fk, fv, fr.
    pose proof (repr_members_length _ _ _ _ Hrest).
    split; [cbn; by rewrite take_drop|]. split; [done|].
    split; [rewrite length_take; lia|].
    split; [set_solver|].
    repeat match goal with |- _ ## _ /\ _ => split; [set_solver|] end.
    split; [done|]. split; [done|]. split; [done|].
    by apply repr_members_take.
  - destruct slots as [|s ns]; [done|]. cbn in H.
    destruct H as (fpk & fpv & fp2 & -> & ? & ? & ? & Hk & Hv & Hrest).
    destruct (IH ns fp2 Hrest)
      as (sb & sg & sr & extra & fb & fk & fv & fr & -> & Hlb & Hlr & -> &
          ? & ? & ? & ? & ? & ? & Hb & Hgk & Hgv & Hr).
    exists (s :: sb), sg, sr, extra, (fpk ∪ fpv ∪ fb), fk, fv, fr.
    split; [done|]. split; [cbn; lia|]. split; [done|].
    split; [set_solver|].
    repeat match goal with |- _ ## _ /\ _ => split; [set_solver|] end.
    split; [|done]. cbn. exists fpk, fpv, fb.
    split; [done|].
    repeat match goal with |- _ ## _ /\ _ => split; [set_solver|] end.
    done.
Qed.

(** Two runs of live members, one after the other. *)
Lemma repr_members_join h ms1 :
  forall ns1 f1 ms2 ns2 f2,
  repr_members h ms1 ns1 f1 ->
  length ns1 = length ms1 ->
  repr_members h ms2 ns2 f2 ->
  f1 ## f2 ->
  repr_members h (ms1 ++ ms2) (ns1 ++ ns2) (f1 ∪ f2).
Proof.
  induction ms1 as [|m ms1 IH]; intros ns1 f1 ms2 ns2 f2 H1 Hlen H2 Hdisj.
  - destruct ns1; [|done]. cbn in H1. subst f1. cbn.
    replace (∅ ∪ f2) with f2 by set_solver. done.
  - destruct ns1 as [|n ns1]; [done|]. cbn in H1 |- *.
    destruct H1 as (fpk & fpv & fp2 & -> & ? & ? & ? & Hk & Hv & Hrest).
    exists fpk, fpv, (fp2 ∪ f2).
    split; [set_solver|].
    repeat match goal with |- _ ## _ /\ _ => split; [set_solver|] end.
    split; [done|]. split; [done|].
    apply IH; try done; [cbn in Hlen; lia|set_solver].
Qed.

(** Two neighbouring slots of a buffer of members. *)
Lemma lookup_first {A} (sb : list A) x y tail :
  (sb ++ x :: y :: tail) !! length sb = Some x.
Proof. rewrite lookup_app_r by lia. by rewrite Nat.sub_diag. Qed.

Lemma lookup_second {A} (sb : list A) x y tail :
  (sb ++ x :: y :: tail) !! S (length sb) = Some y.
Proof.
  rewrite lookup_app_r by lia.
  by replace (S (length sb) - length sb)%nat with 1%nat by lia.
Qed.

Lemma insert_first {A} (sb : list A) x y tail z :
  <[length sb := z]> (sb ++ x :: y :: tail) = sb ++ z :: y :: tail.
Proof. rewrite insert_app_r_alt by lia. by rewrite Nat.sub_diag. Qed.

Lemma insert_second {A} (sb : list A) x y tail z :
  <[S (length sb) := z]> (sb ++ x :: y :: tail) = sb ++ x :: z :: tail.
Proof.
  rewrite insert_app_r_alt by lia.
  by replace (S (length sb) - length sb)%nat with 1%nat by lia.
Qed.

Lemma alter_first {A} (f : A -> A) (sb : list A) x y tail :
  alter f (length sb) (sb ++ x :: y :: tail) = sb ++ f x :: y :: tail.
Proof.
  induction sb as [|s sb IH]; [done|]. cbn. f_equal. exact IH.
Qed.

Lemma alter_second {A} (f : A -> A) (sb : list A) x y tail :
  alter f (S (length sb)) (sb ++ x :: y :: tail) = sb ++ x :: f y :: tail.
Proof.
  induction sb as [|s sb IH]; [done|]. cbn. f_equal. exact IH.
Qed.

(** One iteration of the loop of [removeMember] on the store: the value in
    the slot before is released and the member moves into that slot; the
    key that was in the slot before is overwritten, and nothing of it is
    released. *)
Lemma move_member_spec fuel (p : loc) (sb : list member_node)
  (target source : member_node) (tail : list member_node) h tv ftv :
  h !! p = Some (b_members (sb ++ target :: source :: tail)) ->
  repr h tv (snd target) ftv ->
  (depth tv < fuel)%nat ->
  p ∉ ftv ->
  exists h',
    move_member fuel p (S (length sb)) h = Some (tt, h')
    /\ h' !! p = Some (b_members (sb ++ source :: (k_short "", n_undefined) :: tail))
    /\ dom h' = dom h ∖ ftv
    /\ agree_on (dom h ∖ ftv ∖ {[p]}) h h'.
Proof.
  intros Hp Htv Hfuel Hpout.
  assert (p ∈ dom h) as Hpdom by (apply elem_of_dom; eauto).
  destruct target as [tk tn], source as [sk sn]. cbn [snd] in Htv.
  set (hA := <[p := b_members (sb ++ (sk, tn) :: (sk, sn) :: tail)]> h).
  set (hB := <[p := b_members (sb ++ (sk, tn) :: (k_short "", sn) :: tail)]> hA).
  assert (write_key p (length sb) sk h = Some (tt, hA)) as Hkey1.
  { unfold write_key, op_bind.
    rewrite (read_member_spec h p _ (length sb) (tk, tn) Hp (lookup_first _ _ _ _)).
    rewrite (write_member_spec h p _ (length sb) _ Hp);
      [by rewrite insert_first|rewrite length_app; cbn [length]; lia]. }
  assert (hA !! p = Some (b_members (sb ++ (sk, tn) :: (sk, sn) :: tail))) as HpA
    by apply lookup_insert_eq.
  assert (write_key p (S (length sb)) (k_short "") hA = Some (tt, hB)) as Hkey2.
  { unfold write_key, op_bind.
    rewrite (read_member_spec hA p _ (S (length sb)) (sk, sn) HpA (lookup_second _ _ _ _)).
    rewrite (write_member_spec hA p _ (S (length sb)) _ HpA);
      [by rewrite insert_second|rewrite length_app; cbn [length]; lia]. }
  assert (hB !! p = Some (b_members (sb ++ (sk, tn) :: (k_short "", sn) :: tail)))
    as HpB by apply lookup_insert_eq.
  assert (dom hB = dom h) as HdomB.
  { unfold hB, hA. rewrite !dom_insert_L. set_solver. }
  assert (forall l, l <> p -> hB !! l = h !! l) as HsameB.
  { intros l Hl. unfold hB, hA. by rewrite !lookup_insert_ne. }
  assert (repr hB tv tn ftv) as HtvB.
  { eapply repr_frame; [|exact Htv]. intros l Hl. apply HsameB. by intros ->. }
  destruct (reset_at_spec tv fuel hB (p, length sb) _ tn ftv HpB) as
    (h1 & Hreset & Hp1 & Hdom1 & Hagree1);
    [cbn; by rewrite lookup_first|done|done|done|].
  cbn [fst snd put_slot] in Hreset. rewrite alter_first in Hreset. cbn [fst] in Hreset.
  set (h2 := <[p := b_members (sb ++ (sk, n_undefined) :: (k_short "", sn) :: tail)]> h1)
    in *.
  set (h3 := <[p := b_members (sb ++ (sk, sn) :: (k_short "", sn) :: tail)]> h2).
  set (h4 := <[p := b_members (sb ++ (sk, sn) :: (k_short "", n_undefined) :: tail)]> h3).
  assert (h2 !! p = Some (b_members (sb ++ (sk, n_undefined) :: (k_short "", sn) :: tail)))
    as Hp2 by apply lookup_insert_eq.
  assert (h3 !! p = Some (b_members (sb ++ (sk, sn) :: (k_short "", sn) :: tail)))
    as Hp3 by apply lookup_insert_eq.
  exists h4. split; [|split; [|split]].
  - unfold move_member, op_bind.
    rewrite (read_member_spec h p _ (S (length sb)) (sk, sn) Hp (lookup_second _ _ _ _)).
    replace (S (length sb) - 1)%nat with (length sb) by lia.
    rewrite (read_member_spec h p _ (length sb) (tk, tn) Hp (lookup_first _ _ _ _)).
    cbn [key_move_assign fst snd]. rewrite Hkey1, Hkey2.
    unfold operator_assign_move.
    rewrite decide_False by (intros [= Heq]; lia).
    unfold op_bind. rewrite Hreset.
    rewrite (read_slot_spec h2 (p, S (length sb)) _ sn Hp2);
      [|cbn; by rewrite lookup_second].
    rewrite (write_slot_spec h2 (p, length sb) _ n_undefined sn Hp2);
      [|cbn; by rewrite lookup_first].
    cbn [fst snd put_slot]. rewrite alter_first. cbn [fst]. fold h3.
    rewrite (write_slot_spec h3 (p, S (length sb)) _ sn n_undefined Hp3);
      [|cbn; by rewrite lookup_second].
    cbn [fst snd put_slot]. rewrite alter_second. cbn [fst]. reflexivity.
  - apply lookup_insert_eq.
  - unfold h4, h3, h2. rewrite !dom_insert_L, Hdom1, HdomB. set_solver.
  - intros l Hl. unfold h4, h3, h2.
    rewrite !lookup_insert_ne by set_solver.
    rewrite Hagree1 by (rewrite HdomB; set_solver). apply HsameB. set_solver.
Qed.

(** The loop of [removeMember] from a blank slot on: the members after it
    move down one slot each; no buffer is released or allocated. *)
Lemma move_members_blank fuel (p : loc) (rest_slots : list member_node) :
  forall sb tail h,
  (0 < fuel)%nat ->
  h !! p = Some (b_members (sb ++ (k_short "", n_undefined) :: rest_slots ++ tail)) ->
  exists h',
    move_members fuel p (length rest_slots) (S (length sb)) h = Some (tt, h')
    /\ h' !! p = Some (b_members (sb ++ rest_slots
                                   ++ (k_short "", n_undefined) :: tail))
    /\ dom h' = dom h
    /\ agree_on (dom h ∖ {[p]}) h h'.
Proof.
  induction rest_slots as [|s rs IH]; intros sb tail h Hfuel Hp.
  - exists h. split; [reflexivity|]. split; [done|]. split; [done|apply agree_on_refl].
  - cbn [length move_members app] in *.
    destruct (move_member_spec fuel p sb (k_short "", n_undefined) s (rs ++ tail)
                h undefined ∅ Hp) as (h1 & Hmove & Hp1 & Hdom1 & Hagree1);
      [done|cbn; lia|set_solver|].
    destruct (IH (sb ++ [s]) tail h1 Hfuel) as (h' & Hloop & Hp' & Hdom' & Hagree').
    { rewrite <- app_assoc. exact Hp1. }
    rewrite length_app in Hloop. cbn [length] in Hloop.
    replace (S (length sb + 1)) with (S (S (length sb))) in Hloop by lia.
    exists h'. split; [|split; [|split]].
    + unfold op_bind at 1. rewrite Hmove. exact Hloop.
    + rewrite Hp', <- app_assoc. done.
    + rewrite Hdom', Hdom1. set_solver.
    + intros l Hl. rewrite Hagree' by (rewrite Hdom1; set_solver).
      apply Hagree1. set_solver.
Qed.

Lemma findObjectMember_spec h members capacity n fp key :
  repr h (object members capacity) n fp ->
  findObjectMember key n h = Some (find_from key members 0, h).
Proof.
  intros Hrepr. apply repr_object_unfold in Hrepr as (ptr & -> & Hptr).
  unfold findObjectMember.
  rewrite Nat2Z.id.
  pose proof (find_from_range key members 0) as Hrange.
  destruct ptr as [p|].
  - destruct Hptr as (slots & inner & Hp & _ & _ & _ & Hms).
    unfold op_bind.
    rewrite (find_member_from_spec key p slots members 0 h inner Hp Hms).
    replace (Z.of_nat (0 + Z.to_nat (find_from key members 0)))
      with (find_from key members 0) by lia.
    reflexivity.
  - destruct Hptr as (-> & _). reflexivity.
Qed.

(** X19: [removeMember] on the store.  When no member has the name, nothing
    changes.  Otherwise the node left denotes the object without the first
    member of the name, as on the value layer, and the buffers of the other
    members are untouched.  What the removed member owned is not all
    released: the buffer of a long key stays allocated in every case, and
    when the removed member is the last one nothing at all is released, so
    that the buffers of its value stay allocated too; when other members
    follow it, the buffers of its value, and only they, are released.  The
    buffers that stay allocated are owned by no node any more. *)
Theorem removeMember_on_the_store
  (h : store) (members : list Member) (capacity : Z) (n : node) (fp : gset loc)
  (key : string) (fuel : nat) :
  repr h (object members capacity) n fp ->
  (depth (object members capacity) < fuel)%nat ->
  Z.of_nat (length members) < 2 ^ 32 ->
  (key ∉ key_names members -> removeMember fuel key n h = Some ((n, false), h))
  /\ (key ∈ key_names members ->
      exists i k v kn vn fk fv n' h',
        members !! i = Some (k, v)
        /\ MemberKey_get k = key
        /\ key_repr h k kn fk
        /\ repr h v vn fv
        /\ fk ∪ fv ⊆ fp
        /\ removeMember fuel key n h = Some ((n', true), h')
        /\ Value_removeMember key (object members capacity)
           = (object (delete i members) capacity, Ok true)
        /\ repr h' (object (delete i members) capacity) n' (fp ∖ (fk ∪ fv))
        /\ fk ⊆ dom h'
        /\ (S i < length members -> dom h' = dom h ∖ fv)%nat
        /\ (S i = length members -> h' = h)).
Proof.
  intros Hrepr Hfuel Hsize.
  pose proof (findObjectMember_spec h members capacity n fp key Hrepr) as Hfind.
  pose proof (find_from_range key members 0) as Hrange.
  apply repr_object_unfold in Hrepr as (ptr & -> & Hptr).
  split.
  - intros Habsent. apply find_from_absent in Habsent.
    unfold removeMember, op_bind. rewrite Hfind, Habsent, Z.leb_refl. reflexivity.
  - intros Hin.
    assert (find_from key members 0 < Z.of_nat (length members)) as Hlt.
    { destruct (decide (find_from key members 0 = Z.of_nat (length members)))
        as [Heq|]; [|lia].
      apply find_from_absent in Heq. done. }
    destruct (find_from_found key members Hlt) as (gap & Hgap & Hname & _).
    set (i := Z.to_nat (find_from key members 0)) in *.
    destruct ptr as [p|]; [|destruct Hptr as (-> & _); cbn in Hlt; lia].
    destruct Hptr as (slots & inner & Hp & Hlen & Hpin & -> & Hms).
    pose proof (take_drop_middle members i gap Hgap) as Hsplit.
    set (before := take i members) in *. set (rest := drop (S i) members) in *.
    assert (length before = i) as Hbefore by (subst before; rewrite length_take; lia).
    assert (length rest = (length members - S i)%nat) as Hrest
      by (subst rest; rewrite length_drop; lia).
    rewrite <- Hsplit in Hms.
    destruct (repr_members_split h before gap rest slots inner Hms)
      as (sb & sg & sr & extra & fb & fk & fv & fr & -> & Hlb & Hlr & -> &
          Hd1 & Hd2 & Hd3 & Hd4 & Hd5 & Hd6 & Hb & Hgk & Hgv & Hr).
    assert (delete i members = before ++ rest) as Hdelete.
    { rewrite <- Hsplit, <- Hbefore. apply delete_middle. }
    assert (Value_removeMember key (object members capacity)
            = (object (delete i members) capacity, Ok true)) as Hvalue.
    { rewrite removeMember_spec by done. rewrite bool_decide_eq_true_2 by done.
      reflexivity. }
    assert (p ∈ dom h) as Hpdom by (apply elem_of_dom; eauto).
    pose proof (key_repr_dom _ _ _ _ Hgk) as Hfkdom.
    pose proof (repr_dom _ _ _ _ Hgv) as Hfvdom.
    assert (removeMember fuel key (n_object (Some p) (Z.of_nat (length members)) capacity) h
            = op_bind
                (move_members fuel p (length sr) (S (length sb)))
                (fun _ => op_ret (n_object (Some p) (Z.of_nat (length (before ++ rest)))
                                    capacity, true)) h) as Hcall.
    { unfold removeMember. unfold op_bind at 1. rewrite Hfind.
      destruct (Z.leb_spec (Z.of_nat (length members)) (find_from key members 0));
        [lia|].
      rewrite (wrap32_small (find_from key members 0 + 1)) by lia.
      rewrite (wrap32_small (Z.of_nat (length members) - 1)) by lia.
      replace (Z.to_nat (Z.of_nat (length members) - (find_from key members 0 + 1)))
        with (length sr) by lia.
      replace (Z.to_nat (find_from key members 0 + 1)) with (S (length sb)) by lia.
      replace (Z.of_nat (length members) - 1) with (Z.of_nat (length (before ++ rest)));
        [reflexivity|].
      rewrite length_app. lia. }
    destruct gap as [k v]. cbn [fst snd] in *.
    exists i, k, v, (fst sg), (snd sg), fk, fv.
    assert (({[p]} ∪ (fb ∪ (fk ∪ fv ∪ fr))) ∖ (fk ∪ fv) = {[p]} ∪ (fb ∪ fr)) as Hfp.
    { clear - Hpin Hd1 Hd2 Hd4 Hd5 Hd6. set_solver. }
    rewrite Hfp, Hdelete.
    destruct sr as [|s rs].
    + (* the removed member is the last one *)
      exists (n_object (Some p) (Z.of_nat (length (before ++ rest))) capacity), h.
      destruct rest; [|done]. cbn in Hr. subst fr.
      split; [done|]. split; [done|]. split; [done|]. split; [done|].
      split; [clear; set_solver|]. split; [exact Hcall|].
      split; [rewrite <- Hdelete; exact Hvalue|].
      split; [|split; [done|split; [|done]]].
      * apply repr_object_unfold. exists (Some p). split; [reflexivity|].
        exists (sb ++ sg :: [] ++ extra), (fb ∪ ∅).
        split; [done|]. split; [done|]. split; [set_solver|]. split; [done|].
        rewrite app_nil_r.
        replace (fb ∪ ∅) with fb by set_solver.
        by apply repr_members_app.
      * intros Hlast. cbn [length] in Hrest. lia.
    + (* other members follow *)
      assert (0 < fuel)%nat as Hfuel0 by lia.
      assert (depth v < fuel)%nat as Hfuelv.
      { assert ((k, v) ∈ members) as Hmem by (apply list_elem_of_lookup; eauto).
        clear - Hfuel Hmem. destruct fuel as [|fuel']; [lia|].
        apply depth_object_members in Hfuel. rewrite Forall_forall in Hfuel.
        specialize (Hfuel (k, v) Hmem). cbn in Hfuel. lia. }
      cbn [app] in Hp.
      destruct (move_member_spec fuel p sb sg s (rs ++ extra) h v fv Hp Hgv Hfuelv)
        as (h1 & Hmove & Hp1 & Hdom1 & Hagree1); [set_solver|].
      destruct (move_members_blank fuel p rs (sb ++ [s]) extra h1 Hfuel0)
        as (h' & Hloop & Hp' & Hdom' & Hagree').
      { rewrite <- app_assoc. exact Hp1. }
      rewrite length_app in Hloop. cbn [length] in Hloop.
      replace (S (length sb + 1)) with (S (S (length sb))) in Hloop by lia.
      exists (n_object (Some p) (Z.of_nat (length (before ++ rest))) capacity), h'.
      assert (agree_on (fb ∪ fr) h h') as Hframe.
      { pose proof (repr_members_dom _ _ _ _ Hb).
        pose proof (repr_members_dom _ _ _ _ Hr).
        intros l Hl. rewrite Hagree' by (rewrite Hdom1; set_solver).
        apply Hagree1. set_solver. }
      split; [done|]. split; [done|]. split; [done|]. split; [done|].
      split; [clear; set_solver|].
      split; [rewrite Hcall; cbn [length move_members]; unfold op_bind;
              rewrite Hmove, Hloop; reflexivity|].
      split; [rewrite <- Hdelete; exact Hvalue|].
      split; [|split; [|split]].
      * apply repr_object_unfold. exists (Some p). split; [reflexivity|].
        exists ((sb ++ [s]) ++ rs ++ (k_short "", n_undefined) :: extra), (fb ∪ fr).
        split; [done|].
        split; [rewrite <- Hlen, !length_app; cbn [length]; rewrite !length_app;
                cbn [length]; lia|].
        split; [set_solver|]. split; [done|].
        rewrite <- app_assoc. cbn [app].
        change (s :: rs ++ (k_short "", n_undefined) :: extra)
          with ((s :: rs) ++ (k_short "", n_undefined) :: extra).
        apply repr_members_join; [| done | | done].
        -- eapply repr_members_frame; [|exact Hb].
           eapply agree_on_subseteq; [|exact Hframe]. set_solver.
        -- apply repr_members_app.
           eapply repr_members_frame; [|exact Hr].
           eapply agree_on_subseteq; [|exact Hframe]. set_solver.
      * rewrite Hdom', Hdom1. set_solver.
      * intros _. rewrite Hdom', Hdom1. reflexivity.
      * intros Hlast. cbn [length] in Hlr. lia.
Qed.

Lemma sample_object_repr :
  repr sample_object_store sample_object sample_object_node sample_object_footprint.
Proof.
  apply repr_object_unfold. exists (Some 0%nat). split; [reflexivity|].
  eexists _, _. split; [reflexivity|]. split; [reflexivity|].
  split; [|split; [reflexivity|]].
  { set_solver. }
  cbn. eexists _, _, _. split; [reflexivity|].
  do 3 (split; [set_solver|]).
  split; [exists 1%nat; done|]. split; [exists 2%nat; done|]. done.
Defined.

Lemma removeMember_on_the_store_witness :
  repr sample_object_store sample_object sample_object_node sample_object_footprint
  /\ (depth sample_object < 2)%nat
  /\ exists n' h',
       removeMember 2 "a member name longer than 23" sample_object_node
         sample_object_store
       = Some ((n', true), h')
       /\ h' = sample_object_store.
Proof.
  split; [exact sample_object_repr|].
  assert (depth sample_object < 2)%nat as Hdepth by (vm_compute; lia).
  split; [exact Hdepth|].
  destruct (removeMember_on_the_store sample_object_store _ _ _ _
              "a member name longer than 23" 2 sample_object_repr Hdepth
              ltac:(vm_compute; reflexivity)) as [_ Hpresent].
  destruct Hpresent
    as (i & k & v & kn & vn & fk & fv & n' & h' & Hi & _ & _ & _ & _ & Hcall & _ & _ &
        _ & _ & Hlast).
  { decide_by_computation. }
  exists n', h'. split; [exact Hcall|]. apply Hlast.
  destruct i as [|i]; [reflexivity|]. cbn in Hi. done.
Defined.

(** ** Equality of integers *)

(** X20: Two integers of magnitude below [2^53], held as 32-bit or 64-bit
    integers in any combination, are equal for [==] exactly when they are
    the same number.  Beyond that range the conversion to [double] rounds:
    [2^53] and [2^53 + 1] are equal for [==], and so are [2^53 + 3] and
    [2^53 + 4]. *)
Theorem integer_equality_is_exact_below_2_53 (a b : Value) (x y : Z) :
  a = int32 x \/ a = int64 x ->
  b = int32 y \/ b = int64 y ->
  Z.abs x < 2 ^ 53 ->
  Z.abs y < 2 ^ 53 ->
  operator_eq a b = (x =? y)
  /\ operator_eq (int64 (2 ^ 53)) (int64 (2 ^ 53 + 1)) = true
  /\ operator_eq (int64 (2 ^ 53 + 3)) (int64 (2 ^ 53 + 4)) = true
  /\ operator_eq (int64 (2 ^ 53)) (int64 (2 ^ 53 + 2)) = false.
Proof.
  intros Ha Hb Hx Hy. split; [|split; [|split]]; [|vm_compute; reflexivity..].
  rewrite <- (static_cast_double_exact x y Hx Hy).
  destruct Ha as [->| ->], Hb as [->| ->]; reflexivity.
Qed.

Lemma integer_equality_is_exact_below_2_53_witness :
  operator_eq (int32 7) (int64 7) = true
  /\ operator_eq (int64 (2 ^ 53 - 1)) (int64 (2 ^ 53 - 2)) = false.
Proof.
  split.
  - apply (proj1 (integer_equality_is_exact_below_2_53 (int32 7) (int64 7) 7 7
                    (or_introl eq_refl) (or_intror eq_refl)
                    ltac:(vm_compute; reflexivity) ltac:(vm_compute; reflexivity))).
  - apply (proj1 (integer_equality_is_exact_below_2_53
                    (int64 (2 ^ 53 - 1)) (int64 (2 ^ 53 - 2)) (2 ^ 53 - 1) (2 ^ 53 - 2)
                    (or_intror eq_refl) (or_intror eq_refl)
                    ltac:(vm_compute; reflexivity) ltac:(vm_compute; reflexivity))).
Defined.

(** ** Destruction *)

(** X21: The destructor ([reset]) of a value releases the buffers the value
    owns, directly or through its elements and members, every one of them
    exactly once and no other buffer; it returns for every value, however
    deeply nested.  Every value that shares no buffer with it is as it was,
    and destroying a value that owns nothing leaves the store as it is. *)
Theorem reset_releases_what_is_owned
  (h : store) (v : Value) (n : node) (fp : gset loc) :
  repr h v n fp ->
  exists h',
    reset (S (depth v)) n h = Some (tt, h')
    /\ dom h' = dom h ∖ fp
    /\ agree_on (dom h ∖ fp) h h'
    /\ (forall fuel, (depth v < fuel)%nat -> reset fuel n h = Some (tt, h'))
    /\ (forall w m fpw, repr h w m fpw -> fpw ## fp -> repr h' w m fpw)
    /\ (fp = ∅ -> h' = h).
Proof.
  intros Hrepr.
  destruct (reset_releases v (S (depth v)) ltac:(lia) h n fp Hrepr)
    as (h' & Hreset & Hdom & Hagree).
  exists h'. split; [exact Hreset|]. split; [exact Hdom|]. split; [exact Hagree|].
  split; [|split].
  - intros fuel Hfuel.
    destruct (reset_releases v fuel Hfuel h n fp Hrepr) as (h'' & Hreset' & Hdom' & Hagree').
    rewrite Hreset'. f_equal. f_equal.
    apply map_eq. intros l.
    destruct (decide (l ∈ dom h ∖ fp)) as [Hin|Hout].
    + rewrite Hagree, Hagree' by done. reflexivity.
    + rewrite (not_elem_of_dom_1 h'' l) by (rewrite Hdom'; done).
      rewrite (not_elem_of_dom_1 h' l) by (rewrite Hdom; done). reflexivity.
  - intros w m fpw Hw Hdisj. apply (repr_frame w h h'); [|exact Hw].
    eapply agree_on_subseteq; [|exact Hagree].
    pose proof (repr_dom w h m fpw Hw). set_solver.
  - intros ->. apply map_eq. intros l.
    destruct (decide (l ∈ dom h)) as [Hin|Hout].
    + apply Hagree. set_solver.
    + rewrite (not_elem_of_dom_1 h l) by done.
      apply not_elem_of_dom. rewrite Hdom. set_solver.
Qed.

Lemma reset_releases_what_is_owned_witness :
  exists h',
    reset (S (depth sample_value)) sample_node sample_store = Some (tt, h')
    /\ dom h' = ∅.
Proof.
  destruct (reset_releases_what_is_owned sample_store sample_value sample_node
              sample_footprint sample_value_repr) as (h' & Hreset & Hdom & _).
  exists h'. split; [exact Hreset|].
  rewrite Hdom. apply (bool_decide_unpack _). vm_compute. exact I.
Defined.

(** ** Adding an element, on the store *)

(** A value placed in the slot after the live ones. *)
Lemma repr_values_snoc h vs :
  forall ns fps v vn fpv,
  repr_values h vs ns fps ->
  (length vs < length ns)%nat ->
  repr h v vn fpv ->
  fps ## fpv ->
  repr_values h (vs ++ [v]) (<[length vs := vn]> ns) (fps ∪ fpv).
Proof.
  induction vs as [|v' vs IH]; intros ns fps v vn fpv Hvs Hlen Hv Hdisj.
  - destruct ns as [|n ns]; [cbn in Hlen; lia|]. cbn in Hvs. subst fps.
    cbn. exists fpv, ∅. split; [set_solver|]. split; [set_solver|]. done.
  - destruct ns as [|n ns]; [done|]. cbn in Hvs |- *.
    destruct Hvs as (fp1 & fp2 & -> & Hd & H1 & H2).
    exists fp1, (fp2 ∪ fpv). split; [set_solver|]. split; [set_solver|].
    split; [done|]. apply IH; try done; [cbn in Hlen; lia|set_solver].
Qed.

(** [std::realloc] of a buffer of values to a larger one: the slots move
    to a buffer at a new address, followed by raw slots, and the old
    buffer is released. *)
Lemma realloc_values_moves h ptr capacity slots :
  match ptr with
  | Some p => h !! p = Some (b_values slots)
  | None => slots = []
  end ->
  (length slots <= capacity)%nat ->
  exists q h',
    realloc_values ptr capacity h = Some (q, h')
    /\ h' !! q = Some (b_values (slots ++ replicate (capacity - length slots) n_undefined))
    /\ (q ∉ dom h)
    /\ dom h' = {[q]} ∪ (dom h ∖ ptr_set ptr)
    /\ agree_on (dom h ∖ ptr_set ptr) h h'.
Proof.
  intros Hptr Hlen. destruct ptr as [p|]; cbn [realloc_values ptr_set].
  - destruct (malloc_spec (b_values (take capacity slots
                ++ replicate (capacity - length slots) n_undefined)) h)
      as (q & Hm & Hq & Ha).
    assert (p <> q) as Hpq by (intros ->; apply Hq, elem_of_dom; eauto).
    exists q, (delete p (<[q := b_values (take capacity slots
                 ++ replicate (capacity - length slots) n_undefined)]> h)).
    split.
    { unfold op_bind, load_values, load, op_bind, op_ret, free.
      rewrite Hptr, Hm. rewrite lookup_insert_ne by done. by rewrite Hptr. }
    split; [rewrite lookup_delete_ne by done; rewrite lookup_insert_eq;
            rewrite take_ge by lia; done|].
    split; [done|].
    split; [rewrite dom_delete_L, dom_insert_L; set_solver|].
    intros l Hl. rewrite lookup_delete_ne by set_solver.
    apply Ha. set_solver.
  - subst slots.
    destruct (malloc_spec (b_values (replicate capacity n_undefined)) h)
      as (q & Hm & Hq & Ha).
    exists q, (<[q := b_values (replicate capacity n_undefined)]> h).
    split; [exact Hm|].
    split; [rewrite lookup_insert_eq; cbn [length app]; rewrite Nat.sub_0_r; done|].
    split; [done|].
    split; [rewrite dom_insert_L; set_solver|].
    intros l Hl. apply Ha. set_solver.
Qed.

(** X22: [addArrayElement] on the store takes over the value moved in: the
    node left denotes the array with the value appended, as on the value
    layer, and owns what the array owned together with what the value
    owned.  With a spare slot no buffer is allocated or released.  Without
    one the elements move, as they are, to a new buffer of the next
    multiple of eight slots, and the old buffer is released; what the
    elements own is neither copied nor released.  No other live buffer
    changes. *)
Theorem addArrayElement_takes_ownership
  (h : store) (elements : list Value) (capacity : Z) (n : node) (fp : gset loc)
  (value : Value) (vn : node) (fpv : gset loc) (fuel : nat) :
  repr h (array elements capacity) n fp ->
  repr h value vn fpv ->
  fp ## fpv ->
  capacity + 8 < 2 ^ 32 ->
  let count := Z.of_nat (length elements) in
  let grown := and_not32 (wrap32 (capacity + 8)) 7 in
  let capacity' := if count <? capacity then capacity else grown in
  let old := match n with n_array ptr _ _ => ptr_set ptr | _ => ∅ end in
  Value_addArrayElement always_grants value (array elements capacity)
  = (array (elements ++ [value]) capacity', Ok tt)
  /\ exists n' h' fp',
       addArrayElement fuel vn n h = Some (n', h')
       /\ repr h' (array (elements ++ [value]) capacity') n' fp'
       /\ agree_on (dom h ∖ fp) h h'
       /\ (count < capacity -> fp' = fp ∪ fpv /\ dom h' = dom h)
       /\ (capacity <= count ->
           exists q, (q ∉ dom h)
                     /\ fp' = {[q]} ∪ (fp ∖ old) ∪ fpv
                     /\ dom h' = {[q]} ∪ (dom h ∖ old)).
Proof.
  intros Hrepr Hv Hdisj Hroom count grown capacity' old.
  destruct (grown_array_capacity capacity) as [Hgrown _].
  { apply repr_array_unfold in Hrepr as (ptr & _ & Hptr).
    destruct ptr as [p|]; [destruct Hptr as (? & ? & _ & <- & _)|
                           destruct Hptr as (_ & -> & _)]; lia. }
  { done. }
  fold grown in Hgrown.
  split.
  { rewrite addArrayElement_array by (fold grown; lia). fold count grown.
    subst capacity'. destruct (count <? capacity); reflexivity. }
  apply repr_array_unfold in Hrepr as (ptr & -> & Hptr). subst old.
  pose proof (repr_dom _ _ _ _ Hv) as Hfpvdom.
  unfold addArrayElement. cbn [ensureArray].
  unfold op_bind at 1. unfold op_ret at 1. unfold op_bind at 1. fold count.
  destruct (Z.leb_spec capacity count) as [Hfull|Hspare].
  - (* no spare slot: the buffer is reallocated *)
    assert (capacity' = grown) as Hcap'
      by (subst capacity'; destruct (Z.ltb_spec count capacity); [lia|done]).
    rewrite Hcap'.
    unfold reserveArray. cbn [ensureArray]. unfold op_bind at 1. unfold op_ret at 1.
    fold grown.
    destruct (Z.leb_spec grown capacity) as [|_]; [lia|].
    assert (exists slots inner,
              match ptr with
              | Some p => h !! p = Some (b_values slots)
              | None => slots = []
              end
              /\ Z.of_nat (length slots) = capacity
              /\ fp = ptr_set ptr ∪ inner
              /\ ptr_set ptr ## inner
              /\ repr_values h elements slots inner)
      as (slots & inner & Hblk & Hlen & -> & Hpin & Hvs).
    { destruct ptr as [p|].
      - destruct Hptr as (slots & inner & Hp & Hlen & Hpin & -> & Hvs).
        exists slots, inner. cbn [ptr_set]. repeat (split; [done || set_solver|]). done.
      - destruct Hptr as (-> & -> & ->). exists [], ∅. cbn [ptr_set].
        repeat (split; [done || set_solver|]). done. }
    pose proof (repr_values_length _ _ _ _ Hvs) as Hle.
    pose proof (repr_values_dom _ _ _ _ Hvs) as Hinnerdom.
    destruct (realloc_values_moves h ptr (Z.to_nat grown) slots Hblk ltac:(lia))
      as (q & h1 & Hre & Hq1 & Hqfresh & Hdom1 & Hagree1).
    unfold op_bind at 1. rewrite Hre. unfold op_ret at 1. unfold op_bind at 1.
    set (blk := slots ++ replicate (Z.to_nat grown - length slots) n_undefined) in *.
    assert (length blk = Z.to_nat grown) as Hblklen
      by (subst blk; rewrite length_app, length_replicate; lia).
    rewrite (write_value_spec h1 q blk _ vn Hq1) by lia.
    set (h' := <[q := b_values (<[Z.to_nat count := vn]> blk)]> h1).
    assert (agree_on (inner ∪ fpv) h h') as Hframe.
    { intros l Hl. subst h'. rewrite lookup_insert_ne by set_solver.
      apply Hagree1. set_solver. }
    exists (n_array (Some q) (wrap32 (count + 1)) grown), h',
           ({[q]} ∪ (inner ∪ fpv)).
    split; [reflexivity|]. split; [|split; [|split; [lia|]]].
    + apply repr_array_unfold. exists (Some q).
      rewrite wrap32_small by lia.
      split; [rewrite length_app; cbn [length]; f_equal; lia|].
      exists (<[Z.to_nat count := vn]> blk), (inner ∪ fpv).
      split; [subst h'; apply lookup_insert_eq|].
      split; [rewrite length_insert; lia|].
      split; [set_solver|]. split; [done|].
      subst count. rewrite Nat2Z.id.
      apply repr_values_snoc; [| lia | | set_solver].
      * subst blk. apply repr_values_app.
        eapply repr_values_frame; [|exact Hvs].
        eapply agree_on_subseteq; [|exact Hframe]. set_solver.
      * eapply repr_frame; [|exact Hv].
        eapply agree_on_subseteq; [|exact Hframe]. set_solver.
    + intros l Hl. subst h'. rewrite lookup_insert_ne by set_solver.
      apply Hagree1. set_solver.
    + intros _. exists q. split; [done|]. split.
      * apply set_eq. intros l. clear - Hpin Hdisj. set_solver.
      * subst h'. rewrite dom_insert_L, Hdom1. set_solver.
  - (* a spare slot *)
    assert (capacity' = capacity) as Hcap'
      by (subst capacity'; destruct (Z.ltb_spec count capacity); [done|lia]).
    rewrite Hcap'.
    destruct ptr as [p|]; [|destruct Hptr as (_ & -> & _); lia].
    destruct Hptr as (slots & inner & Hp & Hlen & Hpin & -> & Hvs).
    unfold op_ret at 1. unfold op_bind at 1.
    rewrite (write_value_spec h p slots _ vn Hp) by lia.
    set (h' := <[p := b_values (<[Z.to_nat count := vn]> slots)]> h).
    assert (p ∈ dom h) as Hpdom by (apply elem_of_dom; eauto).
    assert (agree_on (inner ∪ fpv) h h') as Hframe.
    { intros l Hl. subst h'. rewrite lookup_insert_ne by set_solver. done. }
    exists (n_array (Some p) (wrap32 (count + 1)) capacity), h',
           ({[p]} ∪ (inner ∪ fpv)).
    split; [reflexivity|]. split; [|split; [|split; [|lia]]].
    + apply repr_array_unfold. exists (Some p).
      rewrite wrap32_small by lia.
      split; [rewrite length_app; cbn [length]; f_equal; lia|].
      exists (<[Z.to_nat count := vn]> slots), (inner ∪ fpv).
      split; [subst h'; apply lookup_insert_eq|].
      split; [rewrite length_insert; lia|].
      split; [set_solver|]. split; [done|].
      subst count. rewrite Nat2Z.id.
      apply repr_values_snoc; [| lia | | set_solver].
      * eapply repr_values_frame; [|exact Hvs].
        eapply agree_on_subseteq; [|exact Hframe]. set_solver.
      * eapply repr_frame; [|exact Hv].
        eapply agree_on_subseteq; [|exact Hframe]. set_solver.
    + intros l Hl. subst h'. rewrite lookup_insert_ne by set_solver. done.
    + intros _. split; [set_solver|]. subst h'. rewrite dom_insert_L. set_solver.
Qed.

Lemma addArrayElement_takes_ownership_witness :
  exists n' h' fp',
    addArrayElement 1 (n_bool true) sample_node sample_store = Some (n', h')
    /\ repr h'
         (array [int32 1; longString "a string longer than twenty-two";
                 object [(ShortKey "flag", bool_ true)] 2; bool_ true] 4) n' fp'
    /\ dom h' = dom sample_store.
Proof.
  destruct (addArrayElement_takes_ownership sample_store _ _ _ _
              (bool_ true) (n_bool true) ∅ 1
              sample_value_repr ltac:(done) ltac:(set_solver)
              ltac:(vm_compute; reflexivity))
    as (_ & n' & h' & fp' & Hcall & Hrepr & _ & Hspare & _).
  exists n', h', fp'. split; [exact Hcall|]. split; [exact Hrepr|].
  apply Hspare. vm_compute. reflexivity.
Defined.

(** ** Setting a member, on the store *)

(** A member placed in the slot after the live ones. *)
Lemma repr_members_snoc h ms ns fps k kn fk v vn fv :
  repr_members h ms ns fps ->
  (length ms < length ns)%nat ->
  key_repr h k kn fk ->
  repr h v vn fv ->
  fps ## fk -> fps ## fv -> fk ## fv ->
  repr_members h (ms ++ [(k, v)]) (<[length ms := (kn, vn)]> ns) (fps ∪ (fk ∪ fv)).
Proof.
  intros Hms Hlen Hk Hv H1 H2 H3.
  rewrite insert_take_drop by done.
  replace (fps ∪ (fk ∪ fv)) with (fps ∪ (fk ∪ fv ∪ ∅)) by set_solver.
  apply repr_members_join.
  - by apply repr_members_take.
  - rewrite length_take. lia.
  - cbn. exists fk, fv, ∅. split; [done|].
    split; [done|]. split; [set_solver|]. split; [set_solver|]. done.
  - set_solver.
Qed.

Lemma realloc_members_moves h ptr capacity slots :
  match ptr with
  | Some p => h !! p = Some (b_members slots)
  | None => slots = []
  end ->
  (length slots <= capacity)%nat ->
  exists q h',
    realloc_members ptr capacity h = Some (q, h')
    /\ h' !! q = Some (b_members (slots ++ replicate (capacity - length slots)
                                             (k_short "", n_undefined)))
    /\ (q ∉ dom h)
    /\ dom h' = {[q]} ∪ (dom h ∖ ptr_set ptr)
    /\ agree_on (dom h ∖ ptr_set ptr) h h'.
Proof.
  intros Hptr Hlen. destruct ptr as [p|]; cbn [realloc_members ptr_set].
  - destruct (malloc_spec (b_members (take capacity slots
                ++ replicate (capacity - length slots) (k_short "", n_undefined))) h)
      as (q & Hm & Hq & Ha).
    assert (p <> q) as Hpq by (intros ->; apply Hq, elem_of_dom; eauto).
    exists q, (delete p (<[q := b_members (take capacity slots
                 ++ replicate (capacity - length slots) (k_short "", n_undefined))]> h)).
    split.
    { unfold op_bind, load_members, load, op_bind, op_ret, free.
      rewrite Hptr, Hm. rewrite lookup_insert_ne by done. by rewrite Hptr. }
    split; [rewrite lookup_delete_ne by done; rewrite lookup_insert_eq;
            rewrite take_ge by lia; done|].
    split; [done|].
    split; [rewrite dom_delete_L, dom_insert_L; set_solver|].
    intros l Hl. rewrite lookup_delete_ne by set_solver.
    apply Ha. set_solver.
  - subst slots.
    destruct (malloc_spec (b_members (replicate capacity (k_short "", n_undefined))) h)
      as (q & Hm & Hq & Ha).
    exists q, (<[q := b_members (replicate capacity (k_short "", n_undefined))]> h).
    split; [exact Hm|].
    split; [rewrite lookup_insert_eq; cbn [length app]; rewrite Nat.sub_0_r; done|].
    split; [done|].
    split; [rewrite dom_insert_L; set_solver|].
    intros l Hl. apply Ha. set_solver.
Qed.

(** Overwriting: the value of a member that is there is released and the
    new value takes its place. *)
Lemma setObjectMember_overwrites fuel key h members capacity n fp value vn fpv :
  repr h (object members capacity) n fp ->
  repr h value vn fpv ->
  fp ## fpv ->
  (depth (object members capacity) <= fuel)%nat ->
  key ∈ key_names members ->
  exists i k oldValue oldNode released h',
    members !! i = Some (k, oldValue)
    /\ MemberKey_get k = key
    /\ repr h oldValue oldNode released
    /\ released ⊆ fp
    /\ set_member key value members = <[i := (k, value)]> members
    /\ setObjectMember fuel key vn n h = Some (n, h')
    /\ repr h' (object (<[i := (k, value)]> members) capacity) n
         (fp ∖ released ∪ fpv)
    /\ dom h' = dom h ∖ released
    /\ agree_on (dom h ∖ fp) h h'.
Proof.
  intros Hrepr Hv Hdisj Hfuel Hin.
  pose proof (findObjectMember_spec h members capacity n fp key Hrepr) as Hfind.
  pose proof (find_from_range key members 0) as Hrange.
  pose proof (repr_dom _ _ _ _ Hv) as Hfpvdom.
  apply repr_object_unfold in Hrepr as (ptr & -> & Hptr).
  assert (find_from key members 0 < Z.of_nat (length members)) as Hlt.
  { destruct (decide (find_from key members 0 = Z.of_nat (length members)))
      as [Heq|]; [|lia].
    apply find_from_absent in Heq. done. }
  destruct (find_from_found key members Hlt) as (gap & Hgap & Hname & _).
  set (i := Z.to_nat (find_from key members 0)) in *.
  destruct ptr as [p|]; [|destruct Hptr as (-> & _); cbn in Hlt; lia].
  destruct Hptr as (slots & inner & Hp & Hlen & Hpin & -> & Hms).
  pose proof (take_drop_middle members i gap Hgap) as Hsplit.
  set (before := take i members) in *. set (rest := drop (S i) members) in *.
  assert (length before = i) as Hbefore by (subst before; rewrite length_take; lia).
  rewrite <- Hsplit in Hms.
  destruct (repr_members_split h before gap rest slots inner Hms)
    as (sb & sg & sr & extra & fb & fk & fv & fr & -> & Hlb & Hlr & -> &
        Hd1 & Hd2 & Hd3 & Hd4 & Hd5 & Hd6 & Hb & Hgk & Hgv & Hr).
  destruct gap as [k oldValue]. cbn [fst snd] in *.
  assert (depth oldValue < fuel)%nat as Hdepth.
  { assert ((k, oldValue) ∈ members) as Hmem by (apply list_elem_of_lookup; eauto).
    clear - Hfuel Hmem. apply Nat.lt_succ_r in Hfuel.
    apply depth_object_members in Hfuel. rewrite Forall_forall in Hfuel.
    exact (Hfuel (k, oldValue) Hmem). }
  destruct (reset_releases oldValue fuel Hdepth h (snd sg) fv Hgv)
    as (h1 & Hreset & Hdom1 & Hagree1).
  assert (p ∈ dom h) as Hpdom by (apply elem_of_dom; eauto).
  pose proof (repr_members_dom _ _ _ _ Hb) as Hfbdom.
  pose proof (repr_members_dom _ _ _ _ Hr) as Hfrdom.
  pose proof (key_repr_dom _ _ _ _ Hgk) as Hfkdom.
  pose proof (repr_dom _ _ _ _ Hgv) as Hfvdom.
  assert (h1 !! p = Some (b_members (sb ++ sg :: sr ++ extra))) as Hp1.
  { rewrite Hagree1; [done|]. clear - Hpdom Hpin. set_solver. }
  set (slots' := <[i := (fst sg, vn)]> (sb ++ sg :: sr ++ extra)).
  set (h' := <[p := b_members slots']> h1).
  assert (slots' = sb ++ (fst sg, vn) :: sr ++ extra) as Hslots'.
  { subst slots'. rewrite <- Hbefore, <- Hlb.
    rewrite (insert_app_r_alt sb) by lia. rewrite Nat.sub_diag. reflexivity. }
  assert (<[i := (k, value)]> members = before ++ (k, value) :: rest) as Hmembers'.
  { rewrite <- Hsplit, <- Hbefore.
    rewrite (insert_app_r_alt before) by lia. rewrite Nat.sub_diag. reflexivity. }
  exists i, k, oldValue, (snd sg), fv, h'.
  split; [done|]. split; [done|]. split; [done|].
  split; [clear; set_solver|].
  split.
  { unfold set_member. fold i.
    destruct (Z.ltb_spec (find_from key members 0) (Z.of_nat (length members))); [|lia].
    rewrite Hmembers', <- Hsplit, <- Hbefore.
    rewrite (alter_app_r_alt _ before) by lia. rewrite Nat.sub_diag. reflexivity. }
  assert (agree_on (fb ∪ fk ∪ fr ∪ fpv) h h') as Hframe.
  { intros l Hl. subst h'.
    rewrite lookup_insert_ne by (clear - Hl Hpin Hdisj; set_solver).
    apply Hagree1. clear - Hl Hd2 Hd4 Hd6 Hdisj Hfbdom Hfkdom Hfrdom Hfpvdom.
    set_solver. }
  split; [|split; [|split]].
  - unfold setObjectMember. cbn [ensureObject].
    unfold op_bind at 1. unfold op_ret at 1. unfold op_bind at 1.
    rewrite Hfind.
    destruct (Z.ltb_spec (find_from key members 0) (Z.of_nat (length members))); [|lia].
    fold i. unfold op_bind at 1.
    rewrite (read_member_spec h p _ i sg Hp).
    2:{ rewrite <- Hbefore, <- Hlb. rewrite lookup_app_r by lia.
        rewrite Nat.sub_diag. done. }
    unfold op_bind at 1. rewrite Hreset. unfold op_bind at 1.
    rewrite (write_member_spec h1 p _ i _ Hp1).
    2:{ rewrite length_app. cbn [length]. lia. }
    reflexivity.
  - rewrite Hmembers'. apply repr_object_unfold. exists (Some p).
    split; [f_equal; rewrite <- Hsplit, !length_app; cbn [length]; lia|].
    exists slots', (fb ∪ (fk ∪ fpv ∪ fr)).
    split; [subst h'; apply lookup_insert_eq|].
    split; [subst slots'; rewrite length_insert; done|].
    split; [clear - Hpin Hdisj; set_solver|].
    split; [apply set_eq; intros l;
            clear - Hpin Hdisj Hd1 Hd2 Hd3 Hd4 Hd5 Hd6; set_solver|].
    rewrite Hslots'. apply repr_members_join; [| done | |].
    + eapply repr_members_frame; [|exact Hb].
      eapply agree_on_subseteq; [|exact Hframe]. clear; set_solver.
    + cbn. exists fk, fpv, fr. split; [done|].
      split; [clear - Hdisj; set_solver|]. split; [done|].
      split; [clear - Hdisj; set_solver|].
      split; [eapply key_repr_frame; [|exact Hgk];
              eapply agree_on_subseteq; [|exact Hframe]; clear; set_solver|].
      split; [eapply repr_frame; [|exact Hv];
              eapply agree_on_subseteq; [|exact Hframe]; clear; set_solver|].
      apply repr_members_app.
      eapply repr_members_frame; [|exact Hr].
      eapply agree_on_subseteq; [|exact Hframe]. clear; set_solver.
    + clear - Hd1 Hd3 Hdisj. set_solver.
  - subst h'. rewrite dom_insert_L, Hdom1.
    clear - Hpdom Hpin. set_solver.
  - intros l Hl. subst h'.
    rewrite lookup_insert_ne by (clear - Hl; set_solver).
    apply Hagree1. clear - Hl. set_solver.
Qed.

(** Appending: a key is built for the name, and the key and the value go
    into the slot after the live ones, in the buffer there is or in a
    larger one the members are moved to. *)
Lemma setObjectMember_appends fuel key h members capacity n fp value vn fpv :
  repr h (object members capacity) n fp ->
  repr h value vn fpv ->
  fp ## fpv ->
  capacity + 4 < 2 ^ 32 ->
  key ∉ key_names members ->
  let count := Z.of_nat (length members) in
  let grown := and_not32 (wrap32 (count + 4)) 3 in
  let capacity' := if count <? capacity then capacity else grown in
  let old := match n with n_object ptr _ _ => ptr_set ptr | _ => ∅ end in
  exists n' h' fp' fk,
    setObjectMember fuel key vn n h = Some (n', h')
    /\ repr h' (object (members ++ [(MemberKey_of key, value)]) capacity') n' fp'
    /\ agree_on (dom h ∖ fp) h h'
    /\ (count < capacity ->
        fk ## dom h /\ fp' = fp ∪ fk ∪ fpv /\ dom h' = dom h ∪ fk)
    /\ (capacity <= count ->
        exists q,
          (q ∉ dom h) /\ (q ∉ fk) /\ fk ## dom h ∖ old
          /\ fp' = {[q]} ∪ (fp ∖ old) ∪ fk ∪ fpv
          /\ dom h' = {[q]} ∪ (dom h ∖ old) ∪ fk).
Proof.
  intros Hrepr Hv Hdisj Hroom Habsent count grown capacity' old.
  pose proof (findObjectMember_spec h members capacity n fp key Hrepr) as Hfind.
  pose proof (repr_dom _ _ _ _ Hv) as Hfpvdom.
  apply find_from_absent in Habsent.
  apply repr_object_unfold in Hrepr as (ptr & -> & Hptr). subst old.
  assert (exists slots inner,
            match ptr with
            | Some p => h !! p = Some (b_members slots)
            | None => slots = []
            end
            /\ Z.of_nat (length slots) = capacity
            /\ fp = ptr_set ptr ∪ inner
            /\ ptr_set ptr ## inner
            /\ ptr_set ptr ⊆ dom h
            /\ repr_members h members slots inner)
    as (slots & inner & Hblk & Hlen & -> & Hpin & Hpdom & Hms).
  { destruct ptr as [p|].
    - destruct Hptr as (slots & inner & Hp & Hlen & Hpin & -> & Hms).
      exists slots, inner. cbn [ptr_set].
      assert (p ∈ dom h) by (apply elem_of_dom; eauto).
      repeat (split; [done || set_solver|]). done.
    - destruct Hptr as (-> & -> & ->). exists [], ∅. cbn [ptr_set].
      repeat (split; [done || set_solver|]). done. }
  pose proof (repr_members_length _ _ _ _ Hms) as Hle.
  pose proof (repr_members_dom _ _ _ _ Hms) as Hinnerdom.
  destruct (object_capacity_class count) as [Hclass Hbound]; [lia|lia|].
  fold grown in Hclass.
  (* the buffer the new member goes into *)
  assert (exists q slots1 h1,
            (if capacity <=? count
             then reserveObject fuel grown (n_object ptr count capacity)
             else op_ret (n_object ptr count capacity)) h
            = Some (n_object (Some q) count capacity', h1)
            /\ h1 !! q = Some (b_members slots1)
            /\ Z.of_nat (length slots1) = capacity'
            /\ count < capacity'
            /\ (q ∉ inner ∪ fpv)
            /\ agree_on (dom h ∖ ptr_set ptr) h h1
            /\ repr_members h1 members slots1 inner
            /\ (count < capacity -> ptr = Some q /\ h1 = h)
            /\ (capacity <= count ->
                (q ∉ dom h) /\ dom h1 = {[q]} ∪ (dom h ∖ ptr_set ptr)))
    as (q & slots1 & h1 & Hbuffer & Hq1 & Hlen1 & Hspare1 & Hqout & Hagree1 & Hms1 &
        Hcase_spare & Hcase_full).
  { subst capacity'. destruct (Z.leb_spec capacity count) as [Hfull|Hspare].
    - destruct (Z.ltb_spec count capacity); [lia|].
      unfold reserveObject. cbn [ensureObject]. unfold op_bind at 1. unfold op_ret at 1.
      destruct (Z.leb_spec grown capacity) as [|_]; [lia|].
      destruct (realloc_members_moves h ptr (Z.to_nat grown) slots Hblk ltac:(lia))
        as (q & h1 & Hre & Hq1 & Hqfresh & Hdom1 & Hagree1).
      exists q, (slots ++ replicate (Z.to_nat grown - length slots)
                          (k_short "", n_undefined)), h1.
      split; [unfold op_bind; rewrite Hre; reflexivity|].
      split; [done|].
      split; [rewrite length_app, length_replicate; lia|].
      split; [lia|]. split; [set_solver|]. split; [done|].
      split; [|split; [lia|done]].
      apply repr_members_app. eapply repr_members_frame; [|exact Hms].
      eapply agree_on_subseteq; [|exact Hagree1]. set_solver.
    - destruct (Z.ltb_spec count capacity); [|lia].
      destruct ptr as [p|]; [|subst slots; cbn in Hlen; lia].
      exists p, slots, h. cbn [ptr_set] in *.
      split; [reflexivity|]. split; [done|]. split; [done|]. split; [done|].
      split; [set_solver|]. split; [apply agree_on_refl|].
      split; [done|]. split; [done|lia]. }
  destruct (key_construct_spec key h1)
    as (kn & h2 & fk & Hkey & Hagree2 & Hfresh2 & Hdom2 & Hkrepr).
  assert (q ∈ dom h1) as Hqdom1 by (apply elem_of_dom; eauto).
  assert (h2 !! q = Some (b_members slots1)) as Hq2 by (rewrite Hagree2; done).
  set (h' := <[q := b_members (<[Z.to_nat count := (kn, vn)]> slots1)]> h2).
  assert (inner ∪ fpv ⊆ dom h1) as Hlive1.
  { pose proof (repr_members_dom _ _ _ _ Hms1).
    assert (fpv ⊆ dom h1); [|set_solver].
    intros l Hl. apply elem_of_dom. rewrite Hagree1 by set_solver.
    apply elem_of_dom. set_solver. }
  assert (agree_on (inner ∪ fpv) h1 h') as Hframe.
  { intros l Hl. subst h'. rewrite lookup_insert_ne by set_solver.
    apply Hagree2. set_solver. }
  assert (agree_on fk h2 h') as Hframek.
  { intros l Hl. subst h'. rewrite lookup_insert_ne; [done|]. set_solver. }
  exists (n_object (Some q) (wrap32 (count + 1)) capacity'), h',
         ({[q]} ∪ (inner ∪ (fk ∪ fpv))), fk.
  split; [|split; [|split; [|split]]].
  - unfold setObjectMember. cbn [ensureObject].
    unfold op_bind at 1. unfold op_ret at 1. unfold op_bind at 1.
    rewrite Hfind, Habsent. fold count.
    destruct (Z.ltb_spec count count); [lia|].
    unfold op_bind at 1. fold grown. rewrite Hbuffer.
    unfold op_bind at 1. rewrite Hkey. unfold op_bind at 1.
    rewrite (write_member_spec h2 q slots1 _ _ Hq2) by lia.
    reflexivity.
  - apply repr_object_unfold. exists (Some q).
    rewrite wrap32_small by lia.
    split; [rewrite length_app; cbn [length]; f_equal; lia|].
    exists (<[Z.to_nat count := (kn, vn)]> slots1), (inner ∪ (fk ∪ fpv)).
    split; [subst h'; apply lookup_insert_eq|].
    split; [rewrite length_insert; done|].
    split; [set_solver|]. split; [done|].
    subst count. rewrite Nat2Z.id.
    apply repr_members_snoc; try (clear - Hfresh2 Hlive1 Hdisj; set_solver); [| lia | |].
    + eapply repr_members_frame; [|exact Hms1].
      eapply agree_on_subseteq; [|exact Hframe]. set_solver.
    + eapply key_repr_frame; [exact Hframek|exact Hkrepr].
    + eapply repr_frame; [|eapply repr_frame; [|exact Hv]].
      * eapply agree_on_subseteq; [|exact Hframe]. set_solver.
      * eapply agree_on_subseteq; [|exact Hagree1]. set_solver.
  - intros l Hl. subst h'.
    assert (l ∈ dom h1) as Hl1.
    { apply elem_of_dom. rewrite Hagree1 by set_solver. apply elem_of_dom. set_solver. }
    rewrite lookup_insert_ne.
    + rewrite Hagree2 by done. apply Hagree1. set_solver.
    + intros <-. destruct (Z.leb_spec capacity count) as [Hfull|Hspare].
      * destruct (Hcase_full Hfull) as [Hqfresh _]. set_solver.
      * destruct (Hcase_spare Hspare) as [-> _]. cbn [ptr_set] in Hl. set_solver.
  - intros Hspare. destruct (Hcase_spare Hspare) as [-> ->]. cbn [ptr_set] in *.
    split; [done|]. split; [set_solver|].
    subst h'. rewrite dom_insert_L, Hdom2. set_solver.
  - intros Hfull. destruct (Hcase_full Hfull) as [Hqfresh Hdom1].
    exists q. split; [done|]. split; [set_solver|].
    split; [rewrite Hdom1 in Hfresh2; set_solver|].
    split.
    + apply set_eq. intros l. clear - Hpin Hdisj. set_solver.
    + subst h'. rewrite dom_insert_L, Hdom2, Hdom1. set_solver.
Qed.

(** X23: [setObjectMember] on the store takes over the value moved in, and
    the node left denotes the object that [setObjectMember] leaves on the
    value layer.  When a member has the name, its old value is released,
    every buffer of it and nothing else, and the new value takes its place
    in the same slot; the key is kept.  When no member has the name, a key
    is built, in a buffer of its own if the name is long, and the member
    goes into the slot after the live ones: with a spare slot no buffer is
    released, and without one the members move, as they are, to a new
    buffer of the next multiple of four slots and the old buffer is
    released.  No live buffer outside the object and the value changes. *)
Theorem setObjectMember_takes_ownership
  (h : store) (members : list Member) (capacity : Z) (n : node) (fp : gset loc)
  (key : string) (value : Value) (vn : node) (fpv : gset loc) (fuel : nat) :
  repr h (object members capacity) n fp ->
  repr h value vn fpv ->
  fp ## fpv ->
  capacity + 4 < 2 ^ 32 ->
  (depth (object members capacity) <= fuel)%nat ->
  let count := Z.of_nat (length members) in
  let grown := and_not32 (wrap32 (count + 4)) 3 in
  let capacity' :=
    if bool_decide (key ∈ key_names members) then capacity
    else if count <? capacity then capacity else grown in
  let old := match n with n_object ptr _ _ => ptr_set ptr | _ => ∅ end in
  Value_setObjectMember always_grants key value (object members capacity)
  = (object (set_member key value members) capacity', Ok tt)
  /\ exists n' h' fp',
       setObjectMember fuel key vn n h = Some (n', h')
       /\ repr h' (object (set_member key value members) capacity') n' fp'
       /\ agree_on (dom h ∖ fp) h h'
       /\ (key ∈ key_names members ->
           exists i k oldValue oldNode released,
             members !! i = Some (k, oldValue)
             /\ MemberKey_get k = key
             /\ repr h oldValue oldNode released
             /\ released ⊆ fp
             /\ n' = n
             /\ fp' = fp ∖ released ∪ fpv
             /\ dom h' = dom h ∖ released)
       /\ (key ∉ key_names members ->
           exists fk,
             (count < capacity ->
              fk ## dom h /\ fp' = fp ∪ fk ∪ fpv /\ dom h' = dom h ∪ fk)
             /\ (capacity <= count ->
                 exists q,
                   (q ∉ dom h) /\ (q ∉ fk) /\ fk ## dom h ∖ old
                   /\ fp' = {[q]} ∪ (fp ∖ old) ∪ fk ∪ fpv
                   /\ dom h' = {[q]} ∪ (dom h ∖ old) ∪ fk)).
Proof.
  intros Hrepr Hv Hdisj Hroom Hfuel count grown capacity' old.
  assert (count <= capacity) as Hcount.
  { apply repr_object_unfold in Hrepr as (ptr & _ & Hptr).
    destruct ptr as [p|].
    - destruct Hptr as (slots & inner & _ & <- & _ & _ & Hms).
      apply repr_members_length in Hms. lia.
    - destruct Hptr as (-> & -> & _). subst count. cbn. lia. }
  destruct (object_capacity_class count) as [Hclass _]; [lia|lia|].
  fold grown in Hclass.
  split.
  { rewrite setObjectMember_spec by (fold count; lia). fold count.
    rewrite <- Hclass. subst capacity'.
    case_bool_decide; [reflexivity|].
    destruct (Z.leb_spec capacity count), (Z.ltb_spec count capacity);
      try lia; reflexivity. }
  destruct (decide (key ∈ key_names members)) as [Hin|Hout].
  - destruct (setObjectMember_overwrites fuel key h members capacity n fp value vn fpv
                Hrepr Hv Hdisj Hfuel Hin)
      as (i & k & oldValue & oldNode & released & h' & Hi & Hname & Hold & Hsub &
          Hset & Hcall & Hrepr' & Hdom' & Hagree').
    exists n, h', (fp ∖ released ∪ fpv).
    subst capacity'. rewrite bool_decide_eq_true_2 by done. rewrite Hset.
    split; [done|]. split; [done|]. split; [done|]. split; [|done].
    intros _. exists i, k, oldValue, oldNode, released. done.
  - destruct (setObjectMember_appends fuel key h members capacity n fp value vn fpv
                Hrepr Hv Hdisj Hroom Hout)
      as (n' & h' & fp' & fk & Hcall & Hrepr' & Hagree' & Hspare & Hfull).
    exists n', h', fp'.
    subst capacity'. rewrite bool_decide_eq_false_2 by done.
    rewrite (proj2 (set_member_absent key value members Hout)).
    split; [done|]. split; [done|]. split; [done|]. split; [done|].
    intros _. exists fk. split; [exact Hspare|exact Hfull].
Qed.

Lemma setObjectMember_takes_ownership_witness :
  exists n' h' fp',
    setObjectMember 2 "a member name longer than 23" (n_bool true)
      sample_object_node sample_object_store
    = Some (n', h')
    /\ repr h'
         (object [(LongKey "a member name longer than 23", bool_ true)] 1) n' fp'
    /\ dom h' = {[0%nat; 1%nat]}.
Proof.
  destruct (setObjectMember_takes_ownership sample_object_store _ _ _ _
              "a member name longer than 23" (bool_ true) (n_bool true) ∅ 2
              sample_object_repr ltac:(done) ltac:(set_solver)
              ltac:(vm_compute; reflexivity) ltac:(vm_compute; lia))
    as (_ & n' & h' & fp' & Hcall & Hrepr & _ & Hover & _).
  exists n', h', fp'. split; [exact Hcall|]. split; [exact Hrepr|].
  destruct Hover as (i & k & oldValue & oldNode & released & Hi & _ & Hold & _ & _ & _ &
                     Hdom); [decide_by_computation|].
  destruct i as [|i]; [|cbn in Hi; done].
  injection Hi as <- <-. destruct Hold as (p & _ & Hp & ->).
  rewrite Hdom.
  assert (p = 2%nat) as ->.
  { destruct (decide (p = 2%nat)) as [|Hne]; [done|].
    destruct (decide (p = 0%nat)) as [->|]; [vm_compute in Hp; done|].
    destruct (decide (p = 1%nat)) as [->|]; [vm_compute in Hp; done|].
    unfold sample_object_store in Hp.
    rewrite !lookup_insert_ne, lookup_singleton_ne in Hp by done. done. }
  apply (bool_decide_unpack _). vm_compute. exact I.
Defined.
